(** * Icon rasteriser of the M5Dial remote controller

    A shallow embedding of [tools/generate_menu_icons.py] (the [Color] and
    [Canvas] classes, [blend_over]) and of [tools/generate_circular_icons.py]
    (the RGB565 helpers, the 4x4 sampler, the coverage functions and the icon
    composer), followed by the properties of the specification.

    Python [int] is [Z].  Python [float] is IEEE-754 binary64, taken from the
    executable specification [SpecFloat] of the standard library at precision
    53 and maximal exponent 1024, so every float expression below evaluates
    to the bits CPython computes.  Exceptions are values of [result]. *)

From Stdlib Require Import String.
From Stdlib Require Import ZArith List Lia Bool QArith Qround Reals Lra.
From Stdlib Require Import Floats.SpecFloat.
Import ListNotations.

Local Open Scope Z_scope.

(** ** Exceptions *)

Inductive exn : Type :=
| OverflowError
| ZeroDivisionError
| ValueError
| IndexError.

Inductive result (A : Type) : Type :=
| Ok (a : A)
| Raise (e : exn).

Arguments Ok {A} a.
Arguments Raise {A} e.

Definition bind {A B : Type} (m : result A) (k : A -> result B) : result B :=
  match m with
  | Ok a => k a
  | Raise e => Raise e
  end.

Notation "x <- m ;; k" := (bind m (fun x => k))
  (at level 61, m at next level, right associativity).

Definition is_ok {A : Type} (m : result A) : Prop :=
  exists a, m = Ok a.

(** A loop over a list that threads a state and stops at the first
    exception. *)
Fixpoint foldM {A S : Type} (f : S -> A -> result S) (l : list A) (s : S)
  : result S :=
  match l with
  | [] => Ok s
  | a :: t => s' <- f s a ;; foldM f t s'
  end.

(** ** Bounded quantification by evaluation *)

Definition Zrange (n : nat) : list Z := map Z.of_nat (seq 0 n).

(** [range(n)]. *)
Definition range (n : Z) : list Z := Zrange (Z.to_nat n).

(** ** Color (generate_menu_icons.py) *)

Record Color : Type := mkColor { r : Z; g : Z; b : Z }.

Definition clamp (c : Color) : Color :=
  mkColor (Z.max 0 (Z.min 255 (r c)))
          (Z.max 0 (Z.min 255 (g c)))
          (Z.max 0 (Z.min 255 (b c))).

Definition to_rgb565 (self : Color) : Z :=
  let c := clamp self in
  let r5 := (r c * 31 + 127) / 255 in
  let g6 := (g c * 63 + 127) / 255 in
  let b5 := (b c * 31 + 127) / 255 in
  Z.lor (Z.lor (Z.shiftl r5 11) (Z.shiftl g6 5)) b5.

(** A colour whose channels are 8-bit intensities. *)
Definition chan8 (v : Z) : Prop := 0 <= v <= 255.

Definition color8 (c : Color) : Prop :=
  chan8 (r c) /\ chan8 (g c) /\ chan8 (b c).

(** The three bit fields of a packed colour: bits 15..11, 10..5 and 4..0,
    as [rgb565_to_rgb] isolates them before widening. *)
Definition field_r (p : Z) : Z := Z.land (Z.shiftr p 11) 31.
Definition field_g (p : Z) : Z := Z.land (Z.shiftr p 5) 63.
Definition field_b (p : Z) : Z := Z.land p 31.

Definition pack_fields (r5 g6 b5 : Z) : Z :=
  Z.lor (Z.lor (Z.shiftl r5 11) (Z.shiftl g6 5)) b5.

(** The rounding of the specification, [round(channel * maxBits / 255)],
    over the rationals. *)
Definition spec_round (q : Q) : Z := Qfloor (Qplus q (Qmake 1 2)).

Definition spec_field (channel maxBits : Z) : Z :=
  spec_round (Qdiv (inject_Z (channel * maxBits)) (inject_Z 255)).

(** * Python floats: IEEE-754 binary64 *)

Module B64.

Definition prec : Z := 53.
Definition emax : Z := 1024.

Definition float : Type := spec_float.

Definition add : float -> float -> float := SFadd prec emax.
Definition sub : float -> float -> float := SFsub prec emax.
Definition mul : float -> float -> float := SFmul prec emax.
Definition fabs : float -> float := SFabs.
Definition ltb : float -> float -> bool := SFltb.
Definition leb : float -> float -> bool := SFleb.

(** [binary_normalize m e] is [m * 2^e] rounded to nearest, ties to even. *)
Definition of_Z : Z -> float := fun z => binary_normalize prec emax z 0 false.

Definition is_finite (x : float) : bool :=
  match x with
  | S754_zero _ | S754_finite _ _ _ => true
  | _ => false
  end.

Definition is_zero (x : float) : bool :=
  match x with
  | S754_zero _ => true
  | _ => false
  end.

(** A literal [n/d] with [n] and [d] below [2^53] is the correctly rounded
    quotient, which is how the decimal literals of the source are read. *)
Definition lit (n : Z) (d : positive) : float :=
  SFdiv prec emax (of_Z n) (of_Z (Zpos d)).

Definition zero : float := S754_zero false.
Definition one : float := of_Z 1.

(** [float(i)] for an int [i]: OverflowError when [i] rounds beyond the
    largest double. *)
Definition of_int (i : Z) : result float :=
  match of_Z i with
  | S754_infinity _ => Raise OverflowError
  | x => Ok x
  end.

(** [int(x)]: truncation towards zero. *)
Definition to_int (x : float) : result Z :=
  match x with
  | S754_nan => Raise ValueError
  | S754_infinity _ => Raise OverflowError
  | S754_zero _ => Ok 0
  | S754_finite s m e =>
      let a := match e with
               | Zneg p => Zpos m / 2 ^ Zpos p
               | _ => Zpos m * 2 ^ e
               end in
      Ok (if s then - a else a)
  end.

(** [x / y] on floats. *)
Definition truediv (x y : float) : result float :=
  if is_zero y then Raise ZeroDivisionError else Ok (SFdiv prec emax x y).

(** [math.sqrt]. *)
Definition sqrt (x : float) : result float :=
  match x with
  | S754_finite true _ _ | S754_infinity true => Raise ValueError
  | _ => Ok (SFsqrt prec emax x)
  end.

(** The C library's [pow(v, 2.0)] for a positive finite [v = m * 2^e].  The
    library is not required to round correctly, and does not on every
    input; it is taken to be faithful: an exact square that is a double is
    returned as it is, and otherwise the result is one of the two doubles
    around the exact square, [q * 2^E] below and [(q + 1) * 2^E] above;
    [pow_up v] says which one the platform returns. *)
Definition libm_square (pow_up : float -> bool) (v : float) (m : positive)
  (e : Z) : float :=
  let mm := Zpos m * Zpos m in
  let E := Z.max (e + e) (fexp prec emax (Zdigits2 mm + (e + e))) in
  let q := mm / 2 ^ (E - (e + e)) in
  let exact := mm mod 2 ^ (E - (e + e)) =? 0 in
  let mr := if exact then q else if pow_up v then q + 1 else q in
  binary_normalize prec emax mr E false.

(** [x ** 2] ([float_pow] of CPython with the exponent [2.0]): not-a-number
    stays, an infinity gives [inf], a zero gives [0.0]; any other operand is
    made positive and handed to the library's [pow] (CPython returns 1.0 for
    the operands 1.0 and -1.0 without the call, which is their exact
    square); an infinite result raises OverflowError, a result that
    underflows does not. *)
Definition pow2 (pow_up : float -> bool) (x : float) : result float :=
  match x with
  | S754_nan => Ok S754_nan
  | S754_infinity _ => Ok (S754_infinity false)
  | S754_zero _ => Ok (S754_zero false)
  | S754_finite _ m e =>
      match libm_square pow_up (S754_finite false m e) m e with
      | S754_infinity _ => Raise OverflowError
      | y => Ok y
      end
  end.

(** The builtins [max(a, b)] and [min(a, b)]: the first argument is kept
    unless the second compares strictly greater (smaller). *)
Definition py_max (a b : float) : float := if ltb a b then b else a.
Definition py_min (a b : float) : float := if ltb b a then b else a.

(** C [fmod]: the exact remainder, with the sign of the dividend. *)
Definition fmod (x y : float) : float :=
  match x, y with
  | S754_nan, _ | _, S754_nan => S754_nan
  | S754_infinity _, _ => S754_nan
  | _, S754_zero _ => S754_nan
  | S754_zero _, _ => x
  | S754_finite _ _ _, S754_infinity _ => x
  | S754_finite sx mx ex, S754_finite _ my ey =>
      let e := Z.min ex ey in
      let n := (Zpos mx * 2 ^ (ex - e)) mod (Zpos my * 2 ^ (ey - e)) in
      binary_normalize prec emax (cond_Zopp sx n) e sx
  end.

(** [x % y] on floats ([float_rem] of CPython): the sign of the divisor. *)
Definition py_mod (x y : float) : result float :=
  if is_zero y then Raise ZeroDivisionError
  else
    let m := fmod x y in
    if is_zero m then Ok (S754_zero (ltb y zero))
    else if negb (Bool.eqb (ltb y zero) (ltb m zero)) then Ok (add m y)
    else Ok m.

End B64.

Import B64.

(** * Python lists indexed by an int *)

Fixpoint update {A : Type} (l : list A) (k : nat) (a : A) : list A :=
  match l, k with
  | [], _ => []
  | _ :: t, O => a :: t
  | x :: t, S k' => x :: update t k' a
  end.

(** A negative index counts from the end; anything else out of range is an
    IndexError. *)
Definition norm_index {A : Type} (l : list A) (i : Z) : result nat :=
  let n := Z.of_nat (length l) in
  let j := if i <? 0 then i + n else i in
  if (0 <=? j) && (j <? n) then Ok (Z.to_nat j) else Raise IndexError.

Definition list_get {A : Type} (l : list A) (i : Z) : result A :=
  k <- norm_index l i ;;
  match nth_error l k with
  | Some a => Ok a
  | None => Raise IndexError
  end.

Definition list_set {A : Type} (l : list A) (i : Z) (a : A) : result (list A) :=
  k <- norm_index l i ;; Ok (update l k a).

(** * Blending and the canvas (generate_menu_icons.py) *)

Definition lerp_chan (s o : Z) (t : float) : result Z :=
  fd <- of_int (o - s) ;;
  fs <- of_int s ;;
  to_int (add fs (mul fd t)).

Definition lerp (self other : Color) (t : float) : result Color :=
  let t := py_max zero (py_min one t) in
  r' <- lerp_chan (r self) (r other) t ;;
  g' <- lerp_chan (g self) (g other) t ;;
  b' <- lerp_chan (b self) (b other) t ;;
  Ok (mkColor r' g' b').

Definition blend_chan (d s : Z) (inv a : float) : result Z :=
  fd <- of_int d ;;
  fs <- of_int s ;;
  to_int (add (mul fd inv) (mul fs a)).

Definition blend_over (dst src : Color) (alpha : float) : result Color :=
  let a := py_max zero (py_min one alpha) in
  let inv := sub one a in
  r' <- blend_chan (r dst) (r src) inv a ;;
  g' <- blend_chan (g dst) (g src) inv a ;;
  b' <- blend_chan (b dst) (b src) inv a ;;
  Ok (mkColor r' g' b').

Record Canvas : Type := mkCanvas { w : Z; h : Z; bg : Color; px : list Color }.

Definition with_px (cv : Canvas) (l : list Color) : Canvas :=
  mkCanvas (w cv) (h cv) (bg cv) l.

(** [Canvas.__init__]: [range(w * h)] is empty for a product below one. *)
Definition Canvas_init (w h : Z) (bg : Color) : result Canvas :=
  Ok (mkCanvas w h bg (repeat bg (Z.to_nat (w * h)))).

Definition _idx (cv : Canvas) (x y : Z) : Z := y * w cv + x.

Definition in_bounds (cv : Canvas) (x y : Z) : bool :=
  (0 <=? x) && (x <? w cv) && ((0 <=? y) && (y <? h cv)).

Definition set (cv : Canvas) (x y : Z) (c : Color) : result Canvas :=
  if in_bounds cv x y then
    l <- list_set (px cv) (_idx cv x y) c ;; Ok (with_px cv l)
  else Ok cv.

Definition get (cv : Canvas) (x y : Z) : result Color :=
  if in_bounds cv x y then list_get (px cv) (_idx cv x y)
  else Ok (bg cv).

Definition seta (cv : Canvas) (x y : Z) (c : Color) (a : float)
  : result Canvas :=
  if in_bounds cv x y then
    let idx := _idx cv x y in
    p <- list_get (px cv) idx ;;
    q <- blend_over p c a ;;
    l <- list_set (px cv) idx q ;;
    Ok (with_px cv l)
  else Ok cv.

(** The grid of a canvas has one cell per coordinate pair. *)
Definition canvas_wf (cv : Canvas) : Prop :=
  length (px cv) = Z.to_nat (w cv * h cv).

Definition outside (cv : Canvas) (x y : Z) : Prop :=
  ~ (0 <= x < w cv /\ 0 <= y < h cv).


(** ** Sequences of canvas operations

    Every drawing primitive of [Canvas] touches the grid through [set] and
    [seta] only, so a drawing is a sequence of such calls. *)

Inductive op : Type :=
| OpSet (x y : Z) (c : Color)
| OpSeta (x y : Z) (c : Color) (a : float).

Definition apply_op (cv : Canvas) (o : op) : result Canvas :=
  match o with
  | OpSet x y c => set cv x y c
  | OpSeta x y c a => seta cv x y c a
  end.

Definition run (ops : list op) (cv : Canvas) : result Canvas :=
  foldM apply_op ops cv.

(** The colour of an operation is 8-bit and its alpha is a double. *)
Definition op_ok (o : op) : Prop :=
  match o with
  | OpSet _ _ c => color8 c
  | OpSeta _ _ c a => color8 c /\ valid_binary prec emax a = true
  end.

Definition canvas_inv (cv : Canvas) : Prop :=
  canvas_wf cv /\ color8 (bg cv) /\ Forall color8 (px cv).

(** * Circular icons (generate_circular_icons.py) *)

Module Circular.

Definition ICON_SIZE : Z := 42.
Definition ICON_RADIUS : Z := 21.
Definition AA_SAMPLES : Z := 4.

(** [math.pi]. *)
Definition pi : float := S754_finite false 7074237752028440 (-51).

(** Float constants of the source; an int constant met in float arithmetic
    is converted exactly. *)
Definition half : float := lit 1 2.
Definition two : float := of_Z 2.

(** [a / b] on ints ([long_true_divide] of CPython): the exact quotient of
    the two integers, rounded once to the nearest double, whatever their
    size; a zero dividend gives a zero whose sign is that of the divisor,
    and a quotient beyond the doubles raises OverflowError. *)
Definition int_truediv (a b : Z) : result float :=
  match a, b with
  | _, Z0 => Raise ZeroDivisionError
  | Z0, _ => Ok (S754_zero (b <? 0))
  | _, _ =>
      match SFdiv prec emax (S754_finite (a <? 0) (Z.to_pos (Z.abs a)) 0)
                            (S754_finite (b <? 0) (Z.to_pos (Z.abs b)) 0) with
      | S754_infinity _ => Raise OverflowError
      | q => Ok q
      end
  end.

Definition rgb_to_565 (r g b : Z) : Z :=
  Z.lor (Z.lor (Z.shiftl (Z.land r 248) 8) (Z.shiftl (Z.land g 252) 3))
        (Z.shiftr b 3).

Definition rgb565_to_rgb (color : Z) : Z * Z * Z :=
  let r := Z.shiftl (Z.land (Z.shiftr color 11) 31) 3 in
  let g := Z.shiftl (Z.land (Z.shiftr color 5) 63) 2 in
  let b := Z.shiftl (Z.land color 31) 3 in
  (r, g, b).

Definition blend_rgb_chan (f b : Z) (alpha : float) : result Z :=
  ff <- of_int f ;;
  fb <- of_int b ;;
  to_int (add (mul ff alpha) (mul fb (sub one alpha))).

Definition blend_rgb (fg bg : Z * Z * Z) (alpha : float)
  : result (Z * Z * Z) :=
  let '(fr, fg_, fb) := fg in
  let '(br, bg_, bb) := bg in
  r <- blend_rgb_chan fr br alpha ;;
  g <- blend_rgb_chan fg_ bg_ alpha ;;
  b <- blend_rgb_chan fb bb alpha ;;
  Ok (r, g, b).

Definition blend_565 (fg bg : Z) (alpha : float) : result Z :=
  let fg_rgb := rgb565_to_rgb fg in
  let bg_rgb := rgb565_to_rgb bg in
  result_rgb <- blend_rgb fg_rgb bg_rgb alpha ;;
  let '(r, g, b) := result_rgb in
  Ok (rgb_to_565 r g b).

Definition distance (pow_up : float -> bool) (x1 y1 x2 y2 : float)
  : result float :=
  dx2 <- pow2 pow_up (sub x2 x1) ;;
  dy2 <- pow2 pow_up (sub y2 y1) ;;
  sqrt (add dx2 dy2).

Definition clamp (val min_val max_val : float) : float :=
  py_max min_val (py_min max_val val).

(** [clamp(val)] with the default bounds 0.0 and 1.0. *)
Definition clamp01 (val : float) : float := clamp val zero one.

Record IconDef : Type :=
  mkIconDef { name : string; bg_color : Z; symbol : string }.

(** One sample coordinate, [i + offset + s * step]. *)
Definition sample_at (i : Z) (offset step : float) (s : Z) : result float :=
  fi <- of_int i ;;
  fs <- of_int s ;;
  Ok (add (add fi offset) (mul fs step)).

Definition sample_pixel_aa (x y size : Z)
  (shape_func : float -> float -> result float) : result float :=
  let total := zero in
  n <- of_int AA_SAMPLES ;;
  step <- truediv one n ;;
  offset <- truediv step two ;;
  total <-
    foldM (fun total sy =>
      foldM (fun total sx =>
        sample_x <- sample_at x offset step sx ;;
        sample_y <- sample_at y offset step sy ;;
        v <- shape_func sample_x sample_y ;;
        Ok (add total v))
        (range AA_SAMPLES) total)
      (range AA_SAMPLES) total ;;
  nn <- of_int (AA_SAMPLES * AA_SAMPLES) ;;
  truediv total nn.

(** [size / 2 - 0.5], the centre used by every generator. *)
Definition centre (size : Z) : result float :=
  q <- int_truediv size 2 ;; Ok (sub q half).

(** The edge policy of a disc: 1 up to [radius - 0.5], 0 from
    [radius + 0.5], the clamped difference in between. *)
Definition circle_coverage (pow_up : float -> bool) (cx cy radius : float)
  (x y : float) : result float :=
  dist <- distance pow_up x y cx cy ;;
  if leb dist (sub radius half) then Ok one
  else if leb (add radius half) dist then Ok zero
  else Ok (clamp01 (sub (add radius half) dist)).

(** The value appended for the pixel (x, y) of the background. *)
Definition background_pixel (size color transparent : Z)
  (shape_func : float -> float -> result float) (x y : Z) : result Z :=
  coverage <- sample_pixel_aa x y size shape_func ;;
  if ltb (lit 1 100) coverage then blend_565 color transparent coverage
  else Ok transparent.

Definition generate_circle_background (pow_up : float -> bool)
  (size color transparent : Z) : result (list Z) :=
  cx <- centre size ;;
  let cy := cx in
  radius <- centre size ;;
  foldM (fun pixels y =>
    foldM (fun pixels x =>
      p <- background_pixel size color transparent
                            (circle_coverage pow_up cx cy radius) x y ;;
      Ok (pixels ++ [p]))
      (range size) pixels)
    (range size) [].

(** One turn of the loop that ends each [draw_*_symbol]: the pixel (x, y)
    is blended towards [fg_color] when its sampled coverage exceeds 0.01. *)
Definition draw_step (size fg_color : Z)
  (coverage_fn : float -> float -> result float) (opacity : float)
  (pixels : list Z) (x y : Z) : result (list Z) :=
  coverage <- sample_pixel_aa x y size coverage_fn ;;
  if ltb (lit 1 100) coverage then
    let idx := y * size + x in
    old <- list_get pixels idx ;;
    p <- blend_565 fg_color old (mul coverage opacity) ;;
    list_set pixels idx p
  else Ok pixels.

Definition draw_symbol (pixels : list Z) (size fg_color : Z)
  (coverage_fn : float -> float -> result float) (opacity : float)
  : result (list Z) :=
  foldM (fun pixels y =>
    foldM (fun pixels x => draw_step size fg_color coverage_fn opacity
                                     pixels x y)
      (range size) pixels)
    (range size) pixels.

(** ** Symbol coverage functions

    Each [draw_*_symbol] of the source derives the parameters of its shape
    from [size] once and closes its coverage function over them; here the
    coverage function takes those parameters first, and [*_shape size] builds
    the closure.  [math.atan2] and [math.sin] are not fixed by IEEE-754; the
    functions that call them take them as parameters, as those that take a
    square take the rounding of the library's [pow]. *)

Section Symbols.

Variable pow_up : float -> bool.
Variable atan2 : float -> float -> float.
Variable sin : float -> float.

(** The reduction [((angle % period) + period) % period] of the gear and of
    the sun rays. *)
Definition normalize_angle (angle period : float) : result float :=
  m <- py_mod angle period ;;
  py_mod (add m period) period.

(** [(2 * math.pi) / n] for the int [n] of teeth or rays. *)
Definition period_of (n : Z) : result float :=
  fn <- of_int n ;; truediv (mul two pi) fn.

(** [gear_coverage] from the distance and the angle of the point on. *)
Definition gear_polar (outer_r inner_r hole_r : float) (num_teeth : Z)
  (tooth_width tooth_height : float) (dist angle : float) : result float :=
  if leb dist (sub hole_r half) then Ok zero
  else if ltb dist (add hole_r half) then
    Ok (clamp01 (add (sub dist hole_r) half))
  else
    tooth_angle <- period_of num_teeth ;;
    normalized_angle <- normalize_angle angle tooth_angle ;;
    center_of_tooth <- truediv tooth_angle two ;;
    let dist_from_center := fabs (sub normalized_angle center_of_tooth) in
    half_width <- truediv (mul tooth_width tooth_angle) two ;;
    let on_tooth := ltb dist_from_center half_width in
    let effective_outer :=
      if on_tooth then add outer_r tooth_height else outer_r in
    let tooth_edge_factor :=
      if on_tooth then
        clamp01 (mul (sub half_width dist_from_center) (of_Z 15))
      else one in
    if leb (sub inner_r half) dist && leb dist (add effective_outer half) then
      let inner_factor :=
        if ltb dist (add inner_r half) then
          clamp01 (add (sub dist inner_r) half)
        else one in
      let outer_factor :=
        if ltb (sub effective_outer half) dist then
          clamp01 (sub (add effective_outer half) dist)
        else one in
      Ok (mul (mul inner_factor outer_factor) tooth_edge_factor)
    else Ok zero.

Definition gear_coverage (cx cy outer_r inner_r hole_r : float)
  (num_teeth : Z) (tooth_width tooth_height : float) (x y : float)
  : result float :=
  dist <- distance pow_up x y cx cy ;;
  gear_polar outer_r inner_r hole_r num_teeth tooth_width tooth_height
             dist (atan2 (sub y cy) (sub x cx)).

Definition gear_shape (size : Z) : result (float -> float -> result float) :=
  cx <- centre size ;;
  let cy := cx in
  q <- int_truediv size 2 ;;
  let outer_r := sub q (lit 75 10) in
  let inner_r := mul outer_r (lit 6 10) in
  let hole_r := mul outer_r (lit 28 100) in
  Ok (gear_coverage cx cy outer_r inner_r hole_r 8 (lit 35 100) (lit 35 10)).

Definition draw_gear_symbol (pixels : list Z) (size fg_color : Z)
  : result (list Z) :=
  gear_coverage <- gear_shape size ;;
  draw_symbol pixels size fg_color gear_coverage (lit 95 100).

Definition target_coverage
  (cx cy outer_r inner_r ring_width center_r crosshair_width : float)
  (x y : float) : result float :=
  dist <- distance pow_up x y cx cy ;;
  let coverage := zero in
  let outer_dist := fabs (sub dist outer_r) in
  coverage <-
    (if ltb outer_dist ring_width then
       t <- truediv outer_dist (mul ring_width half) ;;
       Ok (py_max coverage (clamp01 (sub one t)))
     else Ok coverage) ;;
  let inner_dist := fabs (sub dist inner_r) in
  coverage <-
    (if ltb inner_dist (mul ring_width (lit 7 10)) then
       t <- truediv inner_dist (mul ring_width (lit 35 100)) ;;
       Ok (py_max coverage (clamp01 (sub one t)))
     else Ok coverage) ;;
  coverage <-
    (if ltb dist center_r then
       t <- truediv dist center_r ;;
       Ok (py_max coverage (clamp01 (sub one (mul t (lit 7 10)))))
     else Ok coverage) ;;
  let gap_inner := add (add inner_r ring_width) (of_Z 1) in
  let gap_outer := sub (sub outer_r ring_width) (of_Z 1) in
  if ltb gap_inner dist && ltb dist gap_outer then
    let x_dist := fabs (sub x cx) in
    coverage <-
      (if ltb x_dist crosshair_width then
         t <- truediv x_dist crosshair_width ;;
         Ok (py_max coverage (clamp01 (sub one t)))
       else Ok coverage) ;;
    let y_dist := fabs (sub y cy) in
    if ltb y_dist crosshair_width then
      t <- truediv y_dist crosshair_width ;;
      Ok (py_max coverage (clamp01 (sub one t)))
    else Ok coverage
  else Ok coverage.

Definition target_shape (size : Z) : result (float -> float -> result float) :=
  cx <- centre size ;;
  let cy := cx in
  q <- int_truediv size 2 ;;
  let outer_r := sub q (of_Z 8) in
  let inner_r := mul outer_r (lit 42 100) in
  let ring_width := of_Z 2 in
  let center_r := lit 25 10 in
  let crosshair_width := lit 18 10 in
  Ok (target_coverage cx cy outer_r inner_r ring_width center_r
                      crosshair_width).

Definition draw_target_symbol (pixels : list Z) (size fg_color : Z)
  : result (list Z) :=
  target_coverage <- target_shape size ;;
  draw_symbol pixels size fg_color target_coverage (lit 92 100).

Definition sign (p1x p1y p2x p2y p3x p3y : float) : float :=
  sub (mul (sub p1x p3x) (sub p2y p3y)) (mul (sub p2x p3x) (sub p1y p3y)).

Definition point_to_line_dist (px py x1 y1 x2 y2 : float) : result float :=
  let dx := sub x2 x1 in
  let dy := sub y2 y1 in
  length <- sqrt (add (mul dx dx) (mul dy dy)) ;;
  if ltb length (lit 1 1000) then distance pow_up px py x1 y1
  else
    truediv
      (fabs (sub (add (sub (mul dy px) (mul dx py)) (mul x2 y1)) (mul y2 x1)))
      length.

Definition point_in_triangle (px py x1 y1 x2 y2 x3 y3 : float)
  : result float :=
  let d1 := sign px py x1 y1 x2 y2 in
  let d2 := sign px py x2 y2 x3 y3 in
  let d3 := sign px py x3 y3 x1 y1 in
  let has_neg := ltb d1 zero || ltb d2 zero || ltb d3 zero in
  let has_pos := ltb zero d1 || ltb zero d2 || ltb zero d3 in
  let inside := negb (has_neg && has_pos) in
  if inside then
    e1 <- point_to_line_dist px py x1 y1 x2 y2 ;;
    e2 <- point_to_line_dist px py x2 y2 x3 y3 ;;
    e3 <- point_to_line_dist px py x3 y3 x1 y1 ;;
    let d_to_edge := py_min (py_min e1 e2) e3 in
    Ok (clamp01 (add d_to_edge half))
  else Ok zero.

Definition play_coverage (left_x right_x top_y bottom_y cy : float)
  (x y : float) : result float :=
  point_in_triangle x y left_x top_y left_x bottom_y right_x cy.

Definition play_shape (size : Z) : result (float -> float -> result float) :=
  cx <- centre size ;;
  let cy := cx in
  let offset := lit 15 10 in
  let scale := lit 42 100 in
  fsize <- of_int size ;;
  let left_x := add (sub cx (mul (mul fsize scale) (lit 35 100))) offset in
  let right_x := add (add cx (mul (mul fsize scale) (lit 45 100))) offset in
  let top_y := sub cy (mul (mul fsize scale) (lit 4 10)) in
  let bottom_y := add cy (mul (mul fsize scale) (lit 4 10)) in
  Ok (play_coverage left_x right_x top_y bottom_y cy).

Definition draw_play_symbol (pixels : list Z) (size fg_color : Z)
  : result (list Z) :=
  play_coverage <- play_shape size ;;
  draw_symbol pixels size fg_color play_coverage (lit 95 100).

Definition terminal_coverage
  (line_width chevron_size chevron_x chevron_y : float)
  (underscore_y underscore_x underscore_len : float)
  (x y : float) : result float :=
  let coverage := zero in
  coverage <-
    (if leb (sub chevron_y chevron_size) y && leb y chevron_y then
       let expected_x := add chevron_x (sub chevron_y y) in
       let dist_to_line := fabs (sub x expected_x) in
       if ltb dist_to_line line_width then
         t <- truediv dist_to_line line_width ;;
         Ok (py_max coverage (clamp01 (sub one t)))
       else Ok coverage
     else Ok coverage) ;;
  coverage <-
    (if leb chevron_y y && leb y (add chevron_y chevron_size) then
       let expected_x := add chevron_x (sub y chevron_y) in
       let dist_to_line := fabs (sub x expected_x) in
       if ltb dist_to_line line_width then
         t <- truediv dist_to_line line_width ;;
         Ok (py_max coverage (clamp01 (sub one t)))
       else Ok coverage
     else Ok coverage) ;;
  if leb underscore_x x && leb x (add underscore_x underscore_len) then
    let dist_to_line := fabs (sub y underscore_y) in
    if ltb dist_to_line (mul line_width (lit 9 10)) then
      let h_factor :=
        if ltb x (add underscore_x (of_Z 1)) then
          clamp01 (add (sub x underscore_x) half)
        else if ltb (sub (add underscore_x underscore_len) (of_Z 1)) x then
          clamp01 (add (sub (add underscore_x underscore_len) x) half)
        else one in
      t <- truediv dist_to_line (mul line_width (lit 9 10)) ;;
      Ok (py_max coverage (mul (clamp01 (sub one t)) h_factor))
    else Ok coverage
  else Ok coverage.

Definition terminal_shape (size : Z)
  : result (float -> float -> result float) :=
  cx <- centre size ;;
  let cy := cx in
  let line_width := lit 22 10 in
  let chevron_size := lit 65 10 in
  let chevron_x := sub cx (of_Z 6) in
  let chevron_y := sub cy (of_Z 1) in
  let underscore_y := add cy (of_Z 6) in
  let underscore_x := add cx (of_Z 1) in
  let underscore_len := of_Z 9 in
  Ok (terminal_coverage line_width chevron_size chevron_x chevron_y
                        underscore_y underscore_x underscore_len).

Definition draw_terminal_symbol (pixels : list Z) (size fg_color : Z)
  : result (list Z) :=
  terminal_coverage <- terminal_shape size ;;
  draw_symbol pixels size fg_color terminal_coverage (lit 92 100).

(** [brightness_coverage] from the distance and the angle of the point on. *)
Definition brightness_polar (sun_r ray_inner ray_outer : float) (num_rays : Z)
  (ray_width ray_thickness : float) (dist angle : float) : result float :=
  let coverage := zero in
  let coverage :=
    if ltb dist (add sun_r half) then
      if leb dist (sub sun_r half) then one
      else clamp01 (sub (add sun_r half) dist)
    else coverage in
  if leb (sub ray_inner half) dist && leb dist (add ray_outer half) then
    ray_angle <- period_of num_rays ;;
    normalized <- normalize_angle angle ray_angle ;;
    let dist_to_ray_center := py_min normalized (sub ray_angle normalized) in
    if ltb dist_to_ray_center ray_width then
      t <- truediv dist_to_ray_center (mul ray_width (lit 6 10)) ;;
      let angular_factor := clamp01 (sub one t) in
      let radial_factor :=
        if ltb dist (add ray_inner (of_Z 1)) then
          clamp01 (add (sub dist ray_inner) half)
        else if ltb (sub ray_outer (of_Z 1)) dist then
          clamp01 (sub (add ray_outer half) dist)
        else one in
      let perp_dist := mul dist (sin dist_to_ray_center) in
      u <- truediv perp_dist ray_thickness ;;
      let thickness_factor := clamp01 (sub one u) in
      let ray_coverage :=
        mul (mul angular_factor radial_factor) thickness_factor in
      Ok (py_max coverage ray_coverage)
    else Ok coverage
  else Ok coverage.

Definition brightness_coverage (cx cy sun_r ray_inner ray_outer : float)
  (num_rays : Z) (ray_width ray_thickness : float) (x y : float)
  : result float :=
  dist <- distance pow_up x y cx cy ;;
  brightness_polar sun_r ray_inner ray_outer num_rays ray_width ray_thickness
                   dist (atan2 (sub y cy) (sub x cx)).

Definition brightness_shape (size : Z)
  : result (float -> float -> result float) :=
  cx <- centre size ;;
  let cy := cx in
  let sun_r := of_Z 5 in
  let ray_inner := add sun_r (of_Z 3) in
  q <- int_truediv size 2 ;;
  let ray_outer := sub q (of_Z 8) in
  Ok (brightness_coverage cx cy sun_r ray_inner ray_outer 8 (lit 28 100)
                          (of_Z 2)).

Definition draw_brightness_symbol (pixels : list Z) (size fg_color : Z)
  : result (list Z) :=
  brightness_coverage <- brightness_shape size ;;
  draw_symbol pixels size fg_color brightness_coverage (lit 93 100).

(** The arcs of [wifi_coverage] from the distance and the angle of the
    point on: the angle is compared as [atan2] returned it. *)
Definition wifi_arcs (radii : list float) (arc_width arc_angle : float)
  (dist angle : float) : result float :=
  let coverage := zero in
  q <- truediv pi two ;;
  let angle_from_up := fabs (add angle q) in
  half_arc <- truediv arc_angle two ;;
  if ltb angle_from_up half_arc then
    foldM (fun coverage r =>
      let ring_dist := fabs (sub dist r) in
      if ltb ring_dist arc_width then
        t <- truediv ring_dist (mul arc_width (lit 55 100)) ;;
        let ring_factor := clamp01 (sub one t) in
        let angle_edge := sub half_arc (fabs angle_from_up) in
        ring_factor <-
          (if ltb angle_edge (lit 2 10) then
             e <- truediv angle_edge (lit 2 10) ;;
             Ok (mul ring_factor (clamp01 e))
           else Ok ring_factor) ;;
        Ok (py_max coverage ring_factor)
      else Ok coverage)
      radii coverage
  else Ok coverage.

Definition wifi_coverage (cx cy : float) (radii : list float)
  (arc_width dot_r arc_angle : float) (x y : float) : result float :=
  dist <- distance pow_up x y cx cy ;;
  coverage <-
    wifi_arcs radii arc_width arc_angle dist (atan2 (sub y cy) (sub x cx)) ;;
  let dot_cy := add cy (of_Z 1) in
  dot_dist <- distance pow_up x y cx dot_cy ;;
  if ltb dot_dist (add dot_r half) then
    if leb dot_dist (sub dot_r half) then Ok (py_max coverage one)
    else Ok (py_max coverage (clamp01 (sub (add dot_r half) dot_dist)))
  else Ok coverage.

Definition wifi_radii : list float := [lit 65 10; of_Z 11; lit 155 10].
Definition wifi_arc_width : float := lit 22 10.
Definition wifi_arc_angle : float := mul pi (lit 75 100).

Definition wifi_shape (size : Z) : result (float -> float -> result float) :=
  cx <- centre size ;;
  q <- int_truediv size 2 ;;
  let cy := add q (of_Z 4) in
  let dot_r := lit 28 10 in
  Ok (wifi_coverage cx cy wifi_radii wifi_arc_width dot_r wifi_arc_angle).

Definition draw_wifi_symbol (pixels : list Z) (size fg_color : Z)
  : result (list Z) :=
  wifi_coverage <- wifi_shape size ;;
  draw_symbol pixels size fg_color wifi_coverage (lit 92 100).

Definition more_coverage (dot_positions : list (float * float))
  (dot_r : float) (x y : float) : result float :=
  foldM (fun coverage d =>
    let '(dx, dy) := d in
    dist <- distance pow_up x y dx dy ;;
    if ltb dist (add dot_r half) then
      if leb dist (sub dot_r half) then Ok (py_max coverage one)
      else Ok (py_max coverage (clamp01 (sub (add dot_r half) dist)))
    else Ok coverage)
    dot_positions zero.

Definition more_shape (size : Z) : result (float -> float -> result float) :=
  cx <- centre size ;;
  cy <- centre size ;;
  let dot_r := lit 32 10 in
  let spacing := of_Z 10 in
  let dot_positions :=
    [(sub cx spacing, cy); (cx, cy); (add cx spacing, cy)] in
  Ok (more_coverage dot_positions dot_r).

Definition draw_more_symbol (pixels : list Z) (size fg_color : Z)
  : result (list Z) :=
  more_coverage <- more_shape size ;;
  draw_symbol pixels size fg_color more_coverage (lit 93 100).

Definition generate_icon (icon_def : IconDef) (transparent : Z)
  : result (list Z) :=
  pixels <- generate_circle_background pow_up ICON_SIZE (bg_color icon_def)
                                       transparent ;;
  let symbol_color := 65535 in
  let is_sym s := String.eqb (symbol icon_def) s in
  if is_sym "gear"%string then draw_gear_symbol pixels ICON_SIZE symbol_color
  else if is_sym "target"%string then
    draw_target_symbol pixels ICON_SIZE symbol_color
  else if is_sym "play"%string then
    draw_play_symbol pixels ICON_SIZE symbol_color
  else if is_sym "terminal"%string then
    draw_terminal_symbol pixels ICON_SIZE symbol_color
  else if is_sym "brightness"%string then
    draw_brightness_symbol pixels ICON_SIZE symbol_color
  else if is_sym "wifi"%string then
    draw_wifi_symbol pixels ICON_SIZE symbol_color
  else if is_sym "more"%string then
    draw_more_symbol pixels ICON_SIZE symbol_color
  else Ok pixels.

End Symbols.

(** The palette entry of the more icon. *)
Definition ICON_COLORS_gray : Z := 23931.

(** [IconDef("more", ICON_COLORS['gray'], "more")], as [main] builds it. *)
Definition icon_more : IconDef :=
  mkIconDef "more"%string ICON_COLORS_gray "more"%string.

End Circular.

(** * The packed colour of the specification *)

(** The round trip of the specification: pack, then expand. *)
Definition fromPacked (p : Z) : Color :=
  let '(r, g, b) := Circular.rgb565_to_rgb p in mkColor r g b.

Definition roundtrip_within (kr kg kb : Z) (c : Color) : Prop :=
  let c' := fromPacked (to_rgb565 c) in
  Z.abs (r c' - r (clamp c)) <= kr /\
  Z.abs (g c' - g (clamp c)) <= kg /\
  Z.abs (b c' - b (clamp c)) <= kb.

(** * Integer drawing primitives of [Canvas] (generate_menu_icons.py)

    The two [while] loops are given a fuel: [None] means the fuel ran out
    before the loop was left. *)

(** The body of the loop of [Canvas.line]. *)
Fixpoint line_loop (fuel : nat) (cv : Canvas)
  (x0 y0 x1 y1 dx dy sx sy err : Z) (c : Color) : option (result Canvas) :=
  match fuel with
  | O => None
  | S fuel' =>
      match set cv x0 y0 c with
      | Raise e => Some (Raise e)
      | Ok cv' =>
          if (x0 =? x1) && (y0 =? y1) then Some (Ok cv')
          else
            let e2 := 2 * err in
            let '(err, x0) :=
              if dy <=? e2 then (err + dy, x0 + sx) else (err, x0) in
            let '(err, y0) :=
              if e2 <=? dx then (err + dx, y0 + sy) else (err, y0) in
            line_loop fuel' cv' x0 y0 x1 y1 dx dy sx sy err c
      end
  end.

(** [Canvas.line]: Bresenham. *)
Definition line (fuel : nat) (cv : Canvas) (x0 y0 x1 y1 : Z) (c : Color)
  : option (result Canvas) :=
  let dx := Z.abs (x1 - x0) in
  let dy := - Z.abs (y1 - y0) in
  let sx := if x0 <? x1 then 1 else -1 in
  let sy := if y0 <? y1 then 1 else -1 in
  let err := dx + dy in
  line_loop fuel cv x0 y0 x1 y1 dx dy sx sy err c.

(** The eight points one turn of [Canvas.circle] sets, in the order of the
    source. *)
Definition octants (x y : Z) : list (Z * Z) :=
  [(x, y); (y, x); (- y, x); (- x, y);
   (- x, - y); (- y, - x); (y, - x); (x, - y)].

Definition set_all (cv : Canvas) (cx cy : Z) (pts : list (Z * Z)) (c : Color)
  : result Canvas :=
  foldM (fun cv d => set cv (cx + fst d) (cy + snd d) c) pts cv.

(** The loop of [Canvas.circle]. *)
Fixpoint circle_loop (fuel : nat) (cv : Canvas) (cx cy x y err : Z)
  (c : Color) : option (result Canvas) :=
  match fuel with
  | O => None
  | S fuel' =>
      if y <=? x then
        match set_all cv cx cy (octants x y) c with
        | Raise e => Some (Raise e)
        | Ok cv' =>
            let y := y + 1 in
            let err := err + (1 + 2 * y) in
            let '(x, err) :=
              if 0 <? 2 * (err - x) + 1
              then (x - 1, err + (1 - 2 * (x - 1)))
              else (x, err) in
            circle_loop fuel' cv' cx cy x y err c
        end
      else Some (Ok cv)
  end.

(** [Canvas.circle]: the midpoint circle. *)
Definition circle (fuel : nat) (cv : Canvas) (cx cy r : Z) (c : Color)
  : option (result Canvas) :=
  circle_loop fuel cv cx cy r 0 0 c.

(** [range(a, b)]. *)
Definition range2 (a b : Z) : list Z := map (fun k => a + k) (range (b - a)).

(** [int(math.sqrt(n))] for an int [n]. *)
Definition isqrt_float (n : Z) : result Z :=
  f <- of_int n ;; s <- sqrt f ;; to_int s.

(** The inner loop of [Canvas.fill_circle]: one row from [x0] to [x1]. *)
Definition fill_row (cv : Canvas) (x0 x1 y : Z) (c : Color) : result Canvas :=
  foldM (fun cv x => set cv x y c) (range2 x0 (x1 + 1)) cv.

(** [Canvas.fill_circle]. *)
Definition fill_circle (cv : Canvas) (cx cy r : Z) (c : Color)
  : result Canvas :=
  let rr := r * r in
  foldM (fun cv y =>
    let dy := y - cy in
    let dy2 := dy * dy in
    if rr <? dy2 then Ok cv
    else
      dx <- isqrt_float (rr - dy2) ;;
      let x0 := cx - dx in
      let x1 := cx + dx in
      fill_row cv x0 x1 y c)
    (range2 (cy - r) (cy + r + 1)) cv.

(** [Canvas.ring]: the disc of radius [r1]; [r0] is not used. *)
Definition ring (cv : Canvas) (cx cy r0 r1 : Z) (c : Color) : result Canvas :=
  fill_circle cv cx cy r1 c.
(** * Bounded quantification by evaluation *)

Lemma Zrange_In (n : nat) (z : Z) : 0 <= z < Z.of_nat n -> In z (Zrange n).
Proof.
  intros Hz. unfold Zrange. apply in_map_iff.
  exists (Z.to_nat z). split; [lia|]. apply in_seq. lia.
Qed.

Lemma Zrange_forallb (P : Z -> bool) (n : nat) :
  forallb P (Zrange n) = true ->
  forall z, 0 <= z < Z.of_nat n -> P z = true.
Proof.
  intros H z Hz. rewrite forallb_forall in H. apply H, Zrange_In, Hz.
Qed.


(** * Lists indexed by an int *)

Lemma update_length {A : Type} (l : list A) (k : nat) (a : A) :
  length (update l k a) = length l.
Proof.
  revert k. induction l as [|x t IH]; intros [|k]; simpl; auto.
Qed.

Lemma nth_error_update_eq {A : Type} (l : list A) (k : nat) (a : A) :
  (k < length l)%nat -> nth_error (update l k a) k = Some a.
Proof.
  revert k. induction l as [|x t IH]; intros [|k] Hk; simpl in *;
    try lia; auto. apply IH. lia.
Qed.

Lemma nth_error_update_neq {A : Type} (l : list A) (k j : nat) (a : A) :
  k <> j -> nth_error (update l k a) j = nth_error l j.
Proof.
  revert k j. induction l as [|x t IH]; intros [|k] [|j] Hkj; simpl;
    try congruence; auto.
Qed.

Lemma update_same {A : Type} (l : list A) (k : nat) (a : A) :
  nth_error l k = Some a -> update l k a = l.
Proof.
  revert k. induction l as [|x t IH]; intros [|k] H; simpl in *;
    try congruence.
  f_equal. auto.
Qed.

Lemma Forall_update {A : Type} (P : A -> Prop) (l : list A) (k : nat) (a : A) :
  Forall P l -> P a -> Forall P (update l k a).
Proof.
  intros Hl Ha. revert k.
  induction Hl as [|x t Hx Ht IH]; intros [|k]; simpl; constructor; auto.
Qed.

Lemma norm_index_nonneg {A : Type} (l : list A) (i : Z) :
  0 <= i < Z.of_nat (length l) -> norm_index l i = Ok (Z.to_nat i).
Proof.
  intros Hi. unfold norm_index.
  destruct (i <? 0) eqn:E; [lia|].
  replace ((0 <=? i) && (i <? Z.of_nat (length l))) with true by lia.
  reflexivity.
Qed.

Lemma list_get_nonneg {A : Type} (l : list A) (i : Z) :
  0 <= i < Z.of_nat (length l) ->
  exists a, nth_error l (Z.to_nat i) = Some a /\ list_get l i = Ok a.
Proof.
  intros Hi. unfold list_get. rewrite norm_index_nonneg by assumption.
  simpl. destruct (nth_error l (Z.to_nat i)) as [a|] eqn:E.
  - exists a. auto.
  - apply nth_error_None in E. lia.
Qed.

Lemma list_set_nonneg {A : Type} (l : list A) (i : Z) (a : A) :
  0 <= i < Z.of_nat (length l) ->
  list_set l i a = Ok (update l (Z.to_nat i) a).
Proof.
  intros Hi. unfold list_set. rewrite norm_index_nonneg by assumption.
  reflexivity.
Qed.

(** * The canvas grid *)

Lemma in_bounds_iff (cv : Canvas) (x y : Z) :
  in_bounds cv x y = true <-> 0 <= x < w cv /\ 0 <= y < h cv.
Proof. unfold in_bounds. lia. Qed.

Lemma outside_in_bounds (cv : Canvas) (x y : Z) :
  outside cv x y -> in_bounds cv x y = false.
Proof.
  intros H. destruct (in_bounds cv x y) eqn:E; [|reflexivity].
  exfalso. apply H. now apply in_bounds_iff.
Qed.

Lemma idx_in_range (cv : Canvas) (x y : Z) :
  canvas_wf cv -> in_bounds cv x y = true ->
  0 <= _idx cv x y < Z.of_nat (length (px cv)).
Proof.
  unfold canvas_wf, _idx. intros Hwf Hb. apply in_bounds_iff in Hb.
  rewrite Hwf. rewrite Z2Nat.id by nia. nia.
Qed.

Lemma with_px_same (cv : Canvas) : with_px cv (px cv) = cv.
Proof. destruct cv; reflexivity. Qed.

Lemma Canvas_init_wf (w0 h0 : Z) (c : Color) (cv : Canvas) :
  Canvas_init w0 h0 c = Ok cv -> canvas_wf cv.
Proof.
  unfold Canvas_init. intros H. injection H as <-.
  unfold canvas_wf. simpl. apply repeat_length.
Qed.

Lemma set_wf (cv cv' : Canvas) (x y : Z) (c : Color) :
  canvas_wf cv -> set cv x y c = Ok cv' -> canvas_wf cv'.
Proof.
  unfold set. intros Hwf. destruct (in_bounds cv x y) eqn:Hb.
  - rewrite list_set_nonneg by (apply idx_in_range; assumption).
    simpl. intros H. injection H as <-.
    unfold canvas_wf in *. simpl. now rewrite update_length.
  - intros H. injection H as <-. assumption.
Qed.

Lemma out_of_bounds_noop (cv : Canvas) (x y : Z) (c : Color) (a : float) :
  outside cv x y ->
  set cv x y c = Ok cv /\ seta cv x y c a = Ok cv /\ get cv x y = Ok (bg cv).
Proof.
  intros H. apply outside_in_bounds in H.
  unfold set, seta, get. rewrite H. repeat split.
Qed.

(** * Floats, bit for bit *)

(** Bit-for-bit equality of floats. *)
Definition same_float (x y : float) : bool :=
  match x, y with
  | S754_zero s, S754_zero s' => Bool.eqb s s'
  | S754_infinity s, S754_infinity s' => Bool.eqb s s'
  | S754_nan, S754_nan => true
  | S754_finite s m e, S754_finite s' m' e' =>
      Bool.eqb s s' && Pos.eqb m m' && Z.eqb e e'
  | _, _ => false
  end.

Lemma same_float_eq (x y : float) : same_float x y = true -> x = y.
Proof.
  destruct x as [s|s| |s m e], y as [s'|s'| |s' m' e']; simpl;
    try discriminate; try reflexivity.
  - intros H. apply Bool.eqb_prop in H. now subst.
  - intros H. apply Bool.eqb_prop in H. now subst.
  - intros H. apply andb_prop in H as [H He]. apply andb_prop in H as [Hs Hm].
    apply Bool.eqb_prop in Hs. apply Pos.eqb_eq in Hm. apply Z.eqb_eq in He.
    now subst.
Qed.


(** * Binary64 arithmetic: rounding, values and error bounds *)

Lemma digits2_size (p : positive) : digits2_pos p = Pos.size p.
Proof. induction p; simpl; congruence. Qed.

Lemma Zdigits2_log2 (m : Z) : 0 < m -> Zdigits2 m = Z.log2 m + 1.
Proof.
  destruct m as [|p|p]; try lia. intros _. simpl.
  destruct p; simpl; rewrite ?digits2_size; lia.
Qed.

Lemma Zdigits2_bounds (m : Z) :
  0 < m -> 2 ^ (Zdigits2 m - 1) <= m < 2 ^ Zdigits2 m.
Proof.
  intros Hm. rewrite Zdigits2_log2 by assumption.
  replace (Z.log2 m + 1 - 1) with (Z.log2 m) by lia.
  replace (Z.log2 m + 1) with (Z.succ (Z.log2 m)) by lia.
  apply Z.log2_spec. assumption.
Qed.

Lemma Zdigits2_nonneg (m : Z) : 0 <= Zdigits2 m.
Proof. destruct m; simpl; lia. Qed.

Lemma Zdigits2_pos (m : Z) : 0 < m -> 1 <= Zdigits2 m.
Proof. destruct m; simpl; lia. Qed.

Lemma Zdigits2_lt_pow (m k : Z) : 0 <= m -> 0 <= k -> m < 2 ^ k -> Zdigits2 m <= k.
Proof.
  intros Hm Hk H. destruct (Z.eq_dec m 0) as [->|Hn]; [simpl; lia|].
  rewrite Zdigits2_log2 by lia.
  assert (Z.log2 m < k); [|lia]. apply Z.log2_lt_pow2; lia.
Qed.

Lemma shr_1_m (r : shr_record) : 0 <= shr_m r -> shr_m (shr_1 r) = shr_m r / 2.
Proof.
  destruct r as [m r s]. simpl. intros Hm.
  destruct m as [|p|p]; try lia; [reflexivity|].
  destruct p as [p|p|]; simpl.
  - rewrite Pos2Z.inj_xI. apply Z.div_unique with (r := 1); lia.
  - rewrite Pos2Z.inj_xO. apply Z.div_unique with (r := 0); lia.
  - reflexivity.
Qed.

Lemma iter_shr_m (p : positive) (r : shr_record) :
  0 <= shr_m r ->
  shr_m (iter_pos shr_1 p r) = shr_m r / 2 ^ Zpos p.
Proof.
  revert r. induction p as [p IH|p IH|]; intros r Hr; simpl iter_pos.
  - assert (0 <= shr_m (shr_1 r)) as H1
        by (rewrite shr_1_m by assumption; apply Z.div_pos; lia).
    assert (0 <= shr_m (iter_pos shr_1 p (shr_1 r))) as H2
        by (rewrite IH by assumption; apply Z.div_pos; lia).
    rewrite IH, IH, shr_1_m by assumption.
    rewrite !Z.div_div by lia. f_equal.
    replace (Z.pos p~1) with (Z.pos p + Z.pos p + 1) by lia.
    rewrite !Z.pow_add_r by lia. lia.
  - assert (0 <= shr_m (iter_pos shr_1 p r)) as H2
        by (rewrite IH by assumption; apply Z.div_pos; lia).
    rewrite IH, IH by assumption.
    rewrite !Z.div_div by lia. f_equal.
    replace (Z.pos p~0) with (Z.pos p + Z.pos p) by lia.
    rewrite !Z.pow_add_r by lia. lia.
  - rewrite shr_1_m by assumption. reflexivity.
Qed.

Lemma round_nearest_even_cases (m : Z) (l : location) :
  round_nearest_even m l = m \/ round_nearest_even m l = m + 1.
Proof.
  destruct l as [|[| |]]; simpl; auto. destruct (Z.even m); auto.
Qed.

Definition rnd_E (mx ex : Z) : Z := Z.max ex (fexp prec emax (Zdigits2 mx + ex)).

Definition pack (s : bool) (mr E : Z) : spec_float :=
  if mr =? 0 then S754_zero s
  else if mr <? 2 ^ 53 then
    if E <=? 971 then S754_finite s (Z.to_pos mr) E else S754_infinity s
  else
    if E + 1 <=? 971 then S754_finite s (Z.to_pos (2 ^ 52)) (E + 1)
    else S754_infinity s.

Lemma fexp_eq (e : Z) : fexp prec emax e = Z.max (e - 53) (-1074).
Proof. reflexivity. Qed.

Lemma shr_fexp_m (mx ex : Z) (lx : location) :
  0 <= mx ->
  let E := rnd_E mx ex in
  let '(r, e) := shr_fexp prec emax mx ex lx in
  e = E /\ shr_m r = mx / 2 ^ (E - ex) /\
  (E = ex -> r = shr_record_of_loc mx lx).
Proof.
  intros Hm. unfold rnd_E, shr_fexp, shr. rewrite fexp_eq.
  assert (forall l, shr_m (shr_record_of_loc mx l) = mx) as Hrec
      by (intros [|[| |]]; reflexivity).
  destruct (Z.max (Zdigits2 mx + ex - 53) (-1074) - ex) as [|p|p] eqn:En.
  - replace (Z.max ex _) with ex by lia.
    rewrite Z.sub_diag, Z.div_1_r. auto.
  - replace (Z.max ex _) with (ex + Z.pos p) by lia.
    rewrite iter_shr_m by (rewrite Hrec; assumption).
    rewrite Hrec. replace (ex + Z.pos p - ex) with (Z.pos p) by lia.
    repeat split. lia.
  - replace (Z.max ex _) with ex by lia.
    rewrite Z.sub_diag, Z.div_1_r. auto.
Qed.

Lemma first_shift_small (mx ex : Z) :
  0 <= mx -> mx / 2 ^ (rnd_E mx ex - ex) < 2 ^ 53.
Proof.
  intros Hm. unfold rnd_E. rewrite fexp_eq.
  destruct (Z.eq_dec mx 0) as [->|Hn].
  { rewrite Z.div_0_l; [lia|]. apply Z.pow_nonzero; lia. }
  pose proof (Zdigits2_bounds mx ltac:(lia)) as [_ Hd].
  pose proof (Zdigits2_nonneg mx) as Hdn.
  set (d := Zdigits2 mx) in *.
  set (n := Z.max ex (Z.max (d + ex - 53) (-1074)) - ex).
  assert (0 <= n) by lia. assert (d - 53 <= n) by lia.
  apply Z.div_lt_upper_bound; [lia|].
  destruct (Z_le_gt_dec d 53).
  - assert (2 ^ d <= 2 ^ 53) by (apply Z.pow_le_mono_r; lia).
    assert (1 <= 2 ^ n) by lia. nia.
  - assert (2 ^ d <= 2 ^ n * 2 ^ 53).
    { rewrite <- Z.pow_add_r by lia. apply Z.pow_le_mono_r; lia. }
    lia.
Qed.

Lemma bra_cases (s : bool) (mx ex : Z) (lx : location) :
  0 <= mx ->
  let E := rnd_E mx ex in
  exists mr,
    (mr = mx / 2 ^ (E - ex) \/ mr = mx / 2 ^ (E - ex) + 1) /\
    0 <= mr <= 2 ^ 53 /\
    (lx = loc_Exact -> E = ex -> mr = mx) /\
    binary_round_aux prec emax s mx ex lx = pack s mr E.
Proof.
  intros Hm. cbv zeta. unfold binary_round_aux.
  pose proof (shr_fexp_m mx ex lx Hm) as H1. cbv zeta in H1.
  pose proof (first_shift_small mx ex Hm) as Hsmall.
  destruct (shr_fexp prec emax mx ex lx) as [r1 e1].
  destruct H1 as (-> & Hm1 & Hex).
  set (E := rnd_E mx ex) in *.
  set (m1 := mx / 2 ^ (E - ex)) in *.
  assert (0 <= m1) as Hm1pos.
  { unfold m1. apply Z.div_pos; [lia|]. apply Z.pow_pos_nonneg; unfold E, rnd_E; lia. }
  set (mr := round_nearest_even (shr_m r1) (loc_of_shr_record r1)).
  assert (mr = m1 \/ mr = m1 + 1) as Hmr
      by (unfold mr; rewrite Hm1; apply round_nearest_even_cases).
  exists mr. split; [assumption|]. split; [lia|]. split.
  { intros -> HE. specialize (Hex HE). unfold mr. rewrite Hex. reflexivity. }
  assert (-1074 <= E) as HEmin by (unfold E, rnd_E; rewrite fexp_eq; lia).
  assert (0 <= mr) as Hmrpos by lia.
  pose proof (shr_fexp_m mr E loc_Exact Hmrpos) as H2. cbv zeta in H2.
  destruct (shr_fexp prec emax mr E loc_Exact) as [r2 e2].
  destruct H2 as (-> & Hm2 & _). rewrite Hm2. unfold pack.
  unfold rnd_E. rewrite fexp_eq.
  destruct (Z.eqb_spec mr 0) as [->|Hnz].
  { rewrite Z.div_0_l; [reflexivity|]. apply Z.pow_nonzero; simpl; lia. }
  destruct (Z.ltb_spec mr (2 ^ 53)) as [Hlt|Hge].
  - assert (Zdigits2 mr <= 53) by (apply Zdigits2_lt_pow; lia).
    pose proof (Zdigits2_nonneg mr).
    replace (Z.max E (Z.max (Zdigits2 mr + E - 53) (-1074))) with E by lia.
    rewrite Z.sub_diag, Z.div_1_r.
    destruct mr as [|p|p]; try lia. simpl Z.to_pos.
    reflexivity.
  - assert (mr = 2 ^ 53) as -> by lia.
    change (Zdigits2 (2 ^ 53)) with 54.
    replace (Z.max E (Z.max (54 + E - 53) (-1074))) with (E + 1) by lia.
    replace (E + 1 - E) with 1 by lia.
    change (2 ^ 53 / 2 ^ 1) with (Z.pos (Z.to_pos (2 ^ 52))).
    reflexivity.
Qed.

Definition bpow (e : Z) : R := powerRZ 2 e.
Definition F2R (m e : Z) : R := (IZR m * bpow e)%R.

Definition B2R (x : spec_float) : R :=
  match x with
  | S754_finite s m e => F2R (cond_Zopp s (Zpos m)) e
  | _ => 0%R
  end.


Lemma bpow_pos (e : Z) : (0 < bpow e)%R.
Proof. apply powerRZ_lt. lra. Qed.

Lemma bpow_add (a b : Z) : bpow (a + b) = (bpow a * bpow b)%R.
Proof. apply powerRZ_add. lra. Qed.

Lemma bpow_0 : bpow 0 = 1%R.
Proof. reflexivity. Qed.

Lemma IZR_pow2 (k : Z) : 0 <= k -> IZR (2 ^ k) = bpow k.
Proof.
  intros Hk. unfold bpow. rewrite <- (Z2Nat.id k) at 2 by assumption.
  rewrite <- pow_powerRZ, pow_IZR, Z2Nat.id by assumption. reflexivity.
Qed.

Lemma bpow_ge_1 (k : Z) : 0 <= k -> (1 <= bpow k)%R.
Proof.
  intros Hk. rewrite <- IZR_pow2 by assumption. apply IZR_le.
  pose proof (Z.pow_pos_nonneg 2 k). lia.
Qed.

Lemma bpow_le (a b : Z) : a <= b -> (bpow a <= bpow b)%R.
Proof.
  intros H. replace b with (a + (b - a)) by lia. rewrite bpow_add.
  pose proof (bpow_pos a). pose proof (bpow_ge_1 (b - a) ltac:(lia)). nra.
Qed.

Lemma bpow_lt (a b : Z) : a < b -> (bpow a < bpow b)%R.
Proof.
  intros H. replace b with (a + 1 + (b - a - 1)) by lia. rewrite !bpow_add.
  pose proof (bpow_pos a). pose proof (bpow_ge_1 (b - a - 1) ltac:(lia)).
  replace (bpow 1) with 2%R by (unfold bpow; simpl; lra). nra.
Qed.

Lemma F2R_0 (e : Z) : F2R 0 e = 0%R.
Proof. unfold F2R. lra. Qed.

Lemma F2R_opp (m e : Z) : F2R (- m) e = (- F2R m e)%R.
Proof. unfold F2R. rewrite opp_IZR. lra. Qed.

Lemma F2R_shift (m e k : Z) : 0 <= k -> F2R (m * 2 ^ k) (e - k) = F2R m e.
Proof.
  intros Hk. unfold F2R. rewrite mult_IZR, IZR_pow2 by assumption.
  replace e with ((e - k) + k) at 2 by lia. rewrite bpow_add. lra.
Qed.

Lemma F2R_le (m1 m2 e : Z) : m1 <= m2 -> (F2R m1 e <= F2R m2 e)%R.
Proof.
  intros H. unfold F2R. apply Rmult_le_compat_r.
  - left. apply bpow_pos.
  - apply IZR_le. assumption.
Qed.

Lemma F2R_lt (m1 m2 e : Z) : m1 < m2 -> (F2R m1 e < F2R m2 e)%R.
Proof.
  intros H. unfold F2R. apply Rmult_lt_compat_r.
  - apply bpow_pos.
  - apply IZR_lt. assumption.
Qed.

Lemma F2R_plus (m1 m2 e : Z) : F2R (m1 + m2) e = (F2R m1 e + F2R m2 e)%R.
Proof. unfold F2R. rewrite plus_IZR. lra. Qed.

(** A mantissa below [2^k] at exponent [e] is below [2^(k+e)]. *)
Lemma F2R_lt_bpow (m e k : Z) : 0 <= k -> m < 2 ^ k -> (F2R m e < bpow (k + e))%R.
Proof.
  intros Hk H. rewrite bpow_add, <- IZR_pow2 by assumption.
  apply F2R_lt. assumption.
Qed.

Lemma F2R_ge_bpow (m e k : Z) : 0 <= k -> 2 ^ k <= m -> (bpow (k + e) <= F2R m e)%R.
Proof.
  intros Hk H. rewrite bpow_add, <- IZR_pow2 by assumption.
  apply F2R_le. assumption.
Qed.

(** From a bound on the value to a bound on the digits. *)
Lemma digits_of_bound (m e K : Z) :
  0 < m -> (F2R m e < bpow K)%R -> Zdigits2 m + e <= K.
Proof.
  intros Hm H. pose proof (Zdigits2_bounds m Hm) as [Hlo _].
  pose proof (Zdigits2_nonneg m).
  pose proof (Zdigits2_pos m Hm).
  pose proof (F2R_ge_bpow m e (Zdigits2 m - 1) ltac:(lia) Hlo) as Hge.
  destruct (Z_lt_le_dec K (Zdigits2 m + e)) as [Hgt|]; [|assumption].
  exfalso. assert (bpow K <= bpow (Zdigits2 m - 1 + e))%R by (apply bpow_le; lia).
  lra.
Qed.

Lemma floor_scaled (mx n ex : Z) :
  0 <= mx -> 0 <= n ->
  (F2R (mx / 2 ^ n) (ex + n) <= F2R mx ex < F2R (mx / 2 ^ n + 1) (ex + n))%R.
Proof.
  intros Hm Hn.
  assert (0 < 2 ^ n) by (apply Z.pow_pos_nonneg; lia).
  pose proof (Z.mul_div_le mx (2 ^ n) ltac:(lia)).
  pose proof (Z.mul_succ_div_gt mx (2 ^ n) ltac:(lia)).
  rewrite <- (F2R_shift (mx / 2 ^ n) (ex + n) n) by assumption.
  rewrite <- (F2R_shift (mx / 2 ^ n + 1) (ex + n) n) by assumption.
  replace (ex + n - n) with ex by lia.
  split; [apply F2R_le | apply F2R_lt]; lia.
Qed.

Lemma pack_finite (s : bool) (mr E : Z) :
  0 <= mr <= 2 ^ 53 -> E < 971 -> is_finite (pack s mr E) = true.
Proof.
  intros Hm HE. unfold pack.
  destruct (mr =? 0); [reflexivity|].
  destruct (mr <? 2 ^ 53).
  - replace (E <=? 971) with true by lia. reflexivity.
  - replace (E + 1 <=? 971) with true by lia. reflexivity.
Qed.

Lemma cond_Zopp_0 (s : bool) : cond_Zopp s 0 = 0.
Proof. destruct s; reflexivity. Qed.

Lemma F2R_cond_Zopp (s : bool) (m e : Z) :
  F2R (cond_Zopp s m) e = (if s then - F2R m e else F2R m e)%R.
Proof. destruct s; simpl; [apply F2R_opp | reflexivity]. Qed.

Lemma pack_value (s : bool) (mr E : Z) :
  0 <= mr <= 2 ^ 53 -> E < 971 -> B2R (pack s mr E) = F2R (cond_Zopp s mr) E.
Proof.
  intros Hm HE. unfold pack.
  destruct (Z.eqb_spec mr 0) as [->|Hnz].
  { rewrite cond_Zopp_0, F2R_0. reflexivity. }
  destruct (Z.ltb_spec mr (2 ^ 53)) as [Hlt|Hge].
  - replace (E <=? 971) with true by lia. simpl.
    rewrite Z2Pos.id by lia. reflexivity.
  - replace (E + 1 <=? 971) with true by lia.
    assert (mr = 2 ^ 53) as -> by lia. unfold B2R.
    rewrite !F2R_cond_Zopp.
    replace (F2R (Z.pos (Z.to_pos (2 ^ 52))) (E + 1)) with (F2R (2 ^ 53) E);
      [reflexivity|].
    rewrite <- (F2R_shift (Z.pos (Z.to_pos (2 ^ 52))) (E + 1) 1) by lia.
    f_equal. lia.
Qed.

(** Well-formed floats: at most 53 digits, exponent at least the minimum. *)
Definition wf (x : spec_float) : Prop :=
  match x with
  | S754_finite _ m e => Zpos m < 2 ^ 53 /\ -1074 <= e
  | _ => True
  end.

Lemma pack_wf (s : bool) (mr E : Z) :
  0 <= mr <= 2 ^ 53 -> -1074 <= E -> wf (pack s mr E).
Proof.
  intros Hm HE. unfold pack.
  destruct (Z.eqb_spec mr 0); [exact I|].
  destruct (Z.ltb_spec mr (2 ^ 53)).
  - destruct (E <=? 971); [|exact I]. simpl. rewrite Z2Pos.id by lia. lia.
  - destruct (E + 1 <=? 971); [|exact I]. simpl. lia.
Qed.

Lemma rnd_E_ge (mx ex : Z) : -1074 <= rnd_E mx ex /\ ex <= rnd_E mx ex.
Proof. unfold rnd_E. rewrite fexp_eq. lia. Qed.

Definition ulp_exp (K : Z) : Z := Z.max (K - 53) (-1074).

(** The rounding step on an exact location: the result is within one unit
    in the last place of the exact value, is exact when no bit is shifted
    out, and keeps the sign. *)
Lemma bra_spec (s : bool) (mx ex K : Z) :
  0 < mx -> (F2R mx ex < bpow K)%R -> K <= 971 ->
  let x := binary_round_aux prec emax s mx ex loc_Exact in
  is_finite x = true /\ wf x /\
  (Rabs (B2R x - F2R (cond_Zopp s mx) ex) <= bpow (ulp_exp K))%R /\
  (rnd_E mx ex = ex -> B2R x = F2R (cond_Zopp s mx) ex) /\
  (if s then B2R x <= 0 else 0 <= B2R x)%R.
Proof.
  intros Hm0 HK HK'. cbv zeta. assert (0 <= mx) as Hm by lia.
  destruct (bra_cases s mx ex loc_Exact Hm) as (mr & Hmr & Hr & Hex & ->).
  pose proof (rnd_E_ge mx ex) as [HEmin HEex].
  set (E := rnd_E mx ex) in *.
  assert (E < 971 /\ (E = ex \/ E <= ulp_exp K)) as [HE HEK].
  { pose proof (digits_of_bound mx ex K Hm0 HK) as Hd.
    pose proof (Zdigits2_pos mx Hm0).
    assert (ex < K).
    { pose proof (F2R_ge_bpow mx ex 0 ltac:(lia) ltac:(simpl; lia)) as Hge.
      simpl in Hge. destruct (Z_lt_le_dec ex K); [assumption|].
      pose proof (bpow_le K ex ltac:(lia)). lra. }
    unfold E, rnd_E, ulp_exp. rewrite fexp_eq.
    revert Hd H H0 HK'. generalize (Zdigits2 mx). clear. intros. lia. }
  split; [apply pack_finite; assumption|].
  split; [apply pack_wf; [assumption|lia]|].
  rewrite pack_value by assumption.
  pose proof (floor_scaled mx (E - ex) ex Hm ltac:(lia)) as Hfl.
  replace (ex + (E - ex)) with E in Hfl by lia.
  rewrite !F2R_cond_Zopp.
  assert (0 <= F2R mr E)%R as Hpos.
  { rewrite <- (F2R_0 E). apply F2R_le. lia. }
  assert (F2R (mx / 2 ^ (E - ex) + 1) E = F2R (mx / 2 ^ (E - ex)) E + bpow E)%R as Hsucc.
  { unfold F2R. rewrite plus_IZR. lra. }
  assert (E = ex -> F2R mr E = F2R mx ex) as Hexact.
  { intros HE'. rewrite (Hex eq_refl HE'), HE'. reflexivity. }
  assert (Rabs (F2R mr E - F2R mx ex) <= bpow (ulp_exp K))%R as Habs.
  { destruct HEK as [HE'|HE'].
    - rewrite (Hexact HE'). replace (_ - _)%R with 0%R by lra.
      rewrite Rabs_R0. left. apply bpow_pos.
    - pose proof (bpow_le _ _ HE'). apply Rabs_le.
      destruct Hmr as [-> | ->]; lra. }
  split; [|split].
  - destruct s; [|assumption].
    replace (- F2R mr E - - F2R mx ex)%R with (- (F2R mr E - F2R mx ex))%R by lra.
    rewrite Rabs_Ropp. assumption.
  - intros HE'. rewrite (Hexact HE'). reflexivity.
  - destruct s; lra.
Qed.

Lemma iter_xO (m d : positive) : Zpos (Pos.iter xO m d) = Zpos m * 2 ^ Zpos d.
Proof.
  induction d as [|d IH] using Pos.peano_ind.
  - simpl. lia.
  - rewrite Pos.iter_succ, Pos2Z.inj_xO, IH, Pos2Z.inj_succ, Z.pow_succ_r by lia.
    lia.
Qed.

Lemma Zdigits2_shift (m d : Z) : 0 < m -> 0 <= d -> Zdigits2 (m * 2 ^ d) = Zdigits2 m + d.
Proof.
  intros Hm Hd.
  assert (0 < 2 ^ d) by (apply Z.pow_pos_nonneg; lia).
  rewrite !Zdigits2_log2 by nia.
  rewrite Z.log2_mul_pow2 by lia. lia.
Qed.

Lemma shl_align_spec (mx : positive) (ex ex' : Z) :
  let '(m', e') := shl_align mx ex ex' in
  e' = Z.min ex ex' /\ Zpos m' = Zpos mx * 2 ^ (ex - e').
Proof.
  unfold shl_align. destruct (ex' - ex) as [|p|p] eqn:E.
  - split; [lia|]. rewrite Z.sub_diag. lia.
  - split; [lia|]. rewrite Z.sub_diag. lia.
  - split; [lia|]. rewrite iter_xO. f_equal. f_equal. lia.
Qed.

Lemma shl_align_value (mx : positive) (ex ex' : Z) :
  let '(m', e') := shl_align mx ex ex' in
  F2R (Zpos m') e' = F2R (Zpos mx) ex.
Proof.
  pose proof (shl_align_spec mx ex ex') as H.
  destruct (shl_align mx ex ex') as [m' e']. destruct H as [He Hm].
  rewrite Hm. replace e' with (ex - (ex - e')) at 2 by lia.
  apply F2R_shift. lia.
Qed.

Lemma fst_shl_align (mx : positive) (ex ez : Z) :
  ez <= ex -> Zpos (fst (shl_align mx ex ez)) = Zpos mx * 2 ^ (ex - ez).
Proof.
  intros H. pose proof (shl_align_spec mx ex ez) as Hs.
  destruct (shl_align mx ex ez) as [m' e']. destruct Hs as [He Hm].
  simpl. rewrite Hm. assert (e' = ez) as -> by lia. reflexivity.
Qed.

(** A mantissa of at most 53 digits at an exponent not below the minimum
    is representable. *)
Definition fits (m e : Z) : Prop := Z.abs m < 2 ^ 53 /\ -1074 <= e.

Definition sign_ok (v x : R) : Prop :=
  ((0 <= v)%R -> (0 <= x)%R) /\ ((v <= 0)%R -> (x <= 0)%R).

Lemma binary_round_spec (s : bool) (mx : positive) (ex K : Z) :
  (F2R (Zpos mx) ex < bpow K)%R -> K <= 971 ->
  let x := binary_round prec emax s mx ex in
  is_finite x = true /\ wf x /\
  (Rabs (B2R x - F2R (cond_Zopp s (Zpos mx)) ex) <= bpow (ulp_exp K))%R /\
  (fits (Zpos mx) ex -> B2R x = F2R (cond_Zopp s (Zpos mx)) ex) /\
  (if s then B2R x <= 0 else 0 <= B2R x)%R.
Proof.
  intros HK HK'. cbv zeta. unfold binary_round.
  pose proof (shl_align_spec mx ex (fexp prec emax (Zpos (digits2_pos mx) + ex))) as Hs.
  pose proof (shl_align_value mx ex (fexp prec emax (Zpos (digits2_pos mx) + ex))) as Hv.
  destruct (shl_align mx ex _) as [mz ez]. destruct Hs as [He Hm].
  assert (F2R (cond_Zopp s (Zpos mz)) ez = F2R (cond_Zopp s (Zpos mx)) ex) as Hv'.
  { rewrite !F2R_cond_Zopp, Hv. reflexivity. }
  rewrite <- Hv in HK.
  destruct (bra_spec s (Zpos mz) ez K ltac:(lia) HK HK') as (Hf & Hwf & Habs & Hex & Hsg).
  rewrite Hv' in Habs, Hex.
  repeat split; try assumption.
  intros [Hfm Hfe]. apply Hex.
  unfold rnd_E. rewrite Hm, Zdigits2_shift by lia.
  change (Zdigits2 (Z.pos mx)) with (Zpos (digits2_pos mx)).
  assert (Zdigits2 (Zpos mx) <= 53) as Hd by (apply Zdigits2_lt_pow; lia).
  change (Zdigits2 (Z.pos mx)) with (Zpos (digits2_pos mx)) in Hd.
  rewrite fexp_eq in *. lia.
Qed.

Lemma binary_normalize_spec (m e K : Z) (sz : bool) :
  (Rabs (F2R m e) < bpow K)%R -> K <= 971 ->
  let x := binary_normalize prec emax m e sz in
  is_finite x = true /\ wf x /\
  (Rabs (B2R x - F2R m e) <= bpow (ulp_exp K))%R /\
  (fits m e -> B2R x = F2R m e) /\
  sign_ok (F2R m e) (B2R x).
Proof.
  intros HK HK'. cbv zeta. unfold sign_ok.
  destruct m as [|p|p]; simpl binary_normalize.
  - rewrite F2R_0. simpl. replace (0 - 0)%R with 0%R by lra. rewrite Rabs_R0.
    repeat split; try reflexivity; try lra. left. apply bpow_pos.
  - assert (0 < F2R (Zpos p) e)%R as Hpos.
    { rewrite <- (F2R_0 e). apply F2R_lt. lia. }
    rewrite Rabs_pos_eq in HK by lra.
    destruct (binary_round_spec false p e K HK HK') as (Hf & Hwf & Habs & Hex & Hsg).
    simpl in *. repeat split; try assumption; lra.
  - assert (0 < F2R (Zpos p) e)%R as Hpos.
    { rewrite <- (F2R_0 e). apply F2R_lt. lia. }
    change (Z.neg p) with (- Zpos p) in *. rewrite F2R_opp in *.
    rewrite Rabs_Ropp, Rabs_pos_eq in HK by lra.
    destruct (binary_round_spec true p e K HK HK') as (Hf & Hwf & Habs & Hex & Hsg).
    rewrite F2R_cond_Zopp in Habs, Hex.
    repeat split; try assumption; try lra.
Qed.

Lemma B2R_finite (s : bool) (m : positive) (e : Z) :
  B2R (S754_finite s m e) = F2R (cond_Zopp s (Zpos m)) e.
Proof. reflexivity. Qed.

Lemma Rabs_0_le_bpow (e : Z) : (Rabs (0 - 0) <= bpow e)%R.
Proof.
  replace (0 - 0)%R with 0%R by lra. rewrite Rabs_R0. left. apply bpow_pos.
Qed.

Lemma Rabs_self_le_bpow (x : R) (e : Z) : (Rabs (x - x) <= bpow e)%R.
Proof.
  replace (x - x)%R with 0%R by lra. rewrite Rabs_R0. left. apply bpow_pos.
Qed.

Lemma sign_ok_refl (x : R) : sign_ok x x.
Proof. split; auto. Qed.

(** The sum of two aligned mantissas is the sum of the values. *)
Lemma aligned_sum (sx sy : bool) (mx my : positive) (ex ey : Z) :
  let ez := Z.min ex ey in
  F2R (cond_Zopp sx (Zpos (fst (shl_align mx ex ez))) +
       cond_Zopp sy (Zpos (fst (shl_align my ey ez)))) ez
  = (B2R (S754_finite sx mx ex) + B2R (S754_finite sy my ey))%R.
Proof.
  cbv zeta. rewrite F2R_plus, !B2R_finite, !F2R_cond_Zopp.
  rewrite !fst_shl_align by lia.
  replace (F2R (Z.pos mx * 2 ^ (ex - Z.min ex ey)) (Z.min ex ey))
    with (F2R (Z.pos mx) ex).
  2:{ rewrite <- (F2R_shift (Zpos mx) ex (ex - Z.min ex ey)) by lia.
      f_equal. lia. }
  replace (F2R (Z.pos my * 2 ^ (ey - Z.min ex ey)) (Z.min ex ey))
    with (F2R (Z.pos my) ey).
  2:{ rewrite <- (F2R_shift (Zpos my) ey (ey - Z.min ex ey)) by lia.
      f_equal. lia. }
  reflexivity.
Qed.

Lemma cond_Zopp_negb (s : bool) (m : Z) : cond_Zopp (negb s) m = - cond_Zopp s m.
Proof. destruct s; simpl; lia. Qed.

Lemma B2R_opp (x : spec_float) : B2R (SFopp x) = (- B2R x)%R.
Proof.
  destruct x as [s|s| |s m e]; simpl; try lra.
  rewrite cond_Zopp_negb, F2R_opp. reflexivity.
Qed.

(** Addition: finite operands whose exact sum is below [2^K] give a finite
    result within one unit in the last place of the exact sum. *)
Lemma add_spec (x y : spec_float) (K : Z) :
  is_finite x = true -> is_finite y = true -> wf x -> wf y ->
  (Rabs (B2R x + B2R y) < bpow K)%R -> K <= 971 ->
  is_finite (add x y) = true /\ wf (add x y) /\
  (Rabs (B2R (add x y) - (B2R x + B2R y)) <= bpow (ulp_exp K))%R /\
  sign_ok (B2R x + B2R y) (B2R (add x y)).
Proof.
  intros Hfx Hfy Hwx Hwy HK HK'.
  destruct x as [sx|sx| |sx mx ex]; try discriminate;
    destruct y as [sy|sy| |sy my ey]; try discriminate.
  - assert (B2R (add (S754_zero sx) (S754_zero sy)) = 0%R) as Hz
        by (destruct sx, sy; reflexivity).
    assert (is_finite (add (S754_zero sx) (S754_zero sy)) = true) as Hf
        by (destruct sx, sy; reflexivity).
    assert (wf (add (S754_zero sx) (S754_zero sy))) as Hw
        by (destruct sx, sy; exact I).
    rewrite Hz. simpl B2R. replace (0 + 0)%R with 0%R by lra.
    split; [assumption|]. split; [assumption|].
    split; [apply Rabs_0_le_bpow | apply sign_ok_refl].
  - simpl add. simpl (B2R (S754_zero sx)). rewrite Rplus_0_l.
    split; [assumption|]. split; [assumption|].
    split; [apply Rabs_self_le_bpow | apply sign_ok_refl].
  - simpl add. simpl (B2R (S754_zero sy)). rewrite Rplus_0_r.
    split; [assumption|]. split; [assumption|].
    split; [apply Rabs_self_le_bpow | apply sign_ok_refl].
  - unfold add, SFadd. rewrite <- aligned_sum in *. cbv zeta in *.
    destruct (binary_normalize_spec _ _ K false HK HK') as (Hf & Hw & Ha & _ & Hs).
    split; [assumption|]. split; [assumption|]. split; assumption.
Qed.

Lemma aligned_diff (sx sy : bool) (mx my : positive) (ex ey : Z) :
  let ez := Z.min ex ey in
  F2R (cond_Zopp sx (Zpos (fst (shl_align mx ex ez))) -
       cond_Zopp sy (Zpos (fst (shl_align my ey ez)))) ez
  = (B2R (S754_finite sx mx ex) - B2R (S754_finite sy my ey))%R.
Proof.
  cbv zeta.
  pose proof (aligned_sum sx (negb sy) mx my ex ey) as H. cbv zeta in H.
  rewrite cond_Zopp_negb in H.
  replace (B2R (S754_finite (negb sy) my ey)) with (- B2R (S754_finite sy my ey))%R in H.
  2:{ rewrite <- B2R_opp. reflexivity. }
  rewrite <- Z.add_opp_r. rewrite H. lra.
Qed.

Lemma sub_spec (x y : spec_float) (K : Z) :
  is_finite x = true -> is_finite y = true -> wf x -> wf y ->
  (Rabs (B2R x - B2R y) < bpow K)%R -> K <= 971 ->
  is_finite (sub x y) = true /\ wf (sub x y) /\
  (Rabs (B2R (sub x y) - (B2R x - B2R y)) <= bpow (ulp_exp K))%R /\
  sign_ok (B2R x - B2R y) (B2R (sub x y)).
Proof.
  intros Hfx Hfy Hwx Hwy HK HK'.
  destruct x as [sx|sx| |sx mx ex]; try discriminate;
    destruct y as [sy|sy| |sy my ey]; try discriminate.
  - assert (B2R (sub (S754_zero sx) (S754_zero sy)) = 0%R) as Hz
        by (destruct sx, sy; reflexivity).
    assert (is_finite (sub (S754_zero sx) (S754_zero sy)) = true) as Hf
        by (destruct sx, sy; reflexivity).
    assert (wf (sub (S754_zero sx) (S754_zero sy))) as Hw
        by (destruct sx, sy; exact I).
    rewrite Hz. simpl B2R. replace (0 - 0)%R with 0%R by lra.
    split; [assumption|]. split; [assumption|].
    split; [apply Rabs_0_le_bpow | apply sign_ok_refl].
  - simpl sub. simpl (B2R (S754_zero sx)).
    change (S754_finite (negb sy) my ey) with (SFopp (S754_finite sy my ey)).
    rewrite B2R_opp. replace (0 - B2R (S754_finite sy my ey))%R
      with (- B2R (S754_finite sy my ey))%R by lra.
    split; [assumption|]. split; [assumption|].
    split; [apply Rabs_self_le_bpow | apply sign_ok_refl].
  - simpl sub. simpl (B2R (S754_zero sy)). rewrite Rminus_0_r.
    split; [assumption|]. split; [assumption|].
    split; [apply Rabs_self_le_bpow | apply sign_ok_refl].
  - unfold sub, SFsub. rewrite <- aligned_diff in *. cbv zeta in *.
    destruct (binary_normalize_spec _ _ K false HK HK') as (Hf & Hw & Ha & _ & Hs).
    split; [assumption|]. split; [assumption|]. split; assumption.
Qed.

Lemma cond_Zopp_xorb (sx sy : bool) (mx my : Z) :
  cond_Zopp (xorb sx sy) (mx * my) = cond_Zopp sx mx * cond_Zopp sy my.
Proof. destruct sx, sy; simpl; lia. Qed.

Lemma F2R_mult (m1 m2 e1 e2 : Z) :
  F2R (m1 * m2) (e1 + e2) = (F2R m1 e1 * F2R m2 e2)%R.
Proof. unfold F2R. rewrite mult_IZR, bpow_add. lra. Qed.

Lemma mul_spec (x y : spec_float) (K : Z) :
  is_finite x = true -> is_finite y = true ->
  (Rabs (B2R x * B2R y) < bpow K)%R -> K <= 971 ->
  is_finite (mul x y) = true /\ wf (mul x y) /\
  (Rabs (B2R (mul x y) - B2R x * B2R y) <= bpow (ulp_exp K))%R /\
  sign_ok (B2R x * B2R y) (B2R (mul x y)).
Proof.
  intros Hfx Hfy HK HK'.
  destruct x as [sx|sx| |sx mx ex]; try discriminate;
    destruct y as [sy|sy| |sy my ey]; try discriminate;
    try (simpl; rewrite ?Rmult_0_l, ?Rmult_0_r;
         split; [reflexivity|]; split; [exact I|];
         split; [apply Rabs_0_le_bpow | apply sign_ok_refl]).
  unfold mul, SFmul. rewrite !B2R_finite in *.
  rewrite <- F2R_mult, <- cond_Zopp_xorb in *.
  rewrite F2R_cond_Zopp in HK.
  assert (0 < F2R (Z.pos mx * Z.pos my) (ex + ey))%R as Hpos.
  { rewrite <- (F2R_0 (ex + ey)). apply F2R_lt. lia. }
  assert (F2R (Z.pos mx * Z.pos my) (ex + ey) < bpow K)%R as HK2.
  { destruct (xorb sx sy); [rewrite Rabs_Ropp in HK|];
      rewrite Rabs_pos_eq in HK by lra; assumption. }
  change (Z.pos (mx * my)) with (Z.pos mx * Z.pos my).
  destruct (bra_spec (xorb sx sy) (Z.pos mx * Z.pos my) (ex + ey) K ltac:(lia) HK2 HK')
    as (Hf & Hw & Ha & _ & Hs).
  split; [assumption|]. split; [assumption|]. split; [assumption|].
  rewrite F2R_cond_Zopp. unfold sign_ok. destruct (xorb sx sy); lra.
Qed.

(** * Conversions and comparisons *)

Lemma Rabs_lt (a b : R) : (- b < a < b)%R -> (Rabs a < b)%R.
Proof. intros [H1 H2]. apply Rabs_def1; assumption. Qed.

Lemma Rabs_le_inv (a b : R) : (Rabs a <= b)%R -> (- b <= a <= b)%R.
Proof. unfold Rabs. destruct (Rcase_abs a); lra. Qed.


Lemma valid_wf (x : float) : valid_binary prec emax x = true -> wf x.
Proof.
  destruct x as [s|s| |s m e]; try (intros; exact I).
  unfold valid_binary, wf, bounded, canonical_mantissa. rewrite fexp_eq.
  intros H. apply andb_prop in H as [Hc _]. apply Z.eqb_eq in Hc.
  pose proof (Zdigits2_bounds (Zpos m) ltac:(lia)) as [_ Hd].
  change (Zdigits2 (Zpos m)) with (Zpos (digits2_pos m)) in Hd.
  assert (Zpos (digits2_pos m) <= 53) as Hle by lia.
  split; [|lia].
  eapply Z.lt_le_trans; [exact Hd|]. apply Z.pow_le_mono_r; lia.
Qed.

Lemma Rabs_IZR_lt (z k : Z) : Z.abs z < k -> (Rabs (IZR z) < IZR k)%R.
Proof. intros H. rewrite <- abs_IZR. apply IZR_lt. assumption. Qed.

Lemma F2R_e0 (z : Z) : F2R z 0 = IZR z.
Proof. unfold F2R. rewrite bpow_0. lra. Qed.

Lemma of_Z_exact (z : Z) :
  Z.abs z < 2 ^ 53 ->
  is_finite (of_Z z) = true /\ wf (of_Z z) /\ B2R (of_Z z) = IZR z.
Proof.
  intros Hz. unfold of_Z.
  assert (Rabs (F2R z 0) < bpow 53)%R as HK.
  { rewrite F2R_e0, <- IZR_pow2 by lia. apply Rabs_IZR_lt. assumption. }
  destruct (binary_normalize_spec z 0 53 false HK ltac:(lia)) as (Hf & Hw & _ & Hex & _).
  split; [assumption|]. split; [assumption|].
  rewrite Hex, F2R_e0; [reflexivity|]. split; [assumption|lia].
Qed.

Lemma of_int_exact (z : Z) :
  Z.abs z < 2 ^ 53 ->
  of_int z = Ok (of_Z z) /\
  is_finite (of_Z z) = true /\ wf (of_Z z) /\ B2R (of_Z z) = IZR z.
Proof.
  intros Hz. destruct (of_Z_exact z Hz) as (Hf & Hw & Hv).
  split; [|auto]. unfold of_int. destruct (of_Z z); try reflexivity; discriminate.
Qed.

(** [int(x)] lies between zero and [x]. *)
Lemma to_int_spec (x : float) :
  is_finite x = true ->
  exists n, to_int x = Ok n /\
    ((0 <= B2R x)%R -> (IZR n <= B2R x < IZR n + 1)%R) /\
    ((B2R x <= 0)%R -> (IZR n - 1 < B2R x <= IZR n)%R).
Proof.
  destruct x as [s|s| |s m e]; try discriminate; intros _.
  - exists 0. simpl. repeat split; lra.
  - set (a := match e with
              | Zneg p => Zpos m / 2 ^ Zpos p
              | _ => Zpos m * 2 ^ e
              end).
    assert (IZR a <= F2R (Zpos m) e < IZR a + 1)%R as Ha.
    { unfold a. destruct e as [|p|p].
      - rewrite F2R_e0. replace (Z.pos m * 2 ^ 0) with (Z.pos m) by lia. lra.
      - rewrite <- (F2R_shift (Zpos m) (Zpos p) (Zpos p)) by lia.
        rewrite Z.sub_diag, F2R_e0. lra.
      - pose proof (floor_scaled (Zpos m) (Zpos p) (Zneg p) ltac:(lia) ltac:(lia)) as H.
        replace (Z.neg p + Z.pos p) with 0 in H by lia.
        rewrite !F2R_e0, plus_IZR in H. lra. }
    assert (0 < F2R (Zpos m) e)%R as Hpos.
    { rewrite <- (F2R_0 e). apply F2R_lt. lia. }
    exists (if s then - a else a). split; [reflexivity|].
    rewrite B2R_finite, F2R_cond_Zopp.
    destruct s; [rewrite opp_IZR|]; split; intros; lra.
Qed.

Lemma one_eq : one = S754_finite false 4503599627370496 (-52).
Proof. reflexivity. Qed.

Lemma B2R_one : B2R one = 1%R.
Proof. destruct (of_Z_exact 1 ltac:(simpl; lia)) as (_ & _ & H). exact H. Qed.

Lemma wf_one : wf one.
Proof. rewrite one_eq. simpl. lia. Qed.

(** A well-formed float that compares below 1.0 has a value below 1. *)
Lemma ltb_one_value (s : bool) (m : positive) (e : Z) :
  wf (S754_finite s m e) -> ltb (S754_finite s m e) one = true ->
  (B2R (S754_finite s m e) < 1)%R.
Proof.
  intros [Hm He] H. rewrite B2R_finite, F2R_cond_Zopp.
  assert (0 < F2R (Zpos m) e)%R as Hpos.
  { rewrite <- (F2R_0 e). apply F2R_lt. lia. }
  destruct s; [lra|].
  rewrite one_eq in H. unfold ltb, SFltb, SFcompare in H.
  destruct (Z.compare_spec e (-52)) as [->|Hlt|Hgt]; try discriminate.
  - pose proof (Pos.compare_spec m 4503599627370496) as Hs.
    unfold Pos.compare in Hs. destruct Hs as [Hc|Hc|Hc]; try discriminate.
    apply Pos2Z.pos_lt_pos in Hc.
    assert (Zpos m < 2 ^ 52) by (change (2 ^ 52) with 4503599627370496; exact Hc).
    pose proof (F2R_lt_bpow (Zpos m) (-52) 52 ltac:(lia) H0) as Hb.
    simpl (52 + -52) in Hb. rewrite bpow_0 in Hb. exact Hb.
  - pose proof (F2R_lt_bpow (Zpos m) e 53 ltac:(lia) Hm) as Hb.
    pose proof (bpow_le (53 + e) 0 ltac:(lia)) as Hle. rewrite bpow_0 in Hle. lra.
Qed.

Definition unit_float (a : float) : Prop :=
  is_finite a = true /\ wf a /\ (0 <= B2R a <= 1)%R.

Lemma unit_zero : unit_float zero.
Proof. repeat split; simpl; lra. Qed.

Lemma unit_one : unit_float one.
Proof. split; [reflexivity|]. split; [apply wf_one|]. rewrite B2R_one. lra. Qed.

(** [max(0.0, min(1.0, v))] is a float between 0 and 1, whatever [v]. *)
Lemma clamp_unit (v : float) : wf v -> unit_float (py_max zero (py_min one v)).
Proof.
  intros Hw. unfold py_min.
  destruct (ltb v one) eqn:H1.
  - unfold py_max. destruct (ltb zero v) eqn:H0; [|apply unit_zero].
    destruct v as [s|s| |s m e]; try discriminate.
    + destruct s; discriminate.
    + destruct s; [discriminate|].
      pose proof (ltb_one_value false m e Hw H1) as Hlt.
      split; [reflexivity|]. split; [assumption|].
      rewrite B2R_finite in *. simpl cond_Zopp in *.
      assert (0 < F2R (Zpos m) e)%R.
      { rewrite <- (F2R_0 e). apply F2R_lt. lia. }
      lra.
  - unfold py_max. change (ltb zero one) with true. apply unit_one.
Qed.

(** * Blending keeps a channel in range *)

Lemma bpow_m10 : bpow (-10) = (/ 1024)%R.
Proof. unfold bpow. simpl. lra. Qed.

Lemma ulp_small (K : Z) : K <= 43 -> (bpow (ulp_exp K) <= / 1024)%R.
Proof.
  intros H. rewrite <- bpow_m10. apply bpow_le. unfold ulp_exp. lia.
Qed.

Lemma bpow_nat (k : Z) (n : Z) : 0 <= k -> n = 2 ^ k -> bpow k = IZR n.
Proof. intros Hk ->. symmetry. apply IZR_pow2. assumption. Qed.

Lemma chan8_IZR (v : Z) : chan8 v -> (0 <= IZR v <= 255)%R.
Proof. unfold chan8. intros [H0 H1]. split; apply IZR_le; assumption. Qed.

Lemma chan8_abs (v : Z) : chan8 v -> Z.abs v < 2 ^ 53.
Proof. unfold chan8. intros H. change (2 ^ 53) with 9007199254740992. lia. Qed.

Lemma prod_bound (x y a b : R) :
  (0 <= x <= a)%R -> (0 <= y <= b)%R -> (0 <= x * y <= a * b)%R.
Proof.
  intros [Hx0 Hxa] [Hy0 Hyb]. split.
  - apply Rmult_le_pos; assumption.
  - apply Rmult_le_compat; assumption.
Qed.

(** A convex combination of two channels, with the weight of the first
    over-estimated by [u]. *)
Lemma convex_bound (D S A I u : R) :
  (0 <= D <= 255)%R -> (0 <= S <= 255)%R -> (0 <= A <= 1)%R ->
  (0 <= I <= 1 - A + u)%R -> (0 <= u)%R ->
  (0 <= D * I + S * A <= 255 + 255 * u)%R.
Proof.
  intros HD HS HA HI Hu.
  pose proof (prod_bound D I 255 (1 - A + u) HD HI) as H1.
  pose proof (prod_bound S A 255 A HS ltac:(lra)) as H2.
  lra.
Qed.

Lemma blend_chan_range (d s : Z) (a : float) :
  chan8 d -> chan8 s -> unit_float a ->
  exists v, blend_chan d s (sub one a) a = Ok v /\ chan8 v.
Proof.
  intros Hd Hs (Hfa & Hwa & HA).
  destruct (of_int_exact d (chan8_abs d Hd)) as (Hod & Hfd & Hwd & Hvd).
  destruct (of_int_exact s (chan8_abs s Hs)) as (Hos & Hfs & Hws & Hvs).
  pose proof (chan8_IZR d Hd) as HD. pose proof (chan8_IZR s Hs) as HS.
  unfold blend_chan. rewrite Hod, Hos. cbn [bind].
  (* inv = 1.0 - a *)
  assert (Rabs (B2R one - B2R a) < bpow 1)%R as H1.
  { rewrite B2R_one, (bpow_nat 1 2) by (simpl; lia). apply Rabs_lt. lra. }
  destruct (sub_spec one a 1 eq_refl Hfa wf_one Hwa H1 ltac:(lia))
    as (Hfi & Hwi & Hei & Hsi).
  pose proof (ulp_small 1 ltac:(lia)) as Hu1.
  rewrite B2R_one in Hei, Hsi.
  apply Rabs_le_inv in Hei. destruct Hsi as [Hsi _].
  assert (0 <= 1 - B2R a)%R as HsiA by lra. specialize (Hsi HsiA).
  assert (0 <= B2R (sub one a) <= 1 - B2R a + / 1024)%R as HI by lra.
  clear Hei Hu1 HsiA H1.
  pose proof (prod_bound _ _ _ _ HD HI) as HP1.
  pose proof (prod_bound _ _ _ _ HS HA) as HP2.
  pose proof (convex_bound _ _ _ _ _ HD HS HA HI ltac:(lra)) as Hconv.
  (* the two products *)
  assert (Rabs (B2R (of_Z d) * B2R (sub one a)) < bpow 9)%R as H2.
  { rewrite Hvd, (bpow_nat 9 512) by (simpl; lia). apply Rabs_lt. lra. }
  destruct (mul_spec (of_Z d) (sub one a) 9 Hfd Hfi H2 ltac:(lia))
    as (Hf1 & Hw1 & He1 & Hs1).
  assert (Rabs (B2R (of_Z s) * B2R a) < bpow 9)%R as H3.
  { rewrite Hvs, (bpow_nat 9 512) by (simpl; lia). apply Rabs_lt. lra. }
  destruct (mul_spec (of_Z s) a 9 Hfs Hfa H3 ltac:(lia))
    as (Hf2 & Hw2 & He2 & Hs2).
  pose proof (ulp_small 9 ltac:(lia)) as Hu9.
  rewrite Hvd in He1, Hs1. rewrite Hvs in He2, Hs2.
  apply Rabs_le_inv in He1, He2.
  destruct Hs1 as [Hs1 _]. destruct Hs2 as [Hs2 _].
  specialize (Hs1 (proj1 HP1)). specialize (Hs2 (proj1 HP2)).
  clear H2 H3.
  (* their sum *)
  assert (Rabs (B2R (mul (of_Z d) (sub one a)) + B2R (mul (of_Z s) a))
          < bpow 10)%R as H4.
  { rewrite (bpow_nat 10 1024) by (simpl; lia). apply Rabs_lt. lra. }
  destruct (add_spec _ _ 10 Hf1 Hf2 Hw1 Hw2 H4 ltac:(lia))
    as (Hf3 & Hw3 & He3 & Hs3).
  pose proof (ulp_small 10 ltac:(lia)) as Hu10.
  apply Rabs_le_inv in He3. destruct Hs3 as [Hs3 _].
  assert (0 <= B2R (mul (of_Z d) (sub one a)) + B2R (mul (of_Z s) a))%R
    as Hs3A by lra.
  specialize (Hs3 Hs3A).
  destruct (to_int_spec _ Hf3) as (n & Hn & Hpos & _).
  specialize (Hpos Hs3).
  exists n. split; [exact Hn|]. unfold chan8.
  assert (-1 < IZR n < 256)%R as [Hlo Hhi] by lra.
  apply lt_IZR in Hlo, Hhi. lia.
Qed.

Lemma blend_over_color8 (dst src : Color) (alpha : float) :
  color8 dst -> color8 src -> wf alpha ->
  exists q, blend_over dst src alpha = Ok q /\ color8 q.
Proof.
  intros (Dr & Dg & Db) (Sr & Sg & Sb) Hw. unfold blend_over.
  pose proof (clamp_unit alpha Hw) as Hu.
  destruct (blend_chan_range _ _ _ Dr Sr Hu) as (vr & -> & Hr).
  destruct (blend_chan_range _ _ _ Dg Sg Hu) as (vg & -> & Hg).
  destruct (blend_chan_range _ _ _ Db Sb Hu) as (vb & -> & Hb).
  cbn [bind]. eexists. split; [reflexivity|]. unfold color8. simpl. auto.
Qed.

(** [lerp] between two 8-bit channels stays between them. *)
(** A point between two channels. *)
Lemma between_bound (S O T : R) :
  (0 <= S <= 255)%R -> (0 <= O <= 255)%R -> (0 <= T <= 1)%R ->
  (- 255 <= (O - S) * T <= 255)%R /\ (0 <= S + (O - S) * T <= 255)%R.
Proof.
  intros HS HO HT.
  pose proof (prod_bound O T 255 T HO ltac:(lra)) as H1.
  pose proof (prod_bound S (1 - T) 255 (1 - T) HS ltac:(lra)) as H2.
  pose proof (prod_bound S T 255 T HS ltac:(lra)) as H3.
  split; lra.
Qed.

Lemma lerp_chan_range (s o : Z) (t : float) :
  chan8 s -> chan8 o -> unit_float t ->
  exists v, lerp_chan s o t = Ok v /\ chan8 v.
Proof.
  intros Hs Ho (Hft & Hwt & HT).
  assert (Z.abs (o - s) < 2 ^ 53) as Hdabs.
  { unfold chan8 in *. change (2 ^ 53) with 9007199254740992. lia. }
  destruct (of_int_exact (o - s) Hdabs) as (Hod & Hfd & Hwd & Hvd).
  destruct (of_int_exact s (chan8_abs s Hs)) as (Hos & Hfs & Hws & Hvs).
  pose proof (chan8_IZR s Hs) as HS. pose proof (chan8_IZR o Ho) as HO.
  rewrite minus_IZR in Hvd.
  unfold lerp_chan. rewrite Hod, Hos. cbn [bind].
  destruct (between_bound _ _ _ HS HO HT) as [Hb1 Hb2].
  assert (Rabs (B2R (of_Z (o - s)) * B2R t) < bpow 9)%R as H2.
  { rewrite Hvd, (bpow_nat 9 512) by (simpl; lia). apply Rabs_lt. lra. }
  destruct (mul_spec (of_Z (o - s)) t 9 Hfd Hft H2 ltac:(lia))
    as (Hf1 & Hw1 & He1 & _).
  pose proof (ulp_small 9 ltac:(lia)) as Hu9.
  rewrite Hvd in He1. apply Rabs_le_inv in He1.
  assert (Rabs (B2R (of_Z s) + B2R (mul (of_Z (o - s)) t)) < bpow 10)%R as H4.
  { rewrite Hvs, (bpow_nat 10 1024) by (simpl; lia). apply Rabs_lt. lra. }
  destruct (add_spec _ _ 10 Hfs Hf1 Hws Hw1 H4 ltac:(lia))
    as (Hf3 & Hw3 & He3 & _).
  pose proof (ulp_small 10 ltac:(lia)) as Hu10.
  rewrite Hvs in He3. apply Rabs_le_inv in He3.
  destruct (to_int_spec _ Hf3) as (n & Hn & Hpos & Hneg).
  exists n. split; [exact Hn|]. unfold chan8.
  destruct (Rle_dec 0 (B2R (add (of_Z s) (mul (of_Z (o - s)) t)))) as [H0|H0].
  - specialize (Hpos H0).
    assert (-1 < IZR n < 256)%R as [Hlo Hhi] by lra.
    apply lt_IZR in Hlo, Hhi. lia.
  - assert (B2R (add (of_Z s) (mul (of_Z (o - s)) t)) <= 0)%R as HnegA by lra.
    specialize (Hneg HnegA).
    assert (-1 < IZR n < 1)%R as [Hlo Hhi] by lra.
    apply lt_IZR in Hlo, Hhi. lia.
Qed.

Lemma lerp_color8 (c1 c2 : Color) (t : float) :
  color8 c1 -> color8 c2 -> wf t ->
  exists q, lerp c1 c2 t = Ok q /\ color8 q.
Proof.
  intros (Ar & Ag & Ab) (Br & Bg & Bb) Hw. unfold lerp.
  pose proof (clamp_unit t Hw) as Hu.
  destruct (lerp_chan_range _ _ _ Ar Br Hu) as (vr & -> & Hr).
  destruct (lerp_chan_range _ _ _ Ag Bg Hu) as (vg & -> & Hg).
  destruct (lerp_chan_range _ _ _ Ab Bb Hu) as (vb & -> & Hb).
  cbn [bind]. eexists. split; [reflexivity|]. unfold color8. simpl. auto.
Qed.

Lemma Canvas_init_inv (w0 h0 : Z) (c : Color) :
  color8 c -> exists cv, Canvas_init w0 h0 c = Ok cv /\ canvas_inv cv.
Proof.
  intros Hc. eexists. split; [reflexivity|]. split; [|split].
  - unfold canvas_wf. simpl. apply repeat_length.
  - exact Hc.
  - simpl. apply Forall_forall. intros x Hx. apply repeat_spec in Hx. now subst.
Qed.

Lemma set_inv (cv : Canvas) (x y : Z) (c : Color) :
  canvas_inv cv -> color8 c ->
  exists cv', set cv x y c = Ok cv' /\ canvas_inv cv'.
Proof.
  intros (Hwf & Hbg & Hpx) Hc. unfold set.
  destruct (in_bounds cv x y) eqn:Hb.
  - pose proof (idx_in_range cv x y Hwf Hb) as Hi.
    rewrite list_set_nonneg by assumption. cbn [bind].
    eexists. split; [reflexivity|]. split; [|split].
    + unfold canvas_wf in *. simpl. now rewrite update_length.
    + exact Hbg.
    + simpl. apply Forall_update; assumption.
  - exists cv. split; [reflexivity|]. split; [assumption|]. split; assumption.
Qed.

Lemma seta_inv (cv : Canvas) (x y : Z) (c : Color) (a : float) :
  canvas_inv cv -> color8 c -> wf a ->
  exists cv', seta cv x y c a = Ok cv' /\ canvas_inv cv'.
Proof.
  intros (Hwf & Hbg & Hpx) Hc Ha. unfold seta.
  destruct (in_bounds cv x y) eqn:Hb.
  - pose proof (idx_in_range cv x y Hwf Hb) as Hi.
    destruct (list_get_nonneg (px cv) _ Hi) as (p & Hnth & ->). cbn [bind].
    assert (color8 p) as Hp.
    { rewrite Forall_forall in Hpx. apply Hpx.
      apply nth_error_In with (n := Z.to_nat (_idx cv x y)). exact Hnth. }
    destruct (blend_over_color8 p c a Hp Hc Ha) as (q & -> & Hq). cbn [bind].
    rewrite list_set_nonneg by assumption. cbn [bind].
    eexists. split; [reflexivity|]. split; [|split].
    + unfold canvas_wf in *. simpl. now rewrite update_length.
    + exact Hbg.
    + simpl. apply Forall_update; assumption.
  - exists cv. split; [reflexivity|]. split; [assumption|]. split; assumption.
Qed.

Lemma run_inv (ops : list op) (cv : Canvas) :
  canvas_inv cv -> Forall op_ok ops ->
  exists cv', run ops cv = Ok cv' /\ canvas_inv cv'.
Proof.
  intros Hinv Hops. revert cv Hinv.
  induction Hops as [|o ops Ho Hops IH]; intros cv Hinv.
  - exists cv. split; [reflexivity|assumption].
  - unfold run. simpl.
    assert (exists cv1, apply_op cv o = Ok cv1 /\ canvas_inv cv1)
      as (cv1 & -> & Hinv1).
    { destruct o as [x y c|x y c a]; simpl in *.
      - apply set_inv; assumption.
      - destruct Ho as [Hc Ha]. apply seta_inv; auto using valid_wf. }
    cbn [bind]. apply IH. assumption.
Qed.


(** * No exception in the circular icon pipeline *)

Section Platform.

(** Which neighbour the library's [pow] returns for an inexact square:
    nothing is assumed of it. *)
Variable pow_up : float -> bool.

(** * Rounding with any location, and closure of well-formedness *)

Lemma bra_wf (s : bool) (mx ex : Z) (lx : location) :
  0 <= mx -> wf (binary_round_aux prec emax s mx ex lx).
Proof.
  intros Hm. destruct (bra_cases s mx ex lx Hm) as (mr & _ & Hr & _ & ->).
  apply pack_wf; [assumption|]. apply rnd_E_ge.
Qed.

Lemma binary_normalize_wf (m e : Z) (sz : bool) :
  wf (binary_normalize prec emax m e sz).
Proof.
  destruct m as [|p|p]; simpl; try exact I;
    unfold binary_round; destruct (shl_align _ _ _) as [mz ez];
    apply bra_wf; lia.
Qed.

Lemma wf_opp (x : float) : wf x -> wf (SFopp x).
Proof. destruct x; simpl; auto. Qed.

Lemma add_wf (x y : float) : wf x -> wf y -> wf (add x y).
Proof.
  intros Hx Hy. destruct x as [sx|sx| |sx mx ex], y as [sy|sy| |sy my ey];
    try exact I; try assumption.
  - destruct sx, sy; exact I.
  - destruct sx, sy; exact I.
  - apply binary_normalize_wf.
Qed.

Lemma sub_wf (x y : float) : wf x -> wf y -> wf (sub x y).
Proof.
  intros Hx Hy. destruct x as [sx|sx| |sx mx ex], y as [sy|sy| |sy my ey];
    try exact I; try assumption.
  - destruct sx, sy; exact I.
  - destruct sx, sy; exact I.
  - apply binary_normalize_wf.
Qed.

Lemma mul_wf (x y : float) : wf (mul x y).
Proof.
  destruct x as [sx|sx| |sx mx ex], y as [sy|sy| |sy my ey]; try exact I.
  apply bra_wf. lia.
Qed.

Lemma sqrt_core_nonneg (m e : Z) :
  0 <= m -> 0 <= fst (fst (SFsqrt_core_binary prec emax m e)).
Proof.
  intros Hm. unfold SFsqrt_core_binary.
  set (m' := match _ with Z0 => m | Zpos _ => _ | Zneg _ => 0 end).
  pose proof (Z.sqrtrem_sqrt m') as Hs. pose proof (Z.sqrt_nonneg m') as Hn.
  destruct (Z.sqrtrem m') as [q r]. simpl in *. subst q. exact Hn.
Qed.

Lemma SFsqrt_wf (x : float) : wf x -> wf (SFsqrt prec emax x).
Proof.
  intros Hx. destruct x as [s|s| |s m e]; try (destruct s; exact I); try exact I.
  destruct s; [exact I|]. unfold SFsqrt.
  pose proof (sqrt_core_nonneg (Zpos m) e ltac:(lia)) as H.
  destruct (SFsqrt_core_binary prec emax (Zpos m) e) as [[mz ez] lz].
  simpl in H. apply bra_wf. exact H.
Qed.

(** Signs: a float that is neither a negative number nor minus infinity. *)
Definition not_neg (x : float) : bool :=
  match x with
  | S754_finite true _ _ | S754_infinity true => false
  | _ => true
  end.

Lemma pack_not_neg (mr E : Z) : not_neg (pack false mr E) = true.
Proof.
  unfold pack. destruct (mr =? 0); [reflexivity|].
  destruct (mr <? 2 ^ 53); [destruct (E <=? 971)|destruct (E + 1 <=? 971)];
    reflexivity.
Qed.

Lemma bra_not_neg (mx ex : Z) (lx : location) :
  0 <= mx -> not_neg (binary_round_aux prec emax false mx ex lx) = true.
Proof.
  intros Hm. destruct (bra_cases false mx ex lx Hm) as (mr & _ & _ & _ & ->).
  apply pack_not_neg.
Qed.

Lemma binary_normalize_not_neg (m e : Z) :
  0 <= m -> not_neg (binary_normalize prec emax m e false) = true.
Proof.
  intros Hm. destruct m as [|p|p]; try lia; [reflexivity|].
  simpl. unfold binary_round. destruct (shl_align _ _ _) as [mz ez].
  apply bra_not_neg. lia.
Qed.

Lemma add_not_neg (x y : float) :
  not_neg x = true -> not_neg y = true -> not_neg (add x y) = true.
Proof.
  intros Hx Hy. destruct x as [sx|sx| |sx mx ex], y as [sy|sy| |sy my ey];
    try reflexivity; try assumption; try discriminate.
  - destruct sx, sy; reflexivity.
  - destruct sx, sy; try discriminate; reflexivity.
  - destruct sx, sy; try discriminate.
    unfold add, SFadd. simpl cond_Zopp.
    apply binary_normalize_not_neg. lia.
Qed.

Lemma mul_self_not_neg (x : float) : not_neg (mul x x) = true.
Proof.
  destruct x as [s|s| |s m e]; try reflexivity.
  - destruct s; reflexivity.
  - unfold mul, SFmul. rewrite xorb_nilpotent. apply bra_not_neg. lia.
Qed.

Lemma sqrt_ok (x : float) :
  not_neg x = true -> sqrt x = Ok (SFsqrt prec emax x).
Proof.
  destruct x as [s|s| |s m e]; try reflexivity; destruct s;
    try discriminate; reflexivity.
Qed.


(** The rounding step whatever the location: within one unit of the last
    place of the truncated value. *)
Lemma bra_any (s : bool) (mx ex : Z) (lx : location) :
  0 <= mx -> rnd_E mx ex < 971 ->
  let x := binary_round_aux prec emax s mx ex lx in
  is_finite x = true /\ wf x /\
  (Rabs (B2R x - F2R (cond_Zopp s mx) ex) <= bpow (rnd_E mx ex))%R /\
  (if s then B2R x <= 0 else 0 <= B2R x)%R.
Proof.
  intros Hm HE. cbv zeta.
  destruct (bra_cases s mx ex lx Hm) as (mr & Hmr & Hr & _ & ->).
  pose proof (rnd_E_ge mx ex) as [HEmin HEex].
  set (E := rnd_E mx ex) in *.
  split; [apply pack_finite; assumption|].
  split; [apply pack_wf; [assumption|lia]|].
  rewrite pack_value by assumption.
  pose proof (floor_scaled mx (E - ex) ex Hm ltac:(lia)) as Hfl.
  replace (ex + (E - ex)) with E in Hfl by lia.
  rewrite !F2R_cond_Zopp.
  assert (0 <= F2R mr E)%R as Hpos.
  { rewrite <- (F2R_0 E). apply F2R_le. lia. }
  assert (F2R (mx / 2 ^ (E - ex) + 1) E
          = F2R (mx / 2 ^ (E - ex)) E + bpow E)%R as Hsucc.
  { unfold F2R. rewrite plus_IZR. lra. }
  assert (Rabs (F2R mr E - F2R mx ex) <= bpow E)%R as Habs.
  { apply Rabs_le. destruct Hmr as [-> | ->]; lra. }
  split.
  - destruct s; [|assumption].
    replace (- F2R mr E - - F2R mx ex)%R
      with (- (F2R mr E - F2R mx ex))%R by lra.
    rewrite Rabs_Ropp. assumption.
  - destruct s; lra.
Qed.

Lemma fexp_mono (a b : Z) : a <= b -> fexp prec emax a <= fexp prec emax b.
Proof. intros H. rewrite !fexp_eq. lia. Qed.

Lemma B2R_finite_pos (m : positive) (e : Z) : (0 < F2R (Zpos m) e)%R.
Proof. rewrite <- (F2R_0 e). apply F2R_lt. lia. Qed.

Lemma F2R_digits_lo (m : positive) (e : Z) :
  (bpow (Zdigits2 (Zpos m) - 1 + e) <= F2R (Zpos m) e)%R.
Proof.
  pose proof (Zdigits2_bounds (Zpos m) ltac:(lia)) as [Hlo _].
  pose proof (Zdigits2_pos (Zpos m) ltac:(lia)).
  apply F2R_ge_bpow; [lia|assumption].
Qed.

Lemma F2R_digits_hi (m : positive) (e : Z) :
  (F2R (Zpos m) e < bpow (Zdigits2 (Zpos m) + e))%R.
Proof.
  pose proof (Zdigits2_bounds (Zpos m) ltac:(lia)) as [_ Hhi].
  pose proof (Zdigits2_nonneg (Zpos m)).
  apply F2R_lt_bpow; [lia|assumption].
Qed.

(** The quotient of two positive floats, as the division core truncates
    it. *)
Lemma div_core_spec (mx my : positive) (ex ey K : Z) :
  (F2R (Zpos mx) ex / F2R (Zpos my) ey < bpow K)%R ->
  let '(q, e', l) := SFdiv_core_binary prec emax (Zpos mx) ex (Zpos my) ey in
  0 <= q /\ e' <= ulp_exp K /\
  (F2R q e' <= F2R (Zpos mx) ex / F2R (Zpos my) ey < F2R (q + 1) e')%R.
Proof.
  intros HK. unfold SFdiv_core_binary.
  set (d1 := Zdigits2 (Zpos mx)). set (d2 := Zdigits2 (Zpos my)).
  set (e' := Z.min (fexp prec emax (d1 + ex - (d2 + ey))) (ex - ey)).
  set (s := ex - ey - e').
  assert (0 <= s) as Hs by (unfold s, e'; lia).
  set (m' := match s with
             | Zpos _ => Z.shiftl (Zpos mx) s
             | Z0 => Zpos mx
             | Zneg _ => 0
             end).
  assert (m' = Zpos mx * 2 ^ s) as Hm'.
  { unfold m'. destruct s as [|p|p]; try lia.
    rewrite Z.shiftl_mul_pow2 by lia. reflexivity. }
  pose proof (Z_div_mod m' (Zpos my) ltac:(lia)) as Hdiv.
  destruct (Z.div_eucl m' (Zpos my)) as [q r]. destruct Hdiv as [Heq Hr].
  assert (0 < 2 ^ s) as Hpow by (apply Z.pow_pos_nonneg; lia).
  assert (0 <= q) as Hq by nia.
  pose proof (B2R_finite_pos mx ex) as Hxpos.
  pose proof (B2R_finite_pos my ey) as Hypos.
  (* the real quotient, scaled *)
  assert (F2R (Zpos mx) ex / F2R (Zpos my) ey
          = IZR m' / IZR (Zpos my) * bpow e')%R as HQ.
  { rewrite Hm', mult_IZR, IZR_pow2 by assumption. unfold F2R.
    replace ex with (s + ey + e') at 1 by (unfold s; lia).
    rewrite !bpow_add.
    pose proof (bpow_pos ey). pose proof (bpow_pos e').
    assert (0 < IZR (Zpos my))%R by (apply IZR_lt; lia).
    field. split; lra. }
  assert (0 < IZR (Zpos my))%R as Hmy by (apply IZR_lt; lia).
  assert (IZR q <= IZR m' / IZR (Zpos my) < IZR q + 1)%R as Hfloor.
  { assert (IZR m' = IZR (Zpos my) * IZR q + IZR r)%R as Hm.
    { rewrite Heq, plus_IZR, mult_IZR. reflexivity. }
    assert (0 <= IZR r < IZR (Zpos my))%R as Hrr
        by (split; [apply IZR_le | apply IZR_lt]; lia).
    rewrite Hm. split.
    - apply Rmult_le_reg_r with (r := IZR (Zpos my)); [assumption|].
      unfold Rdiv. rewrite Rmult_assoc, Rinv_l by lra. nra.
    - apply Rmult_lt_reg_r with (r := IZR (Zpos my)); [assumption|].
      unfold Rdiv. rewrite Rmult_assoc, Rinv_l by lra. nra. }
  split; [assumption|]. split.
  - (* the exponent *)
    pose proof (F2R_digits_lo mx ex) as Hlo.
    pose proof (F2R_digits_hi my ey) as Hhi. fold d1 in Hlo. fold d2 in Hhi.
    assert (d1 + ex - (d2 + ey) <= K) as Hmag.
    { destruct (Z_le_gt_dec (d1 + ex - (d2 + ey)) K) as [|Hgt]; [assumption|].
      exfalso.
      assert (bpow K * bpow (d2 + ey) <= bpow (d1 - 1 + ex))%R as Hb.
      { rewrite <- bpow_add. apply bpow_le. lia. }
      assert (F2R (Zpos mx) ex < bpow K * F2R (Zpos my) ey)%R as Hlt.
      { apply Rmult_lt_reg_r with (r := (/ F2R (Zpos my) ey)%R).
        - apply Rinv_0_lt_compat. assumption.
        - rewrite Rmult_assoc, Rinv_r by lra. unfold Rdiv in HK. lra. }
      pose proof (bpow_pos K). nra. }
    pose proof (fexp_mono _ _ Hmag) as Hf. unfold e', ulp_exp.
    rewrite fexp_eq in *. lia.
  - pose proof (bpow_pos e'). rewrite HQ. unfold F2R. rewrite plus_IZR.
    split; nra.
Qed.


(** Division: finite operands, a non-zero divisor and a quotient below
    [2^K] give a finite result within two units in the last place. *)
Lemma div_spec (x y : float) (K : Z) :
  is_finite x = true -> is_finite y = true -> is_zero y = false ->
  (Rabs (B2R x / B2R y) < bpow K)%R -> K <= 970 ->
  let z := SFdiv prec emax x y in
  is_finite z = true /\ wf z /\
  (Rabs (B2R z - B2R x / B2R y) <= 2 * bpow (ulp_exp K))%R /\
  sign_ok (B2R x / B2R y) (B2R z).
Proof.
  intros Hfx Hfy Hzy HK HK'. cbv zeta.
  destruct y as [sy|sy| |sy my ey]; try discriminate.
  destruct x as [sx|sx| |sx mx ex]; try discriminate.
  - simpl. unfold Rdiv. rewrite Rmult_0_l.
    split; [reflexivity|]. split; [exact I|]. split; [|apply sign_ok_refl].
    replace (0 - 0)%R with 0%R by lra. rewrite Rabs_R0.
    pose proof (bpow_pos (ulp_exp K)). lra.
  - pose proof (B2R_finite_pos mx ex) as Hxpos.
    pose proof (B2R_finite_pos my ey) as Hypos.
    set (Q := (F2R (Zpos mx) ex / F2R (Zpos my) ey)%R).
    assert (0 < Q)%R as HQpos by (apply Rdiv_lt_0_compat; assumption).
    assert (B2R (S754_finite sx mx ex) / B2R (S754_finite sy my ey)
            = if xorb sx sy then - Q else Q)%R as HB.
    { rewrite !B2R_finite, !F2R_cond_Zopp. unfold Q.
      destruct sx, sy; simpl; field; lra. }
    rewrite HB in *.
    assert (Q < bpow K)%R as HQK.
    { destruct (xorb sx sy); [rewrite Rabs_Ropp in HK|];
        rewrite Rabs_pos_eq in HK by lra; assumption. }
    pose proof (div_core_spec mx my ex ey K HQK) as Hcore.
    unfold SFdiv.
    destruct (SFdiv_core_binary prec emax (Zpos mx) ex (Zpos my) ey)
      as [[q e'] l].
    destruct Hcore as (Hq & He' & Hfl). fold Q in Hfl.
    assert (rnd_E q e' <= ulp_exp K) as HE.
    { unfold rnd_E. destruct (Z.eq_dec q 0) as [->|Hnz].
      - simpl Zdigits2. unfold ulp_exp in *. rewrite fexp_eq. lia.
      - assert (F2R q e' < bpow K)%R as Hlt by lra.
        pose proof (digits_of_bound q e' K ltac:(lia) Hlt) as Hd.
        pose proof (fexp_mono _ _ Hd) as Hf.
        unfold ulp_exp in *. rewrite fexp_eq in *. lia. }
    assert (rnd_E q e' < 971) as HE' by (unfold ulp_exp in HE; lia).
    destruct (bra_any (xorb sx sy) q e' l Hq HE') as (Hf & Hw & Ha & Hs).
    split; [assumption|]. split; [assumption|].
    pose proof (bpow_le _ _ HE) as HbE. pose proof (bpow_le _ _ He') as Hbe.
    assert (F2R (q + 1) e' = F2R q e' + bpow e')%R as Hsucc.
    { unfold F2R. rewrite plus_IZR. lra. }
    rewrite F2R_cond_Zopp in Ha. apply Rabs_le_inv in Ha.
    unfold sign_ok. destruct (xorb sx sy).
    + split; [apply Rabs_le; lra|]. split; intros; lra.
    + split; [apply Rabs_le; lra|]. split; intros; lra.
Qed.

Lemma truediv_ok (x y : float) (K : Z) :
  is_finite x = true -> is_finite y = true -> is_zero y = false ->
  (Rabs (B2R x / B2R y) < bpow K)%R -> K <= 970 ->
  exists z, truediv x y = Ok z /\ is_finite z = true /\ wf z /\
    (Rabs (B2R z - B2R x / B2R y) <= 2 * bpow (ulp_exp K))%R /\
    sign_ok (B2R x / B2R y) (B2R z).
Proof.
  intros Hfx Hfy Hzy HK HK'. unfold truediv. rewrite Hzy.
  eexists. split; [reflexivity|]. apply div_spec; assumption.
Qed.

(** * Coverage functions never raise on the sample grid *)

Lemma ulp_exp_le (K : Z) : -1074 <= K -> ulp_exp K <= K.
Proof. unfold ulp_exp. lia. Qed.

Lemma bpow_step (K : Z) : bpow (K + 1) = (2 * bpow K)%R.
Proof.
  rewrite bpow_add. replace (bpow 1) with 2%R by (unfold bpow; simpl; lra).
  lra.
Qed.

(** What [x ** 2] returns when it returns. *)
Definition square_of (z : float) : float :=
  match z with
  | S754_nan => S754_nan
  | S754_infinity _ => S754_infinity false
  | S754_zero _ => S754_zero false
  | S754_finite _ m e => libm_square pow_up (S754_finite false m e) m e
  end.

Lemma pow2_inv (z q : float) : pow2 pow_up z = Ok q -> q = square_of z.
Proof.
  destruct z as [s|s| |s m e]; simpl; intros H; try congruence.
  destruct (libm_square _ _ _ _); congruence.
Qed.

Lemma pow2_finite (z : float) :
  is_finite (square_of z) = true -> pow2 pow_up z = Ok (square_of z).
Proof.
  destruct z as [s|s| |s m e]; simpl; try reflexivity.
  destruct (libm_square _ _ _ _); try reflexivity. discriminate.
Qed.

Lemma libm_square_wf (v : float) (m : positive) (e : Z) :
  wf (libm_square pow_up v m e).
Proof. apply binary_normalize_wf. Qed.

Lemma square_wf (z : float) : wf (square_of z).
Proof. destruct z; try exact I. apply libm_square_wf. Qed.

Lemma libm_square_parts (m : positive) (e : Z) :
  let mm := Zpos m * Zpos m in
  let E := Z.max (e + e) (fexp prec emax (Zdigits2 mm + (e + e))) in
  let q := mm / 2 ^ (E - (e + e)) in
  0 <= q < 2 ^ 53 /\ -1074 <= E /\
  (F2R q E <= F2R mm (e + e) < F2R (q + 1) E)%R /\
  (mm mod 2 ^ (E - (e + e)) = 0 -> F2R q E = F2R mm (e + e)).
Proof.
  cbv zeta. set (mm := Zpos m * Zpos m). set (ex := e + e).
  fold (rnd_E mm ex). set (E := rnd_E mm ex).
  pose proof (rnd_E_ge mm ex) as [HEmin HEex]. fold E in HEmin, HEex.
  assert (0 <= mm) as Hmm by (unfold mm; lia).
  assert (0 < 2 ^ (E - ex)) as Hp by (apply Z.pow_pos_nonneg; lia).
  pose proof (first_shift_small mm ex Hmm) as Hs. fold E in Hs.
  split; [split; [apply Z.div_pos; lia|exact Hs]|].
  split; [exact HEmin|].
  pose proof (floor_scaled mm (E - ex) ex Hmm ltac:(lia)) as Hfl.
  replace (ex + (E - ex)) with E in Hfl by lia.
  split; [exact Hfl|].
  intros Hmod.
  rewrite <- (F2R_shift (mm / 2 ^ (E - ex)) E (E - ex)) by lia.
  replace (E - (E - ex)) with ex by lia. f_equal.
  pose proof (Z.div_mod mm (2 ^ (E - ex)) ltac:(lia)). lia.
Qed.

Lemma libm_square_not_neg (v : float) (m : positive) (e : Z) :
  not_neg (libm_square pow_up v m e) = true.
Proof.
  unfold libm_square. apply binary_normalize_not_neg.
  destruct (libm_square_parts m e) as ([Hq _] & _). cbv zeta in Hq.
  destruct (_ =? 0); [assumption|]. destruct (pow_up v); lia.
Qed.

Lemma square_not_neg (z : float) : not_neg (square_of z) = true.
Proof. destruct z; try reflexivity. apply libm_square_not_neg. Qed.

(** The library's square is finite below the overflow threshold, and within
    two units in the last place of the exact square. *)
Lemma libm_square_spec (v : float) (m : positive) (e K : Z) :
  (F2R (Zpos m * Zpos m) (e + e) < bpow K)%R -> K <= 970 ->
  let y := libm_square pow_up v m e in
  is_finite y = true /\ (0 <= B2R y)%R /\
  (Rabs (B2R y - F2R (Zpos m * Zpos m) (e + e))
   <= 2 * bpow (ulp_exp (K + 1)))%R.
Proof.
  intros HK HK'. cbv zeta. unfold libm_square.
  destruct (libm_square_parts m e) as ([Hq0 Hq53] & HE & [Hlo Hhi] & Hex).
  cbv zeta in *.
  set (mm := Zpos m * Zpos m) in *. set (ex := e + e) in *.
  set (E := Z.max ex (fexp prec emax (Zdigits2 mm + ex))) in *.
  set (q := mm / 2 ^ (E - ex)) in *.
  set (mr := if mm mod 2 ^ (E - ex) =? 0 then q
             else if pow_up v then q + 1 else q).
  assert (0 < mm) as Hmm by (unfold mm; lia).
  assert (mr = q \/ mr = q + 1) as Hmr
      by (unfold mr; destruct (_ =? 0); [|destruct (pow_up v)]; auto).
  assert (0 <= mr) as Hmr0 by lia.
  (* the unit in the last place *)
  assert (mm mod 2 ^ (E - ex) = 0 \/ E <= ulp_exp K) as Hulp.
  { destruct (Z.eq_dec E ex) as [Heq|Hne].
    - left. rewrite Heq, Z.sub_diag. apply Z.mod_1_r.
    - right. assert (E = fexp prec emax (Zdigits2 mm + ex)) as -> by lia.
      rewrite fexp_eq. unfold ulp_exp.
      pose proof (digits_of_bound mm ex K Hmm HK). lia. }
  assert (Rabs (F2R mr E - F2R mm ex) <= bpow (ulp_exp K))%R as Herr.
  { destruct (Z.eq_dec (mm mod 2 ^ (E - ex)) 0) as [Hz|Hnz].
    - unfold mr. rewrite (proj2 (Z.eqb_eq _ _) Hz).
      rewrite (Hex Hz). replace (F2R mm ex - F2R mm ex)%R with 0%R by lra.
      rewrite Rabs_R0. left. apply bpow_pos.
    - destruct Hulp as [Hz|HEu]; [contradiction|].
      pose proof (bpow_le _ _ HEu) as Hb.
      assert (F2R (q + 1) E = F2R q E + bpow E)%R as Hstep.
      { rewrite F2R_plus. replace (F2R 1 E) with (bpow E)
          by (unfold F2R; lra). reflexivity. }
      apply Rabs_le. destruct Hmr as [-> | ->]; lra. }
  set (K0 := Z.max K (-1074)).
  assert (ulp_exp K = ulp_exp K0 /\ ulp_exp (K + 1) = ulp_exp (K0 + 1))
    as [HuK0 HuK1] by (unfold ulp_exp, K0; lia).
  rewrite HuK0 in Herr. rewrite HuK1.
  assert (bpow K <= bpow K0)%R as HKK0 by (apply bpow_le; unfold K0; lia).
  assert (bpow (ulp_exp K0) <= bpow K0)%R as HuK
      by (apply bpow_le; unfold ulp_exp, K0; lia).
  assert (bpow (ulp_exp K0) <= bpow (ulp_exp (K0 + 1)))%R as Hu
      by (apply bpow_le; unfold ulp_exp; lia).
  pose proof (bpow_step K0) as Hstep2.
  assert (0 <= F2R mm ex)%R as Hpos.
  { unfold F2R. apply Rmult_le_pos; [apply IZR_le; lia|].
    left. apply bpow_pos. }
  apply Rabs_le_inv in Herr.
  assert (0 <= F2R mr E)%R as Hpos'.
  { unfold F2R. apply Rmult_le_pos; [apply IZR_le; lia|].
    left. apply bpow_pos. }
  assert (Rabs (F2R mr E) < bpow (K0 + 1))%R as HK1.
  { apply Rabs_lt. lra. }
  destruct (binary_normalize_spec mr E (K0 + 1) false HK1
              ltac:(unfold K0; lia)) as (Hf & _ & He & _ & [Hs _]).
  split; [exact Hf|]. split; [apply Hs; exact Hpos'|].
  apply Rabs_le_inv in He. apply Rabs_le. lra.
Qed.

Lemma B2R_square (s : bool) (m : positive) (e : Z) :
  (B2R (S754_finite s m e) * B2R (S754_finite s m e))%R
  = F2R (Zpos m * Zpos m) (e + e).
Proof.
  rewrite B2R_finite, <- F2R_mult. f_equal. destruct s; simpl; lia.
Qed.

Lemma square_spec (z : float) (K : Z) :
  is_finite z = true -> (Rabs (B2R z * B2R z) < bpow K)%R -> K <= 970 ->
  is_finite (square_of z) = true /\ (0 <= B2R (square_of z))%R /\
  (Rabs (B2R (square_of z) - B2R z * B2R z)
   <= 2 * bpow (ulp_exp (K + 1)))%R.
Proof.
  intros Hf HK HK'.
  destruct z as [s|s| |s m e]; try discriminate.
  - simpl. rewrite Rmult_0_l, Rminus_diag, Rabs_R0.
    split; [reflexivity|]. split; [lra|].
    pose proof (bpow_pos (ulp_exp (K + 1))). lra.
  - rewrite B2R_square in *.
    pose proof (Rle_abs (F2R (Zpos m * Zpos m) (e + e))).
    apply libm_square_spec; [lra|assumption].
Qed.

Lemma distance_ok (x1 y1 x2 y2 : float) :
  is_ok (pow2 pow_up (sub x2 x1)) -> is_ok (pow2 pow_up (sub y2 y1)) ->
  exists d, Circular.distance pow_up x1 y1 x2 y2 = Ok d /\ wf d.
Proof.
  intros [q1 H1] [q2 H2]. unfold Circular.distance. rewrite H1, H2. cbn [bind].
  apply pow2_inv in H1, H2. subst q1 q2.
  rewrite sqrt_ok.
  - eexists. split; [reflexivity|]. apply SFsqrt_wf, add_wf; apply square_wf.
  - apply add_not_neg; apply square_not_neg.
Qed.

Lemma clamp01_unit (v : float) : wf v -> unit_float (Circular.clamp01 v).
Proof. apply clamp_unit. Qed.

Lemma py_max_unit (a b : float) :
  unit_float a -> unit_float b -> unit_float (py_max a b).
Proof. intros Ha Hb. unfold py_max. destruct (ltb a b); assumption. Qed.

Lemma wf_half : wf Circular.half.
Proof. vm_compute. split; [reflexivity|discriminate]. Qed.

Lemma circle_coverage_unit (cx cy radius x y : float) :
  wf radius ->
  is_ok (pow2 pow_up (sub cx x)) -> is_ok (pow2 pow_up (sub cy y)) ->
  exists u, Circular.circle_coverage pow_up cx cy radius x y = Ok u /\ unit_float u.
Proof.
  intros Hr Hx Hy. unfold Circular.circle_coverage.
  destruct (distance_ok x y cx cy Hx Hy) as (d & -> & Hd). cbn [bind].
  destruct (leb d _); [exists one; split; [reflexivity|apply unit_one]|].
  destruct (leb _ d); [exists zero; split; [reflexivity|apply unit_zero]|].
  eexists. split; [reflexivity|].
  apply clamp01_unit, sub_wf; [|assumption]. apply add_wf; [assumption|].
  apply wf_half.
Qed.

Lemma more_coverage_unit (dots : list (float * float)) (dot_r x y : float) :
  wf dot_r ->
  Forall (fun d => is_ok (pow2 pow_up (sub (fst d) x)) /\
                   is_ok (pow2 pow_up (sub (snd d) y))) dots ->
  exists u, Circular.more_coverage pow_up dots dot_r x y = Ok u /\ unit_float u.
Proof.
  intros Hr Hd. unfold Circular.more_coverage.
  generalize unit_zero. generalize zero as acc.
  induction Hd as [|[dx dy] dots [Hx Hy] Hd IH]; intros acc Hacc.
  - exists acc. split; [reflexivity|assumption].
  - simpl foldM. simpl in Hx, Hy.
    destruct (distance_ok x y dx dy Hx Hy) as (d & -> & Hwd). cbn [bind].
    destruct (ltb d _).
    + destruct (leb d _); cbn [bind]; apply IH; apply py_max_unit;
        try assumption; [apply unit_one|].
      apply clamp01_unit, sub_wf; [|assumption].
      apply add_wf; [assumption|apply wf_half].
    + cbn [bind]. apply IH. assumption.
Qed.

(** * The sampler on functions that return coverages *)

(** A running total of [n] coverages. *)
Definition total_ok (n : Z) (t : float) : Prop :=
  is_finite t = true /\ wf t /\ (0 <= B2R t <= IZR n * (1 + / 1024))%R.

Lemma total_step (n : Z) (t u : float) :
  0 <= n < 100 -> total_ok n t -> unit_float u -> total_ok (n + 1) (add t u).
Proof.
  intros Hn (Hft & Hwt & Ht) (Hfu & Hwu & Hu).
  assert (0 <= IZR n < 100)%R as HN
      by (split; [apply IZR_le | apply IZR_lt]; lia).
  assert (Rabs (B2R t + B2R u) < bpow 8)%R as HK.
  { rewrite (bpow_nat 8 256) by (simpl; lia). apply Rabs_lt. split; nra. }
  destruct (add_spec t u 8 Hft Hfu Hwt Hwu HK ltac:(lia))
    as (Hf & Hw & He & Hs).
  pose proof (ulp_small 8 ltac:(lia)) as Hu8.
  apply Rabs_le_inv in He. destruct Hs as [Hs _].
  assert (0 <= B2R t + B2R u)%R as Hpos by lra. specialize (Hs Hpos).
  split; [assumption|]. split; [assumption|].
  rewrite plus_IZR. split; [assumption|]. nra.
Qed.

Lemma total_fold (body : float -> Z -> result float) (l : list Z) :
  (forall t s, In s l ->
     exists u, unit_float u /\ body t s = Ok (add t u)) ->
  forall (n : Z) (t : float),
    0 <= n -> n + Z.of_nat (length l) <= 100 -> total_ok n t ->
    exists t', foldM body l t = Ok t' /\
               total_ok (n + Z.of_nat (length l)) t'.
Proof.
  induction l as [|s l IH]; intros Hbody n t Hn Hlen Ht.
  - exists t. split; [reflexivity|]. simpl. now rewrite Z.add_0_r.
  - simpl foldM.
    destruct (Hbody t s (or_introl eq_refl)) as (u & Hu & ->). cbn [bind].
    simpl length in *. rewrite Nat2Z.inj_succ in *.
    pose proof (total_step n t u ltac:(lia) Ht Hu) as Ht1.
    destruct (IH (fun t0 s0 Hin => Hbody t0 s0 (or_intror Hin))
                 (n + 1) (add t u) ltac:(lia) ltac:(lia) Ht1)
      as (t' & Hf & Ht').
    exists t'. split; [assumption|].
    replace (n + Z.succ (Z.of_nat (length l)))
      with (n + 1 + Z.of_nat (length l)) by lia.
    assumption.
Qed.

Lemma fold_grow (body : float -> Z -> result float) (k : Z) (l : list Z) :
  0 <= k ->
  (forall n t s, In s l -> 0 <= n -> n + k <= 100 -> total_ok n t ->
     exists t', body t s = Ok t' /\ total_ok (n + k) t') ->
  forall (n : Z) (t : float),
    0 <= n -> n + k * Z.of_nat (length l) <= 100 -> total_ok n t ->
    exists t', foldM body l t = Ok t' /\
               total_ok (n + k * Z.of_nat (length l)) t'.
Proof.
  intros Hk. induction l as [|s l IH]; intros Hbody n t Hn Hlen Ht.
  - exists t. split; [reflexivity|]. simpl.
    now rewrite Z.mul_0_r, Z.add_0_r.
  - simpl foldM. simpl length in *. rewrite Nat2Z.inj_succ in *.
    destruct (Hbody n t s (or_introl eq_refl) Hn ltac:(nia) Ht)
      as (t1 & -> & Ht1). cbn [bind].
    destruct (IH (fun n0 t0 s0 Hin => Hbody n0 t0 s0 (or_intror Hin))
                 (n + k) t1 ltac:(lia) ltac:(nia) Ht1) as (t' & Hf & Ht').
    exists t'. split; [assumption|].
    replace (n + k * Z.succ (Z.of_nat (length l)))
      with (n + k + k * Z.of_nat (length l)) by lia.
    assumption.
Qed.

(** The four sample offsets along one axis. *)
Definition sample_step : float := lit 1 4.
Definition sample_offset : float := lit 1 8.

Definition samples_unit (x y : Z) (f : float -> float -> result float)
  : Prop :=
  forall sx sy, 0 <= sx < 4 -> 0 <= sy < 4 ->
    exists vx vy u,
      Circular.sample_at x sample_offset sample_step sx = Ok vx /\
      Circular.sample_at y sample_offset sample_step sy = Ok vy /\
      f vx vy = Ok u /\ unit_float u.

(** A sampled coverage: finite and between 0 and 17/16 + 1/512. *)
Definition coverage_ok (c : float) : Prop :=
  is_finite c = true /\ wf c /\ (0 <= B2R c <= 2)%R.

Lemma in_range4 (s : Z) : In s [0; 1; 2; 3] -> 0 <= s < 4.
Proof. simpl. lia. Qed.

Lemma B2R_16 : B2R (of_Z 16) = 16%R.
Proof. destruct (of_Z_exact 16 ltac:(simpl; lia)) as (_ & _ & H). exact H. Qed.

Lemma sample_pixel_aa_ok (x y size : Z)
  (f : float -> float -> result float) :
  samples_unit x y f ->
  exists c, Circular.sample_pixel_aa x y size f = Ok c /\ coverage_ok c.
Proof.
  intros Hs. unfold Circular.sample_pixel_aa.
  change (of_int Circular.AA_SAMPLES) with (Ok (of_Z 4)). cbn [bind].
  change (truediv one (of_Z 4)) with (Ok sample_step). cbn [bind].
  change (truediv sample_step Circular.two) with (Ok sample_offset).
  cbn [bind].
  change (range Circular.AA_SAMPLES) with [0; 1; 2; 3].
  change (of_int (Circular.AA_SAMPLES * Circular.AA_SAMPLES))
    with (Ok (of_Z 16)).
  assert (total_ok 0 zero) as H0.
  { split; [reflexivity|]. split; [exact I|]. simpl. lra. }
  (* one row of four samples *)
  assert (forall sy n t, In sy [0; 1; 2; 3] -> 0 <= n -> n + 4 <= 100 ->
            total_ok n t ->
            exists t', foldM (fun total sx =>
                         sample_x <- Circular.sample_at x sample_offset
                                                        sample_step sx ;;
                         sample_y <- Circular.sample_at y sample_offset
                                                        sample_step sy ;;
                         v <- f sample_x sample_y ;;
                         Ok (add total v)) [0; 1; 2; 3] t = Ok t' /\
                       total_ok (n + 4) t') as Hrow.
  { intros sy n t Hsy Hn Hn4 Ht.
    apply (total_fold _ [0; 1; 2; 3]); try assumption.
    intros t0 sx Hsx.
    destruct (Hs sx sy (in_range4 _ Hsx) (in_range4 _ Hsy))
      as (vx & vy & u & -> & -> & Hf & Hu).
    exists u. split; [assumption|]. cbn [bind]. rewrite Hf. reflexivity. }
  (* four rows *)
  assert (exists t, foldM (fun total sy =>
                      foldM (fun total sx =>
                         sample_x <- Circular.sample_at x sample_offset
                                                        sample_step sx ;;
                         sample_y <- Circular.sample_at y sample_offset
                                                        sample_step sy ;;
                         v <- f sample_x sample_y ;;
                         Ok (add total v)) [0; 1; 2; 3] total)
                      [0; 1; 2; 3] zero = Ok t /\ total_ok 16 t)
    as (t & -> & (Hft & Hwt & Ht)).
  { apply (fold_grow _ 4 [0; 1; 2; 3] ltac:(lia)) with (n := 0);
      [|lia|simpl; lia|exact H0].
    intros n t0 sy Hsy Hn Hn4 Ht0. apply Hrow; assumption. }
  cbn [bind].
  assert (Rabs (B2R t / B2R (of_Z 16)) < bpow 2)%R as HK.
  { rewrite B2R_16, (bpow_nat 2 4) by (simpl; lia). apply Rabs_lt. lra. }
  destruct (truediv_ok t (of_Z 16) 2 Hft eq_refl eq_refl HK ltac:(lia))
    as (c & -> & Hfc & Hwc & Hec & Hsc).
  exists c. split; [reflexivity|]. split; [assumption|]. split; [assumption|].
  pose proof (ulp_small 2 ltac:(lia)) as Hu2.
  rewrite B2R_16 in Hec, Hsc. apply Rabs_le_inv in Hec.
  destruct Hsc as [Hsc _]. assert (0 <= B2R t / 16)%R as Hq by lra.
  specialize (Hsc Hq). lra.
Qed.

(** * Blending packed colours *)

Lemma land_ones_range (a n : Z) : 0 <= n -> 0 <= Z.land a (Z.ones n) < 2 ^ n.
Proof.
  intros Hn. rewrite Z.land_ones by assumption.
  apply Z.mod_pos_bound. apply Z.pow_pos_nonneg; lia.
Qed.

Lemma rgb565_to_rgb_range (color : Z) :
  let '(r, g, b) := Circular.rgb565_to_rgb color in
  (0 <= r <= 248 /\ 0 <= g <= 252 /\ 0 <= b <= 248).
Proof.
  unfold Circular.rgb565_to_rgb.
  pose proof (land_ones_range (Z.shiftr color 11) 5 ltac:(lia)) as Hr.
  pose proof (land_ones_range (Z.shiftr color 5) 6 ltac:(lia)) as Hg.
  pose proof (land_ones_range color 5 ltac:(lia)) as Hb.
  change (Z.ones 5) with 31 in *. change (Z.ones 6) with 63 in *.
  change (2 ^ 5) with 32 in *. change (2 ^ 6) with 64 in *.
  rewrite !Z.shiftl_mul_pow2 by lia.
  change (2 ^ 3) with 8. change (2 ^ 2) with 4. lia.
Qed.

Lemma prod_sym_bound (x y a b : R) :
  (0 <= x <= a)%R -> (- b <= y <= b)%R -> (- (a * b) <= x * y <= a * b)%R.
Proof.
  intros [Hx0 Hxa] [Hy0 Hyb].
  destruct (Rle_dec 0 y) as [Hy|Hy].
  - pose proof (prod_bound x y a b (conj Hx0 Hxa) (conj Hy Hyb)). lra.
  - assert (0 <= - y <= b)%R as Hn by lra.
    pose proof (prod_bound x (- y) a b (conj Hx0 Hxa) Hn). lra.
Qed.

(** One channel of [blend_rgb] never raises when alpha is a coverage. *)
Lemma blend_rgb_chan_ok (f b : Z) (alpha : float) :
  chan8 f -> chan8 b ->
  is_finite alpha = true -> wf alpha -> (Rabs (B2R alpha) <= 3)%R ->
  exists n, Circular.blend_rgb_chan f b alpha = Ok n.
Proof.
  intros Hf Hb Hfa Hwa HA. apply Rabs_le_inv in HA.
  destruct (of_int_exact f (chan8_abs f Hf)) as (Hof & Hff & Hwf & Hvf).
  destruct (of_int_exact b (chan8_abs b Hb)) as (Hob & Hfb & Hwb & Hvb).
  pose proof (chan8_IZR f Hf) as HF. pose proof (chan8_IZR b Hb) as HB.
  unfold Circular.blend_rgb_chan. rewrite Hof, Hob. cbn [bind].
  assert (Rabs (B2R one - B2R alpha) < bpow 3)%R as H1.
  { rewrite B2R_one, (bpow_nat 3 8) by (simpl; lia). apply Rabs_lt. lra. }
  destruct (sub_spec one alpha 3 eq_refl Hfa wf_one Hwa H1 ltac:(lia))
    as (Hfi & Hwi & Hei & _).
  pose proof (ulp_small 3 ltac:(lia)) as Hu3.
  rewrite B2R_one in Hei. apply Rabs_le_inv in Hei.
  assert (- 5 <= B2R (sub one alpha) <= 5)%R as HI by lra.
  pose proof (prod_sym_bound (IZR f) (B2R alpha) 255 3 HF HA) as P1.
  pose proof (prod_sym_bound (IZR b) (B2R (sub one alpha)) 255 5 HB HI) as P2.
  assert (Rabs (B2R (of_Z f) * B2R alpha) < bpow 10)%R as H2.
  { rewrite Hvf, (bpow_nat 10 1024) by (simpl; lia). apply Rabs_lt. lra. }
  destruct (mul_spec (of_Z f) alpha 10 Hff Hfa H2 ltac:(lia))
    as (Hf1 & Hw1 & He1 & _).
  assert (Rabs (B2R (of_Z b) * B2R (sub one alpha)) < bpow 11)%R as H3.
  { rewrite Hvb, (bpow_nat 11 2048) by (simpl; lia). apply Rabs_lt. lra. }
  destruct (mul_spec (of_Z b) (sub one alpha) 11 Hfb Hfi H3 ltac:(lia))
    as (Hf2 & Hw2 & He2 & _).
  pose proof (ulp_small 10 ltac:(lia)) as Hu10.
  pose proof (ulp_small 11 ltac:(lia)) as Hu11.
  rewrite Hvf in He1. rewrite Hvb in He2.
  apply Rabs_le_inv in He1, He2.
  assert (Rabs (B2R (mul (of_Z f) alpha) + B2R (mul (of_Z b) (sub one alpha)))
          < bpow 12)%R as H4.
  { rewrite (bpow_nat 12 4096) by (simpl; lia). apply Rabs_lt. lra. }
  destruct (add_spec _ _ 12 Hf1 Hf2 Hw1 Hw2 H4 ltac:(lia)) as (Hf3 & _).
  destruct (to_int_spec _ Hf3) as (n & Hn & _).
  exists n. exact Hn.
Qed.

Lemma blend_565_ok (fg bg : Z) (alpha : float) :
  is_finite alpha = true -> wf alpha -> (Rabs (B2R alpha) <= 3)%R ->
  exists p, Circular.blend_565 fg bg alpha = Ok p.
Proof.
  intros Hfa Hwa HA. unfold Circular.blend_565, Circular.blend_rgb.
  pose proof (rgb565_to_rgb_range fg) as Hfg.
  pose proof (rgb565_to_rgb_range bg) as Hbg.
  destruct (Circular.rgb565_to_rgb fg) as [[fr fg_] fb].
  destruct (Circular.rgb565_to_rgb bg) as [[br bg_] bb].
  destruct (blend_rgb_chan_ok fr br alpha) as (r & ->);
    try assumption; try (unfold chan8; lia).
  destruct (blend_rgb_chan_ok fg_ bg_ alpha) as (g & ->);
    try assumption; try (unfold chan8; lia).
  destruct (blend_rgb_chan_ok fb bb alpha) as (b & ->);
    try assumption; try (unfold chan8; lia).
  cbn [bind]. eexists. reflexivity.
Qed.

Lemma coverage_alpha (c : float) : coverage_ok c -> (Rabs (B2R c) <= 3)%R.
Proof. intros (_ & _ & H). apply Rabs_le. lra. Qed.

(** A coverage scaled by an opacity between 0 and 1. *)
Lemma scaled_coverage (c opacity : float) :
  coverage_ok c -> unit_float opacity ->
  is_finite (mul c opacity) = true /\ wf (mul c opacity) /\
  (Rabs (B2R (mul c opacity)) <= 3)%R.
Proof.
  intros (Hfc & Hwc & Hc) (Hfo & Hwo & Ho).
  pose proof (prod_bound (B2R c) (B2R opacity) 2 1 Hc Ho) as P.
  assert (Rabs (B2R c * B2R opacity) < bpow 2)%R as HK.
  { rewrite (bpow_nat 2 4) by (simpl; lia). apply Rabs_lt. lra. }
  destruct (mul_spec c opacity 2 Hfc Hfo HK ltac:(lia)) as (Hf & Hw & He & Hs).
  pose proof (ulp_small 2 ltac:(lia)) as Hu2. apply Rabs_le_inv in He.
  split; [assumption|]. split; [assumption|]. apply Rabs_le. lra.
Qed.

(** * The two passes over the pixels *)

Lemma background_pixel_ok (size color transparent : Z)
  (f : float -> float -> result float) (x y : Z) :
  samples_unit x y f ->
  exists p, Circular.background_pixel size color transparent f x y = Ok p.
Proof.
  intros Hs. unfold Circular.background_pixel.
  destruct (sample_pixel_aa_ok x y size f Hs) as (c & -> & Hc). cbn [bind].
  destruct (ltb _ c).
  - destruct Hc as (Hf & Hw & Hv).
    apply blend_565_ok; try assumption. apply Rabs_le. lra.
  - eexists. reflexivity.
Qed.

Lemma draw_step_ok (size fg_color : Z) (f : float -> float -> result float)
  (opacity : float) (pixels : list Z) (x y : Z) :
  samples_unit x y f -> unit_float opacity ->
  0 <= y * size + x < Z.of_nat (length pixels) ->
  exists p,
    Circular.draw_step size fg_color f opacity pixels x y
    = Ok (update pixels (Z.to_nat (y * size + x)) p).
Proof.
  intros Hs Ho Hi. unfold Circular.draw_step.
  destruct (sample_pixel_aa_ok x y size f Hs) as (c & -> & Hc). cbn [bind].
  destruct (list_get_nonneg pixels _ Hi) as (old & Hnth & Hg).
  destruct (ltb _ c).
  - rewrite Hg. cbn [bind].
    destruct (scaled_coverage c opacity Hc Ho) as (Hf & Hw & Hv).
    destruct (blend_565_ok fg_color old _ Hf Hw Hv) as (p & ->). cbn [bind].
    exists p. apply list_set_nonneg. assumption.
  - exists old. rewrite update_same by assumption. reflexivity.
Qed.

(** * Loops over the pixel grid *)

(** The coordinates in the order the nested [for y ... for x ...] loops visit
    them. *)
Definition coords (size : Z) : list (Z * Z) :=
  flat_map (fun y => map (fun x => (x, y)) (range size)) (range size).

(** The position of a coordinate in the pixel list, [y * size + x]. *)
Definition pixel_index (size : Z) (c : Z * Z) : nat :=
  Z.to_nat (snd c * size + fst c).

Lemma foldM_app {A S : Type} (f : S -> A -> result S) (l1 l2 : list A) (s : S) :
  foldM f (l1 ++ l2) s = (s' <- foldM f l1 s ;; foldM f l2 s').
Proof.
  revert s. induction l1 as [|a t IH]; intros s; simpl; [reflexivity|].
  destruct (f s a); simpl; auto.
Qed.

Lemma foldM_map {A B S : Type} (f : S -> B -> result S) (h : A -> B)
  (l : list A) (s : S) :
  foldM f (map h l) s = foldM (fun s a => f s (h a)) l s.
Proof.
  revert s. induction l as [|a t IH]; intros s; simpl; [reflexivity|].
  destruct (f s (h a)); simpl; auto.
Qed.

(** Two nested loops are one loop over the pairs. *)
Lemma foldM_rows {S : Type} (f : S -> Z -> Z -> result S) (xs ys : list Z)
  (s : S) :
  foldM (fun s y => foldM (fun s x => f s x y) xs s) ys s
  = foldM (fun s c => f s (fst c) (snd c))
          (flat_map (fun y => map (fun x => (x, y)) xs) ys) s.
Proof.
  revert s. induction ys as [|y t IH]; intros s; simpl; [reflexivity|].
  rewrite foldM_app, foldM_map. simpl.
  destruct (foldM (fun s x => f s x y) xs s); simpl; auto.
Qed.

Lemma map_add_seq (c len start : nat) :
  map (fun k => (c + k)%nat) (seq start len) = seq (c + start) len.
Proof.
  revert start. induction len as [|len IH]; intros start; simpl; [reflexivity|].
  f_equal. rewrite IH. f_equal. lia.
Qed.

Lemma row_indices (n a : nat) :
  map (pixel_index (Z.of_nat n))
      (map (fun x => (x, Z.of_nat a)) (Zrange n))
  = seq (a * n) n.
Proof.
  unfold Zrange. rewrite !map_map.
  rewrite <- (Nat.add_0_r (a * n)) at 1. rewrite <- map_add_seq.
  apply map_ext. intros k. unfold pixel_index. simpl. lia.
Qed.

Lemma rows_indices (n m a : nat) :
  map (pixel_index (Z.of_nat n))
      (flat_map (fun y => map (fun x => (x, y)) (Zrange n))
                (map Z.of_nat (seq a m)))
  = seq (a * n) (m * n).
Proof.
  revert a. induction m as [|m IH]; intros a; simpl; [reflexivity|].
  rewrite map_app, row_indices, IH.
  rewrite seq_app. f_equal. f_equal. simpl. lia.
Qed.

(** The loops visit the indices 0, 1, ..., size*size - 1 in order. *)
Lemma coords_indices (size : Z) :
  0 <= size ->
  map (pixel_index size) (coords size) = seq 0 (Z.to_nat (size * size)).
Proof.
  intros Hs. unfold coords, range.
  rewrite <- (Z2Nat.id size) at 1 by assumption.
  unfold Zrange at 2. rewrite rows_indices. f_equal. lia.
Qed.

Lemma coords_length (size : Z) :
  0 <= size -> length (coords size) = Z.to_nat (size * size).
Proof.
  intros Hs. rewrite <- (length_map (pixel_index size)), coords_indices
    by assumption. apply length_seq.
Qed.

Lemma In_Zrange (n : nat) (z : Z) : In z (Zrange n) -> 0 <= z < Z.of_nat n.
Proof.
  unfold Zrange. rewrite in_map_iff. intros (k & <- & Hk).
  apply in_seq in Hk. lia.
Qed.

Lemma In_range (n z : Z) : In z (range n) <-> 0 <= z < n.
Proof.
  unfold range. split.
  - intros H. apply In_Zrange in H. lia.
  - intros H. apply Zrange_In. lia.
Qed.

Lemma In_coords (size x y : Z) :
  In (x, y) (coords size) <-> (0 <= x < size /\ 0 <= y < size).
Proof.
  unfold coords. rewrite in_flat_map. split.
  - intros (y' & Hy & Hx). apply in_map_iff in Hx as (x' & E & Hx).
    injection E as -> ->. apply In_range in Hx, Hy. auto.
  - intros [Hx Hy]. exists y. split; [apply In_range, Hy|].
    apply in_map_iff. exists x. split; [reflexivity|apply In_range, Hx].
Qed.

Lemma pixel_index_lt (size x y : Z) :
  0 <= x < size -> 0 <= y < size ->
  0 <= y * size + x < size * size.
Proof. intros Hx Hy. nia. Qed.

Lemma pixel_index_inj (size x y x' y' : Z) :
  0 <= x < size -> 0 <= y < size -> 0 <= x' < size -> 0 <= y' < size ->
  pixel_index size (x, y) = pixel_index size (x', y') -> x = x' /\ y = y'.
Proof.
  unfold pixel_index. simpl. intros Hx Hy Hx' Hy' E.
  apply Z2Nat.inj in E; try nia.
  assert (y = y') by nia. subst. lia.
Qed.

(** The coordinate met at position [y * size + x] is [(x, y)]. *)
Lemma coords_nth (size x y : Z) :
  0 <= x < size -> 0 <= y < size ->
  nth_error (coords size) (pixel_index size (x, y)) = Some (x, y).
Proof.
  intros Hx Hy.
  assert (0 <= size) as Hs by lia.
  pose proof (pixel_index_lt size x y Hx Hy) as Hi.
  destruct (nth_error (coords size) (pixel_index size (x, y)))
    as [[x' y']|] eqn:E.
  - pose proof (map_nth_error (pixel_index size) _ _ E) as Hm.
    rewrite coords_indices in Hm by assumption.
    assert (In (x', y') (coords size)) as Hin by (eapply nth_error_In; eauto).
    apply In_coords in Hin as [Hx' Hy'].
    rewrite nth_error_seq in Hm.
    destruct (Nat.ltb_spec (pixel_index size (x, y)) (Z.to_nat (size * size)))
      as [Hlt|Hge]; [|discriminate].
    injection Hm as Hm. simpl in Hm.
    destruct (pixel_index_inj size x' y' x y Hx' Hy' Hx Hy (eq_sym Hm)) as [-> ->].
    reflexivity.
  - apply nth_error_None in E. rewrite coords_length in E by assumption.
    unfold pixel_index in E. simpl in E. lia.
Qed.

(** A loop that appends one value per element. *)
Lemma foldM_append {K A : Type} (g : K -> result A) (ks : list K)
  (acc : list A) :
  (forall k, In k ks -> is_ok (g k)) ->
  exists ps,
    foldM (fun acc k => p <- g k ;; Ok (acc ++ [p])) ks acc = Ok (acc ++ ps) /\
    Forall2 (fun k p => g k = Ok p) ks ps.
Proof.
  revert acc. induction ks as [|k t IH]; intros acc Hg.
  - exists []. rewrite app_nil_r. split; [reflexivity|constructor].
  - destruct (Hg k (or_introl eq_refl)) as [p Hp].
    destruct (IH (acc ++ [p]) (fun k' H => Hg k' (or_intror H)))
      as (ps & Hf & Hps).
    exists (p :: ps). simpl. rewrite Hp. cbn [bind]. rewrite Hf.
    rewrite <- app_assoc. split; [reflexivity|]. constructor; assumption.
Qed.

Lemma Forall2_nth {A B : Type} (R : A -> B -> Prop) (l : list A)
  (l' : list B) (i : nat) (a : A) :
  Forall2 R l l' -> nth_error l i = Some a ->
  exists b, nth_error l' i = Some b /\ R a b.
Proof.
  intros H. revert i. induction H as [|x y t t' Hxy Ht IH]; intros [|i] E;
    simpl in *; try discriminate.
  - injection E as ->. eauto.
  - auto.
Qed.

(** A loop whose every turn rewrites the one cell that belongs to its
    element, from that cell's current value. *)
Lemma foldM_pointwise {K A : Type} (idx : K -> nat) (h : K -> A -> result A)
  (step : list A -> K -> result (list A)) (ks : list K) :
  NoDup (map idx ks) ->
  forall pixels : list A,
  (forall k, In k ks -> (idx k < length pixels)%nat) ->
  (forall k old, In k ks -> is_ok (h k old)) ->
  (forall k l old p, In k ks -> nth_error l (idx k) = Some old ->
     h k old = Ok p -> step l k = Ok (update l (idx k) p)) ->
  exists out,
    foldM step ks pixels = Ok out /\ length out = length pixels /\
    (forall k old, In k ks -> nth_error pixels (idx k) = Some old ->
       exists p, h k old = Ok p /\ nth_error out (idx k) = Some p) /\
    (forall i, ~ In i (map idx ks) -> nth_error out i = nth_error pixels i).
Proof.
  induction ks as [|k t IH]; intros Hnd pixels Hlen Hh Hstep.
  - exists pixels. simpl. repeat split; auto. intros k old [].
  - simpl in Hnd. apply NoDup_cons_iff in Hnd as [Hk Hnd].
    destruct (nth_error pixels (idx k)) as [old|] eqn:Eold.
    2:{ apply nth_error_None in Eold.
        specialize (Hlen k (or_introl eq_refl)). lia. }
    destruct (Hh k old (or_introl eq_refl)) as [p Hp].
    pose proof (Hstep k pixels old p (or_introl eq_refl) Eold Hp) as Hs.
    destruct (IH Hnd (update pixels (idx k) p)) as (out & Hf & Hl & Hin & Hout).
    + intros k' Hk'. rewrite update_length. apply Hlen. now right.
    + intros k' o Hk'. apply Hh. now right.
    + intros k' l o q Hk'. apply Hstep. now right.
    + exists out. simpl. rewrite Hs. cbn [bind].
      split; [exact Hf|]. split; [now rewrite Hl, update_length|]. split.
      * intros k' old' [<-|Hk'] E.
        -- rewrite Eold in E. injection E as <-.
           exists p. split; [assumption|].
           rewrite (Hout (idx k) Hk).
           apply nth_error_update_eq. apply Hlen. now left.
        -- apply Hin; [assumption|].
           rewrite nth_error_update_neq; [assumption|].
           intros E'. apply Hk. rewrite E'. apply in_map. assumption.
      * intros i Hi. simpl in Hi.
        rewrite (Hout i) by tauto.
        apply nth_error_update_neq. tauto.
Qed.

(** * Coordinates stay far from overflow *)

(** A float of magnitude at most 2^21, the room left to the coordinates of
    an icon. *)
Definition coord_float (v : float) : Prop :=
  is_finite v = true /\ wf v /\ (Rabs (B2R v) <= 2097152)%R.

Lemma small_unit (m : positive) (e : Z) :
  wf (S754_finite false m e) -> Zdigits2 (Zpos m) + e <= 0 ->
  unit_float (S754_finite false m e).
Proof.
  intros Hw Hd. split; [reflexivity|]. split; [assumption|].
  rewrite B2R_finite. simpl cond_Zopp.
  pose proof (B2R_finite_pos m e) as H0.
  pose proof (F2R_digits_hi m e) as H1.
  pose proof (bpow_le _ _ Hd) as H2. rewrite bpow_0 in H2. lra.
Qed.

Lemma unit_sample_step : unit_float sample_step.
Proof.
  apply small_unit; vm_compute; [split; [reflexivity|discriminate]|discriminate].
Qed.

Lemma unit_sample_offset : unit_float sample_offset.
Proof.
  apply small_unit; vm_compute; [split; [reflexivity|discriminate]|discriminate].
Qed.

Lemma unit_half : unit_float Circular.half.
Proof.
  apply small_unit; vm_compute; [split; [reflexivity|discriminate]|discriminate].
Qed.

Lemma IZR_range (lo z hi : Z) : lo <= z <= hi -> (IZR lo <= IZR z <= IZR hi)%R.
Proof. intros [H1 H2]. split; apply IZR_le; assumption. Qed.

Lemma small_abs (z : Z) : 0 <= z <= 1048576 -> Z.abs z < 2 ^ 53.
Proof. intros H. change (2 ^ 53) with 9007199254740992. lia. Qed.

Lemma sample_at_ok (i s : Z) :
  0 <= i <= 1048576 -> 0 <= s < 4 ->
  exists v, Circular.sample_at i sample_offset sample_step s = Ok v /\
            coord_float v.
Proof.
  intros Hi Hs.
  destruct (of_int_exact i (small_abs i Hi)) as (Hoi & Hfi & Hwi & Hvi).
  destruct (of_int_exact s (small_abs s ltac:(lia))) as (Hos & Hfs & Hws & Hvs).
  pose proof (IZR_range 0 i 1048576 Hi) as HI.
  pose proof (IZR_range 0 s 3 ltac:(lia)) as HS.
  destruct unit_sample_step as (Hft & Hwt & Ht).
  destruct unit_sample_offset as (Hfo & Hwo & Ho).
  unfold Circular.sample_at. rewrite Hoi, Hos. cbn [bind].
  eexists. split; [reflexivity|].
  pose proof (prod_bound (IZR s) (B2R sample_step) 3 1 HS Ht) as P.
  assert (Rabs (B2R (of_Z s) * B2R sample_step) < bpow 2)%R as H1.
  { rewrite Hvs, (bpow_nat 2 4) by (simpl; lia). apply Rabs_lt. lra. }
  destruct (mul_spec (of_Z s) sample_step 2 Hfs Hft H1 ltac:(lia))
    as (Hf1 & Hw1 & He1 & _).
  assert (Rabs (B2R (of_Z i) + B2R sample_offset) < bpow 21)%R as H2.
  { rewrite Hvi, (bpow_nat 21 2097152) by (simpl; lia). apply Rabs_lt. lra. }
  destruct (add_spec (of_Z i) sample_offset 21 Hfi Hfo Hwi Hwo H2 ltac:(lia))
    as (Hf2 & Hw2 & He2 & _).
  pose proof (ulp_small 2 ltac:(lia)) as U2.
  pose proof (ulp_small 21 ltac:(lia)) as U21.
  pose proof (ulp_small 22 ltac:(lia)) as U22.
  rewrite Hvs in He1. rewrite Hvi in He2. apply Rabs_le_inv in He1, He2.
  assert (Rabs (B2R (add (of_Z i) sample_offset)
                + B2R (mul (of_Z s) sample_step)) < bpow 22)%R as H3.
  { rewrite (bpow_nat 22 4194304) by (simpl; lia). apply Rabs_lt. lra. }
  destruct (add_spec _ _ 22 Hf2 Hf1 Hw2 Hw1 H3 ltac:(lia))
    as (Hf3 & Hw3 & He3 & _).
  apply Rabs_le_inv in He3.
  split; [assumption|]. split; [assumption|]. apply Rabs_le. lra.
Qed.

Lemma coord_sub (a b : float) :
  coord_float a -> coord_float b ->
  is_finite (sub a b) = true /\ wf (sub a b) /\
  (Rabs (B2R (sub a b)) <= 4194305)%R.
Proof.
  intros (Hfa & Hwa & Ha) (Hfb & Hwb & Hb). apply Rabs_le_inv in Ha, Hb.
  assert (Rabs (B2R a - B2R b) < bpow 23)%R as HK.
  { rewrite (bpow_nat 23 8388608) by (simpl; lia). apply Rabs_lt. lra. }
  destruct (sub_spec a b 23 Hfa Hfb Hwa Hwb HK ltac:(lia))
    as (Hf & Hw & He & _).
  pose proof (ulp_small 23 ltac:(lia)) as U. apply Rabs_le_inv in He.
  split; [assumption|]. split; [assumption|]. apply Rabs_le. lra.
Qed.

Lemma coord_add (a b : float) :
  coord_float a -> coord_float b ->
  is_finite (add a b) = true /\ wf (add a b) /\
  (Rabs (B2R (add a b)) <= 4194305)%R.
Proof.
  intros (Hfa & Hwa & Ha) (Hfb & Hwb & Hb). apply Rabs_le_inv in Ha, Hb.
  assert (Rabs (B2R a + B2R b) < bpow 23)%R as HK.
  { rewrite (bpow_nat 23 8388608) by (simpl; lia). apply Rabs_lt. lra. }
  destruct (add_spec a b 23 Hfa Hfb Hwa Hwb HK ltac:(lia))
    as (Hf & Hw & He & _).
  pose proof (ulp_small 23 ltac:(lia)) as U. apply Rabs_le_inv in He.
  split; [assumption|]. split; [assumption|]. apply Rabs_le. lra.
Qed.

(** Squaring a difference of coordinates never overflows. *)
Lemma pow2_sub_ok (a b : float) :
  coord_float a -> coord_float b -> is_ok (pow2 pow_up (sub a b)).
Proof.
  intros Ha Hb. destruct (coord_sub a b Ha Hb) as (Hf & Hw & Hv).
  apply Rabs_le_inv in Hv.
  assert (Rabs (B2R (sub a b) * B2R (sub a b)) < bpow 50)%R as HK.
  { rewrite (bpow_nat 50 1125899906842624) by (simpl; lia).
    rewrite Rabs_mult.
    assert (0 <= Rabs (B2R (sub a b)) <= 4194305)%R as HA.
    { split; [apply Rabs_pos|apply Rabs_le; lra]. }
    pose proof (prod_bound _ _ 4194305 4194305 HA HA). lra. }
  destruct (square_spec _ 50 Hf HK ltac:(lia)) as (Hfm & _).
  eexists. apply pow2_finite. exact Hfm.
Qed.

Lemma B2R_two : B2R Circular.two = 2%R.
Proof.
  destruct (of_Z_exact 2 ltac:(simpl; lia)) as (_ & _ & H). exact H.
Qed.

(** [size / 2 - 0.5] for a size up to 2^20. *)
(** Halving a size: the quotient is a double close to [size / 2]. *)
Lemma int_half_ok (size : Z) :
  0 <= size <= 1048576 ->
  exists q, Circular.int_truediv size 2 = Ok q /\ is_finite q = true /\
            wf q /\ (Rabs (B2R q - IZR size / 2) <= 2 * bpow (ulp_exp 20))%R.
Proof.
  intros Hs. pose proof (IZR_range 0 size 1048576 Hs) as HS.
  destruct size as [|p|p]; [| |lia].
  - exists (S754_zero false). split; [reflexivity|]. split; [reflexivity|].
    split; [exact I|]. simpl B2R.
    replace (0 - 0 / 2)%R with 0%R by lra. rewrite Rabs_R0.
    pose proof (bpow_pos (ulp_exp 20)). lra.
  - unfold Circular.int_truediv.
    change (Z.to_pos (Z.abs (Zpos p))) with p.
    change (Z.to_pos (Z.abs 2)) with 2%positive.
    change (Zpos p <? 0) with false. change (2 <? 0) with false.
    set (x := S754_finite false p 0). set (y := S754_finite false 2 0).
    assert (B2R x = IZR (Zpos p)) as Hx
        by (unfold x; rewrite B2R_finite; apply F2R_e0).
    assert (B2R y = 2%R) as Hy
        by (unfold y; rewrite B2R_finite; apply F2R_e0).
    assert (Rabs (B2R x / B2R y) < bpow 20)%R as HK.
    { rewrite Hx, Hy, (bpow_nat 20 1048576) by (simpl; lia).
      apply Rabs_lt. lra. }
    destruct (div_spec x y 20 eq_refl eq_refl eq_refl HK ltac:(lia))
      as (Hf & Hw & He & _).
    rewrite Hx, Hy in He.
    exists (SFdiv prec emax x y). split; [|auto].
    destruct (SFdiv prec emax x y); try reflexivity. discriminate.
Qed.

Lemma centre_ok (size : Z) :
  0 <= size <= 1048576 ->
  exists c, Circular.centre size = Ok c /\ coord_float c /\
            (Rabs (B2R c) <= 1048576)%R.
Proof.
  intros Hs. pose proof (IZR_range 0 size 1048576 Hs) as HS.
  unfold Circular.centre.
  destruct (int_half_ok size Hs) as (q & -> & Hfq & Hwq & Heq).
  cbn [bind]. eexists. split; [reflexivity|].
  pose proof (ulp_small 20 ltac:(lia)) as U20.
  pose proof (ulp_small 21 ltac:(lia)) as U21.
  apply Rabs_le_inv in Heq.
  destruct unit_half as (Hfh & Hwh & Hh).
  assert (Rabs (B2R q - B2R Circular.half) < bpow 21)%R as HK2.
  { rewrite (bpow_nat 21 2097152) by (simpl; lia). apply Rabs_lt. lra. }
  destruct (sub_spec q Circular.half 21 Hfq Hfh Hwq Hwh HK2 ltac:(lia))
    as (Hfc & Hwc & Hec & _).
  apply Rabs_le_inv in Hec.
  split; [|apply Rabs_le; lra].
  split; [assumption|]. split; [assumption|]. apply Rabs_le. lra.
Qed.

Lemma circle_samples_unit (cx cy radius : float) (x y : Z) :
  coord_float cx -> coord_float cy -> wf radius ->
  0 <= x <= 1048576 -> 0 <= y <= 1048576 ->
  samples_unit x y (Circular.circle_coverage pow_up cx cy radius).
Proof.
  intros Hcx Hcy Hr Hx Hy sx sy Hsx Hsy.
  destruct (sample_at_ok x sx Hx Hsx) as (vx & Evx & Hvx).
  destruct (sample_at_ok y sy Hy Hsy) as (vy & Evy & Hvy).
  destruct (circle_coverage_unit cx cy radius vx vy Hr
              (pow2_sub_ok cx vx Hcx Hvx) (pow2_sub_ok cy vy Hcy Hvy))
    as (u & Eu & Hu).
  exists vx, vy, u. auto.
Qed.

Lemma more_samples_unit (dots : list (float * float)) (dot_r : float)
  (x y : Z) :
  Forall (fun d => coord_float (fst d) /\ coord_float (snd d)) dots ->
  wf dot_r -> 0 <= x <= 1048576 -> 0 <= y <= 1048576 ->
  samples_unit x y (Circular.more_coverage pow_up dots dot_r).
Proof.
  intros Hd Hr Hx Hy sx sy Hsx Hsy.
  destruct (sample_at_ok x sx Hx Hsx) as (vx & Evx & Hvx).
  destruct (sample_at_ok y sy Hy Hsy) as (vy & Evy & Hvy).
  destruct (more_coverage_unit dots dot_r vx vy Hr) as (u & Eu & Hu).
  { eapply Forall_impl; [|exact Hd]. intros [dx dy] [H1 H2]. simpl in *.
    split; apply pow2_sub_ok; assumption. }
  exists vx, vy, u. auto.
Qed.

(** * The background pass *)

Theorem background_pixels (size color transparent : Z) :
  0 <= size <= 1048576 ->
  exists c pixels,
    Circular.centre size = Ok c /\
    Circular.generate_circle_background pow_up size color transparent = Ok pixels /\
    length pixels = Z.to_nat (size * size) /\
    forall x y, 0 <= x < size -> 0 <= y < size ->
      exists p,
        Circular.background_pixel size color transparent
          (Circular.circle_coverage pow_up c c c) x y = Ok p /\
        nth_error pixels (pixel_index size (x, y)) = Some p.
Proof.
  intros Hs. destruct (centre_ok size Hs) as (c & Ec & Hc & _).
  assert (wf c) as Hw by apply Hc.
  set (g := fun k : Z * Z =>
              Circular.background_pixel size color transparent
                (Circular.circle_coverage pow_up c c c) (fst k) (snd k)).
  destruct (foldM_append g (coords size) []) as (ps & Ef & Hps).
  { intros [x y] Hin. apply In_coords in Hin as [Hx Hy].
    destruct (background_pixel_ok size color transparent
                (Circular.circle_coverage pow_up c c c) x y) as (p & Ep).
    - apply circle_samples_unit; auto; lia.
    - exists p. exact Ep. }
  exists c, ps. split; [exact Ec|]. split; [|split].
  - unfold Circular.generate_circle_background. rewrite Ec. cbn [bind].
    rewrite (foldM_rows
               (fun pixels x y =>
                  p <- Circular.background_pixel size color transparent
                         (Circular.circle_coverage pow_up c c c) x y ;;
                  Ok (pixels ++ [p])) (range size) (range size) []).
    exact Ef.
  - rewrite <- (Forall2_length Hps). apply coords_length. lia.
  - intros x y Hx Hy.
    destruct (Forall2_nth _ _ _ _ _ Hps (coords_nth size x y Hx Hy))
      as (p & Hn & Hp).
    exists p. split; [exact Hp|exact Hn].
Qed.

(** * The symbol pass *)

(** The value [draw_step] leaves in the cell of (x, y) that held [old]. *)
Definition draw_pixel (size fg_color : Z)
  (coverage_fn : float -> float -> result float) (opacity : float)
  (old x y : Z) : result Z :=
  coverage <- Circular.sample_pixel_aa x y size coverage_fn ;;
  if ltb (lit 1 100) coverage
  then Circular.blend_565 fg_color old (mul coverage opacity)
  else Ok old.

Lemma draw_pixel_ok (size fg_color : Z)
  (f : float -> float -> result float) (opacity : float) (old x y : Z) :
  samples_unit x y f -> unit_float opacity ->
  is_ok (draw_pixel size fg_color f opacity old x y).
Proof.
  intros Hs Ho. unfold draw_pixel.
  destruct (sample_pixel_aa_ok x y size f Hs) as (c & -> & Hc). cbn [bind].
  destruct (ltb _ c); [|eexists; reflexivity].
  destruct (scaled_coverage c opacity Hc Ho) as (Hf & Hw & Hv).
  destruct (blend_565_ok fg_color old _ Hf Hw Hv) as (p & Hp).
  exists p. exact Hp.
Qed.

Lemma draw_step_pixel (size fg_color : Z)
  (f : float -> float -> result float) (opacity : float)
  (pixels : list Z) (x y old p : Z) :
  0 <= y * size + x ->
  nth_error pixels (pixel_index size (x, y)) = Some old ->
  draw_pixel size fg_color f opacity old x y = Ok p ->
  Circular.draw_step size fg_color f opacity pixels x y
  = Ok (update pixels (pixel_index size (x, y)) p).
Proof.
  unfold pixel_index, draw_pixel, Circular.draw_step. simpl fst. simpl snd.
  intros Hi Hn.
  assert (0 <= y * size + x < Z.of_nat (length pixels)) as Hb.
  { split; [assumption|].
    assert (nth_error pixels (Z.to_nat (y * size + x)) <> None) as H
        by congruence.
    apply nth_error_Some in H. lia. }
  destruct (Circular.sample_pixel_aa x y size f) as [c|e]; cbn [bind];
    [|discriminate].
  destruct (ltb _ c).
  - destruct (list_get_nonneg pixels _ Hb) as (old' & Hn' & ->).
    rewrite Hn in Hn'. injection Hn' as <-. cbn [bind].
    intros ->. cbn [bind]. apply list_set_nonneg. assumption.
  - intros E. injection E as <-. now rewrite update_same.
Qed.

Theorem draw_symbol_pixels (pixels : list Z) (size fg_color : Z)
  (f : float -> float -> result float) (opacity : float) :
  0 <= size ->
  length pixels = Z.to_nat (size * size) ->
  (forall x y, 0 <= x < size -> 0 <= y < size -> samples_unit x y f) ->
  unit_float opacity ->
  exists out,
    Circular.draw_symbol pixels size fg_color f opacity = Ok out /\
    length out = length pixels /\
    forall x y old, 0 <= x < size -> 0 <= y < size ->
      nth_error pixels (pixel_index size (x, y)) = Some old ->
      exists p,
        draw_pixel size fg_color f opacity old x y = Ok p /\
        nth_error out (pixel_index size (x, y)) = Some p.
Proof.
  intros Hs Hlen Hf Ho.
  destruct (foldM_pointwise (pixel_index size)
              (fun k old => draw_pixel size fg_color f opacity old
                                       (fst k) (snd k))
              (fun l k => Circular.draw_step size fg_color f opacity l
                                             (fst k) (snd k))
              (coords size)) with (pixels := pixels)
    as (out & Ef & Hl & Hin & _).
  - rewrite coords_indices by assumption. apply seq_NoDup.
  - intros [x y] Hk. apply In_coords in Hk as [Hx Hy].
    pose proof (pixel_index_lt size x y Hx Hy).
    rewrite Hlen. unfold pixel_index. simpl. lia.
  - intros [x y] old Hk. apply In_coords in Hk as [Hx Hy].
    apply draw_pixel_ok; auto.
  - intros [x y] l old p Hk Hn Hp. apply In_coords in Hk as [Hx Hy].
    simpl fst in *. simpl snd in *.
    apply (draw_step_pixel size fg_color f opacity l x y old p); auto.
    pose proof (pixel_index_lt size x y Hx Hy). lia.
  - exists out. split; [|split; [exact Hl|]].
    + unfold Circular.draw_symbol.
      rewrite (foldM_rows
                 (fun l x y => Circular.draw_step size fg_color f opacity
                                                  l x y)).
      exact Ef.
    + intros x y old Hx Hy Hn.
      apply (Hin (x, y) old); [apply In_coords; auto|exact Hn].
Qed.

(** * The more symbol *)

Lemma B2R_ten : B2R (of_Z 10) = 10%R.
Proof.
  destruct (of_Z_exact 10 ltac:(simpl; lia)) as (_ & _ & H). exact H.
Qed.

Lemma wf_of_Z (z : Z) : wf (of_Z z).
Proof. apply binary_normalize_wf. Qed.

Lemma coord_shift (c : float) :
  is_finite c = true -> wf c -> (Rabs (B2R c) <= 1048576)%R ->
  coord_float (sub c (of_Z 10)) /\ coord_float (add c (of_Z 10)).
Proof.
  intros Hf Hw Hv. apply Rabs_le_inv in Hv.
  pose proof (ulp_small 21 ltac:(lia)) as U.
  split.
  - assert (Rabs (B2R c - B2R (of_Z 10)) < bpow 21)%R as HK.
    { rewrite B2R_ten, (bpow_nat 21 2097152) by (simpl; lia).
      apply Rabs_lt. lra. }
    destruct (sub_spec c (of_Z 10) 21 Hf eq_refl Hw (wf_of_Z 10) HK
                ltac:(lia)) as (Hf' & Hw' & He & _).
    rewrite B2R_ten in He. apply Rabs_le_inv in He.
    split; [assumption|]. split; [assumption|]. apply Rabs_le. lra.
  - assert (Rabs (B2R c + B2R (of_Z 10)) < bpow 21)%R as HK.
    { rewrite B2R_ten, (bpow_nat 21 2097152) by (simpl; lia).
      apply Rabs_lt. lra. }
    destruct (add_spec c (of_Z 10) 21 Hf eq_refl Hw (wf_of_Z 10) HK
                ltac:(lia)) as (Hf' & Hw' & He & _).
    rewrite B2R_ten in He. apply Rabs_le_inv in He.
    split; [assumption|]. split; [assumption|]. apply Rabs_le. lra.
Qed.

(** The three dots of [draw_more_symbol] around the centre [c]. *)
Definition more_dots (c : float) : list (float * float) :=
  [(sub c (of_Z 10), c); (c, c); (add c (of_Z 10), c)].

Lemma more_shape_eq (size : Z) (c : float) :
  Circular.centre size = Ok c ->
  Circular.more_shape pow_up size
  = Ok (Circular.more_coverage pow_up (more_dots c) (lit 32 10)).
Proof. intros E. unfold Circular.more_shape. rewrite E. reflexivity. Qed.

Lemma more_dots_samples (c : float) (x y : Z) :
  coord_float c -> (Rabs (B2R c) <= 1048576)%R ->
  0 <= x <= 1048576 -> 0 <= y <= 1048576 ->
  samples_unit x y (Circular.more_coverage pow_up (more_dots c) (lit 32 10)).
Proof.
  intros Hc Hv Hx Hy.
  destruct (coord_shift c (proj1 Hc) (proj1 (proj2 Hc)) Hv) as [Hl Hr].
  apply more_samples_unit; auto.
  - unfold more_dots.
    repeat (apply Forall_cons; [split; simpl; assumption|]). apply Forall_nil.
  - vm_compute. split; [reflexivity|discriminate].
Qed.

Lemma unit_opacity_93 : unit_float (lit 93 100).
Proof.
  apply small_unit; vm_compute; [split; [reflexivity|discriminate]|discriminate].
Qed.

(** [draw_more_symbol] never raises on a full grid; every cell ends as the
    blend of the dots over what it held. *)
Theorem draw_more_symbol_pixels (pixels : list Z) (size fg_color : Z) :
  0 <= size <= 1048576 ->
  length pixels = Z.to_nat (size * size) ->
  exists c out,
    Circular.centre size = Ok c /\
    Circular.draw_more_symbol pow_up pixels size fg_color = Ok out /\
    length out = length pixels /\
    forall x y old, 0 <= x < size -> 0 <= y < size ->
      nth_error pixels (pixel_index size (x, y)) = Some old ->
      exists p,
        draw_pixel size fg_color
          (Circular.more_coverage pow_up (more_dots c) (lit 32 10)) (lit 93 100)
          old x y = Ok p /\
        nth_error out (pixel_index size (x, y)) = Some p.
Proof.
  intros Hs Hlen. destruct (centre_ok size Hs) as (c & Ec & Hc & Hv).
  destruct (draw_symbol_pixels pixels size fg_color
              (Circular.more_coverage pow_up (more_dots c) (lit 32 10)) (lit 93 100))
    as (out & Eo & Hl & Hp); try assumption; try lia.
  - intros x y Hx Hy. apply more_dots_samples; auto; lia.
  - apply unit_opacity_93.
  - exists c, out. split; [exact Ec|]. split; [|split; assumption].
    unfold Circular.draw_more_symbol. rewrite (more_shape_eq size c Ec).
    exact Eo.
Qed.

(** * Icons, end to end *)

(** The pixel (x, y) of a generated icon. *)
Definition pixel_at (icon : result (list Z)) (x y : Z) : result Z :=
  l <- icon ;; list_get l (y * Circular.ICON_SIZE + x).

(** The centre of a 42x42 icon, 20.5. *)
Definition centre42 : float := lit 41 2.

Lemma centre_42 : Circular.centre 42 = Ok centre42.
Proof. vm_compute. reflexivity. Qed.

Lemma generate_icon_more (atan2 : float -> float -> float)
  (sin : float -> float) (name : string) (bg t : Z) :
  Circular.generate_icon pow_up atan2 sin (Circular.mkIconDef name bg "more") t
  = (pixels <- Circular.generate_circle_background pow_up Circular.ICON_SIZE bg t ;;
     Circular.draw_more_symbol pow_up pixels Circular.ICON_SIZE 65535).
Proof. reflexivity. Qed.

(** Every pixel of an icon with the more symbol: the background pass gives
    the badge colour [b] of the cell, the symbol pass blends the dots over
    it. *)
Theorem more_icon_pixel (atan2 : float -> float -> float)
  (sin : float -> float) (name : string) (bg t x y : Z) :
  0 <= x < 42 -> 0 <= y < 42 ->
  exists b p,
    Circular.background_pixel 42 bg t
      (Circular.circle_coverage pow_up centre42 centre42 centre42) x y = Ok b /\
    draw_pixel 42 65535
      (Circular.more_coverage pow_up (more_dots centre42) (lit 32 10)) (lit 93 100)
      b x y = Ok p /\
    pixel_at (Circular.generate_icon pow_up atan2 sin
                (Circular.mkIconDef name bg "more") t) x y = Ok p.
Proof.
  intros Hx Hy. rewrite generate_icon_more.
  change Circular.ICON_SIZE with 42.
  destruct (background_pixels 42 bg t ltac:(lia))
    as (c & pixels & Ec & Eb & Hlen & Hb).
  rewrite centre_42 in Ec. injection Ec as <-.
  destruct (draw_more_symbol_pixels pixels 42 65535 ltac:(lia) Hlen)
    as (c & out & Ec & Eo & Hl & Hp).
  rewrite centre_42 in Ec. injection Ec as <-.
  destruct (Hb x y Hx Hy) as (b & Eb' & Hnb).
  destruct (Hp x y b Hx Hy Hnb) as (p & Ep & Hnp).
  exists b, p. split; [exact Eb'|]. split; [exact Ep|].
  unfold pixel_at. rewrite Eb. cbn [bind]. rewrite Eo. cbn [bind].
  change Circular.ICON_SIZE with 42.
  destruct (list_get_nonneg out (y * 42 + x)) as (p' & Hn' & ->).
  - rewrite Hl, Hlen. lia.
  - unfold pixel_index in Hnp. simpl in Hnp. congruence.
Qed.

(** The pixel (x, y) after the background pass alone. *)
Lemma background_pixel_value (bg t x y b : Z) :
  0 <= x < 42 -> 0 <= y < 42 ->
  Circular.background_pixel 42 bg t
    (Circular.circle_coverage pow_up centre42 centre42 centre42) x y = Ok b ->
  pixel_at (Circular.generate_circle_background pow_up 42 bg t) x y = Ok b.
Proof.
  intros Hx Hy Hb.
  destruct (background_pixels 42 bg t ltac:(lia))
    as (c & pixels & Ec & Eb & Hlen & Hpix).
  rewrite centre_42 in Ec. injection Ec as <-.
  destruct (Hpix x y Hx Hy) as (b' & Eb' & Hn).
  rewrite Hb in Eb'. injection Eb' as <-.
  unfold pixel_at. rewrite Eb. cbn [bind].
  change Circular.ICON_SIZE with 42.
  destruct (list_get_nonneg pixels (y * 42 + x)) as (p' & Hn' & ->).
  - rewrite Hlen. lia.
  - unfold pixel_index in Hn. simpl in Hn. congruence.
Qed.

(** The pixel (x, y) of an icon with the more symbol, from the values of
    the two passes at (x, y). *)
Lemma more_icon_value (atan2 : float -> float -> float)
  (sin : float -> float) (name : string) (bg t x y b p : Z) :
  0 <= x < 42 -> 0 <= y < 42 ->
  Circular.background_pixel 42 bg t
    (Circular.circle_coverage pow_up centre42 centre42 centre42) x y = Ok b ->
  draw_pixel 42 65535
    (Circular.more_coverage pow_up (more_dots centre42) (lit 32 10)) (lit 93 100)
    b x y = Ok p ->
  pixel_at (Circular.generate_icon pow_up atan2 sin
              (Circular.mkIconDef name bg "more") t) x y = Ok p.
Proof.
  intros Hx Hy Hb Hp.
  destruct (more_icon_pixel atan2 sin name bg t x y Hx Hy)
    as (b' & p' & Hb' & Hp' & Hv).
  rewrite Hb in Hb'. injection Hb' as <-.
  rewrite Hp in Hp'. injection Hp' as <-. exact Hv.
Qed.

(** * Float remainder and the reduction of angles *)

Lemma F2R_pos (m : positive) (e : Z) : (0 < F2R (Zpos m) e)%R.
Proof.
  unfold F2R. apply Rmult_lt_0_compat; [|apply bpow_pos].
  apply IZR_lt. lia.
Qed.

(** A finite float is positive exactly when it is a positive mantissa. *)
Lemma positive_float (p : float) :
  is_finite p = true -> (0 < B2R p)%R ->
  exists m e, p = S754_finite false m e.
Proof.
  destruct p as [s|s| |s m e]; try discriminate; intros _ H.
  - simpl in H. lra.
  - destruct s; [|eauto]. rewrite B2R_finite in H. simpl cond_Zopp in H.
    change (Z.neg m) with (- Z.pos m) in H. rewrite F2R_opp in H.
    pose proof (F2R_pos m e). lra.
Qed.

Lemma ltb_zero_nonneg (x : float) :
  is_finite x = true -> (0 <= B2R x)%R -> ltb x zero = false.
Proof.
  destruct x as [s|s| |s m e]; try discriminate; intros _ H.
  - reflexivity.
  - destruct s; [|reflexivity]. rewrite B2R_finite in H. simpl cond_Zopp in H.
    change (Z.neg m) with (- Z.pos m) in H. rewrite F2R_opp in H.
    pose proof (F2R_pos m e). lra.
Qed.


(** The remainder of C [fmod] is exact, smaller than the divisor and has
    the sign of the dividend. *)
Lemma fmod_spec (sx sy : bool) (mx my : positive) (ex ey K : Z) :
  wf (S754_finite sx mx ex) -> wf (S754_finite sy my ey) ->
  (F2R (Zpos my) ey < bpow K)%R -> K <= 971 ->
  let r := fmod (S754_finite sx mx ex) (S754_finite sy my ey) in
  is_finite r = true /\ wf r /\
  (Rabs (B2R r) < F2R (Zpos my) ey)%R /\
  (if sx then B2R r <= 0 else 0 <= B2R r)%R.
Proof.
  intros [Hmx Hex] [Hmy Hey] HK HK'. cbv zeta. unfold fmod.
  set (e := Z.min ex ey).
  set (A := Zpos mx * 2 ^ (ex - e)).
  set (B := Zpos my * 2 ^ (ey - e)).
  assert (0 <= ex - e) as Hdx by (unfold e; lia).
  assert (0 <= ey - e) as Hdy by (unfold e; lia).
  assert (0 < 2 ^ (ex - e)) as Hpx by (apply Z.pow_pos_nonneg; lia).
  assert (0 < 2 ^ (ey - e)) as Hpy by (apply Z.pow_pos_nonneg; lia).
  assert (0 <= A) as HA by (unfold A; nia).
  assert (0 < B) as HB by (unfold B; nia).
  pose proof (Z.mod_pos_bound A B HB) as [Hn0 HnB].
  pose proof (Z.mod_le A B HA HB) as HnA.
  set (n := A mod B) in *.
  assert (F2R B e = F2R (Zpos my) ey) as HFB.
  { unfold B. replace e with (ey - (ey - e)) at 2 by lia.
    apply F2R_shift. assumption. }
  assert (F2R n e < F2R (Zpos my) ey)%R as Hlt.
  { rewrite <- HFB. apply F2R_lt. assumption. }
  assert (0 <= F2R n e)%R as Hge.
  { rewrite <- (F2R_0 e). apply F2R_le. assumption. }
  assert (n < 2 ^ 53) as Hfit.
  { destruct (Z.le_ge_cases ex ey) as [Hle|Hle].
    - assert (e = ex) as He by (unfold e; lia).
      assert (A = Zpos mx) as HAe.
      { unfold A. rewrite He, Z.sub_diag. simpl. lia. }
      lia.
    - assert (e = ey) as He by (unfold e; lia).
      assert (B = Zpos my) as HBe.
      { unfold B. rewrite He, Z.sub_diag. simpl. lia. }
      lia. }
  assert (Rabs (F2R (cond_Zopp sx n) e) < bpow K)%R as HR.
  { rewrite F2R_cond_Zopp. destruct sx.
    - rewrite Rabs_Ropp, Rabs_pos_eq by assumption. lra.
    - rewrite Rabs_pos_eq by assumption. lra. }
  destruct (binary_normalize_spec (cond_Zopp sx n) e K sx HR HK')
    as (Hf & Hw & _ & Hex' & _).
  assert (fits (cond_Zopp sx n) e) as Hfits.
  { split; [|unfold e; lia]. destruct sx; simpl; lia. }
  specialize (Hex' Hfits).
  split; [exact Hf|]. split; [exact Hw|]. rewrite Hex', F2R_cond_Zopp.
  destruct sx.
  - rewrite Rabs_Ropp, Rabs_pos_eq by assumption. split; lra.
  - rewrite Rabs_pos_eq by assumption. split; lra.
Qed.


Lemma pos_float_exp (m : positive) (e K : Z) :
  -1074 <= e -> (F2R (Zpos m) e < bpow K)%R -> -1074 < K.
Proof.
  intros He H.
  destruct (Z_lt_le_dec (-1074) K) as [|Hle]; [assumption|]. exfalso.
  assert (bpow K <= bpow e)%R by (apply bpow_le; lia).
  assert (F2R 1 e <= F2R (Zpos m) e)%R by (apply F2R_le; lia).
  unfold F2R at 1 in H1. lra.
Qed.

(** [x % p] for a positive [p]: no exception, and a finite result between
    0 and a little more than [p]. *)
Lemma py_mod_pos (x : float) (mp : positive) (ep K : Z) :
  let p := S754_finite false mp ep in
  is_finite x = true -> wf x -> wf p ->
  (B2R p < bpow K)%R -> K <= 970 ->
  exists r, py_mod x p = Ok r /\ is_finite r = true /\ wf r /\
    (0 <= B2R r <= 2 * bpow K)%R /\
    ((0 <= B2R x)%R -> (B2R r < B2R p)%R).
Proof.
  cbv zeta. intros Hfx Hwx Hwp HK HK'.
  pose proof (F2R_pos mp ep) as Hppos.
  rewrite B2R_finite in HK. simpl cond_Zopp in HK.
  pose proof (pos_float_exp mp ep K (proj2 Hwp) HK) as HKlo.
  pose proof (bpow_pos K) as HbK.
  unfold py_mod. simpl is_zero. cbv iota.
  change (ltb (S754_finite false mp ep) zero) with false.
  destruct x as [sx|sx| |sx mx ex]; try discriminate.
  - (* a zero dividend *)
    simpl. exists (S754_zero false).
    split; [reflexivity|]. split; [reflexivity|]. split; [exact I|].
    simpl B2R. split; [split; lra|]. intros _. lra.
  - destruct (fmod_spec sx false mx mp ex ep K Hwx Hwp HK ltac:(lia))
      as (Hf & Hw & Hlt & Hs).
    set (m := fmod (S754_finite sx mx ex) (S754_finite false mp ep)) in *.
    destruct (is_zero m) eqn:Ez.
    + exists (S754_zero false).
      split; [reflexivity|]. split; [reflexivity|]. split; [exact I|].
      rewrite ?B2R_finite. simpl cond_Zopp. simpl B2R.
      split; [split; lra|]. intros _. lra.
    + apply Rabs_def2 in Hlt as [Hlt1 Hlt2].
      destruct sx.
      * (* negative dividend *)
        destruct (ltb m zero) eqn:El.
        -- simpl.
           assert (Rabs (B2R m + B2R (S754_finite false mp ep)) < bpow K)%R
             as HS.
           { rewrite ?B2R_finite. simpl cond_Zopp. apply Rabs_lt. lra. }
           destruct (add_spec m (S754_finite false mp ep) K Hf eq_refl Hw Hwp
                       HS ltac:(lia)) as (Hfa & Hwa & Hea & Hsa).
           exists (add m (S754_finite false mp ep)).
           split; [reflexivity|]. split; [assumption|]. split; [assumption|].
           rewrite ?B2R_finite in Hea, Hsa. simpl cond_Zopp in Hea, Hsa.
           apply Rabs_le_inv in Hea.
           pose proof (bpow_le _ _ (ulp_exp_le K ltac:(lia))) as Hu.
           destruct Hsa as [Hsa _]. specialize (Hsa ltac:(lra)).
           split; [split; lra|].
           rewrite ?B2R_finite. simpl cond_Zopp. intros Hx0.
           rewrite ?B2R_finite in Hx0. simpl cond_Zopp in Hx0.
           change (Z.neg mx) with (- Z.pos mx) in Hx0.
           rewrite F2R_opp in Hx0. pose proof (F2R_pos mx ex). lra.
        -- simpl. exists m. split; [reflexivity|].
           split; [assumption|]. split; [assumption|].
           assert (0 <= B2R m)%R as H0.
           { destruct m as [s|s| |s mm em]; try discriminate; simpl; try lra.
             destruct s; [discriminate El|].
             rewrite ?B2R_finite. simpl cond_Zopp. left. apply F2R_pos. }
           rewrite ?B2R_finite. simpl cond_Zopp.
           split; [split; lra|]. intros _. lra.
      * (* positive dividend *)
        rewrite (ltb_zero_nonneg m Hf Hs). simpl.
        exists m. split; [reflexivity|].
        split; [assumption|]. split; [assumption|].
        rewrite ?B2R_finite. simpl cond_Zopp.
        split; [split; lra|]. intros _. lra.
Qed.

(** The reduction of the gear and of the sun rays lands in [0, period). *)
Lemma normalize_angle_range (angle period : float) :
  is_finite angle = true -> wf angle ->
  is_finite period = true -> wf period ->
  (0 < B2R period < bpow 969)%R ->
  exists r, Circular.normalize_angle angle period = Ok r /\
            is_finite r = true /\ wf r /\ (0 <= B2R r < B2R period)%R.
Proof.
  intros Hfa Hwa Hfp Hwp [Hp0 Hp1].
  destruct (positive_float period Hfp Hp0) as (mp & ep & ->).
  destruct (py_mod_pos angle mp ep 969 Hfa Hwa Hwp Hp1 ltac:(lia))
    as (m & Em & Hfm & Hwm & [Hm0 Hm1] & _).
  unfold Circular.normalize_angle. rewrite Em. cbn [bind].
  assert (Rabs (B2R m + B2R (S754_finite false mp ep)) < bpow 971)%R as HS.
  { apply Rabs_lt. rewrite <- bpow_step in Hm1.
    change (969 + 1) with 970 in Hm1.
    assert (bpow 969 < bpow 970)%R by (apply bpow_lt; lia).
    pose proof (bpow_step 970) as H971. change (970 + 1) with 971 in H971.
    lra. }
  destruct (add_spec m (S754_finite false mp ep) 971 Hfm eq_refl Hwm Hwp HS
              ltac:(lia)) as (Hfs & Hws & _ & [Hs _]).
  specialize (Hs ltac:(lra)).
  assert (B2R (S754_finite false mp ep) < bpow 970)%R as Hp2.
  { assert (bpow 969 < bpow 970)%R by (apply bpow_lt; lia). lra. }
  destruct (py_mod_pos (add m (S754_finite false mp ep)) mp ep 970 Hfs Hws Hwp
              Hp2 ltac:(lia)) as (r & Er & Hfr & Hwr & [Hr0 _] & Hr1).
  exists r. split; [exact Er|]. split; [assumption|]. split; [assumption|].
  split; [assumption|]. apply Hr1. assumption.
Qed.

(** The period of the teeth and of the rays, [(2 * math.pi) / 8]. *)
Definition period8 : float := S754_finite false 7074237752028440 (-53).

Lemma period_of_8 : Circular.period_of 8 = Ok period8.
Proof. vm_compute. reflexivity. Qed.


(** * Canonical floats and comparison *)

(** A float in the canonical form of binary64: what every operation
    returns, and what the comparisons rely on. *)
Definition valid (x : float) : Prop := valid_binary prec emax x = true.

Lemma digits_unique (m k : Z) :
  0 < m -> 2 ^ (k - 1) <= m < 2 ^ k -> Zdigits2 m = k.
Proof.
  intros Hm [Hlo Hhi].
  assert (1 <= k) as Hk.
  { destruct (Z_lt_le_dec k 1) as [Hlt|]; [|assumption]. exfalso.
    destruct (Z.eq_dec k 0) as [->|Hn]; [simpl in Hhi; lia|].
    rewrite Z.pow_neg_r in Hhi by lia. lia. }
  rewrite Zdigits2_log2 by assumption.
  assert (Z.log2 m = k - 1) as Hl.
  { apply Z.log2_unique; [lia|]. replace (Z.succ (k - 1)) with k by lia.
    split; assumption. }
  lia.
Qed.

Lemma valid_finite_iff (s : bool) (m : positive) (e : Z) :
  valid (S754_finite s m e) <->
  (Zdigits2 (Zpos m) <= 53 /\ -1074 <= e <= 971 /\
   (e = -1074 \/ Zdigits2 (Zpos m) = 53)).
Proof.
  unfold valid, valid_binary, bounded, canonical_mantissa.
  rewrite fexp_eq. change (Zpos (digits2_pos m)) with (Zdigits2 (Zpos m)).
  change (emax - prec) with 971.
  rewrite andb_true_iff, Z.eqb_eq, Z.leb_le.
  pose proof (Zdigits2_pos (Zpos m) ltac:(lia)). lia.
Qed.

Lemma valid_zero (s : bool) : valid (S754_zero s).
Proof. reflexivity. Qed.

Lemma pack_valid (s : bool) (mr E : Z) :
  0 <= mr <= 2 ^ 53 -> -1074 <= E ->
  (E = -1074 \/ 2 ^ 52 <= mr \/ mr = 0) ->
  valid (pack s mr E).
Proof.
  intros Hm HE Hc. unfold pack.
  destruct (Z.eqb_spec mr 0) as [|Hn]; [reflexivity|].
  destruct (Z.ltb_spec mr (2 ^ 53)) as [Hlt|Hge].
  - destruct (Z.leb_spec E 971) as [Hle|]; [|reflexivity].
    apply valid_finite_iff. rewrite Z2Pos.id by lia.
    pose proof (Zdigits2_lt_pow mr 53 ltac:(lia) ltac:(lia) Hlt) as Hd.
    split; [assumption|]. split; [lia|].
    destruct Hc as [Hc|[Hc|Hc]]; [now left| |lia].
    right. apply digits_unique; [lia|]. simpl (53 - 1). lia.
  - destruct (Z.leb_spec (E + 1) 971) as [Hle|]; [|reflexivity].
    apply valid_finite_iff. rewrite Z2Pos.id by (vm_compute; reflexivity).
    assert (Zdigits2 (2 ^ 52) = 53) as Hd by (vm_compute; reflexivity).
    rewrite Hd. lia.
Qed.

(** The rounding step returns a canonical float when its input mantissa
    has at least the digits the format asks for. *)
Lemma bra_valid (s : bool) (mx ex : Z) (lx : location) :
  0 <= mx -> ex <= fexp prec emax (Zdigits2 mx + ex) ->
  valid (binary_round_aux prec emax s mx ex lx).
Proof.
  intros Hm Hal.
  destruct (bra_cases s mx ex lx Hm) as (mr & Hmr & Hr & _ & ->).
  pose proof (rnd_E_ge mx ex) as [HEmin HEex].
  assert (rnd_E mx ex = fexp prec emax (Zdigits2 mx + ex)) as HE
      by (unfold rnd_E; lia).
  rewrite fexp_eq in HE, Hal.
  apply pack_valid; [assumption|assumption|].
  destruct (Z.eq_dec (rnd_E mx ex) (-1074)) as [|Hn]; [now left|].
  right. left.
  destruct (Z.eq_dec mx 0) as [->|Hnz].
  { change (Zdigits2 0) with 0 in *. lia. }
  pose proof (Zdigits2_bounds mx ltac:(lia)) as [Hlo _].
  set (d := Zdigits2 mx) in *.
  assert (rnd_E mx ex - ex = d - 53) as Hsh by lia.
  assert (0 <= d - 53) by lia.
  assert (2 ^ 52 <= mx / 2 ^ (rnd_E mx ex - ex)) as Hq.
  { rewrite Hsh. apply Z.div_le_lower_bound.
    - apply Z.pow_pos_nonneg; lia.
    - rewrite <- Z.pow_add_r by lia.
      replace (d - 53 + 52) with (d - 1) by lia. assumption. }
  lia.
Qed.

Lemma binary_round_valid (s : bool) (mx : positive) (ex : Z) :
  valid (binary_round prec emax s mx ex).
Proof.
  unfold binary_round.
  pose proof (shl_align_spec mx ex
                (fexp prec emax (Zpos (digits2_pos mx) + ex))) as Hs.
  destruct (shl_align mx ex _) as [mz ez]. destruct Hs as [He Hmz].
  apply bra_valid; [lia|].
  rewrite Hmz, Zdigits2_shift by lia.
  change (Zpos (digits2_pos mx)) with (Zdigits2 (Zpos mx)) in He.
  replace (Zdigits2 (Zpos mx) + (ex - ez) + ez)
    with (Zdigits2 (Zpos mx) + ex) by lia.
  lia.
Qed.

Lemma binary_normalize_valid (m e : Z) (sz : bool) :
  valid (binary_normalize prec emax m e sz).
Proof.
  destruct m; simpl; [reflexivity| |]; apply binary_round_valid.
Qed.

Lemma of_Z_valid (z : Z) : valid (of_Z z).
Proof. apply binary_normalize_valid. Qed.

Lemma add_valid (x y : float) : valid x -> valid y -> valid (add x y).
Proof.
  intros Hx Hy. unfold add, SFadd.
  destruct x as [sx|sx| |sx mx ex], y as [sy|sy| |sy my ey];
    try assumption; try reflexivity.
  - destruct sx, sy; reflexivity.
  - destruct sx, sy; reflexivity.
  - apply binary_normalize_valid.
Qed.

Lemma opp_valid (x : float) : valid x -> valid (SFopp x).
Proof. destruct x; auto. Qed.

Lemma sub_valid (x y : float) : valid x -> valid y -> valid (sub x y).
Proof.
  intros Hx Hy. unfold sub, SFsub.
  destruct x as [sx|sx| |sx mx ex], y as [sy|sy| |sy my ey];
    try assumption; try reflexivity.
  - destruct sx, sy; reflexivity.
  - destruct sx, sy; reflexivity.
  - apply binary_normalize_valid.
Qed.

Lemma digits_mul_ge (a b : Z) :
  0 < a -> 0 < b -> Zdigits2 a + Zdigits2 b - 1 <= Zdigits2 (a * b).
Proof.
  intros Ha Hb.
  pose proof (Zdigits2_bounds a Ha) as [Ha1 _].
  pose proof (Zdigits2_bounds b Hb) as [Hb1 _].
  pose proof (Zdigits2_bounds (a * b) ltac:(nia)) as [_ Hab].
  pose proof (Zdigits2_pos a Ha). pose proof (Zdigits2_pos b Hb).
  pose proof (Zdigits2_nonneg (a * b)).
  assert (2 ^ (Zdigits2 a - 1 + (Zdigits2 b - 1)) <= a * b) as Hlo.
  { rewrite Z.pow_add_r by lia.
    assert (0 < 2 ^ (Zdigits2 a - 1)) by (apply Z.pow_pos_nonneg; lia).
    assert (0 < 2 ^ (Zdigits2 b - 1)) by (apply Z.pow_pos_nonneg; lia).
    nia. }
  assert (2 ^ (Zdigits2 a - 1 + (Zdigits2 b - 1)) < 2 ^ Zdigits2 (a * b))
    as Hlt by lia.
  apply Z.pow_lt_mono_r_iff in Hlt; lia.
Qed.

Lemma mul_valid (x y : float) : valid x -> valid y -> valid (mul x y).
Proof.
  intros Hx Hy. unfold mul, SFmul.
  destruct x as [sx|sx| |sx mx ex], y as [sy|sy| |sy my ey];
    try reflexivity.
  apply valid_finite_iff in Hx, Hy.
  apply bra_valid; [lia|]. rewrite fexp_eq.
  pose proof (digits_mul_ge (Zpos mx) (Zpos my) ltac:(lia) ltac:(lia)) as Hd.
  pose proof (Zdigits2_pos (Zpos mx) ltac:(lia)).
  pose proof (Zdigits2_pos (Zpos my) ltac:(lia)).
  change (Zpos (mx * my)) with (Zpos mx * Zpos my). lia.
Qed.

(** Between canonical floats the smaller exponent is the smaller value. *)
Lemma canon_exp_lt (s1 s2 : bool) (m1 m2 : positive) (e1 e2 : Z) :
  valid (S754_finite s1 m1 e1) -> valid (S754_finite s2 m2 e2) ->
  e1 < e2 -> (F2R (Zpos m1) e1 < F2R (Zpos m2) e2)%R.
Proof.
  intros H1 H2 He. apply valid_finite_iff in H1, H2.
  destruct H1 as (Hd1 & He1 & _). destruct H2 as (Hd2 & He2 & Hc2).
  assert (Zdigits2 (Zpos m2) = 53) as Hd by lia.
  pose proof (Zdigits2_bounds (Zpos m1) ltac:(lia)) as [_ Hhi].
  pose proof (Zdigits2_bounds (Zpos m2) ltac:(lia)) as [Hlo _].
  rewrite Hd in Hlo. simpl (53 - 1) in Hlo.
  assert (Zpos m1 < 2 ^ 53) as Hm1.
  { eapply Z.lt_le_trans; [exact Hhi|]. apply Z.pow_le_mono_r; lia. }
  pose proof (F2R_lt_bpow (Zpos m1) e1 53 ltac:(lia) Hm1) as Ha.
  pose proof (F2R_ge_bpow (Zpos m2) e2 52 ltac:(lia) Hlo) as Hb.
  assert (bpow (53 + e1) <= bpow (52 + e2))%R by (apply bpow_le; lia).
  lra.
Qed.

Lemma compare_pos (s1 s2 : bool) (m1 m2 : positive) (e1 e2 : Z) :
  valid (S754_finite s1 m1 e1) -> valid (S754_finite s2 m2 e2) ->
  match (match Z.compare e1 e2 with
         | Lt => Lt
         | Gt => Gt
         | Eq => Pos.compare_cont Eq m1 m2
         end) with
  | Lt => (F2R (Zpos m1) e1 < F2R (Zpos m2) e2)%R
  | Eq => F2R (Zpos m1) e1 = F2R (Zpos m2) e2
  | Gt => (F2R (Zpos m2) e2 < F2R (Zpos m1) e1)%R
  end.
Proof.
  intros H1 H2. destruct (Z.compare_spec e1 e2) as [->|Hlt|Hgt].
  - change (Pos.compare_cont Eq m1 m2) with (Pos.compare m1 m2).
    destruct (Pos.compare_spec m1 m2) as [->|Hm|Hm].
    + reflexivity.
    + apply F2R_lt. lia.
    + apply F2R_lt. lia.
  - apply (canon_exp_lt s1 s2); assumption.
  - apply (canon_exp_lt s2 s1); assumption.
Qed.

Lemma F2R_neg (m : positive) (e : Z) :
  F2R (Z.neg m) e = (- F2R (Zpos m) e)%R.
Proof. change (Z.neg m) with (- Z.pos m). apply F2R_opp. Qed.

(** The comparison of finite canonical floats is the comparison of their
    values. *)
Lemma SFcompare_spec (x y : float) :
  is_finite x = true -> is_finite y = true -> valid x -> valid y ->
  match SFcompare x y with
  | Some Lt => (B2R x < B2R y)%R
  | Some Eq => B2R x = B2R y
  | Some Gt => (B2R y < B2R x)%R
  | None => False
  end.
Proof.
  intros Hfx Hfy Hx Hy.
  destruct x as [sx|sx| |sx mx ex]; try discriminate;
    destruct y as [sy|sy| |sy my ey]; try discriminate; simpl SFcompare.
  - reflexivity.
  - rewrite B2R_finite. simpl B2R. pose proof (F2R_pos my ey).
    destruct sy; simpl cond_Zopp; [rewrite F2R_neg|]; lra.
  - rewrite B2R_finite. simpl B2R. pose proof (F2R_pos mx ex).
    destruct sx; simpl cond_Zopp; [rewrite F2R_neg|]; lra.
  - rewrite !B2R_finite.
    pose proof (F2R_pos mx ex). pose proof (F2R_pos my ey).
    destruct sx, sy; simpl cond_Zopp; rewrite ?F2R_neg; try lra.
    + pose proof (compare_pos true true mx my ex ey Hx Hy) as Hc.
      destruct (Z.compare ex ey); [|lra|lra].
      destruct (Pos.compare_cont Eq mx my); simpl; lra.
    + pose proof (compare_pos false false mx my ex ey Hx Hy) as Hc.
      destruct (Z.compare ex ey); [|lra|lra].
      destruct (Pos.compare_cont Eq mx my); simpl; lra.
Qed.

Lemma ltb_spec (x y : float) :
  is_finite x = true -> is_finite y = true -> valid x -> valid y ->
  if ltb x y then (B2R x < B2R y)%R else (B2R y <= B2R x)%R.
Proof.
  intros Hfx Hfy Hx Hy. pose proof (SFcompare_spec x y Hfx Hfy Hx Hy) as H.
  unfold ltb, SFltb. destruct (SFcompare x y) as [[| |]|]; try lra;
    contradiction.
Qed.

Lemma leb_spec (x y : float) :
  is_finite x = true -> is_finite y = true -> valid x -> valid y ->
  if leb x y then (B2R x <= B2R y)%R else (B2R y < B2R x)%R.
Proof.
  intros Hfx Hfy Hx Hy. pose proof (SFcompare_spec x y Hfx Hfy Hx Hy) as H.
  unfold leb, SFleb. destruct (SFcompare x y) as [[| |]|]; try lra;
    contradiction.
Qed.

Lemma digits_ge (q t : Z) : 0 < q -> 2 ^ (t - 1) <= q -> t <= Zdigits2 q.
Proof.
  intros Hq Ht. pose proof (Zdigits2_bounds q Hq) as [_ Hhi].
  pose proof (Zdigits2_pos q Hq).
  destruct (Z_le_gt_dec t (Zdigits2 q)) as [|Hgt]; [assumption|]. exfalso.
  assert (2 ^ Zdigits2 q <= 2 ^ (t - 1)) by (apply Z.pow_le_mono_r; lia).
  lia.
Qed.

Lemma shifted (m s : Z) :
  0 <= s ->
  match s with
  | Zpos _ => Z.shiftl m s
  | Z0 => m
  | Zneg _ => 0
  end = m * 2 ^ s.
Proof.
  intros Hs. destruct s as [|p|p]; [simpl; lia| |lia].
  apply Z.shiftl_mul_pow2. lia.
Qed.

(** The quotient handed to the rounding step has the digits it needs. *)
Lemma div_core_aligned (m1 m2 : positive) (e1 e2 : Z) :
  let '(q, e', l) := SFdiv_core_binary prec emax (Zpos m1) e1 (Zpos m2) e2 in
  0 <= q /\ e' <= fexp prec emax (Zdigits2 q + e').
Proof.
  unfold SFdiv_core_binary.
  set (d1 := Zdigits2 (Zpos m1)). set (d2 := Zdigits2 (Zpos m2)).
  set (e' := Z.min (fexp prec emax (d1 + e1 - (d2 + e2))) (e1 - e2)).
  set (s := e1 - e2 - e').
  assert (0 <= s) as Hs by (unfold s, e'; lia).
  rewrite (shifted (Zpos m1) s Hs).
  pose proof (Z_div_mod (Zpos m1 * 2 ^ s) (Zpos m2) ltac:(lia)) as Hdm.
  destruct (Z.div_eucl (Zpos m1 * 2 ^ s) (Zpos m2)) as [q r].
  destruct Hdm as [Heq Hr].
  assert (0 < 2 ^ s) as Hp by (apply Z.pow_pos_nonneg; lia).
  assert (0 <= q) as Hq by nia.
  split; [assumption|].
  pose proof (Zdigits2_bounds (Zpos m1) ltac:(lia)) as [Hlo1 _].
  pose proof (Zdigits2_bounds (Zpos m2) ltac:(lia)) as [_ Hhi2].
  pose proof (Zdigits2_pos (Zpos m1) ltac:(lia)) as Hd1.
  pose proof (Zdigits2_pos (Zpos m2) ltac:(lia)) as Hd2.
  fold d1 in Hlo1, Hd1. fold d2 in Hhi2, Hd2.
  rewrite fexp_eq. 
  assert (e' <= Z.max (d1 + e1 - (d2 + e2) - 53) (-1074)) as He'
      by (unfold e'; rewrite fexp_eq; lia).
  destruct (Z.eq_dec q 0) as [->|Hnz].
  - change (Zdigits2 0) with 0.
    (* the scaled dividend is below the divisor *)
    assert (Zpos m1 * 2 ^ s < 2 ^ d2) as Hsmall by nia.
    assert (2 ^ (d1 - 1 + s) <= Zpos m1 * 2 ^ s) as Hbig.
    { rewrite Z.pow_add_r by lia. nia. }
    assert (2 ^ (d1 - 1 + s) < 2 ^ d2) as Hlt by lia.
    apply Z.pow_lt_mono_r_iff in Hlt; [|lia|lia].
    unfold s in Hlt. lia.
  - assert (d1 + s - d2 <= Zdigits2 q) as Hdq.
    { destruct (Z_le_gt_dec (d1 + s - d2) 0) as [Hle|Hgt].
      - pose proof (Zdigits2_pos q ltac:(lia)). lia.
      - apply digits_ge; [lia|].
        assert (2 ^ (d1 + s - d2 - 1) * 2 ^ d2 <= Zpos m1 * 2 ^ s) as Hbig.
        { rewrite <- Z.pow_add_r by lia.
          replace (d1 + s - d2 - 1 + d2) with (d1 - 1 + s) by lia.
          rewrite Z.pow_add_r by lia. nia. }
        assert (0 < 2 ^ (d1 + s - d2 - 1)) by (apply Z.pow_pos_nonneg; lia).
        assert (0 < 2 ^ d2) by (apply Z.pow_pos_nonneg; lia).
        nia. }
    unfold s in Hdq. lia.
Qed.

Lemma div_valid (x y : float) : valid (SFdiv prec emax x y).
Proof.
  unfold SFdiv.
  destruct x as [sx|sx| |sx mx ex], y as [sy|sy| |sy my ey];
    try reflexivity.
  pose proof (div_core_aligned mx my ex ey) as H.
  destruct (SFdiv_core_binary prec emax (Zpos mx) ex (Zpos my) ey)
    as [[q e'] l].
  destruct H as [Hq Ha]. apply bra_valid; assumption.
Qed.

Lemma lit_valid (n : Z) (d : positive) : valid (lit n d).
Proof. apply div_valid. Qed.

Lemma truediv_valid (x y z : float) : truediv x y = Ok z -> valid z.
Proof.
  unfold truediv. destruct (is_zero y); [discriminate|].
  intros H. injection H as <-. apply div_valid.
Qed.

(** The integer square root of a number of [k] digits has [(k + 1) / 2]
    digits. *)
Lemma sqrt_digits (n q r : Z) :
  0 < n -> n = q * q + r -> 0 <= r <= 2 * q ->
  0 < q /\ Zdigits2 q = (Zdigits2 n + 1) / 2.
Proof.
  intros Hn Heq Hr.
  assert (0 < q) as Hq by nia.
  split; [assumption|].
  pose proof (Zdigits2_bounds n Hn) as [Hlo Hhi].
  pose proof (Zdigits2_pos n Hn) as Hk.
  set (k := Zdigits2 n) in *. set (j := (k + 1) / 2).
  assert (2 * j - 1 <= k <= 2 * j) as Hj.
  { unfold j. pose proof (Z.div_mod (k + 1) 2 ltac:(lia)).
    pose proof (Z.mod_pos_bound (k + 1) 2 ltac:(lia)). lia. }
  assert (1 <= j) as Hj1 by lia.
  assert (0 < 2 ^ (j - 1)) as Hp by (apply Z.pow_pos_nonneg; lia).
  assert (2 ^ j = 2 * 2 ^ (j - 1)) as Hpj.
  { replace j with (1 + (j - 1)) at 1 by lia.
    rewrite Z.pow_add_r by lia. reflexivity. }
  apply digits_unique; [assumption|]. split.
  - (* (q + 1)^2 > n >= 2^(k-1) >= (2^(j-1))^2 *)
    assert (2 ^ (j - 1) * 2 ^ (j - 1) <= 2 ^ (k - 1)) as Hsq.
    { rewrite <- Z.pow_add_r by lia. apply Z.pow_le_mono_r; lia. }
    nia.
  - assert (2 ^ k <= 2 ^ j * 2 ^ j) as Hsq.
    { rewrite <- Z.pow_add_r by lia. apply Z.pow_le_mono_r; lia. }
    nia.
Qed.

Lemma sqrt_core_aligned (m : positive) (e : Z) :
  let '(q, e', l) := SFsqrt_core_binary prec emax (Zpos m) e in
  0 <= q /\ e' <= fexp prec emax (Zdigits2 q + e').
Proof.
  unfold SFsqrt_core_binary.
  set (d := Zdigits2 (Zpos m)).
  set (e' := Z.min (fexp prec emax (Z.div2 (d + e + 1))) (Z.div2 e)).
  set (s := e - 2 * e').
  assert (0 <= s) as Hs.
  { unfold s, e'. rewrite (Z.div2_div e).
    pose proof (Z.div_mod e 2 ltac:(lia)).
    pose proof (Z.mod_pos_bound e 2 ltac:(lia)). lia. }
  rewrite (shifted (Zpos m) s Hs).
  assert (0 < 2 ^ s) as Hp by (apply Z.pow_pos_nonneg; lia).
  assert (0 < Zpos m * 2 ^ s) as Hn by nia.
  pose proof (Z.sqrtrem_spec (Zpos m * 2 ^ s) ltac:(lia)) as Hsq.
  destruct (Z.sqrtrem (Zpos m * 2 ^ s)) as [q r].
  destruct Hsq as [Heq Hr].
  destruct (sqrt_digits (Zpos m * 2 ^ s) q r Hn Heq Hr) as [Hq Hd].
  cbv beta iota zeta.
  split; [lia|].
  rewrite Hd, Zdigits2_shift by lia. fold d.
  replace (d + s + 1) with (d + e + 1 + (- e') * 2) by (unfold s; lia).
  rewrite Z.div_add by lia.
  replace ((d + e + 1) / 2 + - e' + e') with ((d + e + 1) / 2) by lia.
  unfold e' at 1. rewrite Z.div2_div. lia.
Qed.

Lemma sqrt_valid (x : float) : valid x -> valid (SFsqrt prec emax x).
Proof.
  intros Hx. unfold SFsqrt.
  destruct x as [s|[|]| |[|] m e]; try reflexivity.
  pose proof (sqrt_core_aligned m e) as H.
  destruct (SFsqrt_core_binary prec emax (Zpos m) e) as [[q e'] l].
  destruct H as [Hq Ha]. apply bra_valid; assumption.
Qed.

(** * Clamping and the edge of a disc, over the reals *)

(** [max(0, min(1, t))] over the reals. *)
Definition clampR (t : R) : R := Rmax 0 (Rmin 1 t).

Lemma clampR_cases (t : R) :
  (t <= 0 /\ clampR t = 0)%R \/ (0 <= t <= 1 /\ clampR t = t)%R \/
  (1 <= t /\ clampR t = 1)%R.
Proof.
  destruct (Rle_dec t 0) as [H0|H0]; [left|right].
  - split; [assumption|]. unfold clampR, Rmax, Rmin.
    destruct (Rle_dec 1 t); [lra|]. destruct (Rle_dec 0 t); lra.
  - destruct (Rle_dec t 1) as [H1|H1]; [left|right].
    + split; [lra|]. unfold clampR, Rmax, Rmin.
      destruct (Rle_dec 1 t); destruct (Rle_dec 0 _); lra.
    + split; [lra|]. unfold clampR, Rmax, Rmin.
      destruct (Rle_dec 1 t); [|lra]. destruct (Rle_dec 0 1); lra.
Qed.

Lemma clampR_close (a b delta : R) :
  (Rabs (a - b) <= delta)%R -> (Rabs (clampR a - clampR b) <= delta)%R.
Proof.
  intros H. apply Rabs_le_inv in H. apply Rabs_le.
  destruct (clampR_cases a) as [[? ->]|[[? ->]|[? ->]]];
    destruct (clampR_cases b) as [[? ->]|[[? ->]|[? ->]]]; lra.
Qed.

Lemma valid_one : valid one.
Proof. apply of_Z_valid. Qed.

(** [clamp(v)] is the clamp of the value of [v]. *)
Lemma clamp01_value (v : float) :
  is_finite v = true -> valid v ->
  is_finite (Circular.clamp01 v) = true /\ valid (Circular.clamp01 v) /\
  B2R (Circular.clamp01 v) = clampR (B2R v).
Proof.
  intros Hf Hv. unfold Circular.clamp01, Circular.clamp, py_min.
  pose proof (ltb_spec v one Hf eq_refl Hv valid_one) as H1.
  rewrite B2R_one in H1.
  destruct (ltb v one).
  - unfold py_max.
    pose proof (ltb_spec zero v eq_refl Hf (valid_zero false) Hv) as H0.
    simpl (B2R zero) in H0.
    destruct (ltb zero v).
    + split; [assumption|]. split; [assumption|].
      destruct (clampR_cases (B2R v)) as [[? ->]|[[? ->]|[? ->]]]; lra.
    + split; [reflexivity|]. split; [reflexivity|]. simpl (B2R zero).
      destruct (clampR_cases (B2R v)) as [[? ->]|[[? ->]|[? ->]]]; lra.
  - unfold py_max. change (ltb zero one) with true.
    split; [reflexivity|]. split; [exact valid_one|]. rewrite B2R_one.
    destruct (clampR_cases (B2R v)) as [[? ->]|[[? ->]|[? ->]]]; lra.
Qed.

Lemma valid_half : valid Circular.half.
Proof. apply lit_valid. Qed.

Lemma B2R_half : B2R Circular.half = (/ 2)%R.
Proof.
  change Circular.half with (S754_finite false 4503599627370496 (-53)).
  rewrite B2R_finite. simpl cond_Zopp.
  change 4503599627370496 with (1 * 2 ^ 52).
  replace (-53) with (-1 - 52) by lia. rewrite F2R_shift by lia.
  unfold F2R, bpow. simpl. lra.
Qed.

Lemma square_valid (z : float) : valid (square_of z).
Proof.
  destruct z; try reflexivity. unfold square_of, libm_square.
  apply binary_normalize_valid.
Qed.

Lemma pow2_valid (z q : float) : valid z -> pow2 pow_up z = Ok q -> valid q.
Proof. intros _ H. apply pow2_inv in H. subst q. apply square_valid. Qed.

Lemma sqrt_result_valid (x r : float) : valid x -> sqrt x = Ok r -> valid r.
Proof.
  intros Hx H. unfold sqrt in H.
  destruct x as [s|[|]| |[|] m e]; try discriminate;
    injection H as <-; exact (sqrt_valid _ Hx).
Qed.

(** The distance the code computes is a canonical float. *)
Lemma distance_valid (x1 y1 x2 y2 d : float) :
  valid x1 -> valid y1 -> valid x2 -> valid y2 ->
  Circular.distance pow_up x1 y1 x2 y2 = Ok d -> valid d.
Proof.
  intros Hx1 Hy1 Hx2 Hy2. unfold Circular.distance.
  destruct (pow2 pow_up (sub x2 x1)) as [dx2|] eqn:Ex; [|discriminate].
  destruct (pow2 pow_up (sub y2 y1)) as [dy2|] eqn:Ey; [|discriminate].
  cbn [bind]. apply sqrt_result_valid, add_valid.
  - apply (pow2_valid _ _ (sub_valid _ _ Hx2 Hx1) Ex).
  - apply (pow2_valid _ _ (sub_valid _ _ Hy2 Hy1) Ey).
Qed.

(** The tolerance of the edge: two units in the last place of a double
    below 2^21. *)
Definition edge_eps : R := bpow (-32).

Lemma ulp_21 : bpow (ulp_exp 21) = edge_eps.
Proof. reflexivity. Qed.

Lemma ulp_22 : (bpow (ulp_exp 22) = 2 * edge_eps)%R.
Proof.
  change (ulp_exp 22) with (-32 + 1). rewrite bpow_step. reflexivity.
Qed.

Lemma B2R_bounds_pos (m : positive) (e k : Z) :
  Zdigits2 (Zpos m) + e <= k ->
  (0 <= B2R (S754_finite false m e) <= bpow k)%R.
Proof.
  intros H. rewrite B2R_finite. simpl cond_Zopp.
  pose proof (F2R_pos m e). pose proof (F2R_digits_hi m e).
  pose proof (bpow_le _ _ H). lra.
Qed.

(** * Rounding is exact on representable values and monotone *)

Lemma shr_1_even (c : Z) :
  0 <= c ->
  shr_1 (Build_shr_record (2 * c) false false) = Build_shr_record c false false.
Proof. intros Hc. destruct c as [|p|p]; [reflexivity|reflexivity|lia]. Qed.

Lemma iter_shr_exact (p : positive) (c : Z) :
  0 <= c ->
  iter_pos shr_1 p (Build_shr_record (c * 2 ^ Zpos p) false false)
  = Build_shr_record c false false.
Proof.
  revert c. induction p as [p IH|p IH|]; intros c Hc; cbn [iter_pos].
  - replace (c * 2 ^ Z.pos p~1) with (2 * (c * 2 ^ Zpos p * 2 ^ Zpos p)).
    2:{ replace (Z.pos p~1) with (Z.pos p + Z.pos p + 1) by lia.
        rewrite !Z.pow_add_r by lia. lia. }
    assert (0 < 2 ^ Zpos p) by (apply Z.pow_pos_nonneg; lia).
    rewrite shr_1_even by nia. rewrite IH by nia. apply IH. assumption.
  - replace (c * 2 ^ Z.pos p~0) with (c * 2 ^ Zpos p * 2 ^ Zpos p).
    2:{ replace (Z.pos p~0) with (Z.pos p + Z.pos p) by lia.
        rewrite !Z.pow_add_r by lia. lia. }
    assert (0 < 2 ^ Zpos p) by (apply Z.pow_pos_nonneg; lia).
    rewrite IH by nia. apply IH. assumption.
  - change (2 ^ 1) with 2. rewrite Z.mul_comm. apply shr_1_even. assumption.
Qed.

(** The first shift of the rounding step loses nothing when the bits it
    drops are zero. *)
Lemma shr_fexp_exact (mx ex c : Z) :
  0 <= c -> mx = c * 2 ^ (rnd_E mx ex - ex) ->
  shr_fexp prec emax mx ex loc_Exact
  = (Build_shr_record c false false, rnd_E mx ex).
Proof.
  intros Hc Hmx. unfold shr_fexp, shr. simpl shr_record_of_loc.
  pose proof (rnd_E_ge mx ex) as [_ Hge].
  unfold rnd_E in *.
  destruct (fexp prec emax (Zdigits2 mx + ex) - ex) as [|p|p] eqn:En.
  - replace (Z.max ex _) with ex in * by lia.
    rewrite Z.sub_diag in Hmx. simpl in Hmx.
    replace c with mx by lia. reflexivity.
  - replace (Z.max ex _) with (ex + Zpos p) in * by lia.
    replace (ex + Zpos p - ex) with (Zpos p) in Hmx by lia.
    rewrite Hmx at 1. rewrite iter_shr_exact by assumption. reflexivity.
  - replace (Z.max ex _) with ex in * by lia.
    rewrite Z.sub_diag in Hmx. simpl in Hmx.
    replace c with mx by lia. reflexivity.
Qed.

(** The second half of the rounding step, on a rounded mantissa. *)
Lemma bra_finish (s : bool) (mr E : Z) :
  0 <= mr <= 2 ^ 53 -> -1074 <= E ->
  (let '(mrs, e) := shr_fexp prec emax mr E loc_Exact in
   match shr_m mrs with
   | Z0 => S754_zero s
   | Zpos m =>
       if e <=? emax - prec then S754_finite s m e else S754_infinity s
   | Zneg _ => S754_nan
   end) = pack s mr E.
Proof.
  intros Hmr HEmin.
  pose proof (shr_fexp_m mr E loc_Exact ltac:(lia)) as H2. cbv zeta in H2.
  destruct (shr_fexp prec emax mr E loc_Exact) as [r2 e2].
  destruct H2 as (-> & Hm2 & _). rewrite Hm2. unfold pack.
  unfold rnd_E. rewrite fexp_eq.
  destruct (Z.eqb_spec mr 0) as [->|Hnz].
  { rewrite Z.div_0_l; [reflexivity|]. apply Z.pow_nonzero; simpl; lia. }
  destruct (Z.ltb_spec mr (2 ^ 53)) as [Hlt|Hge].
  - assert (Zdigits2 mr <= 53) by (apply Zdigits2_lt_pow; lia).
    pose proof (Zdigits2_nonneg mr).
    replace (Z.max E (Z.max (Zdigits2 mr + E - 53) (-1074))) with E by lia.
    rewrite Z.sub_diag, Z.div_1_r.
    destruct mr as [|p|p]; try lia. simpl Z.to_pos.
    reflexivity.
  - assert (mr = 2 ^ 53) as -> by lia.
    change (Zdigits2 (2 ^ 53)) with 54.
    replace (Z.max E (Z.max (54 + E - 53) (-1074))) with (E + 1) by lia.
    replace (E + 1 - E) with 1 by lia.
    change (2 ^ 53 / 2 ^ 1) with (Z.pos (Z.to_pos (2 ^ 52))).
    reflexivity.
Qed.

(** Rounding an exact mantissa whose dropped bits are zero keeps it. *)
Lemma bra_divisible (s : bool) (mx ex c : Z) :
  0 <= c -> mx = c * 2 ^ (rnd_E mx ex - ex) ->
  binary_round_aux prec emax s mx ex loc_Exact = pack s c (rnd_E mx ex).
Proof.
  intros Hc Hmx. unfold binary_round_aux.
  rewrite (shr_fexp_exact mx ex c Hc Hmx). simpl shr_m.
  simpl loc_of_shr_record. simpl round_nearest_even.
  assert (0 <= mx) as Hm.
  { rewrite Hmx. apply Z.mul_nonneg_nonneg; [assumption|].
    apply Z.pow_nonneg. lia. }
  pose proof (rnd_E_ge mx ex) as [HEmin HEex].
  pose proof (first_shift_small mx ex Hm) as Hsmall.
  assert (mx / 2 ^ (rnd_E mx ex - ex) = c) as Hq.
  { rewrite Hmx at 1. apply Z.div_mul. apply Z.pow_nonzero; lia. }
  rewrite Hq in Hsmall.
  apply bra_finish; lia.
Qed.

Lemma bra_opp (mx ex : Z) (lx : location) :
  binary_round_aux prec emax true mx ex lx
  = SFopp (binary_round_aux prec emax false mx ex lx).
Proof.
  unfold binary_round_aux.
  destruct (shr_fexp prec emax mx ex lx) as [r1 e1].
  destruct (shr_fexp prec emax _ e1 loc_Exact) as [r2 e2].
  destruct (shr_m r2); try reflexivity.
  destruct (e2 <=? emax - prec); reflexivity.
Qed.

Lemma F2R_le_inv (a b e : Z) : (F2R a e <= F2R b e)%R -> a <= b.
Proof.
  intros H. destruct (Z_le_gt_dec a b) as [|Hgt]; [assumption|]. exfalso.
  pose proof (F2R_lt b a e ltac:(lia)). lra.
Qed.

Lemma F2R_lt_inv (a b e : Z) : (F2R a e < F2R b e)%R -> a < b.
Proof.
  intros H. destruct (Z_lt_le_dec a b) as [|Hge]; [assumption|]. exfalso.
  pose proof (F2R_le b a e Hge). lra.
Qed.

Lemma bpow_lt_inv (a b : Z) : (bpow a < bpow b)%R -> a < b.
Proof.
  intros H. destruct (Z_lt_le_dec a b) as [|Hge]; [assumption|]. exfalso.
  pose proof (bpow_le b a Hge). lra.
Qed.

Lemma F2R_nonneg (m e : Z) : 0 <= m -> (0 <= F2R m e)%R.
Proof. intros H. rewrite <- (F2R_0 e). apply F2R_le. assumption. Qed.

(** A positive canonical float, as a multiple of any finer unit. *)
Lemma canon_on_grid (mk : positive) (ek E : Z) :
  E <= ek -> F2R (Zpos mk * 2 ^ (ek - E)) E = F2R (Zpos mk) ek.
Proof.
  intros H. replace E with (ek - (ek - E)) at 2 by lia.
  apply F2R_shift. lia.
Qed.

Lemma floor_grid (mx n ex : Z) :
  0 <= mx -> 0 <= n ->
  (F2R (mx / 2 ^ n) (ex + n) <= F2R mx ex)%R /\
  (F2R (mx + 1) ex <= F2R (mx / 2 ^ n + 1) (ex + n))%R.
Proof.
  intros Hm Hn.
  assert (0 < 2 ^ n) as Hp by (apply Z.pow_pos_nonneg; lia).
  pose proof (Z.div_mod mx (2 ^ n) ltac:(lia)) as Hdm.
  pose proof (Z.mod_pos_bound mx (2 ^ n) Hp) as Hr.
  rewrite <- (F2R_shift (mx / 2 ^ n) (ex + n) n Hn).
  rewrite <- (F2R_shift (mx / 2 ^ n + 1) (ex + n) n Hn).
  replace (ex + n - n) with ex by lia.
  split; apply F2R_le; nia.
Qed.

(** The rounding step is monotone against canonical floats: it never
    crosses one. *)
Lemma bra_mono (mx ex : Z) (lx : location) (v : R) (k : float) (K : Z) :
  0 <= mx ->
  (F2R mx ex <= v < F2R (mx + 1) ex)%R ->
  (lx = loc_Exact <-> v = F2R mx ex) ->
  (lx = loc_Exact \/ ex <= fexp prec emax (Zdigits2 mx + ex)) ->
  (v < bpow K)%R -> K <= 971 ->
  is_finite k = true -> valid k ->
  let x := binary_round_aux prec emax false mx ex lx in
  ((v <= B2R k)%R -> (B2R x <= B2R k)%R) /\
  ((B2R k <= v)%R -> (B2R k <= B2R x)%R).
Proof.
  intros Hm [Hlo Hhi] Hex Hal HK HK' Hfk Hvk. cbv zeta.
  pose proof (rnd_E_ge mx ex) as [HEmin HEex].
  destruct (Z.eq_dec mx 0) as [->|Hnz].
  - (* a zero mantissa *)
    rewrite F2R_0 in *. simpl (0 + 1) in Hhi.
    destruct lx as [|c].
    + assert (v = 0%R) as -> by (apply Hex; reflexivity).
      rewrite (bra_divisible false 0 ex 0) by lia.
      unfold pack. simpl. lra.
    + destruct Hal as [Hal|Hal]; [discriminate|].
      change (Zdigits2 0) with 0 in Hal. rewrite fexp_eq in Hal.
      assert (v <> 0%R) as Hv0.
      { intros E0. apply Hex in E0. discriminate. }
      destruct (bra_cases false 0 ex (loc_Inexact c) ltac:(lia))
        as (mr & Hmr & Hr & _ & ->).
      assert (rnd_E 0 ex = -1074) as HE.
      { unfold rnd_E. change (Zdigits2 0) with 0. rewrite fexp_eq. lia. }
      rewrite HE in *. rewrite Z.div_0_l in Hmr
        by (apply Z.pow_nonzero; lia).
      rewrite pack_value by lia. simpl cond_Zopp.
      assert (F2R 1 ex <= F2R 1 (-1074))%R as Hgrid.
      { unfold F2R. apply Rmult_le_compat_l; [lra|]. apply bpow_le. lia. }
      assert (0 <= F2R mr (-1074) <= F2R 1 (-1074))%R as Hres.
      { split; [apply F2R_nonneg; lia|apply F2R_le; lia]. }
      split; intros Hk.
      * destruct (positive_float k Hfk ltac:(lra)) as (mk & ek & ->).
        apply valid_finite_iff in Hvk.
        rewrite B2R_finite. simpl cond_Zopp.
        rewrite <- (canon_on_grid mk ek (-1074)) by lia.
        assert (0 < 2 ^ (ek - -1074)) by (apply Z.pow_pos_nonneg; lia).
        assert (F2R 1 (-1074) <= F2R (Z.pos mk * 2 ^ (ek - -1074)) (-1074))%R
          by (apply F2R_le; nia).
        lra.
      * destruct (Rle_dec (B2R k) 0) as [|Hpos]; [lra|].
        destruct (positive_float k Hfk ltac:(lra)) as (mk & ek & ->).
        apply valid_finite_iff in Hvk.
        rewrite B2R_finite in *. simpl cond_Zopp in *.
        rewrite <- (canon_on_grid mk ek (-1074)) in * by lia.
        assert (0 < 2 ^ (ek - -1074)) by (apply Z.pow_pos_nonneg; lia).
        assert (F2R 1 (-1074) <= F2R (Z.pos mk * 2 ^ (ek - -1074)) (-1074))%R
          by (apply F2R_le; nia).
        lra.
  - (* a positive mantissa *)
    assert (0 < mx) as Hpos by lia.
    assert (F2R mx ex < bpow K)%R as HKm by lra.
    pose proof (digits_of_bound mx ex K Hpos HKm) as Hd.
    pose proof (Zdigits2_pos mx Hpos) as Hd1.
    pose proof (Zdigits2_bounds mx Hpos) as [Hdlo Hdhi].
    assert (0 < F2R mx ex)%R as Hvpos.
    { rewrite <- (F2R_0 ex). apply F2R_lt. assumption. }
    set (d := Zdigits2 mx) in *.
    assert (rnd_E mx ex < 971) as HE971.
    { unfold rnd_E. rewrite fexp_eq. fold d. lia. }
    destruct (Z_lt_le_dec (fexp prec emax (d + ex)) ex) as [Hun|Halg].
    + (* the mantissa is short: only exact inputs come here *)
      destruct Hal as [->|Hal]; [|lia].
      assert (v = F2R mx ex) as -> by (apply Hex; reflexivity).
      assert (rnd_E mx ex = ex) as HE by (unfold rnd_E; fold d; lia).
      destruct (bra_cases false mx ex loc_Exact Hm)
        as (mr & _ & Hr & Hmr & ->).
      rewrite (Hmr eq_refl HE), HE in *.
      rewrite pack_value by lia. simpl cond_Zopp. lra.
    + assert (rnd_E mx ex = fexp prec emax (d + ex)) as HE
          by (unfold rnd_E; fold d; lia).
      rewrite fexp_eq in HE.
      set (E := rnd_E mx ex) in *. set (n := E - ex).
      assert (0 <= n) as Hn by (unfold n; lia).
      pose proof (floor_grid mx n ex Hm Hn) as [Hfl Hce].
      replace (ex + n) with E in Hfl, Hce by (unfold n; lia).
      set (Q := mx / 2 ^ n) in *.
      assert (0 < 2 ^ n) as Hpn by (apply Z.pow_pos_nonneg; lia).
      assert (0 <= Q) as HQ by (unfold Q; apply Z.div_pos; lia).
      destruct (bra_cases false mx ex lx Hm) as (mr & Hmr & Hr & _ & Hres).
      fold E in Hmr, Hres. fold n in Hmr. fold Q in Hmr.
      assert (B2R (binary_round_aux prec emax false mx ex lx) = F2R mr E)
        as HB.
      { rewrite Hres, pack_value by lia. reflexivity. }
      split; intros Hk.
      * destruct (positive_float k Hfk ltac:(lra)) as (mk & ek & ->).
        pose proof Hvk as Hck. apply valid_finite_iff in Hck.
        rewrite B2R_finite in *. simpl cond_Zopp in *.
        pose proof (F2R_digits_hi mk ek) as Hkhi.
        pose proof (F2R_ge_bpow mx ex (d - 1) ltac:(lia) Hdlo) as Hmlo.
        assert (d - 1 + ex < Zdigits2 (Zpos mk) + ek) as Hmag
            by (apply bpow_lt_inv; lra).
        assert (E <= ek) as HEk by lia.
        rewrite <- (canon_on_grid mk ek E HEk) in *.
        set (K' := Zpos mk * 2 ^ (ek - E)) in *.
        assert (Q <= K') as HQK by (apply (F2R_le_inv _ _ E); lra).
        destruct (Z.eq_dec Q K') as [Heq|Hne].
        -- (* the bound is the floor itself: the input was exact *)
           assert (v = F2R mx ex) as Hv by (rewrite <- Heq in Hk; lra).
           assert (lx = loc_Exact) as -> by (apply Hex; exact Hv).
           assert (F2R (Q * 2 ^ n) ex = F2R mx ex) as Hgrid.
           { assert (F2R (Q * 2 ^ n) ex = F2R Q E) as ->.
             { replace ex with (E - n) at 1 by (unfold n; lia).
               apply F2R_shift. assumption. }
             rewrite <- Heq in Hk. lra. }
           assert (mx = Q * 2 ^ n) as Hdiv.
           { apply Z.le_antisymm; apply (F2R_le_inv _ _ ex); lra. }
           rewrite (bra_divisible false mx ex Q HQ Hdiv).
           fold E. rewrite pack_value by (unfold Q in *; lia).
           simpl cond_Zopp. rewrite Heq. lra.
        -- rewrite HB. apply F2R_le. lia.
      * rewrite HB.
        destruct (Rle_dec (B2R k) 0) as [Hk0|Hkpos].
        { pose proof (F2R_nonneg mr E ltac:(lia)). lra. }
        destruct (positive_float k Hfk ltac:(lra)) as (mk & ek & ->).
        pose proof Hvk as Hck. apply valid_finite_iff in Hck.
        rewrite B2R_finite in *. simpl cond_Zopp in *.
        destruct (Z_le_gt_dec E ek) as [HEk|HEk].
        -- rewrite <- (canon_on_grid mk ek E HEk) in *.
           set (K' := Zpos mk * 2 ^ (ek - E)) in *.
           assert (K' < Q + 1) as HKQ by (apply (F2R_lt_inv _ _ E); lra).
           apply F2R_le. lia.
        -- (* the bound lies in a lower binade *)
           pose proof (F2R_digits_hi mk ek) as Hkhi.
           assert (E = d + ex - 53) as HEd by lia.
           assert (n = d - 53) as Hnd by (unfold n; lia).
           assert (2 ^ 52 <= Q) as HQ52.
           { unfold Q. apply Z.div_le_lower_bound; [lia|].
             rewrite Hnd, <- Z.pow_add_r by lia.
             replace (d - 53 + 52) with (d - 1) by lia. assumption. }
           pose proof (F2R_ge_bpow Q E 52 ltac:(lia) HQ52) as HQlo.
           assert (bpow (Zdigits2 (Zpos mk) + ek) <= bpow (52 + E))%R
             by (apply bpow_le; lia).
           assert (F2R Q E <= F2R mr E)%R by (apply F2R_le; lia).
           lra.
Qed.

(** [mono v x k]: the float [x] computed for the real [v] lies on the same
    side of the float [k] as [v]. *)
Definition mono (v : R) (x k : float) : Prop :=
  ((v <= B2R k)%R -> (B2R x <= B2R k)%R) /\
  ((B2R k <= v)%R -> (B2R k <= B2R x)%R).

Lemma mono_exact (x k : float) : mono (B2R x) x k.
Proof. split; auto. Qed.

Lemma opp_finite (k : float) : is_finite (SFopp k) = is_finite k.
Proof. destruct k; reflexivity. Qed.

Lemma mono_opp (v : R) (x k : float) :
  mono v x (SFopp k) -> mono (- v) (SFopp x) k.
Proof.
  unfold mono. rewrite !B2R_opp. intros [H1 H2]. split; intros H.
  - assert (- B2R k <= v)%R as H' by lra. specialize (H2 H'). lra.
  - assert (v <= - B2R k)%R as H' by lra. specialize (H1 H'). lra.
Qed.

Lemma binary_round_mono (s : bool) (mx : positive) (ex K : Z) (k : float) :
  (F2R (Zpos mx) ex < bpow K)%R -> K <= 971 ->
  is_finite k = true -> valid k ->
  mono (F2R (cond_Zopp s (Zpos mx)) ex) (binary_round prec emax s mx ex) k.
Proof.
  intros HK HK' Hfk Hvk. unfold binary_round.
  pose proof (shl_align_value mx ex
                (fexp prec emax (Zpos (digits2_pos mx) + ex))) as Hv.
  destruct (shl_align mx ex _) as [mz ez].
  assert (forall k', is_finite k' = true -> valid k' ->
            mono (F2R (Zpos mz) ez)
                 (binary_round_aux prec emax false (Zpos mz) ez loc_Exact) k')
    as Hpos.
  { intros k' Hfk' Hvk'.
    apply (bra_mono (Zpos mz) ez loc_Exact (F2R (Zpos mz) ez) k' K);
      try assumption; try lia.
    - split; [lra|]. apply F2R_lt. lia.
    - split; auto.
    - left. reflexivity.
    - rewrite Hv. assumption. }
  destruct s; simpl cond_Zopp.
  - rewrite bra_opp. change (Z.neg mx) with (- Zpos mx).
    rewrite F2R_opp, <- Hv. apply mono_opp. apply Hpos.
    + rewrite opp_finite. assumption.
    + apply opp_valid. assumption.
  - rewrite <- Hv. apply Hpos; assumption.
Qed.

Lemma binary_normalize_mono (m e K : Z) (sz : bool) (k : float) :
  (Rabs (F2R m e) < bpow K)%R -> K <= 971 ->
  is_finite k = true -> valid k ->
  mono (F2R m e) (binary_normalize prec emax m e sz) k.
Proof.
  intros HK HK' Hfk Hvk. destruct m as [|p|p]; simpl binary_normalize.
  - rewrite F2R_0. split; simpl; auto.
  - apply (binary_round_mono false p e K); try assumption.
    rewrite Rabs_pos_eq in HK; [assumption|]. apply F2R_nonneg. lia.
  - apply (binary_round_mono true p e K); try assumption.
    change (Z.neg p) with (- Zpos p) in HK.
    rewrite F2R_opp, Rabs_Ropp, Rabs_pos_eq in HK; [assumption|].
    apply F2R_nonneg. lia.
Qed.

(** Addition never crosses a canonical float. *)
Lemma add_mono (x y k : float) (K : Z) :
  is_finite x = true -> is_finite y = true ->
  (Rabs (B2R x + B2R y) < bpow K)%R -> K <= 971 ->
  is_finite k = true -> valid k ->
  mono (B2R x + B2R y) (add x y) k.
Proof.
  intros Hfx Hfy HK HK' Hfk Hvk.
  destruct x as [sx|sx| |sx mx ex]; try discriminate;
    destruct y as [sy|sy| |sy my ey]; try discriminate.
  - replace (B2R (S754_zero sx) + B2R (S754_zero sy))%R with 0%R
      by (simpl; lra).
    unfold add, SFadd. destruct sx, sy; split; simpl; auto.
  - replace (B2R (S754_zero sx) + B2R (S754_finite sy my ey))%R
      with (B2R (S754_finite sy my ey)) by (simpl B2R at 2; lra).
    apply mono_exact.
  - replace (B2R (S754_finite sx mx ex) + B2R (S754_zero sy))%R
      with (B2R (S754_finite sx mx ex)) by (simpl B2R at 3; lra).
    apply mono_exact.
  - unfold add, SFadd. rewrite <- aligned_sum in *.
    apply (binary_normalize_mono _ _ K); assumption.
Qed.

(** Subtraction never crosses a canonical float. *)
Lemma sub_mono (x y k : float) (K : Z) :
  is_finite x = true -> is_finite y = true ->
  (Rabs (B2R x - B2R y) < bpow K)%R -> K <= 971 ->
  is_finite k = true -> valid k ->
  mono (B2R x - B2R y) (sub x y) k.
Proof.
  intros Hfx Hfy HK HK' Hfk Hvk.
  destruct x as [sx|sx| |sx mx ex]; try discriminate;
    destruct y as [sy|sy| |sy my ey]; try discriminate.
  - replace (B2R (S754_zero sx) - B2R (S754_zero sy))%R with 0%R
      by (simpl; lra).
    unfold sub, SFsub. destruct sx, sy; split; simpl; auto.
  - replace (B2R (S754_zero sx) - B2R (S754_finite sy my ey))%R
      with (B2R (SFopp (S754_finite sy my ey)))
      by (rewrite B2R_opp; simpl B2R at 2; lra).
    apply mono_exact.
  - replace (B2R (S754_finite sx mx ex) - B2R (S754_zero sy))%R
      with (B2R (S754_finite sx mx ex)) by (simpl B2R at 3; lra).
    apply mono_exact.
  - unfold sub, SFsub. rewrite <- aligned_diff in *.
    apply (binary_normalize_mono _ _ K); assumption.
Qed.

(** Multiplication never crosses a canonical float. *)
Lemma mul_mono (x y k : float) (K : Z) :
  is_finite x = true -> is_finite y = true ->
  (Rabs (B2R x * B2R y) < bpow K)%R -> K <= 971 ->
  is_finite k = true -> valid k ->
  mono (B2R x * B2R y) (mul x y) k.
Proof.
  intros Hfx Hfy HK HK' Hfk Hvk.
  destruct x as [sx|sx| |sx mx ex]; try discriminate;
    destruct y as [sy|sy| |sy my ey]; try discriminate;
    try (replace (B2R _ * B2R _)%R with 0%R by (simpl; lra);
         split; simpl; auto).
  unfold mul, SFmul. rewrite !B2R_finite in *.
  rewrite <- F2R_mult, <- cond_Zopp_xorb in *.
  change (Zpos mx * Zpos my) with (Zpos (mx * my)) in *.
  assert (F2R (Zpos (mx * my)) (ex + ey) < bpow K)%R as HKp.
  { rewrite F2R_cond_Zopp in HK. destruct (xorb sx sy).
    - rewrite Rabs_Ropp, Rabs_pos_eq in HK; [assumption|].
      apply F2R_nonneg. lia.
    - rewrite Rabs_pos_eq in HK; [assumption|]. apply F2R_nonneg. lia. }
  assert (forall k', is_finite k' = true -> valid k' ->
            mono (F2R (Zpos (mx * my)) (ex + ey))
                 (binary_round_aux prec emax false (Zpos (mx * my)) (ex + ey)
                                   loc_Exact) k') as Hpos.
  { intros k' Hfk' Hvk'.
    apply (bra_mono _ _ loc_Exact _ k' K); try assumption; try lia.
    - split; [lra|]. apply F2R_lt. lia.
    - split; auto.
    - left. reflexivity. }
  destruct (xorb sx sy); simpl cond_Zopp.
  - rewrite bra_opp. change (Z.neg (mx * my)) with (- Zpos (mx * my)).
    rewrite F2R_opp. apply mono_opp. apply Hpos.
    + rewrite opp_finite. assumption.
    + apply opp_valid. assumption.
  - apply Hpos; assumption.
Qed.

Lemma new_location_exact (n r : Z) : new_location n r = loc_Exact <-> r = 0.
Proof.
  unfold new_location, new_location_even, new_location_odd.
  destruct (Z.even n); destruct (Z.eqb_spec r 0) as [->|Hn];
    split; intros H; try reflexivity; try discriminate; try contradiction.
Qed.

(** The quotient handed to the rounding step is the floor of the real
    quotient, and its location is exact exactly when nothing remains. *)
Lemma div_core_floor (mx my : positive) (ex ey : Z) :
  let v := (F2R (Zpos mx) ex / F2R (Zpos my) ey)%R in
  let '(q, e', l) := SFdiv_core_binary prec emax (Zpos mx) ex (Zpos my) ey in
  0 <= q /\ (F2R q e' <= v < F2R (q + 1) e')%R /\
  (l = loc_Exact <-> v = F2R q e').
Proof.
  cbv zeta. unfold SFdiv_core_binary.
  set (d1 := Zdigits2 (Zpos mx)). set (d2 := Zdigits2 (Zpos my)).
  set (e' := Z.min (fexp prec emax (d1 + ex - (d2 + ey))) (ex - ey)).
  set (s := ex - ey - e').
  assert (0 <= s) as Hs by (unfold s, e'; lia).
  rewrite (shifted (Zpos mx) s Hs).
  pose proof (Z_div_mod (Zpos mx * 2 ^ s) (Zpos my) ltac:(lia)) as Hdiv.
  destruct (Z.div_eucl (Zpos mx * 2 ^ s) (Zpos my)) as [q r].
  destruct Hdiv as [Heq Hr].
  assert (0 < 2 ^ s) as Hpow by (apply Z.pow_pos_nonneg; lia).
  assert (0 <= q) as Hq by nia.
  pose proof (B2R_finite_pos mx ex) as Hxpos.
  pose proof (B2R_finite_pos my ey) as Hypos.
  assert (0 < IZR (Zpos my))%R as Hmy by (apply IZR_lt; lia).
  assert (F2R (Zpos mx) ex / F2R (Zpos my) ey
          = (IZR q + IZR r / IZR (Zpos my)) * bpow e')%R as HQ.
  { assert (IZR (Zpos mx) * bpow s
            = IZR (Zpos my) * IZR q + IZR r)%R as Hm.
    { rewrite <- IZR_pow2, <- mult_IZR, Heq, plus_IZR, mult_IZR
        by assumption. reflexivity. }
    unfold F2R.
    replace ex with (s + ey + e') at 1 by (unfold s; lia).
    rewrite !bpow_add.
    pose proof (bpow_pos ey). pose proof (bpow_pos e').
    replace (IZR (Z.pos mx) * (bpow s * bpow ey * bpow e')
             / (IZR (Z.pos my) * bpow ey))%R
      with (IZR (Z.pos mx) * bpow s / IZR (Z.pos my) * bpow e')%R
      by (field; split; lra).
    rewrite Hm. field. lra. }
  assert (0 <= IZR r / IZR (Zpos my) < 1)%R as Hfrac.
  { assert (0 <= IZR r < IZR (Zpos my))%R as Hrr
        by (split; [apply IZR_le | apply IZR_lt]; lia).
    split.
    - apply Rmult_le_pos; [lra|]. left. apply Rinv_0_lt_compat. assumption.
    - apply Rmult_lt_reg_r with (r := IZR (Zpos my)); [assumption|].
      unfold Rdiv. rewrite Rmult_assoc, Rinv_l by lra. lra. }
  pose proof (bpow_pos e') as Hbe.
  split; [assumption|]. rewrite HQ. unfold F2R. rewrite plus_IZR. split.
  - split; nra.
  - rewrite new_location_exact. split.
    + intros ->. unfold Rdiv. rewrite Rmult_0_l. lra.
    + intros H.
      assert (IZR r / IZR (Zpos my) = 0)%R as H0 by nra.
      assert (IZR r = 0)%R as H1.
      { apply Rmult_eq_reg_r with (r := (/ IZR (Zpos my))%R).
        - unfold Rdiv in H0. lra.
        - apply Rinv_neq_0_compat. lra. }
      apply eq_IZR. exact H1.
Qed.

(** Division never crosses a canonical float. *)
Lemma div_mono (x y k : float) (K : Z) :
  is_finite x = true -> is_finite y = true -> is_zero y = false ->
  (Rabs (B2R x / B2R y) < bpow K)%R -> K <= 971 ->
  is_finite k = true -> valid k ->
  mono (B2R x / B2R y) (SFdiv prec emax x y) k.
Proof.
  intros Hfx Hfy Hzy HK HK' Hfk Hvk.
  destruct y as [sy|sy| |sy my ey]; try discriminate.
  destruct x as [sx|sx| |sx mx ex]; try discriminate.
  - simpl. unfold Rdiv. rewrite Rmult_0_l. split; simpl; auto.
  - pose proof (B2R_finite_pos mx ex) as Hxpos.
    pose proof (B2R_finite_pos my ey) as Hypos.
    set (Q := (F2R (Zpos mx) ex / F2R (Zpos my) ey)%R).
    assert (0 < Q)%R as HQpos by (apply Rdiv_lt_0_compat; assumption).
    assert (B2R (S754_finite sx mx ex) / B2R (S754_finite sy my ey)
            = if xorb sx sy then - Q else Q)%R as HB.
    { rewrite !B2R_finite, !F2R_cond_Zopp. unfold Q.
      destruct sx, sy; simpl; field; lra. }
    rewrite HB in *.
    assert (Q < bpow K)%R as HQK.
    { destruct (xorb sx sy); [rewrite Rabs_Ropp in HK|];
        rewrite Rabs_pos_eq in HK by lra; assumption. }
    pose proof (div_core_floor mx my ex ey) as Hcore.
    pose proof (div_core_aligned mx my ex ey) as Hal.
    cbv zeta in Hcore. fold Q in Hcore. unfold SFdiv.
    destruct (SFdiv_core_binary prec emax (Zpos mx) ex (Zpos my) ey)
      as [[q e'] l].
    destruct Hcore as (Hq & Hfl & Hex). destruct Hal as [_ Hal].
    assert (forall k', is_finite k' = true -> valid k' ->
              mono Q (binary_round_aux prec emax false q e' l) k') as Hpos.
    { intros k' Hfk' Hvk'.
      apply (bra_mono q e' l Q k' K); try assumption.
      right. assumption. }
    destruct (xorb sx sy).
    + rewrite bra_opp. apply mono_opp. apply Hpos.
      * rewrite opp_finite. assumption.
      * apply opp_valid. assumption.
    + apply Hpos; assumption.
Qed.

(** * Coverages are exactly in [0, 1] *)

(** A coverage: a finite canonical float between 0 and 1. *)
Definition coverage (a : float) : Prop :=
  is_finite a = true /\ valid a /\ (0 <= B2R a <= 1)%R.

Lemma coverage_unit (a : float) : coverage a -> unit_float a.
Proof.
  intros (Hf & Hv & Hr). split; [assumption|]. split; [|assumption].
  apply valid_wf. exact Hv.
Qed.

Lemma coverage_zero : coverage zero.
Proof. split; [reflexivity|]. split; [reflexivity|]. simpl. lra. Qed.

Lemma coverage_one : coverage one.
Proof.
  split; [reflexivity|]. split; [exact valid_one|]. rewrite B2R_one. lra.
Qed.

Lemma clampR_range (t : R) : (0 <= clampR t <= 1)%R.
Proof. destruct (clampR_cases t) as [[? ->]|[[? ->]|[? ->]]]; lra. Qed.

(** [clamp(v)] is a coverage whatever [v] is, infinities and NaN
    included. *)
Lemma clamp01_coverage (v : float) : valid v -> coverage (Circular.clamp01 v).
Proof.
  intros Hv. destruct (is_finite v) eqn:Hf.
  - destruct (clamp01_value v Hf Hv) as (H1 & H2 & H3).
    split; [assumption|]. split; [assumption|]. rewrite H3.
    apply clampR_range.
  - destruct v as [s|[|]| |s m e]; try discriminate.
    + exact coverage_zero.
    + exact coverage_one.
    + exact coverage_one.
Qed.

Lemma py_max_coverage (a b : float) :
  coverage a -> coverage b -> coverage (py_max a b).
Proof. intros Ha Hb. unfold py_max. destruct (ltb a b); assumption. Qed.

Lemma py_min_coverage (a b : float) :
  coverage a -> coverage b -> coverage (py_min a b).
Proof. intros Ha Hb. unfold py_min. destruct (ltb b a); assumption. Qed.

Lemma bpow_1 : bpow 1 = 2%R.
Proof. unfold bpow. simpl. lra. Qed.

(** The product of two coverages is a coverage: rounding does not push it
    above 1. *)
Lemma mul_coverage (a b : float) :
  coverage a -> coverage b -> coverage (mul a b).
Proof.
  intros (Hfa & Hva & Ha) (Hfb & Hvb & Hb).
  pose proof (prod_bound (B2R a) (B2R b) 1 1 Ha Hb) as P.
  assert (Rabs (B2R a * B2R b) < bpow 1)%R as HK.
  { rewrite bpow_1. apply Rabs_lt. lra. }
  destruct (mul_spec a b 1 Hfa Hfb HK ltac:(lia)) as (Hf & _).
  destruct (mul_mono a b one 1 Hfa Hfb HK ltac:(lia) eq_refl valid_one)
    as [Hle _].
  destruct (mul_mono a b zero 1 Hfa Hfb HK ltac:(lia) eq_refl
              (valid_zero false)) as [_ Hge].
  rewrite B2R_one in Hle. simpl (B2R zero) in Hge.
  split; [assumption|]. split; [apply mul_valid; assumption|].
  split; [apply Hge|apply Hle]; lra.
Qed.

(** [1.0 - a] for a coverage [a] is a coverage. *)
Lemma complement_coverage (a : float) : coverage a -> coverage (sub one a).
Proof.
  intros (Hfa & Hva & Ha).
  assert (Rabs (B2R one - B2R a) < bpow 1)%R as HK.
  { rewrite bpow_1, B2R_one. apply Rabs_lt. lra. }
  destruct (sub_spec one a 1 eq_refl Hfa wf_one (valid_wf a Hva) HK
              ltac:(lia)) as (Hf & _).
  destruct (sub_mono one a one 1 eq_refl Hfa HK ltac:(lia) eq_refl valid_one)
    as [Hle _].
  destruct (sub_mono one a zero 1 eq_refl Hfa HK ltac:(lia) eq_refl
              (valid_zero false)) as [_ Hge].
  rewrite B2R_one in *. simpl (B2R zero) in Hge.
  split; [assumption|]. split; [apply sub_valid; [exact valid_one|assumption]|].
  split; [apply Hge|apply Hle]; lra.
Qed.

(** ** The sampler *)

(** A running total of [n] coverages: at most [n], exactly. *)
Definition total_of (n : Z) (t : float) : Prop :=
  is_finite t = true /\ valid t /\ (0 <= B2R t <= IZR n)%R.

Lemma total_add (n : Z) (t u : float) :
  0 <= n < 100 -> total_of n t -> coverage u -> total_of (n + 1) (add t u).
Proof.
  intros Hn (Hft & Hvt & Ht) (Hfu & Hvu & Hu).
  assert (0 <= IZR n < 100)%R as HN
      by (split; [apply IZR_le | apply IZR_lt]; lia).
  assert (Rabs (B2R t + B2R u) < bpow 8)%R as HK.
  { rewrite (bpow_nat 8 256) by (simpl; lia). apply Rabs_lt. lra. }
  destruct (add_spec t u 8 Hft Hfu (valid_wf t Hvt) (valid_wf u Hvu) HK
              ltac:(lia)) as (Hf & _).
  destruct (of_Z_exact (n + 1) ltac:(change (2 ^ 53) with 9007199254740992; lia))
    as (Hfk & _ & Hk).
  destruct (add_mono t u (of_Z (n + 1)) 8 Hft Hfu HK ltac:(lia) Hfk
              (of_Z_valid (n + 1))) as [Hle _].
  destruct (add_mono t u zero 8 Hft Hfu HK ltac:(lia) eq_refl
              (valid_zero false)) as [_ Hge].
  rewrite Hk, plus_IZR in Hle. simpl (B2R zero) in Hge.
  split; [assumption|]. split; [apply add_valid; assumption|].
  rewrite plus_IZR. split; [apply Hge|apply Hle]; lra.
Qed.

(** A loop whose every turn moves a counted invariant by [k]. *)
Lemma foldM_count {S A : Type} (P : Z -> S -> Prop)
  (body : S -> A -> result S) (k limit : Z) (l : list A) :
  0 <= k ->
  (forall n t s, In s l -> 0 <= n -> n + k <= limit -> P n t ->
     exists t', body t s = Ok t' /\ P (n + k) t') ->
  forall (n : Z) (t : S),
    0 <= n -> n + k * Z.of_nat (length l) <= limit -> P n t ->
    exists t', foldM body l t = Ok t' /\ P (n + k * Z.of_nat (length l)) t'.
Proof.
  intros Hk. induction l as [|s l IH]; intros Hbody n t Hn Hlen Ht.
  - exists t. split; [reflexivity|]. simpl.
    now rewrite Z.mul_0_r, Z.add_0_r.
  - simpl foldM. simpl length in *. rewrite Nat2Z.inj_succ in *.
    destruct (Hbody n t s (or_introl eq_refl) Hn ltac:(nia) Ht)
      as (t1 & -> & Ht1). cbn [bind].
    destruct (IH (fun n0 t0 s0 Hin => Hbody n0 t0 s0 (or_intror Hin))
                 (n + k) t1 ltac:(lia) ltac:(nia) Ht1) as (t' & Hf & Ht').
    exists t'. split; [assumption|].
    replace (n + k * Z.succ (Z.of_nat (length l)))
      with (n + k + k * Z.of_nat (length l)) by lia.
    assumption.
Qed.

(** The shape function returns a coverage at each of the sixteen sample
    points of the pixel (x, y). *)
Definition samples_covered (x y : Z) (f : float -> float -> result float)
  : Prop :=
  forall sx sy, 0 <= sx < 4 -> 0 <= sy < 4 ->
    exists vx vy u,
      Circular.sample_at x sample_offset sample_step sx = Ok vx /\
      Circular.sample_at y sample_offset sample_step sy = Ok vy /\
      f vx vy = Ok u /\ coverage u.

Lemma samples_covered_unit (x y : Z) (f : float -> float -> result float) :
  samples_covered x y f -> samples_unit x y f.
Proof.
  intros H sx sy Hx Hy.
  destruct (H sx sy Hx Hy) as (vx & vy & u & H1 & H2 & H3 & H4).
  exists vx, vy, u. auto using coverage_unit.
Qed.

(** The average of sixteen coverages is a coverage. *)
Lemma sample_pixel_aa_coverage (x y size : Z)
  (f : float -> float -> result float) :
  samples_covered x y f ->
  exists c, Circular.sample_pixel_aa x y size f = Ok c /\ coverage c.
Proof.
  intros Hs. unfold Circular.sample_pixel_aa.
  change (of_int Circular.AA_SAMPLES) with (Ok (of_Z 4)). cbn [bind].
  change (truediv one (of_Z 4)) with (Ok sample_step). cbn [bind].
  change (truediv sample_step Circular.two) with (Ok sample_offset).
  cbn [bind].
  change (range Circular.AA_SAMPLES) with [0; 1; 2; 3].
  change (of_int (Circular.AA_SAMPLES * Circular.AA_SAMPLES))
    with (Ok (of_Z 16)).
  assert (total_of 0 zero) as H0.
  { split; [reflexivity|]. split; [reflexivity|]. simpl. lra. }
  assert (exists t, foldM (fun total sy =>
                      foldM (fun total sx =>
                         sample_x <- Circular.sample_at x sample_offset
                                                        sample_step sx ;;
                         sample_y <- Circular.sample_at y sample_offset
                                                        sample_step sy ;;
                         v <- f sample_x sample_y ;;
                         Ok (add total v)) [0; 1; 2; 3] total)
                      [0; 1; 2; 3] zero = Ok t /\ total_of 16 t)
    as (t & -> & (Hft & Hvt & Ht)).
  { apply (foldM_count total_of _ 4 100 [0; 1; 2; 3] ltac:(lia)) with (n := 0);
      [|lia|simpl; lia|exact H0].
    intros n t0 sy Hsy Hn Hn4 Ht0.
    apply (foldM_count total_of _ 1 100 [0; 1; 2; 3] ltac:(lia));
      [|lia|simpl; lia|exact Ht0].
    intros n1 t1 sx Hsx Hn1 Hn1' Ht1.
    destruct (Hs sx sy (in_range4 _ Hsx) (in_range4 _ Hsy))
      as (vx & vy & u & -> & -> & Hf & Hu).
    cbn [bind]. rewrite Hf. cbn [bind].
    exists (add t1 u). split; [reflexivity|].
    apply total_add; [lia|assumption|assumption]. }
  cbn [bind].
  assert (Rabs (B2R t / B2R (of_Z 16)) < bpow 1)%R as HK.
  { rewrite B2R_16, bpow_1. apply Rabs_lt. lra. }
  destruct (truediv_ok t (of_Z 16) 1 Hft eq_refl eq_refl HK ltac:(lia))
    as (c & Ec & Hfc & _).
  rewrite Ec. exists c. split; [reflexivity|].
  unfold truediv in Ec. simpl is_zero in Ec. injection Ec as <-.
  destruct (div_mono t (of_Z 16) one 1 Hft eq_refl eq_refl HK ltac:(lia)
              eq_refl valid_one) as [Hle _].
  destruct (div_mono t (of_Z 16) zero 1 Hft eq_refl eq_refl HK ltac:(lia)
              eq_refl (valid_zero false)) as [_ Hge].
  rewrite B2R_16, B2R_one in *. simpl (B2R zero) in Hge.
  split; [assumption|]. split; [apply div_valid|].
  split; [apply Hge|apply Hle]; lra.
Qed.

(** * Every pixel is a 16-bit value *)

(** A value that fits [uint16_t]. *)
Definition u16 (p : Z) : Prop := 0 <= p < 65536.

Lemma lor_below (a b n : Z) :
  0 <= n -> 0 <= a < 2 ^ n -> 0 <= b < 2 ^ n -> 0 <= Z.lor a b < 2 ^ n.
Proof.
  intros Hn Ha Hb. split; [apply Z.lor_nonneg; lia|].
  destruct (Z.eq_dec (Z.lor a b) 0) as [->|Hnz].
  { apply Z.pow_pos_nonneg; lia. }
  assert (0 < Z.lor a b) as Hpos.
  { pose proof (proj2 (Z.lor_nonneg a b) (conj (proj1 Ha) (proj1 Hb))). lia. }
  apply Z.log2_lt_pow2; [assumption|].
  rewrite Z.log2_lor by lia.
  destruct (Z.eq_dec a 0) as [->|Ha0]; destruct (Z.eq_dec b 0) as [->|Hb0].
  - simpl in Hnz. lia.
  - simpl Z.log2 at 1. apply Z.max_lub_lt; [|apply Z.log2_lt_pow2; lia].
    rewrite Z.lor_0_l in Hpos.
    pose proof (Z.log2_nonneg b).
    assert (Z.log2 b < n) by (apply Z.log2_lt_pow2; lia). lia.
  - simpl Z.log2 at 2. apply Z.max_lub_lt; [apply Z.log2_lt_pow2; lia|].
    assert (Z.log2 a < n) by (apply Z.log2_lt_pow2; lia).
    pose proof (Z.log2_nonneg a). lia.
  - apply Z.max_lub_lt; apply Z.log2_lt_pow2; lia.
Qed.

Definition field_ok (v : Z) : bool :=
  (0 <=? Z.shiftl (Z.land v 248) 8) && (Z.shiftl (Z.land v 248) 8 <? 65536) &&
  (0 <=? Z.shiftl (Z.land v 252) 3) && (Z.shiftl (Z.land v 252) 3 <? 65536) &&
  (0 <=? Z.shiftr v 3) && (Z.shiftr v 3 <? 65536).

Lemma field_ok_all : forallb field_ok (Zrange 256) = true.
Proof. vm_compute. reflexivity. Qed.

(** Packing three 8-bit channels gives a 16-bit value. *)
Lemma rgb_to_565_u16 (r g b : Z) :
  chan8 r -> chan8 g -> chan8 b -> u16 (Circular.rgb_to_565 r g b).
Proof.
  intros Hr Hg Hb. unfold u16, Circular.rgb_to_565.
  pose proof (Zrange_forallb field_ok 256 field_ok_all) as H.
  pose proof (H r ltac:(unfold chan8 in Hr; lia)) as H1.
  pose proof (H g ltac:(unfold chan8 in Hg; lia)) as H2.
  pose proof (H b ltac:(unfold chan8 in Hb; lia)) as H3.
  unfold field_ok in H1, H2, H3.
  repeat rewrite andb_true_iff in H1, H2, H3.
  change 65536 with (2 ^ 16) in *.
  apply lor_below; [lia| |lia].
  apply lor_below; lia.
Qed.

(** One channel of [blend_rgb] at a coverage stays an 8-bit value. *)
Lemma blend_rgb_chan_range (f b : Z) (alpha : float) :
  chan8 f -> chan8 b -> unit_float alpha ->
  exists n, Circular.blend_rgb_chan f b alpha = Ok n /\ chan8 n.
Proof.
  intros Hf Hb (Hfa & Hwa & HA).
  destruct (of_int_exact f (chan8_abs f Hf)) as (Hof & Hff & Hwf & Hvf).
  destruct (of_int_exact b (chan8_abs b Hb)) as (Hob & Hfb & Hwb & Hvb).
  pose proof (chan8_IZR f Hf) as HF. pose proof (chan8_IZR b Hb) as HB.
  unfold Circular.blend_rgb_chan. rewrite Hof, Hob. cbn [bind].
  assert (Rabs (B2R one - B2R alpha) < bpow 1)%R as H1.
  { rewrite B2R_one, (bpow_nat 1 2) by (simpl; lia). apply Rabs_lt. lra. }
  destruct (sub_spec one alpha 1 eq_refl Hfa wf_one Hwa H1 ltac:(lia))
    as (Hfi & Hwi & Hei & Hsi).
  pose proof (ulp_small 1 ltac:(lia)) as Hu1.
  rewrite B2R_one in Hei, Hsi.
  apply Rabs_le_inv in Hei. destruct Hsi as [Hsi _].
  assert (0 <= 1 - B2R alpha)%R as HsiA by lra. specialize (Hsi HsiA).
  assert (0 <= B2R (sub one alpha) <= 1 - B2R alpha + / 1024)%R as HI by lra.
  clear Hei Hu1 HsiA H1.
  pose proof (prod_bound _ _ _ _ HB HI) as HP1.
  pose proof (prod_bound _ _ _ _ HF HA) as HP2.
  pose proof (convex_bound _ _ _ _ _ HB HF HA HI ltac:(lra)) as Hconv.
  assert (Rabs (B2R (of_Z b) * B2R (sub one alpha)) < bpow 9)%R as H2.
  { rewrite Hvb, (bpow_nat 9 512) by (simpl; lia). apply Rabs_lt. lra. }
  destruct (mul_spec (of_Z b) (sub one alpha) 9 Hfb Hfi H2 ltac:(lia))
    as (Hf1 & Hw1 & He1 & Hs1).
  assert (Rabs (B2R (of_Z f) * B2R alpha) < bpow 9)%R as H3.
  { rewrite Hvf, (bpow_nat 9 512) by (simpl; lia). apply Rabs_lt. lra. }
  destruct (mul_spec (of_Z f) alpha 9 Hff Hfa H3 ltac:(lia))
    as (Hf2 & Hw2 & He2 & Hs2).
  pose proof (ulp_small 9 ltac:(lia)) as Hu9.
  rewrite Hvb in He1, Hs1. rewrite Hvf in He2, Hs2.
  apply Rabs_le_inv in He1, He2.
  destruct Hs1 as [Hs1 _]. destruct Hs2 as [Hs2 _].
  specialize (Hs1 (proj1 HP1)). specialize (Hs2 (proj1 HP2)).
  clear H2 H3.
  assert (Rabs (B2R (mul (of_Z f) alpha) + B2R (mul (of_Z b) (sub one alpha)))
          < bpow 10)%R as H4.
  { rewrite (bpow_nat 10 1024) by (simpl; lia). apply Rabs_lt. lra. }
  destruct (add_spec _ _ 10 Hf2 Hf1 Hw2 Hw1 H4 ltac:(lia))
    as (Hf3 & Hw3 & He3 & Hs3).
  pose proof (ulp_small 10 ltac:(lia)) as Hu10.
  apply Rabs_le_inv in He3. destruct Hs3 as [Hs3 _].
  assert (0 <= B2R (mul (of_Z f) alpha) + B2R (mul (of_Z b) (sub one alpha)))%R
    as Hs3A by lra.
  specialize (Hs3 Hs3A).
  destruct (to_int_spec _ Hf3) as (n & Hn & Hpos & _).
  specialize (Hpos Hs3).
  exists n. split; [exact Hn|]. unfold chan8.
  assert (-1 < IZR n < 256)%R as [Hlo Hhi] by lra.
  apply lt_IZR in Hlo, Hhi. lia.
Qed.

(** Blending two packed colours at a coverage gives a 16-bit value,
    whatever ints the two colours are. *)
Lemma blend_565_u16 (fg bg : Z) (alpha : float) :
  unit_float alpha ->
  exists p, Circular.blend_565 fg bg alpha = Ok p /\ u16 p.
Proof.
  intros Ha. unfold Circular.blend_565, Circular.blend_rgb.
  pose proof (rgb565_to_rgb_range fg) as Hfg.
  pose proof (rgb565_to_rgb_range bg) as Hbg.
  destruct (Circular.rgb565_to_rgb fg) as [[fr fg_] fb].
  destruct (Circular.rgb565_to_rgb bg) as [[br bg_] bb].
  destruct (blend_rgb_chan_range fr br alpha) as (r & -> & Hr);
    try assumption; try (unfold chan8; lia).
  destruct (blend_rgb_chan_range fg_ bg_ alpha) as (g & -> & Hg);
    try assumption; try (unfold chan8; lia).
  destruct (blend_rgb_chan_range fb bb alpha) as (b & -> & Hb);
    try assumption; try (unfold chan8; lia).
  cbn [bind]. eexists. split; [reflexivity|].
  apply rgb_to_565_u16; assumption.
Qed.

Lemma background_pixel_u16 (size color transparent : Z)
  (f : float -> float -> result float) (x y : Z) :
  samples_covered x y f -> u16 transparent ->
  exists p,
    Circular.background_pixel size color transparent f x y = Ok p /\ u16 p.
Proof.
  intros Hs Ht. unfold Circular.background_pixel.
  destruct (sample_pixel_aa_coverage x y size f Hs) as (c & -> & Hc).
  cbn [bind]. destruct (ltb _ c).
  - apply blend_565_u16, coverage_unit, Hc.
  - exists transparent. split; [reflexivity|assumption].
Qed.

Lemma draw_pixel_u16 (size fg_color : Z)
  (f : float -> float -> result float) (opacity : float) (old x y : Z) :
  samples_covered x y f -> coverage opacity -> u16 old ->
  exists p, draw_pixel size fg_color f opacity old x y = Ok p /\ u16 p.
Proof.
  intros Hs Ho Hold. unfold draw_pixel.
  destruct (sample_pixel_aa_coverage x y size f Hs) as (c & -> & Hc).
  cbn [bind]. destruct (ltb _ c).
  - apply blend_565_u16, coverage_unit, mul_coverage; assumption.
  - exists old. split; [reflexivity|assumption].
Qed.

(** ** Sample points *)

(** A coordinate the shapes can take: canonical and of magnitude at most
    2^21. *)
Definition coord (v : float) : Prop := coord_float v /\ valid v.

Lemma sample_at_coord (i s : Z) :
  0 <= i <= 1048576 -> 0 <= s < 4 ->
  exists v, Circular.sample_at i sample_offset sample_step s = Ok v /\
            coord v.
Proof.
  intros Hi Hs. destruct (sample_at_ok i s Hi Hs) as (v & Ev & Hv).
  exists v. split; [assumption|]. split; [assumption|].
  unfold Circular.sample_at in Ev.
  destruct (of_int i) as [fi|] eqn:Ei; [|discriminate].
  destruct (of_int s) as [fs|] eqn:Es; [|discriminate].
  cbn [bind] in Ev. injection Ev as <-.
  assert (forall z f, of_int z = Ok f -> valid f) as Hof.
  { intros z f. unfold of_int. pose proof (of_Z_valid z) as Hz.
    destruct (of_Z z); try discriminate; intros H; injection H as <-;
      assumption. }
  apply add_valid; [apply add_valid|apply mul_valid];
    eauto using lit_valid.
Qed.

(** A shape that returns a coverage at every pair of coordinates covers
    the samples of every pixel. *)
Lemma covered_of_coords (f : float -> float -> result float) (x y : Z) :
  (forall vx vy, coord vx -> coord vy ->
     exists u, f vx vy = Ok u /\ coverage u) ->
  0 <= x <= 1048576 -> 0 <= y <= 1048576 ->
  samples_covered x y f.
Proof.
  intros Hf Hx Hy sx sy Hsx Hsy.
  destruct (sample_at_coord x sx Hx Hsx) as (vx & Evx & Hvx).
  destruct (sample_at_coord y sy Hy Hsy) as (vy & Evy & Hvy).
  destruct (Hf vx vy Hvx Hvy) as (u & Eu & Hu).
  exists vx, vy, u. auto.
Qed.

(** The distance between two coordinates: no exception, a canonical
    float. *)
Lemma distance_coords (x y cx cy : float) :
  coord x -> coord y -> coord cx -> coord cy ->
  exists d, Circular.distance pow_up x y cx cy = Ok d /\ valid d.
Proof.
  intros [Hx Vx] [Hy Vy] [Hcx Vcx] [Hcy Vcy].
  destruct (distance_ok x y cx cy (pow2_sub_ok cx x Hcx Hx)
              (pow2_sub_ok cy y Hcy Hy)) as (d & Ed & _).
  exists d. split; [assumption|].
  apply (distance_valid x y cx cy d); assumption.
Qed.

(** ** The badge *)

Lemma circle_coverage_coverage (cx cy radius x y : float) :
  coord cx -> coord cy -> valid radius -> coord x -> coord y ->
  exists u, Circular.circle_coverage pow_up cx cy radius x y = Ok u /\ coverage u.
Proof.
  intros Hcx Hcy Hr Hx Hy. unfold Circular.circle_coverage.
  destruct (distance_coords x y cx cy Hx Hy Hcx Hcy) as (d & -> & Hd).
  cbn [bind].
  destruct (leb d _); [exists one; split; [reflexivity|apply coverage_one]|].
  destruct (leb _ d); [exists zero; split; [reflexivity|apply coverage_zero]|].
  eexists. split; [reflexivity|]. apply clamp01_coverage.
  apply sub_valid; [apply add_valid; [assumption|apply valid_half]|assumption].
Qed.

Lemma int_truediv_valid (a b : Z) (q : float) :
  Circular.int_truediv a b = Ok q -> valid q.
Proof.
  unfold Circular.int_truediv. intros H.
  destruct a as [|pa|pa], b as [|pb|pb]; try discriminate;
    try (injection H as <-; reflexivity);
    match type of H with
    | match ?d with _ => _ end = _ =>
        pose proof (div_valid _ _ : valid d) as Hv; destruct d;
        try discriminate; injection H as <-; exact Hv
    end.
Qed.

Lemma centre_coord (size : Z) :
  0 <= size <= 1048576 ->
  exists c, Circular.centre size = Ok c /\ coord c /\
            (Rabs (B2R c) <= 1048576)%R.
Proof.
  intros Hs. destruct (centre_ok size Hs) as (c & Ec & Hc & Hb).
  exists c. split; [assumption|]. split; [|assumption].
  split; [assumption|].
  unfold Circular.centre in Ec.
  destruct (Circular.int_truediv size 2) as [q|] eqn:Eq; [|discriminate].
  cbn [bind] in Ec. injection Ec as <-.
  apply sub_valid; [apply (int_truediv_valid _ _ _ Eq)|apply valid_half].
Qed.

Lemma Forall2_Forall_r {A B : Type} (R : A -> B -> Prop) (P : B -> Prop)
  (l : list A) (l' : list B) :
  Forall2 R l l' -> (forall a b, In a l -> R a b -> P b) -> Forall P l'.
Proof.
  intros H. induction H as [|a b l l' Hab Hl IH]; intros HP;
    constructor.
  - apply (HP a b); [now left|assumption].
  - apply IH. intros a' b' Hin. apply HP. now right.
Qed.

(** The background pass never raises and every value it appends is a
    16-bit value. *)
Lemma background_u16 (size color transparent : Z) :
  0 <= size <= 1048576 -> u16 transparent ->
  exists pixels,
    Circular.generate_circle_background pow_up size color transparent = Ok pixels /\
    length pixels = Z.to_nat (size * size) /\ Forall u16 pixels.
Proof.
  intros Hs Ht. destruct (centre_coord size Hs) as (c & Ec & Hc & _).
  set (g := fun k : Z * Z =>
              Circular.background_pixel size color transparent
                (Circular.circle_coverage pow_up c c c) (fst k) (snd k)).
  assert (forall x y, 0 <= x < size -> 0 <= y < size ->
            samples_covered x y (Circular.circle_coverage pow_up c c c)) as Hcov.
  { intros x y Hx Hy. apply covered_of_coords; try lia.
    intros vx vy Hvx Hvy.
    apply circle_coverage_coverage; try assumption. apply Hc. }
  destruct (foldM_append g (coords size) []) as (ps & Ef & Hps).
  { intros [x y] Hin. apply In_coords in Hin as [Hx Hy].
    destruct (background_pixel_u16 size color transparent
                (Circular.circle_coverage pow_up c c c) x y (Hcov x y Hx Hy) Ht)
      as (p & Ep & _).
    exists p. exact Ep. }
  exists ps. split; [|split].
  - unfold Circular.generate_circle_background. rewrite Ec. cbn [bind].
    rewrite (foldM_rows
               (fun pixels x y =>
                  p <- Circular.background_pixel size color transparent
                         (Circular.circle_coverage pow_up c c c) x y ;;
                  Ok (pixels ++ [p])) (range size) (range size) []).
    exact Ef.
  - rewrite <- (Forall2_length Hps). apply coords_length. lia.
  - apply (Forall2_Forall_r _ _ _ _ Hps).
    intros [x y] p Hin Hp. apply In_coords in Hin as [Hx Hy].
    destruct (background_pixel_u16 size color transparent
                (Circular.circle_coverage pow_up c c c) x y (Hcov x y Hx Hy) Ht)
      as (p' & Ep' & Hu).
    unfold g in Hp. simpl in Hp. rewrite Ep' in Hp. injection Hp as <-.
    assumption.
Qed.

(** ** The symbol pass *)

Lemma index_coord (size : Z) (i : nat) :
  0 <= size -> (i < Z.to_nat (size * size))%nat ->
  exists x y, 0 <= x < size /\ 0 <= y < size /\
              pixel_index size (x, y) = i.
Proof.
  intros Hs0 Hi.
  assert (0 < size * size) as Hsq by lia.
  assert (0 < size) as Hs by nia.
  exists (Z.of_nat i mod size), (Z.of_nat i / size).
  pose proof (Z.mod_pos_bound (Z.of_nat i) size Hs) as Hm.
  pose proof (Z.div_mod (Z.of_nat i) size ltac:(lia)) as Hdm.
  assert (0 <= Z.of_nat i / size) by (apply Z.div_pos; lia).
  assert (Z.of_nat i / size < size).
  { apply Z.div_lt_upper_bound; [lia|]. lia. }
  split; [assumption|]. split; [lia|].
  unfold pixel_index. simpl. lia.
Qed.

Lemma draw_symbol_u16 (pixels : list Z) (size fg_color : Z)
  (f : float -> float -> result float) (opacity : float) :
  0 <= size ->
  length pixels = Z.to_nat (size * size) ->
  (forall x y, 0 <= x < size -> 0 <= y < size -> samples_covered x y f) ->
  coverage opacity -> Forall u16 pixels ->
  exists out,
    Circular.draw_symbol pixels size fg_color f opacity = Ok out /\
    length out = length pixels /\ Forall u16 out.
Proof.
  intros Hs Hlen Hf Ho Hu.
  destruct (draw_symbol_pixels pixels size fg_color f opacity Hs Hlen)
    as (out & Eo & Hl & Hp).
  { intros x y Hx Hy. apply samples_covered_unit. auto. }
  { apply coverage_unit. assumption. }
  exists out. split; [assumption|]. split; [assumption|].
  apply Forall_forall. intros p Hin.
  apply In_nth_error in Hin as [i Hi].
  assert (i < length out)%nat as Hlt.
  { apply nth_error_Some. congruence. }
  rewrite Hl, Hlen in Hlt.
  destruct (index_coord size i Hs Hlt) as (x & y & Hx & Hy & <-).
  destruct (nth_error pixels (pixel_index size (x, y))) as [old|] eqn:Eold.
  2:{ apply nth_error_None in Eold. lia. }
  destruct (Hp x y old Hx Hy Eold) as (p' & Ep' & Hn).
  rewrite Hn in Hi. injection Hi as <-.
  destruct (draw_pixel_u16 size fg_color f opacity old x y (Hf x y Hx Hy) Ho)
    as (p'' & Ep'' & Hu'').
  { rewrite Forall_forall in Hu. apply Hu.
    eapply nth_error_In. exact Eold. }
  rewrite Ep'' in Ep'. injection Ep' as <-. assumption.
Qed.

(** * The coverage functions of the symbols *)

Lemma fabs_valid (x : float) : valid x -> valid (fabs x).
Proof. destruct x; auto. Qed.

Lemma py_min_valid (a b : float) : valid a -> valid b -> valid (py_min a b).
Proof. intros Ha Hb. unfold py_min. destruct (ltb b a); assumption. Qed.

Lemma py_max_valid (a b : float) : valid a -> valid b -> valid (py_max a b).
Proof. intros Ha Hb. unfold py_max. destruct (ltb a b); assumption. Qed.

Lemma coverage_valid (a : float) : coverage a -> valid a.
Proof. intros H. apply H. Qed.

Create HintDb canon.
#[local] Hint Resolve add_valid sub_valid mul_valid div_valid lit_valid
  of_Z_valid valid_one valid_half valid_zero fabs_valid py_min_valid
  py_max_valid sqrt_valid coverage_valid : canon.
#[local] Hint Resolve coverage_zero coverage_one clamp01_coverage
  py_max_coverage py_min_coverage mul_coverage : canon.

Lemma coord_valid (v : float) : coord v -> valid v.
Proof. intros H. apply H. Qed.

#[local] Hint Resolve coord_valid : canon.

(** [max(coverage, clamp(1.0 - num / den))], one stage of a symbol. *)
Lemma ramp_stage (acc num den : float) :
  coverage acc -> is_zero den = false ->
  exists c,
    (t <- truediv num den ;; Ok (py_max acc (Circular.clamp01 (sub one t))))
    = Ok c /\ coverage c.
Proof.
  intros Ha Hd. unfold truediv. rewrite Hd. cbn [bind].
  eexists. split; [reflexivity|]. auto 6 with canon.
Qed.

(** ** The target *)

Lemma target_coverage_coverage
  (cx cy outer_r inner_r ring_width center_r crosshair_width x y : float) :
  coord cx -> coord cy -> coord x -> coord y ->
  is_zero (mul ring_width Circular.half) = false ->
  is_zero (mul ring_width (lit 35 100)) = false ->
  is_zero center_r = false -> is_zero crosshair_width = false ->
  exists u,
    Circular.target_coverage pow_up cx cy outer_r inner_r ring_width center_r
      crosshair_width x y = Ok u /\ coverage u.
Proof.
  intros Hcx Hcy Hx Hy Z1 Z2 Z3 Z4. unfold Circular.target_coverage.
  destruct (distance_coords x y cx cy Hx Hy Hcx Hcy) as (d & -> & Hd).
  cbn [bind].
  assert (exists c1,
    (if ltb (fabs (sub d outer_r)) ring_width
     then t <- truediv (fabs (sub d outer_r)) (mul ring_width Circular.half) ;;
          Ok (py_max zero (Circular.clamp01 (sub one t)))
     else Ok zero) = Ok c1 /\ coverage c1) as (c1 & -> & H1).
  { destruct (ltb _ ring_width).
    - apply ramp_stage; auto with canon.
    - eauto with canon. }
  cbn [bind].
  assert (exists c2,
    (if ltb (fabs (sub d inner_r)) (mul ring_width (lit 7 10))
     then t <- truediv (fabs (sub d inner_r)) (mul ring_width (lit 35 100)) ;;
          Ok (py_max c1 (Circular.clamp01 (sub one t)))
     else Ok c1) = Ok c2 /\ coverage c2) as (c2 & -> & H2).
  { destruct (ltb _ (mul ring_width _)).
    - apply ramp_stage; auto with canon.
    - eauto with canon. }
  cbn [bind].
  assert (exists c3,
    (if ltb d center_r
     then t <- truediv d center_r ;;
          Ok (py_max c2 (Circular.clamp01 (sub one (mul t (lit 7 10)))))
     else Ok c2) = Ok c3 /\ coverage c3) as (c3 & -> & H3).
  { destruct (ltb d center_r).
    - unfold truediv. rewrite Z3. cbn [bind]. eexists.
      split; [reflexivity|]. auto 7 with canon.
    - eauto with canon. }
  cbn [bind].
  destruct (ltb _ d && ltb d _); [|eauto with canon].
  assert (exists c4,
    (if ltb (fabs (sub x cx)) crosshair_width
     then t <- truediv (fabs (sub x cx)) crosshair_width ;;
          Ok (py_max c3 (Circular.clamp01 (sub one t)))
     else Ok c3) = Ok c4 /\ coverage c4) as (c4 & -> & H4).
  { destruct (ltb _ crosshair_width).
    - apply ramp_stage; auto with canon.
    - eauto with canon. }
  cbn [bind].
  destruct (ltb _ crosshair_width).
  - apply ramp_stage; auto with canon.
  - eauto with canon.
Qed.

(** ** The terminal prompt *)

Lemma terminal_coverage_coverage
  (line_width chevron_size chevron_x chevron_y : float)
  (underscore_y underscore_x underscore_len x y : float) :
  valid x -> valid y -> valid underscore_x -> valid underscore_len ->
  is_zero line_width = false ->
  is_zero (mul line_width (lit 9 10)) = false ->
  exists u,
    Circular.terminal_coverage line_width chevron_size chevron_x chevron_y
      underscore_y underscore_x underscore_len x y = Ok u /\ coverage u.
Proof.
  intros Hx Hy Hux Hul Z1 Z2. unfold Circular.terminal_coverage.
  assert (exists c1,
    (if leb (sub chevron_y chevron_size) y && leb y chevron_y
     then
       if ltb (fabs (sub x (add chevron_x (sub chevron_y y)))) line_width
       then t <- truediv (fabs (sub x (add chevron_x (sub chevron_y y))))
                         line_width ;;
            Ok (py_max zero (Circular.clamp01 (sub one t)))
       else Ok zero
     else Ok zero) = Ok c1 /\ coverage c1) as (c1 & -> & H1).
  { destruct (_ && _); [|eauto with canon].
    destruct (ltb _ line_width); [|eauto with canon].
    apply ramp_stage; auto with canon. }
  cbn [bind].
  assert (exists c2,
    (if leb chevron_y y && leb y (add chevron_y chevron_size)
     then
       if ltb (fabs (sub x (add chevron_x (sub y chevron_y)))) line_width
       then t <- truediv (fabs (sub x (add chevron_x (sub y chevron_y))))
                         line_width ;;
            Ok (py_max c1 (Circular.clamp01 (sub one t)))
       else Ok c1
     else Ok c1) = Ok c2 /\ coverage c2) as (c2 & -> & H2).
  { destruct (_ && _); [|eauto with canon].
    destruct (ltb _ line_width); [|eauto with canon].
    apply ramp_stage; auto with canon. }
  cbn [bind].
  destruct (_ && _); [|eauto with canon].
  destruct (ltb _ (mul line_width _)); [|eauto with canon].
  unfold truediv. rewrite Z2. cbn [bind]. eexists. split; [reflexivity|].
  apply py_max_coverage; [assumption|]. apply mul_coverage.
  - auto 6 with canon.
  - destruct (ltb x _); [auto 7 with canon|].
    destruct (ltb _ x); auto 8 with canon.
Qed.

(** ** The dots of the more symbol *)

Lemma more_coverage_coverage (dots : list (float * float))
  (dot_r x y : float) :
  Forall (fun d => coord (fst d) /\ coord (snd d)) dots ->
  valid dot_r -> coord x -> coord y ->
  exists u, Circular.more_coverage pow_up dots dot_r x y = Ok u /\ coverage u.
Proof.
  intros Hd Hr Hx Hy. unfold Circular.more_coverage.
  generalize coverage_zero. generalize zero as acc.
  induction Hd as [|[dx dy] dots [Hdx Hdy] _ IH]; intros acc Hacc.
  - exists acc. split; [reflexivity|assumption].
  - simpl foldM. simpl in Hdx, Hdy.
    destruct (distance_coords x y dx dy Hx Hy Hdx Hdy) as (d & -> & Hvd).
    cbn [bind].
    destruct (ltb d _); [|cbn [bind]; apply IH; assumption].
    destruct (leb d _); cbn [bind]; apply IH; auto 8 with canon.
Qed.

(** ** The play triangle *)

Lemma sqrt_not_neg_ok (a b : float) :
  exists l, sqrt (add (mul a a) (mul b b)) = Ok l /\
            (valid a -> valid b -> valid l).
Proof.
  rewrite sqrt_ok by (apply add_not_neg; apply mul_self_not_neg).
  eexists. split; [reflexivity|]. auto with canon.
Qed.

Lemma ltb_zero_lit (l : float) :
  is_zero l = true -> ltb l (lit 1 1000) = true.
Proof. destruct l as [[|]| | |]; try discriminate; reflexivity. Qed.

Lemma point_to_line_dist_ok (px py x1 y1 x2 y2 : float) :
  coord px -> coord py -> coord x1 -> coord y1 -> valid x2 -> valid y2 ->
  exists e, Circular.point_to_line_dist pow_up px py x1 y1 x2 y2 = Ok e /\ valid e.
Proof.
  intros Hpx Hpy Hx1 Hy1 Hx2 Hy2. unfold Circular.point_to_line_dist.
  destruct (sqrt_not_neg_ok (sub x2 x1) (sub y2 y1)) as (l & -> & Hl).
  cbn [bind].
  destruct (ltb l (lit 1 1000)) eqn:El.
  - apply distance_coords; assumption.
  - unfold truediv. destruct (is_zero l) eqn:Ez.
    + rewrite (ltb_zero_lit l Ez) in El. discriminate.
    + eexists. split; [reflexivity|]. apply div_valid.
Qed.

Lemma point_in_triangle_coverage (px py x1 y1 x2 y2 x3 y3 : float) :
  coord px -> coord py ->
  coord x1 -> coord y1 -> coord x2 -> coord y2 -> coord x3 -> coord y3 ->
  exists u,
    Circular.point_in_triangle pow_up px py x1 y1 x2 y2 x3 y3 = Ok u /\ coverage u.
Proof.
  intros Hpx Hpy Hx1 Hy1 Hx2 Hy2 Hx3 Hy3. unfold Circular.point_in_triangle.
  destruct (negb _); [|eauto with canon].
  destruct (point_to_line_dist_ok px py x1 y1 x2 y2) as (e1 & -> & He1);
    auto with canon.
  destruct (point_to_line_dist_ok px py x2 y2 x3 y3) as (e2 & -> & He2);
    auto with canon.
  destruct (point_to_line_dist_ok px py x3 y3 x1 y1) as (e3 & -> & He3);
    auto with canon.
  cbn [bind]. eexists. split; [reflexivity|]. auto 7 with canon.
Qed.

Lemma play_coverage_coverage (left_x right_x top_y bottom_y cy x y : float) :
  coord left_x -> coord right_x -> coord top_y -> coord bottom_y ->
  coord cy -> coord x -> coord y ->
  exists u,
    Circular.play_coverage pow_up left_x right_x top_y bottom_y cy x y = Ok u /\
    coverage u.
Proof.
  intros. unfold Circular.play_coverage.
  apply point_in_triangle_coverage; assumption.
Qed.

#[local] Hint Resolve add_valid sub_valid mul_valid div_valid lit_valid
  of_Z_valid valid_one valid_half valid_zero fabs_valid py_min_valid
  py_max_valid sqrt_valid coverage_valid coord_valid : canon.
#[local] Hint Resolve coverage_zero coverage_one clamp01_coverage
  py_max_coverage py_min_coverage mul_coverage : canon.

(** ** Angles *)

Lemma fmod_valid (x y : float) : valid x -> valid (fmod x y).
Proof.
  intros Hx. unfold fmod.
  destruct x as [sx|sx| |sx mx ex], y as [sy|sy| |sy my ey];
    try reflexivity; try assumption.
  apply binary_normalize_valid.
Qed.

(** [x % y] raises only for a zero divisor, and returns a canonical
    float. *)
Lemma py_mod_ok (x y : float) :
  is_zero y = false -> valid x -> valid y ->
  exists r, py_mod x y = Ok r /\ valid r.
Proof.
  intros Hz Hx Hy. unfold py_mod. rewrite Hz.
  destruct (is_zero (fmod x y)); [eexists; split; reflexivity|].
  destruct (negb _); eexists; (split; [reflexivity|]);
    auto using fmod_valid with canon.
Qed.

Lemma normalize_angle_ok (angle period : float) :
  is_zero period = false -> valid angle -> valid period ->
  exists r, Circular.normalize_angle angle period = Ok r /\ valid r.
Proof.
  intros Hz Ha Hp. unfold Circular.normalize_angle.
  destruct (py_mod_ok angle period Hz Ha Hp) as (m & -> & Hm). cbn [bind].
  apply py_mod_ok; auto with canon.
Qed.

Lemma two_nonzero : is_zero Circular.two = false.
Proof. reflexivity. Qed.

Lemma truediv_two (x : float) :
  truediv x Circular.two = Ok (SFdiv prec emax x Circular.two).
Proof. reflexivity. Qed.

(** ** The gear *)

Lemma gear_polar_coverage (outer_r inner_r hole_r : float) (num_teeth : Z)
  (tooth_width tooth_height dist angle period : float) :
  Circular.period_of num_teeth = Ok period -> is_zero period = false ->
  valid outer_r -> valid inner_r -> valid hole_r -> valid tooth_height ->
  valid dist -> valid angle ->
  exists u,
    Circular.gear_polar outer_r inner_r hole_r num_teeth tooth_width
      tooth_height dist angle = Ok u /\ coverage u.
Proof.
  intros Ep Hz Ho Hi Hh Hth Hd Ha. unfold Circular.gear_polar.
  destruct (leb dist _); [eauto with canon|].
  destruct (ltb dist _); [eexists; split; [reflexivity|]; auto 7 with canon|].
  rewrite Ep. cbn [bind].
  assert (valid period) as Hp.
  { unfold Circular.period_of in Ep.
    destruct (of_int num_teeth); [|discriminate]. cbn [bind] in Ep.
    apply (truediv_valid _ _ _ Ep). }
  destruct (normalize_angle_ok angle period Hz Ha Hp) as (na & -> & Hna).
  cbn [bind]. rewrite !truediv_two. cbn [bind].
  destruct (leb (sub inner_r Circular.half) dist && _);
    [|eauto with canon].
  eexists. split; [reflexivity|].
  apply mul_coverage; [apply mul_coverage|].
  - destruct (ltb dist _); auto 7 with canon.
  - match goal with
    | |- coverage (if ?b then _ else _) => destruct b
    end; [|auto with canon].
    apply clamp01_coverage. apply sub_valid; [|assumption].
    apply add_valid; [|apply valid_half].
    match goal with
    | |- valid (if ?b then _ else _) => destruct b
    end; auto with canon.
  - match goal with
    | |- coverage (if ?b then _ else _) => destruct b
    end; auto 8 with canon.
Qed.

Section Trigonometry.

Variable atan2 : float -> float -> float.
Variable sin : float -> float.
Hypothesis atan2_valid : forall a b, valid (atan2 a b).

Lemma gear_coverage_coverage (cx cy outer_r inner_r hole_r : float)
  (num_teeth : Z) (tooth_width tooth_height x y period : float) :
  Circular.period_of num_teeth = Ok period -> is_zero period = false ->
  coord cx -> coord cy ->
  valid outer_r -> valid inner_r -> valid hole_r -> valid tooth_height ->
  coord x -> coord y ->
  exists u,
    Circular.gear_coverage pow_up atan2 cx cy outer_r inner_r hole_r num_teeth
      tooth_width tooth_height x y = Ok u /\ coverage u.
Proof.
  intros Ep Hz Hcx Hcy Ho Hi Hh Hth Hx Hy. unfold Circular.gear_coverage.
  destruct (distance_coords x y cx cy Hx Hy Hcx Hcy) as (d & -> & Hd).
  cbn [bind]. apply (gear_polar_coverage _ _ _ _ _ _ _ _ period); auto.
Qed.

(** ** The sun *)

Lemma brightness_polar_coverage (sun_r ray_inner ray_outer : float)
  (num_rays : Z) (ray_width ray_thickness dist angle period : float) :
  Circular.period_of num_rays = Ok period -> is_zero period = false ->
  is_zero (mul ray_width (lit 6 10)) = false ->
  is_zero ray_thickness = false ->
  valid sun_r -> valid ray_inner -> valid ray_outer ->
  valid dist -> valid angle ->
  exists u,
    Circular.brightness_polar sin sun_r ray_inner ray_outer num_rays
      ray_width ray_thickness dist angle = Ok u /\ coverage u.
Proof.
  intros Ep Hz Z1 Z2 Hs Hri Hro Hd Ha. unfold Circular.brightness_polar.
  assert (coverage (if ltb dist (add sun_r Circular.half)
                    then if leb dist (sub sun_r Circular.half) then one
                         else Circular.clamp01
                                (sub (add sun_r Circular.half) dist)
                    else zero)) as Hc.
  { destruct (ltb dist _); [|auto with canon].
    destruct (leb dist _); auto 7 with canon. }
  revert Hc.
  generalize (if ltb dist (add sun_r Circular.half)
              then if leb dist (sub sun_r Circular.half) then one
                   else Circular.clamp01 (sub (add sun_r Circular.half) dist)
              else zero).
  intros c0 Hc.
  destruct (leb (sub ray_inner Circular.half) dist && _); [|eauto].
  rewrite Ep. cbn [bind].
  assert (valid period) as Hp.
  { unfold Circular.period_of in Ep.
    destruct (of_int num_rays); [|discriminate]. cbn [bind] in Ep.
    apply (truediv_valid _ _ _ Ep). }
  destruct (normalize_angle_ok angle period Hz Ha Hp) as (na & -> & Hna).
  cbn [bind].
  destruct (ltb _ ray_width); [|eauto].
  unfold truediv. rewrite Z1, Z2. cbn [bind].
  eexists. split; [reflexivity|].
  apply py_max_coverage; [assumption|].
  apply mul_coverage; [apply mul_coverage|].
  - auto 7 with canon.
  - destruct (ltb dist _); [auto 7 with canon|].
    destruct (ltb _ dist); auto 7 with canon.
  - apply clamp01_coverage. apply sub_valid; [apply valid_one|].
    apply div_valid.
Qed.

Lemma brightness_coverage_coverage (cx cy sun_r ray_inner ray_outer : float)
  (num_rays : Z) (ray_width ray_thickness x y period : float) :
  Circular.period_of num_rays = Ok period -> is_zero period = false ->
  is_zero (mul ray_width (lit 6 10)) = false ->
  is_zero ray_thickness = false ->
  coord cx -> coord cy ->
  valid sun_r -> valid ray_inner -> valid ray_outer ->
  coord x -> coord y ->
  exists u,
    Circular.brightness_coverage pow_up atan2 sin cx cy sun_r ray_inner ray_outer
      num_rays ray_width ray_thickness x y = Ok u /\ coverage u.
Proof.
  intros Ep Hz Z1 Z2 Hcx Hcy Hs Hri Hro Hx Hy.
  unfold Circular.brightness_coverage.
  destruct (distance_coords x y cx cy Hx Hy Hcx Hcy) as (d & -> & Hd).
  cbn [bind].
  apply (brightness_polar_coverage _ _ _ _ _ _ _ _ period); auto.
Qed.

(** ** The wifi arcs *)

Lemma wifi_arcs_coverage (radii : list float)
  (arc_width arc_angle dist angle : float) :
  is_zero (mul arc_width (lit 55 100)) = false ->
  exists u,
    Circular.wifi_arcs radii arc_width arc_angle dist angle = Ok u /\
    coverage u.
Proof.
  intros Z1. unfold Circular.wifi_arcs.
  rewrite !truediv_two. cbn [bind].
  destruct (ltb _ _); [|eauto with canon].
  generalize coverage_zero. generalize zero as acc.
  induction radii as [|r radii IH]; intros acc Hacc.
  - exists acc. split; [reflexivity|assumption].
  - cbn [foldM].
    destruct (ltb (fabs (sub dist r)) arc_width);
      [|cbn [bind]; apply IH; assumption].
    unfold truediv at 1. rewrite Z1. cbn [bind].
    destruct (ltb _ (lit 2 10)).
    + unfold truediv at 1.
      change (is_zero (lit 2 10)) with false. cbn [bind].
      apply IH. apply py_max_coverage; [assumption|].
      apply mul_coverage; apply clamp01_coverage; auto with canon.
    + cbn [bind]. apply IH. apply py_max_coverage; [assumption|].
      apply clamp01_coverage; auto with canon.
Qed.

Lemma wifi_coverage_coverage (cx cy : float) (radii : list float)
  (arc_width dot_r arc_angle x y : float) :
  is_zero (mul arc_width (lit 55 100)) = false ->
  coord cx -> coord cy -> coord (add cy (of_Z 1)) -> valid dot_r ->
  coord x -> coord y ->
  exists u,
    Circular.wifi_coverage pow_up atan2 cx cy radii arc_width dot_r arc_angle x y
    = Ok u /\ coverage u.
Proof.
  intros Z1 Hcx Hcy Hdc Hr Hx Hy. unfold Circular.wifi_coverage.
  destruct (distance_coords x y cx cy Hx Hy Hcx Hcy) as (d & -> & Hd).
  cbn [bind].
  destruct (wifi_arcs_coverage radii arc_width arc_angle d
              (atan2 (sub y cy) (sub x cx)) Z1) as (c & -> & Hc).
  cbn [bind].
  destruct (distance_coords x y cx _ Hx Hy Hcx Hdc) as (dd & -> & Hdd).
  cbn [bind].
  destruct (ltb dd _); [|eauto].
  destruct (leb dd _); eexists; (split; [reflexivity|]);
    auto 8 with canon.
Qed.

End Trigonometry.

#[local] Hint Resolve add_valid sub_valid mul_valid div_valid lit_valid
  of_Z_valid valid_one valid_half valid_zero fabs_valid py_min_valid
  py_max_valid sqrt_valid coverage_valid coord_valid : canon.

(** * The icons of [main] *)

(** A decidable sufficient condition for [coord]. *)
Definition coord_check (v : float) : bool :=
  match v with
  | S754_zero _ => true
  | S754_finite _ m e =>
      valid_binary prec emax v && (Zdigits2 (Zpos m) + e <=? 21)
  | _ => false
  end.

Lemma coord_check_ok (v : float) : coord_check v = true -> coord v.
Proof.
  destruct v as [s|s| |s m e]; try discriminate; intros H.
  - split; [|reflexivity]. split; [reflexivity|]. split; [exact I|].
    simpl. rewrite Rabs_R0. lra.
  - unfold coord_check in H. apply andb_prop in H as [Hv Hd].
    apply Z.leb_le in Hd. split; [|exact Hv]. split; [reflexivity|].
    split; [apply valid_wf; exact Hv|].
    rewrite B2R_finite, F2R_cond_Zopp.
    pose proof (F2R_pos m e) as Hp. pose proof (F2R_digits_hi m e) as Hh.
    pose proof (bpow_le _ _ Hd) as Hb.
    rewrite (bpow_nat 21 2097152) in Hb by (simpl; lia).
    destruct s; [rewrite Rabs_Ropp|]; rewrite Rabs_pos_eq; lra.
Qed.

(** A decidable sufficient condition for [coverage]. *)
Definition coverage_check (v : float) : bool :=
  match v with
  | S754_zero _ => true
  | S754_finite false m e =>
      valid_binary prec emax v && (Zdigits2 (Zpos m) + e <=? 0)
  | _ => false
  end.

Lemma coverage_check_ok (v : float) : coverage_check v = true -> coverage v.
Proof.
  destruct v as [s|s| |[|] m e]; try discriminate; intros H.
  - split; [reflexivity|]. split; [reflexivity|]. simpl. lra.
  - unfold coverage_check in H. apply andb_prop in H as [Hv Hd].
    apply Z.leb_le in Hd.
    split; [reflexivity|]. split; [exact Hv|].
    apply small_unit; [apply valid_wf; exact Hv|exact Hd].
Qed.

Lemma half_size_42 : Circular.int_truediv 42 2 = Ok (of_Z 21).
Proof. vm_compute. reflexivity. Qed.

Lemma coord_centre42 : coord centre42.
Proof. apply coord_check_ok. vm_compute. reflexivity. Qed.

Ltac by_check :=
  first [ apply coord_check_ok; vm_compute; reflexivity
        | apply coverage_check_ok; vm_compute; reflexivity
        | vm_compute; reflexivity ].

(** A shape that returns a coverage at every pair of coordinates. *)
Definition shape_ok (f : float -> float -> result float) : Prop :=
  forall x y, coord x -> coord y -> exists u, f x y = Ok u /\ coverage u.

Lemma target_shape_42 :
  exists f, Circular.target_shape pow_up 42 = Ok f /\ shape_ok f.
Proof.
  unfold Circular.target_shape. rewrite centre_42, half_size_42.
  cbn [bind]. eexists. split; [reflexivity|]. intros x y Hx Hy.
  apply target_coverage_coverage; try assumption;
    try exact coord_centre42; by_check.
Qed.

Lemma play_shape_42 :
  exists f, Circular.play_shape pow_up 42 = Ok f /\ shape_ok f.
Proof.
  unfold Circular.play_shape. rewrite centre_42.
  change (of_int 42) with (Ok (of_Z 42)).
  cbn [bind]. eexists. split; [reflexivity|]. intros x y Hx Hy.
  apply play_coverage_coverage; try assumption;
    try exact coord_centre42; by_check.
Qed.

Lemma terminal_shape_42 :
  exists f, Circular.terminal_shape 42 = Ok f /\ shape_ok f.
Proof.
  unfold Circular.terminal_shape. rewrite centre_42.
  cbn [bind]. eexists. split; [reflexivity|]. intros x y Hx Hy.
  apply terminal_coverage_coverage; auto with canon; by_check.
Qed.

Lemma more_shape_42 :
  exists f, Circular.more_shape pow_up 42 = Ok f /\ shape_ok f.
Proof.
  rewrite (more_shape_eq 42 centre42 centre_42).
  eexists. split; [reflexivity|]. intros x y Hx Hy.
  apply more_coverage_coverage; auto with canon.
  unfold more_dots.
  repeat (apply Forall_cons; [split; simpl; by_check|]). apply Forall_nil.
Qed.

Section Trigonometry.

Variable atan2 : float -> float -> float.
Variable sin : float -> float.
Hypothesis atan2_valid : forall a b, valid (atan2 a b).

Lemma gear_shape_42 :
  exists f, Circular.gear_shape pow_up atan2 42 = Ok f /\ shape_ok f.
Proof.
  unfold Circular.gear_shape. rewrite centre_42, half_size_42.
  cbn [bind]. eexists. split; [reflexivity|]. intros x y Hx Hy.
  apply (gear_coverage_coverage atan2 atan2_valid) with (period := period8);
    try assumption; try exact coord_centre42; auto with canon; by_check.
Qed.

Lemma brightness_shape_42 :
  exists f, Circular.brightness_shape pow_up atan2 sin 42 = Ok f /\ shape_ok f.
Proof.
  unfold Circular.brightness_shape. rewrite centre_42, half_size_42.
  cbn [bind]. eexists. split; [reflexivity|]. intros x y Hx Hy.
  apply (brightness_coverage_coverage atan2 sin atan2_valid)
    with (period := period8);
    try assumption; try exact coord_centre42; auto with canon; by_check.
Qed.

Lemma wifi_shape_42 :
  exists f, Circular.wifi_shape pow_up atan2 42 = Ok f /\ shape_ok f.
Proof.
  unfold Circular.wifi_shape. rewrite centre_42, half_size_42.
  cbn [bind]. eexists. split; [reflexivity|]. intros x y Hx Hy.
  apply wifi_coverage_coverage;
    try assumption; try exact coord_centre42; auto with canon; by_check.
Qed.

End Trigonometry.

(** ** Drawing a symbol on a 42x42 grid *)

(** A full grid of 16-bit values. *)
Definition icon_grid (pixels : list Z) : Prop :=
  length pixels = 1764%nat /\ Forall u16 pixels.

Lemma draw_shape_42 (pixels : list Z) (fg_color : Z)
  (f : float -> float -> result float) (opacity : float) :
  shape_ok f -> coverage opacity -> icon_grid pixels ->
  exists out,
    Circular.draw_symbol pixels 42 fg_color f opacity = Ok out /\
    icon_grid out.
Proof.
  intros Hf Ho [Hlen Hu].
  destruct (draw_symbol_u16 pixels 42 fg_color f opacity ltac:(lia))
    as (out & Eo & Hl & Hout); try assumption.
  - intros x y Hx Hy. apply covered_of_coords; [exact Hf|lia|lia].
  - exists out. split; [assumption|]. split; [congruence|assumption].
Qed.

Ltac draw_with shape_lemma :=
  let f := fresh "f" in
  let Ef := fresh "Ef" in
  let Hf := fresh "Hf" in
  destruct shape_lemma as (f & Ef & Hf); rewrite Ef; cbn [bind];
  apply draw_shape_42; [exact Hf|by_check|assumption].

Lemma draw_target_symbol_42 (pixels : list Z) (fg_color : Z) :
  icon_grid pixels ->
  exists out,
    Circular.draw_target_symbol pow_up pixels 42 fg_color = Ok out /\ icon_grid out.
Proof.
  intros Hg. unfold Circular.draw_target_symbol. draw_with target_shape_42.
Qed.

Lemma draw_play_symbol_42 (pixels : list Z) (fg_color : Z) :
  icon_grid pixels ->
  exists out,
    Circular.draw_play_symbol pow_up pixels 42 fg_color = Ok out /\ icon_grid out.
Proof.
  intros Hg. unfold Circular.draw_play_symbol. draw_with play_shape_42.
Qed.

Lemma draw_terminal_symbol_42 (pixels : list Z) (fg_color : Z) :
  icon_grid pixels ->
  exists out,
    Circular.draw_terminal_symbol pixels 42 fg_color = Ok out /\
    icon_grid out.
Proof.
  intros Hg. unfold Circular.draw_terminal_symbol.
  draw_with terminal_shape_42.
Qed.

Lemma draw_more_symbol_42 (pixels : list Z) (fg_color : Z) :
  icon_grid pixels ->
  exists out,
    Circular.draw_more_symbol pow_up pixels 42 fg_color = Ok out /\ icon_grid out.
Proof.
  intros Hg. unfold Circular.draw_more_symbol. draw_with more_shape_42.
Qed.

Section Icons.

Variable atan2 : float -> float -> float.
Variable sin : float -> float.
Hypothesis atan2_valid : forall a b, valid (atan2 a b).

Lemma draw_gear_symbol_42 (pixels : list Z) (fg_color : Z) :
  icon_grid pixels ->
  exists out,
    Circular.draw_gear_symbol pow_up atan2 pixels 42 fg_color = Ok out /\
    icon_grid out.
Proof.
  intros Hg. unfold Circular.draw_gear_symbol.
  draw_with (gear_shape_42 atan2 atan2_valid).
Qed.

Lemma draw_brightness_symbol_42 (pixels : list Z) (fg_color : Z) :
  icon_grid pixels ->
  exists out,
    Circular.draw_brightness_symbol pow_up atan2 sin pixels 42 fg_color = Ok out /\
    icon_grid out.
Proof.
  intros Hg. unfold Circular.draw_brightness_symbol.
  draw_with (brightness_shape_42 atan2 sin atan2_valid).
Qed.

Lemma draw_wifi_symbol_42 (pixels : list Z) (fg_color : Z) :
  icon_grid pixels ->
  exists out,
    Circular.draw_wifi_symbol pow_up atan2 pixels 42 fg_color = Ok out /\
    icon_grid out.
Proof.
  intros Hg. unfold Circular.draw_wifi_symbol.
  draw_with (wifi_shape_42 atan2).
Qed.

(** Every icon, whatever its symbol and colours: no exception, 1764
    values, each a 16-bit value. *)
Lemma generate_icon_grid (icon_def : Circular.IconDef) (transparent : Z) :
  u16 transparent ->
  exists out,
    Circular.generate_icon pow_up atan2 sin icon_def transparent = Ok out /\
    icon_grid out.
Proof.
  intros Ht. unfold Circular.generate_icon.
  change Circular.ICON_SIZE with 42.
  destruct (background_u16 42 (Circular.bg_color icon_def) transparent
              ltac:(lia) Ht) as (pixels & -> & Hlen & Hu).
  cbn [bind].
  assert (icon_grid pixels) as Hg by (split; assumption).
  destruct (String.eqb _ "gear"); [apply draw_gear_symbol_42; exact Hg|].
  destruct (String.eqb _ "target"); [apply draw_target_symbol_42; exact Hg|].
  destruct (String.eqb _ "play"); [apply draw_play_symbol_42; exact Hg|].
  destruct (String.eqb _ "terminal");
    [apply draw_terminal_symbol_42; exact Hg|].
  destruct (String.eqb _ "brightness");
    [apply draw_brightness_symbol_42; exact Hg|].
  destruct (String.eqb _ "wifi"); [apply draw_wifi_symbol_42; exact Hg|].
  destruct (String.eqb _ "more"); [apply draw_more_symbol_42; exact Hg|].
  exists pixels. split; [reflexivity|exact Hg].
Qed.

End Icons.

(** * The integer drawing primitives *)

(** [painted c cv cv']: [cv'] is [cv] with some cells repainted [c]. *)
Definition painted (c : Color) (cv cv' : Canvas) : Prop :=
  w cv' = w cv /\ h cv' = h cv /\ bg cv' = bg cv /\
  length (px cv') = length (px cv) /\
  forall k, nth_error (px cv') k = nth_error (px cv) k \/
            nth_error (px cv') k = Some c.

Lemma painted_refl (c : Color) (cv : Canvas) : painted c cv cv.
Proof. repeat split; auto. Qed.

Lemma painted_trans (c : Color) (cv1 cv2 cv3 : Canvas) :
  painted c cv1 cv2 -> painted c cv2 cv3 -> painted c cv1 cv3.
Proof.
  intros (W1 & H1 & B1 & L1 & P1) (W2 & H2 & B2 & L2 & P2).
  repeat split; try congruence.
  intros k. destruct (P2 k) as [E|E]; [|now right].
  rewrite E. apply P1.
Qed.

Lemma painted_wf (c : Color) (cv cv' : Canvas) :
  painted c cv cv' -> canvas_wf cv -> canvas_wf cv'.
Proof.
  intros (W & H & _ & L & _) Hwf. unfold canvas_wf in *. congruence.
Qed.

Lemma in_bounds_painted (c : Color) (cv cv' : Canvas) (x y : Z) :
  painted c cv cv' -> in_bounds cv' x y = in_bounds cv x y.
Proof. intros (W & H & _). unfold in_bounds. now rewrite W, H. Qed.

(** [set] never raises on a well-formed canvas; it paints one cell. *)
Lemma set_painted (cv : Canvas) (x y : Z) (c : Color) :
  canvas_wf cv ->
  exists cv', set cv x y c = Ok cv' /\ painted c cv cv' /\
              (in_bounds cv x y = true -> get cv' x y = Ok c).
Proof.
  intros Hwf. unfold set. destruct (in_bounds cv x y) eqn:Hb.
  - pose proof (idx_in_range cv x y Hwf Hb) as Hi.
    rewrite (list_set_nonneg _ _ c Hi). cbn [bind].
    eexists. split; [reflexivity|]. split.
    + unfold with_px. simpl. repeat split; auto.
      * apply update_length.
      * intros k. destruct (Nat.eq_dec (Z.to_nat (_idx cv x y)) k) as [<-|Hn].
        -- right. apply nth_error_update_eq. lia.
        -- left. apply nth_error_update_neq. assumption.
    + intros _. unfold get, with_px, in_bounds in *. simpl. rewrite Hb.
      unfold _idx in *. simpl.
      destruct (list_get_nonneg (update (px cv) (Z.to_nat (y * w cv + x)) c)
                  (y * w cv + x)) as (a & Ha & ->).
      * rewrite update_length. exact Hi.
      * rewrite nth_error_update_eq in Ha by lia. congruence.
  - exists cv. split; [reflexivity|]. split; [apply painted_refl|].
    discriminate.
Qed.

(** A cell that holds [c] keeps it under repainting with [c]. *)
Lemma painted_keeps (c : Color) (cv cv' : Canvas) (x y : Z) :
  canvas_wf cv -> painted c cv cv' ->
  in_bounds cv x y = true -> get cv x y = Ok c -> get cv' x y = Ok c.
Proof.
  intros Hwf Hp Hb Hg.
  pose proof (painted_wf c cv cv' Hp Hwf) as Hwf'.
  pose proof (in_bounds_painted c cv cv' x y Hp) as Hb'.
  destruct Hp as (W & H & B & L & P).
  unfold get in *. rewrite Hb' , Hb in *.
  assert (_idx cv' x y = _idx cv x y) as Hi by (unfold _idx; now rewrite W).
  rewrite Hi.
  pose proof (idx_in_range cv x y Hwf Hb) as Hr.
  destruct (list_get_nonneg (px cv) _ Hr) as (a & Ha & Ea).
  rewrite Ea in Hg. injection Hg as ->.
  destruct (list_get_nonneg (px cv') (_idx cv x y)) as (a' & Ha' & ->).
  { rewrite L. exact Hr. }
  destruct (P (Z.to_nat (_idx cv x y))) as [E|E]; congruence.
Qed.

(** ** Bresenham's line *)

Section Line.

Variables (x0 y0 x1 y1 : Z) (c : Color).

Let dx := Z.abs (x1 - x0).
Let ady := Z.abs (y1 - y0).
Let sx := if x0 <? x1 then 1 else -1.
Let sy := if y0 <? y1 then 1 else -1.

Lemma line_ends : x1 = x0 + dx * sx /\ y1 = y0 + ady * sy.
Proof.
  unfold dx, ady, sx, sy.
  destruct (Z.ltb_spec x0 x1); destruct (Z.ltb_spec y0 y1); lia.
Qed.

Lemma line_steps : (sx = 1 \/ sx = -1) /\ (sy = 1 \/ sy = -1).
Proof.
  unfold sx, sy.
  destruct (x0 <? x1); destruct (y0 <? y1); auto.
Qed.

(** After [i] steps along x and [j] steps along y, the loop reaches the end
    point within [(dx - i) + (ady - j) + 1] turns. *)
Lemma line_loop_ends (fuel : nat) :
  forall (i j : Z) (cv : Canvas),
    canvas_wf cv ->
    0 <= i <= dx -> 0 <= j <= ady ->
    (dx - i) + (ady - j) < Z.of_nat fuel ->
    exists cv',
      line_loop fuel cv (x0 + i * sx) (y0 + j * sy) x1 y1 dx (- ady) sx sy
                ((i + 1) * (- ady) + (j + 1) * dx) c = Some (Ok cv') /\
      painted c cv cv' /\
      (in_bounds cv (x0 + i * sx) (y0 + j * sy) = true ->
       get cv' (x0 + i * sx) (y0 + j * sy) = Ok c) /\
      (in_bounds cv x1 y1 = true -> get cv' x1 y1 = Ok c).
Proof.
  destruct line_ends as [Ex Ey]. destruct line_steps as [Hsx Hsy].
  induction fuel as [|fuel IH]; intros i j cv Hwf Hi Hj Hfuel; [lia|].
  cbn [line_loop].
  destruct (set_painted cv (x0 + i * sx) (y0 + j * sy) c Hwf)
    as (cv1 & -> & Hp1 & Hg1).
  pose proof (painted_wf c cv cv1 Hp1 Hwf) as Hwf1.
  destruct ((x0 + i * sx =? x1) && (y0 + j * sy =? y1)) eqn:Hend.
  - apply andb_prop in Hend as [Hx Hy].
    apply Z.eqb_eq in Hx, Hy.
    exists cv1. split; [reflexivity|]. split; [assumption|].
    split; [assumption|]. rewrite <- Hx, <- Hy. assumption.
  - (* one more turn *)
    assert (i < dx \/ j < ady) as Hmore.
    { apply andb_false_iff in Hend.
      destruct Hend as [H|H]; apply Z.eqb_neq in H.
      - left. destruct (Z.eq_dec i dx) as [->|]; [|lia]. congruence.
      - right. destruct (Z.eq_dec j ady) as [->|]; [|lia]. congruence. }
    set (err := (i + 1) * - ady + (j + 1) * dx).
    assert (forall i' j', 0 <= i' <= dx -> 0 <= j' <= ady ->
              i <= i' -> j <= j' -> i < i' \/ j < j' ->
              exists cv',
                line_loop fuel cv1 (x0 + i' * sx) (y0 + j' * sy) x1 y1 dx
                  (- ady) sx sy ((i' + 1) * - ady + (j' + 1) * dx) c
                = Some (Ok cv') /\
                painted c cv cv' /\
                (in_bounds cv (x0 + i * sx) (y0 + j * sy) = true ->
                 get cv' (x0 + i * sx) (y0 + j * sy) = Ok c) /\
                (in_bounds cv x1 y1 = true -> get cv' x1 y1 = Ok c))
      as Hnext.
    { intros i' j' Hi' Hj' Hii Hjj Hstep.
      destruct (IH i' j' cv1 Hwf1 Hi' Hj' ltac:(lia))
        as (cv' & E & Hp & _ & Hg).
      exists cv'. split; [exact E|].
      split; [eapply painted_trans; eassumption|]. split.
      - intros Hb. apply (painted_keeps c cv1 cv'); auto.
        rewrite (in_bounds_painted c cv cv1); assumption.
      - intros Hb. apply Hg.
        rewrite (in_bounds_painted c cv cv1); assumption. }
    destruct (Z.leb_spec (- ady) (2 * err)) as [Hxs|Hxs];
      destruct (Z.leb_spec (2 * err) dx) as [Hys|Hys].
    + (* both steps *)
      assert (i < dx) as Hi'.
      { destruct (Z.eq_dec i dx) as [E|]; [|lia]. exfalso.
        assert (j < ady) by lia. unfold err in Hxs. subst i. nia. }
      assert (j < ady) as Hj'.
      { destruct (Z.eq_dec j ady) as [E|]; [|lia]. exfalso.
        unfold err in Hys. subst j. nia. }
      replace (x0 + i * sx + sx) with (x0 + (i + 1) * sx) by lia.
      replace (y0 + j * sy + sy) with (y0 + (j + 1) * sy) by lia.
      replace (err + - ady + dx)
        with ((i + 1 + 1) * - ady + (j + 1 + 1) * dx) by (unfold err; lia).
      apply Hnext; lia.
    + (* a step along x *)
      assert (i < dx) as Hi'.
      { destruct (Z.eq_dec i dx) as [E|]; [|lia]. exfalso.
        assert (j < ady) by lia. unfold err in Hxs. subst i. nia. }
      replace (x0 + i * sx + sx) with (x0 + (i + 1) * sx) by lia.
      replace (err + - ady)
        with ((i + 1 + 1) * - ady + (j + 1) * dx) by (unfold err; lia).
      apply Hnext; lia.
    + (* a step along y *)
      assert (j < ady) as Hj'.
      { destruct (Z.eq_dec j ady) as [E|]; [|lia]. exfalso.
        unfold err in Hys. subst j. nia. }
      replace (y0 + j * sy + sy) with (y0 + (j + 1) * sy) by lia.
      replace (err + dx)
        with ((i + 1) * - ady + (j + 1 + 1) * dx) by (unfold err; lia).
      apply Hnext; lia.
    + (* no step: impossible *)
      exfalso. lia.
Qed.

End Line.

(** [Canvas.line] leaves its loop within |x1 - x0| + |y1 - y0| + 1 turns,
    raises nothing, and paints both end points. *)
Lemma line_terminates (fuel : nat) (cv : Canvas) (x0 y0 x1 y1 : Z)
  (c : Color) :
  canvas_wf cv ->
  Z.abs (x1 - x0) + Z.abs (y1 - y0) < Z.of_nat fuel ->
  exists cv',
    line fuel cv x0 y0 x1 y1 c = Some (Ok cv') /\
    painted c cv cv' /\
    (in_bounds cv x0 y0 = true -> get cv' x0 y0 = Ok c) /\
    (in_bounds cv x1 y1 = true -> get cv' x1 y1 = Ok c).
Proof.
  intros Hwf Hfuel. unfold line.
  pose proof (line_loop_ends x0 y0 x1 y1 c fuel 0 0 cv Hwf
                ltac:(lia) ltac:(lia) ltac:(lia)) as H.
  cbv zeta in H.
  replace (x0 + 0 * (if x0 <? x1 then 1 else -1)) with x0 in H by lia.
  replace (y0 + 0 * (if y0 <? y1 then 1 else -1)) with y0 in H by lia.
  replace ((0 + 1) * - Z.abs (y1 - y0) + (0 + 1) * Z.abs (x1 - x0))
    with (Z.abs (x1 - x0) + - Z.abs (y1 - y0)) in H by lia.
  exact H.
Qed.

(** ** The midpoint circle *)

Lemma set_all_painted (cv : Canvas) (cx cy : Z) (pts : list (Z * Z))
  (c : Color) :
  canvas_wf cv ->
  exists cv',
    set_all cv cx cy pts c = Ok cv' /\ painted c cv cv' /\
    forall d, In d pts -> in_bounds cv (cx + fst d) (cy + snd d) = true ->
              get cv' (cx + fst d) (cy + snd d) = Ok c.
Proof.
  unfold set_all. revert cv.
  induction pts as [|p pts IH]; intros cv Hwf.
  - exists cv. split; [reflexivity|]. split; [apply painted_refl|].
    intros d [].
  - cbn [foldM].
    destruct (set_painted cv (cx + fst p) (cy + snd p) c Hwf)
      as (cv1 & -> & Hp1 & Hg1).
    cbn [bind].
    pose proof (painted_wf c cv cv1 Hp1 Hwf) as Hwf1.
    destruct (IH cv1 Hwf1) as (cv' & E & Hp & Hg).
    exists cv'. split; [exact E|].
    split; [eapply painted_trans; eassumption|].
    intros d [<-|Hin] Hb.
    + apply (painted_keeps c cv1 cv'); auto.
      rewrite (in_bounds_painted c cv cv1); assumption.
    + apply Hg; [assumption|].
      rewrite (in_bounds_painted c cv cv1); assumption.
Qed.

(** The loop of [Canvas.circle] is left within [x - y + 1] turns. *)
Lemma circle_loop_ends (cx cy : Z) (c : Color) (fuel : nat) :
  forall (x y err : Z) (cv : Canvas),
    canvas_wf cv ->
    Z.max 0 (x - y + 1) < Z.of_nat fuel ->
    exists cv',
      circle_loop fuel cv cx cy x y err c = Some (Ok cv') /\
      painted c cv cv' /\
      (x < y -> cv' = cv) /\
      (y <= x -> forall d, In d (octants x y) ->
         in_bounds cv (cx + fst d) (cy + snd d) = true ->
         get cv' (cx + fst d) (cy + snd d) = Ok c).
Proof.
  induction fuel as [|fuel IH]; intros x y err cv Hwf Hfuel; [lia|].
  cbn [circle_loop].
  destruct (Z.leb_spec y x) as [Hle|Hgt].
  - destruct (set_all_painted cv cx cy (octants x y) c Hwf)
      as (cv1 & -> & Hp1 & Hg1).
    pose proof (painted_wf c cv cv1 Hp1 Hwf) as Hwf1.
    assert (forall x' err',
              x - 1 <= x' <= x ->
              exists cv',
                circle_loop fuel cv1 cx cy x' (y + 1) err' c = Some (Ok cv') /\
                painted c cv cv' /\
                (x < y -> cv' = cv) /\
                (y <= x -> forall d, In d (octants x y) ->
                   in_bounds cv (cx + fst d) (cy + snd d) = true ->
                   get cv' (cx + fst d) (cy + snd d) = Ok c)) as Hnext.
    { intros x' err' Hx'.
      destruct (IH x' (y + 1) err' cv1 Hwf1 ltac:(lia))
        as (cv' & E & Hp & _ & _).
      exists cv'. split; [exact E|].
      split; [eapply painted_trans; eassumption|].
      split; [lia|]. intros _ d Hin Hb.
      apply (painted_keeps c cv1 cv'); auto.
      rewrite (in_bounds_painted c cv cv1); assumption. }
    destruct (0 <? 2 * (err + (1 + 2 * (y + 1)) - x) + 1);
      apply Hnext; lia.
  - exists cv. split; [reflexivity|]. split; [apply painted_refl|].
    split; [reflexivity|]. lia.
Qed.

(** [Canvas.circle] leaves its loop within [r + 1] turns; with a negative
    radius it draws nothing, otherwise it paints the four points at
    distance [r] on the axes through the centre. *)
Lemma circle_terminates (fuel : nat) (cv : Canvas) (cx cy r : Z) (c : Color) :
  canvas_wf cv -> Z.max 0 (r + 1) < Z.of_nat fuel ->
  exists cv',
    circle fuel cv cx cy r c = Some (Ok cv') /\
    painted c cv cv' /\
    (r < 0 -> cv' = cv) /\
    (0 <= r -> forall px py,
       In (px, py) [(cx + r, cy); (cx - r, cy); (cx, cy + r); (cx, cy - r)] ->
       in_bounds cv px py = true -> get cv' px py = Ok c).
Proof.
  intros Hwf Hfuel. unfold circle.
  destruct (circle_loop_ends cx cy c fuel r 0 0 cv Hwf ltac:(lia))
    as (cv' & E & Hp & Hneg & Hpos).
  exists cv'. split; [exact E|]. split; [exact Hp|].
  split; [exact Hneg|]. intros Hr px py Hin Hb.
  specialize (Hpos Hr).
  simpl in Hin. destruct Hin as [E1|[E1|[E1|[E1|[]]]]];
    injection E1 as <- <-.
  - specialize (Hpos (r, 0)). simpl in Hpos.
    replace (cy + 0) with cy in Hpos by lia.
    apply Hpos; auto.
  - specialize (Hpos (- r, 0)). simpl in Hpos.
    replace (cy + 0) with cy in Hpos by lia.
    replace (cx + - r) with (cx - r) in Hpos by lia.
    apply Hpos; auto.
  - specialize (Hpos (0, r)). simpl in Hpos.
    replace (cx + 0) with cx in Hpos by lia.
    apply Hpos; auto.
  - specialize (Hpos (0, - r)). simpl in Hpos.
    replace (cx + 0) with cx in Hpos by lia.
    replace (cy + - r) with (cy - r) in Hpos by lia.
    apply Hpos; auto 10.
Qed.

(** ** Filled discs *)

Lemma In_range2 (a b z : Z) : In z (range2 a b) <-> a <= z < b.
Proof.
  unfold range2. rewrite in_map_iff. split.
  - intros (k & <- & Hk). apply In_range in Hk. lia.
  - intros Hz. exists (z - a). split; [lia|]. apply In_range. lia.
Qed.

Lemma range2_empty (a b : Z) : b <= a -> range2 a b = [].
Proof.
  intros H. unfold range2, range. replace (Z.to_nat (b - a)) with O by lia.
  reflexivity.
Qed.

(** The square root handed to the rounding step, by magnitude. *)
Lemma sqrt_core_mag (m : positive) (e : Z) :
  let '(q, e', l) := SFsqrt_core_binary prec emax (Zpos m) e in
  0 <= q /\ e' <= fexp prec emax (Zdigits2 q + e') /\
  Zdigits2 q + e' = (Zdigits2 (Zpos m) + e + 1) / 2.
Proof.
  unfold SFsqrt_core_binary.
  set (d := Zdigits2 (Zpos m)).
  set (e' := Z.min (fexp prec emax (Z.div2 (d + e + 1))) (Z.div2 e)).
  set (s := e - 2 * e').
  assert (0 <= s) as Hs.
  { unfold s, e'. rewrite (Z.div2_div e).
    pose proof (Z.div_mod e 2 ltac:(lia)).
    pose proof (Z.mod_pos_bound e 2 ltac:(lia)). lia. }
  rewrite (shifted (Zpos m) s Hs).
  assert (0 < 2 ^ s) as Hp by (apply Z.pow_pos_nonneg; lia).
  assert (0 < Zpos m * 2 ^ s) as Hn by nia.
  pose proof (Z.sqrtrem_spec (Zpos m * 2 ^ s) ltac:(lia)) as Hsq.
  destruct (Z.sqrtrem (Zpos m * 2 ^ s)) as [q r].
  destruct Hsq as [Heq Hr].
  destruct (sqrt_digits (Zpos m * 2 ^ s) q r Hn Heq Hr) as [Hq Hd].
  cbv beta iota zeta.
  assert (Zdigits2 q + e' = (d + e + 1) / 2) as Hmag.
  { rewrite Hd, Zdigits2_shift by lia. fold d.
    replace (d + s + 1) with (d + e + 1 + (- e') * 2) by (unfold s; lia).
    rewrite Z.div_add by lia. lia. }
  split; [lia|]. split; [|exact Hmag].
  rewrite Hmag. unfold e' at 1. rewrite Z.div2_div. lia.
Qed.

(** The square root of a finite canonical float that is not negative is
    finite and not negative. *)
Lemma sqrt_finite (x : float) :
  is_finite x = true -> valid x -> not_neg x = true ->
  is_finite (SFsqrt prec emax x) = true /\ (0 <= B2R (SFsqrt prec emax x))%R.
Proof.
  intros Hf Hv Hn. destruct x as [s|s| |[|] m e]; try discriminate.
  - split; [reflexivity|]. simpl. lra.
  - unfold SFsqrt.
    pose proof (sqrt_core_mag m e) as H.
    destruct (SFsqrt_core_binary prec emax (Zpos m) e) as [[q e'] l].
    destruct H as (Hq & Hal & Hmag).
    apply valid_finite_iff in Hv. destruct Hv as (Hd & He & _).
    assert (rnd_E q e' < 971) as HE.
    { unfold rnd_E. rewrite fexp_eq in *. rewrite Hmag in *.
      pose proof (Zdigits2_pos (Zpos m) ltac:(lia)) as Hd1.
      assert ((Zdigits2 (Zpos m) + e + 1) / 2 <= 513) as Hup.
      { apply Z.div_le_upper_bound; lia. }
      revert Hal Hup. generalize ((Zdigits2 (Zpos m) + e + 1) / 2).
      intros X. lia. }
    destruct (bra_any false q e' l Hq HE) as (Hfin & _ & _ & Hs).
    split; assumption.
Qed.

(** [int(math.sqrt(n))] for an int below 2^53: no exception, and a result
    that is not negative. *)
Lemma isqrt_float_ok (n : Z) :
  0 <= n < 2 ^ 53 -> exists k, isqrt_float n = Ok k /\ 0 <= k.
Proof.
  intros Hn. unfold isqrt_float.
  destruct (of_int_exact n ltac:(lia)) as (-> & Hf & _ & Hv). cbn [bind].
  assert (not_neg (of_Z n) = true) as Hnn.
  { apply binary_normalize_not_neg. lia. }
  rewrite (sqrt_ok _ Hnn). cbn [bind].
  destruct (sqrt_finite (of_Z n) Hf (of_Z_valid n) Hnn) as [Hfs Hs].
  destruct (to_int_spec _ Hfs) as (k & -> & Hk & _).
  exists k. split; [reflexivity|]. specialize (Hk Hs).
  assert (-1 < IZR k)%R as H by lra. apply lt_IZR in H. lia.
Qed.

Lemma fill_row_painted (cv : Canvas) (x0 x1 y : Z) (c : Color) :
  canvas_wf cv ->
  exists cv',
    fill_row cv x0 x1 y c = Ok cv' /\ painted c cv cv' /\
    forall x, x0 <= x <= x1 -> in_bounds cv x y = true ->
              get cv' x y = Ok c.
Proof.
  intros Hwf. unfold fill_row.
  assert (forall l cv, canvas_wf cv ->
            exists cv',
              foldM (fun cv x => set cv x y c) l cv = Ok cv' /\
              painted c cv cv' /\
              forall x, In x l -> in_bounds cv x y = true ->
                        get cv' x y = Ok c) as H.
  { clear cv Hwf. induction l as [|x l IH]; intros cv Hwf.
    - exists cv. split; [reflexivity|]. split; [apply painted_refl|].
      intros x [].
    - cbn [foldM].
      destruct (set_painted cv x y c Hwf) as (cv1 & -> & Hp1 & Hg1).
      cbn [bind]. pose proof (painted_wf c cv cv1 Hp1 Hwf) as Hwf1.
      destruct (IH cv1 Hwf1) as (cv' & E & Hp & Hg).
      exists cv'. split; [exact E|].
      split; [eapply painted_trans; eassumption|].
      intros x' [<-|Hin] Hb.
      + apply (painted_keeps c cv1 cv'); auto.
        rewrite (in_bounds_painted c cv cv1); assumption.
      + apply Hg; [assumption|].
        rewrite (in_bounds_painted c cv cv1); assumption. }
  destruct (H (range2 x0 (x1 + 1)) cv Hwf) as (cv' & E & Hp & Hg).
  exists cv'. split; [exact E|]. split; [exact Hp|].
  intros x Hx. apply Hg. apply In_range2. lia.
Qed.

(** [Canvas.fill_circle] for a radius whose square is below 2^53: no
    exception; nothing is drawn for a negative radius, and otherwise the
    vertical diameter through the centre is painted. *)
Lemma fill_circle_painted (cv : Canvas) (cx cy r : Z) (c : Color) :
  canvas_wf cv -> r * r < 2 ^ 53 ->
  exists cv',
    fill_circle cv cx cy r c = Ok cv' /\ painted c cv cv' /\
    (r < 0 -> cv' = cv) /\
    forall y, cy - r <= y <= cy + r -> in_bounds cv cx y = true ->
              get cv' cx y = Ok c.
Proof.
  intros Hwf Hr. unfold fill_circle.
  assert (forall l cv, canvas_wf cv ->
            (forall y, In y l -> cy - r <= y <= cy + r) ->
            exists cv',
              foldM (fun cv y =>
                if r * r <? (y - cy) * (y - cy) then Ok cv
                else dx <- isqrt_float (r * r - (y - cy) * (y - cy)) ;;
                     fill_row cv (cx - dx) (cx + dx) y c) l cv = Ok cv' /\
              painted c cv cv' /\
              forall y, In y l -> in_bounds cv cx y = true ->
                        get cv' cx y = Ok c) as H.
  { clear cv Hwf. induction l as [|y l IH]; intros cv Hwf Hl.
    - exists cv. split; [reflexivity|]. split; [apply painted_refl|].
      intros y [].
    - cbn [foldM].
      pose proof (Hl y (or_introl eq_refl)) as Hy.
      destruct (Z.ltb_spec (r * r) ((y - cy) * (y - cy))) as [Hout|Hin];
        [nia|].
      pose proof (Z.square_nonneg (y - cy)) as Hsq.
      destruct (isqrt_float_ok (r * r - (y - cy) * (y - cy)) ltac:(lia))
        as (dx & -> & Hdx).
      cbn [bind].
      destruct (fill_row_painted cv (cx - dx) (cx + dx) y c Hwf)
        as (cv1 & -> & Hp1 & Hg1).
      cbn [bind]. pose proof (painted_wf c cv cv1 Hp1 Hwf) as Hwf1.
      destruct (IH cv1 Hwf1 (fun y' H => Hl y' (or_intror H)))
        as (cv' & E & Hp & Hg).
      exists cv'. split; [exact E|].
      split; [eapply painted_trans; eassumption|].
      intros y' [<-|Hin'] Hb.
      + apply (painted_keeps c cv1 cv'); auto.
        * rewrite (in_bounds_painted c cv cv1); assumption.
        * apply Hg1; [lia|assumption].
      + apply Hg; [assumption|].
        rewrite (in_bounds_painted c cv cv1); assumption. }
  destruct (H (range2 (cy - r) (cy + r + 1)) cv Hwf) as (cv' & E & Hp & Hg).
  { intros y Hy. apply In_range2 in Hy. lia. }
  exists cv'. split; [exact E|]. split; [exact Hp|]. split.
  - intros Hneg. rewrite range2_empty in E by lia. simpl in E.
    injection E as <-. reflexivity.
  - intros y Hy. apply Hg. apply In_range2. lia.
Qed.

(** * Further facts on colours, the canvas and the sampler *)

(** ** Packed colours *)

Lemma land_shifted (a b k : Z) :
  0 <= k -> 0 <= b < 2 ^ k -> Z.land (Z.shiftl a k) b = 0.
Proof.
  intros Hk Hb. apply Z.bits_inj'. intros n Hn.
  rewrite Z.land_spec, Z.bits_0.
  destruct (Z_lt_le_dec n k) as [H|H].
  - rewrite Z.shiftl_spec_low by lia. reflexivity.
  - destruct (Z.eq_dec b 0) as [->|Hnz].
    + rewrite Z.bits_0. apply andb_false_r.
    + rewrite (Z.bits_above_log2 b n); [apply andb_false_r|lia|].
      assert (Z.log2 b < k) by (apply Z.log2_lt_pow2; lia). lia.
Qed.

(** Joining a shifted field and a value below it is their sum. *)
Lemma lor_shifted (a b k : Z) :
  0 <= k -> 0 <= b < 2 ^ k -> Z.lor (Z.shiftl a k) b = a * 2 ^ k + b.
Proof.
  intros Hk Hb. pose proof (Z.add_lor_land (Z.shiftl a k) b) as H.
  rewrite (land_shifted a b k Hk Hb) in H.
  rewrite <- Z.shiftl_mul_pow2 by lia. lia.
Qed.

(** A 16-bit value is the pack of its three fields. *)
Lemma repack (p : Z) :
  u16 p -> pack_fields (field_r p) (field_g p) (field_b p) = p.
Proof.
  unfold u16, pack_fields, field_r, field_g, field_b. intros Hp.
  change 31 with (Z.ones 5). change 63 with (Z.ones 6).
  rewrite !Z.land_ones, !Z.shiftr_div_pow2 by lia.
  change (2 ^ 5) with 32. change (2 ^ 6) with 64. change (2 ^ 11) with 2048.
  pose proof (Z.mod_pos_bound p 32 ltac:(lia)) as Hb.
  pose proof (Z.mod_pos_bound (p / 32) 64 ltac:(lia)) as Hg.
  replace (Z.shiftl (p / 2048 mod 32) 11)
    with (Z.shiftl (Z.shiftl (p / 2048 mod 32) 6) 5)
    by (rewrite Z.shiftl_shiftl by lia; reflexivity).
  rewrite <- Z.shiftl_lor.
  rewrite (lor_shifted _ (p / 32 mod 64) 6) by (change (2 ^ 6) with 64; lia).
  rewrite (lor_shifted _ (p mod 32) 5) by (change (2 ^ 5) with 32; lia).
  change (2 ^ 5) with 32. change (2 ^ 6) with 64.
  Z.to_euclidean_division_equations. lia.
Qed.

Definition widen5_ok (f : Z) : bool :=
  (Z.shiftl (Z.land (Z.shiftl f 3) 248) 8 =? Z.shiftl f 11) &&
  (Z.shiftr (Z.shiftl f 3) 3 =? f).

Definition widen6_ok (f : Z) : bool :=
  Z.shiftl (Z.land (Z.shiftl f 2) 252) 3 =? Z.shiftl f 5.

Lemma widen5_ok_all : forallb widen5_ok (Zrange 32) = true.
Proof. vm_compute. reflexivity. Qed.

Lemma widen6_ok_all : forallb widen6_ok (Zrange 64) = true.
Proof. vm_compute. reflexivity. Qed.

Lemma field_r_range (p : Z) : 0 <= field_r p < 32.
Proof. apply (land_ones_range (Z.shiftr p 11) 5). lia. Qed.

Lemma field_g_range (p : Z) : 0 <= field_g p < 64.
Proof. apply (land_ones_range (Z.shiftr p 5) 6). lia. Qed.

Lemma field_b_range (p : Z) : 0 <= field_b p < 32.
Proof. apply (land_ones_range p 5). lia. Qed.

(** Packing the widened fields of a colour gives the pack of the fields. *)
Lemma rgb_to_565_of_fields (p : Z) :
  (let '(r, g, b) := Circular.rgb565_to_rgb p in Circular.rgb_to_565 r g b)
  = pack_fields (field_r p) (field_g p) (field_b p).
Proof.
  unfold Circular.rgb565_to_rgb, Circular.rgb_to_565, pack_fields.
  fold (field_r p). fold (field_g p). fold (field_b p).
  pose proof (Zrange_forallb widen5_ok 32 widen5_ok_all) as H5.
  pose proof (Zrange_forallb widen6_ok 64 widen6_ok_all) as H6.
  pose proof (H5 _ (field_r_range p)) as Hr.
  pose proof (H5 _ (field_b_range p)) as Hb.
  pose proof (H6 _ (field_g_range p)) as Hg.
  unfold widen5_ok in Hr, Hb. unfold widen6_ok in Hg.
  apply andb_prop in Hr as [Hr _]. apply andb_prop in Hb as [_ Hb].
  apply Z.eqb_eq in Hr, Hb, Hg. rewrite Hr, Hg, Hb. reflexivity.
Qed.

(** ** The canvas *)

Lemma idx_inj (cv : Canvas) (x y x' y' : Z) :
  in_bounds cv x y = true -> in_bounds cv x' y' = true ->
  _idx cv x y = _idx cv x' y' -> x = x' /\ y = y'.
Proof.
  intros H1 H2 E. apply in_bounds_iff in H1, H2. unfold _idx in E.
  assert (y = y') by nia. subst. lia.
Qed.

(** [set] changes the cell it is given and no other. *)
Lemma set_frame (cv : Canvas) (x y x' y' : Z) (c : Color) :
  canvas_wf cv -> in_bounds cv x y = true ->
  exists cv',
    set cv x y c = Ok cv' /\ canvas_wf cv' /\ get cv' x y = Ok c /\
    ((x', y') <> (x, y) -> get cv' x' y' = get cv x' y').
Proof.
  intros Hwf Hb. unfold set. rewrite Hb.
  pose proof (idx_in_range cv x y Hwf Hb) as Hi.
  rewrite (list_set_nonneg _ _ c Hi). cbn [bind].
  eexists. split; [reflexivity|]. split; [|split].
  - unfold canvas_wf, with_px. simpl. rewrite update_length. exact Hwf.
  - unfold get, with_px, in_bounds in *. simpl. rewrite Hb.
    unfold _idx in *. simpl.
    destruct (list_get_nonneg (update (px cv) (Z.to_nat (y * w cv + x)) c)
                (y * w cv + x)) as (a & Ha & ->).
    + rewrite update_length. exact Hi.
    + rewrite nth_error_update_eq in Ha by lia. congruence.
  - intros Hne. unfold get.
    change (in_bounds (with_px cv _) x' y') with (in_bounds cv x' y').
    destruct (in_bounds cv x' y') eqn:Hb'; [|reflexivity].
    change (_idx (with_px cv _) x' y') with (_idx cv x' y').
    pose proof (idx_in_range cv x' y' Hwf Hb') as Hi'.
    unfold list_get, with_px. simpl px.
    rewrite !norm_index_nonneg by (rewrite ?update_length; assumption).
    cbn [bind]. rewrite nth_error_update_neq; [reflexivity|].
    intros E. apply Z2Nat.inj in E; try lia.
    destruct (idx_inj cv x y x' y' Hb Hb' E) as [-> ->]. congruence.
Qed.

Lemma nth_error_repeat_lt {A : Type} (a : A) (n k : nat) :
  (k < n)%nat -> nth_error (repeat a n) k = Some a.
Proof.
  revert k. induction n as [|n IH]; intros [|k] H; simpl; try lia; auto.
  apply IH. lia.
Qed.

(** A fresh canvas holds the background everywhere. *)
Lemma Canvas_init_get (w0 h0 : Z) (c : Color) (x y : Z) :
  exists cv, Canvas_init w0 h0 c = Ok cv /\
             (0 <= w0 -> 0 <= h0 -> get cv x y = Ok c).
Proof.
  eexists. split; [reflexivity|]. intros Hw Hh. unfold get. simpl bg.
  destruct (in_bounds _ x y) eqn:Hb; [|reflexivity].
  pose proof Hb as Hb'. apply in_bounds_iff in Hb'. simpl in Hb'.
  unfold _idx, list_get. simpl.
  rewrite norm_index_nonneg by (rewrite repeat_length; nia).
  cbn [bind]. rewrite nth_error_repeat_lt by nia. reflexivity.
Qed.

(** ** Distances *)

Lemma coord_sq (a b : float) :
  coord_float a -> coord_float b ->
  let z := sub a b in
  is_finite (square_of z) = true /\ (0 <= B2R (square_of z) <= bpow 50)%R.
Proof.
  intros Ha Hb. cbv zeta. destruct (coord_sub a b Ha Hb) as (Hf & Hw & Hv).
  assert (0 <= Rabs (B2R (sub a b)) <= 4194305)%R as HA
      by (split; [apply Rabs_pos|assumption]).
  pose proof (prod_bound _ _ 4194305 4194305 HA HA) as P.
  assert (B2R (sub a b) * B2R (sub a b)
          = Rabs (B2R (sub a b)) * Rabs (B2R (sub a b)))%R as Hsq.
  { rewrite <- Rabs_mult. symmetry. apply Rabs_pos_eq.
    apply Rle_0_sqr. }
  assert (Rabs (B2R (sub a b) * B2R (sub a b)) < bpow 45)%R as HK.
  { rewrite (bpow_nat 45 35184372088832) by (simpl; lia).
    rewrite Rabs_mult. lra. }
  destruct (square_spec _ 45 Hf HK ltac:(lia)) as (Hfm & Hs & He).
  assert (bpow (ulp_exp (45 + 1)) <= 1)%R as U.
  { rewrite <- bpow_0. apply bpow_le. unfold ulp_exp. lia. }
  apply Rabs_le_inv in He. rewrite Hsq in *.
  rewrite (bpow_nat 50 1125899906842624) by (simpl; lia).
  split; [assumption|]. split; [exact Hs|lra].
Qed.

(** The distance between two coordinates: no exception, a finite canonical
    float that is not negative. *)
Lemma distance_finite (x y cx cy : float) :
  coord x -> coord y -> coord cx -> coord cy ->
  exists d, Circular.distance pow_up x y cx cy = Ok d /\
            is_finite d = true /\ valid d /\ (0 <= B2R d)%R.
Proof.
  intros [Hx Vx] [Hy Vy] [Hcx Vcx] [Hcy Vcy].
  destruct (distance_coords x y cx cy) as (d & Ed & Hvd);
    try (split; assumption).
  exists d. split; [assumption|].
  unfold Circular.distance in Ed.
  destruct (pow2 pow_up (sub cx x)) as [q1|] eqn:E1; [|discriminate].
  destruct (pow2 pow_up (sub cy y)) as [q2|] eqn:E2; [|discriminate].
  cbn [bind] in Ed. apply pow2_inv in E1, E2. subst q1 q2.
  destruct (coord_sq cx x Hcx Hx) as (Hf1 & H1).
  destruct (coord_sq cy y Hcy Hy) as (Hf2 & H2).
  set (s1 := square_of (sub cx x)) in *.
  set (s2 := square_of (sub cy y)) in *.
  assert (bpow 50 + bpow 50 = bpow 51)%R as H51.
  { change 51 with (50 + 1). rewrite bpow_step. lra. }
  assert (Rabs (B2R s1 + B2R s2) < bpow 52)%R as HK.
  { assert (bpow 51 < bpow 52)%R by (apply bpow_lt; lia).
    apply Rabs_lt. lra. }
  destruct (add_spec s1 s2 52 Hf1 Hf2 (square_wf _) (square_wf _) HK
              ltac:(lia)) as (Hfa & _).
  assert (not_neg (add s1 s2) = true) as Hnn
      by (apply add_not_neg; apply square_not_neg).
  rewrite (sqrt_ok _ Hnn) in Ed. injection Ed as <-.
  destruct (sqrt_finite (add s1 s2) Hfa) as [Hfs Hs]; auto.
  apply add_valid; apply square_valid.
Qed.

(** ** Sample points *)

(** The float of [m * 2^e] for a small [m]. *)
Definition dyadic (m e : Z) : float := binary_normalize prec emax m e false.

Lemma dyadic_exact (m e : Z) :
  Z.abs m < 2 ^ 53 -> -1074 <= e <= 0 ->
  is_finite (dyadic m e) = true /\ valid (dyadic m e) /\
  B2R (dyadic m e) = F2R m e.
Proof.
  intros Hm He. unfold dyadic.
  assert (Rabs (F2R m e) < bpow 53)%R as HK.
  { unfold F2R. rewrite Rabs_mult, (Rabs_pos_eq (bpow e))
      by (left; apply bpow_pos).
    pose proof (Rabs_IZR_lt m (2 ^ 53) Hm) as H.
    rewrite IZR_pow2 in H by lia.
    assert (bpow e <= 1)%R.
    { rewrite <- bpow_0. apply bpow_le. lia. }
    pose proof (Rabs_pos (IZR m)). pose proof (bpow_pos e). nra. }
  destruct (binary_normalize_spec m e 53 false HK ltac:(lia))
    as (Hf & _ & _ & Hex & _).
  split; [assumption|]. split; [apply binary_normalize_valid|].
  apply Hex. split; lia.
Qed.

Lemma mono_eq (v : R) (x k : float) : mono v x k -> B2R k = v -> B2R x = v.
Proof.
  intros [H1 H2] E. rewrite <- E in *.
  apply Rle_antisym; [apply H1|apply H2]; lra.
Qed.

Lemma B2R_sample_step : B2R sample_step = (/ 4)%R.
Proof.
  change sample_step with (S754_finite false 4503599627370496 (-54)).
  rewrite B2R_finite. simpl cond_Zopp.
  change 4503599627370496 with (1 * 2 ^ 52).
  replace (-54) with (-2 - 52) by lia. rewrite F2R_shift by lia.
  unfold F2R, bpow. simpl. lra.
Qed.

Lemma B2R_sample_offset : B2R sample_offset = (/ 8)%R.
Proof.
  change sample_offset with (S754_finite false 4503599627370496 (-55)).
  rewrite B2R_finite. simpl cond_Zopp.
  change 4503599627370496 with (1 * 2 ^ 52).
  replace (-55) with (-3 - 52) by lia. rewrite F2R_shift by lia.
  unfold F2R, bpow. simpl. lra.
Qed.

Lemma F2R_eighths (m : Z) : F2R m (-3) = (IZR m / 8)%R.
Proof. unfold F2R, bpow. simpl. lra. Qed.

(** The sample points of a pixel are exact: [i + 1/8 + s/4]. *)
Lemma sample_at_exact (i s : Z) :
  0 <= i <= 1048576 -> 0 <= s < 4 ->
  exists v, Circular.sample_at i sample_offset sample_step s = Ok v /\
            B2R v = (IZR i + / 8 + IZR s / 4)%R.
Proof.
  intros Hi Hs.
  destruct (of_int_exact i (small_abs i Hi)) as (Hoi & Hfi & Hwi & Hvi).
  destruct (of_int_exact s (small_abs s ltac:(lia))) as (Hos & Hfs & Hws & Hvs).
  pose proof (IZR_range 0 i 1048576 Hi) as HI.
  pose proof (IZR_range 0 s 3 ltac:(lia)) as HS.
  unfold Circular.sample_at. rewrite Hoi, Hos. cbn [bind].
  eexists. split; [reflexivity|].
  (* s * 0.25 *)
  assert (Rabs (B2R (of_Z s) * B2R sample_step) < bpow 2)%R as H1.
  { rewrite Hvs, B2R_sample_step, (bpow_nat 2 4) by (simpl; lia).
    apply Rabs_lt. lra. }
  destruct (mul_spec (of_Z s) sample_step 2 Hfs eq_refl H1 ltac:(lia))
    as (Hf1 & Hw1 & _).
  destruct (dyadic_exact (2 * s) (-3)) as (Hk1f & Hk1v & Hk1)
    ; [change (2 ^ 53) with 9007199254740992; lia|lia|].
  pose proof (mono_eq _ _ _
                (mul_mono (of_Z s) sample_step (dyadic (2 * s) (-3)) 2
                   Hfs eq_refl H1 ltac:(lia) Hk1f Hk1v)) as E1.
  rewrite Hvs, B2R_sample_step, Hk1, F2R_eighths, mult_IZR in E1.
  specialize (E1 ltac:(lra)).
  (* i + 0.125 *)
  assert (Rabs (B2R (of_Z i) + B2R sample_offset) < bpow 21)%R as H2.
  { rewrite Hvi, B2R_sample_offset, (bpow_nat 21 2097152) by (simpl; lia).
    apply Rabs_lt. lra. }
  destruct (add_spec (of_Z i) sample_offset 21 Hfi eq_refl Hwi
              (proj1 (proj2 unit_sample_offset)) H2 ltac:(lia))
    as (Hf2 & Hw2 & _).
  destruct (dyadic_exact (8 * i + 1) (-3)) as (Hk2f & Hk2v & Hk2)
    ; [change (2 ^ 53) with 9007199254740992; lia|lia|].
  pose proof (mono_eq _ _ _
                (add_mono (of_Z i) sample_offset (dyadic (8 * i + 1) (-3)) 21
                   Hfi eq_refl H2 ltac:(lia) Hk2f Hk2v)) as E2.
  rewrite Hvi, B2R_sample_offset, Hk2, F2R_eighths, plus_IZR, mult_IZR in E2.
  specialize (E2 ltac:(lra)).
  (* the sum *)
  assert (Rabs (B2R (add (of_Z i) sample_offset)
                + B2R (mul (of_Z s) sample_step)) < bpow 22)%R as H3.
  { rewrite E1, E2, (bpow_nat 22 4194304) by (simpl; lia).
    apply Rabs_lt. lra. }
  destruct (dyadic_exact (8 * i + 1 + 2 * s) (-3)) as (Hk3f & Hk3v & Hk3)
    ; [change (2 ^ 53) with 9007199254740992; lia|lia|].
  pose proof (mono_eq _ _ _
                (add_mono _ _ (dyadic (8 * i + 1 + 2 * s) (-3)) 22
                   Hf2 Hf1 H3 ltac:(lia) Hk3f Hk3v)) as E3.
  rewrite E1, E2, Hk3, F2R_eighths, !plus_IZR, !mult_IZR in E3.
  rewrite E3; lra.
Qed.

(** ** Unpacked channels *)

Lemma rgb565_to_rgb_multiples (color : Z) :
  let '(r, g, b) := Circular.rgb565_to_rgb color in
  r mod 8 = 0 /\ g mod 4 = 0 /\ b mod 8 = 0.
Proof.
  unfold Circular.rgb565_to_rgb. rewrite !Z.shiftl_mul_pow2 by lia.
  change (2 ^ 3) with 8. change (2 ^ 2) with 4.
  rewrite !Z.mod_mul by lia. auto.
Qed.

(** ** The ends of an interpolation *)

Lemma to_int_value (x : float) (z : Z) :
  is_finite x = true -> B2R x = IZR z -> to_int x = Ok z.
Proof.
  intros Hf Hv. destruct (to_int_spec _ Hf) as (n & -> & Hp & Hn). f_equal.
  rewrite Hv in *.
  destruct (Z_le_gt_dec 0 z) as [H|H].
  - specialize (Hp (IZR_le _ _ H)). destruct Hp as [H1 H2].
    apply le_IZR in H1. rewrite <- plus_IZR in H2. apply lt_IZR in H2. lia.
  - assert (z <= 0) as H' by lia.
    specialize (Hn (IZR_le _ _ H')). destruct Hn as [H1 H2].
    apply le_IZR in H2. rewrite <- minus_IZR in H1. apply lt_IZR in H1. lia.
Qed.


Lemma lerp_chan_zero (s o : Z) :
  chan8 s -> chan8 o -> lerp_chan s o zero = Ok s.
Proof.
  unfold chan8. intros Hs Ho. unfold lerp_chan.
  assert (Z.abs (o - s) < 2 ^ 53) as Hd
      by (change (2 ^ 53) with 9007199254740992; lia).
  assert (Z.abs s < 2 ^ 53) as Hs'
      by (change (2 ^ 53) with 9007199254740992; lia).
  destruct (of_int_exact _ Hd) as (-> & Hfd & Hwd & Hvd).
  destruct (of_int_exact _ Hs') as (-> & Hfs & Hws & Hvs).
  cbn [bind].
  pose proof (IZR_range _ _ _ Hs) as HS.
  pose proof (IZR_range (-255) (o - s) 255 ltac:(lia)) as HD.
  assert (Rabs (B2R (of_Z (o - s)) * B2R zero) < bpow 1)%R as H1.
  { simpl (B2R zero). rewrite Rmult_0_r, Rabs_R0. apply bpow_pos. }
  destruct (mul_spec _ zero 1 Hfd eq_refl H1 ltac:(lia))
    as (Hfm & Hwm & _ & [Sp Sn]).
  simpl (B2R zero) in Sp, Sn. rewrite Rmult_0_r in Sp, Sn.
  assert (B2R (mul (of_Z (o - s)) zero) = 0%R) as Em
      by (apply Rle_antisym; [apply Sn|apply Sp]; lra).
  assert (Rabs (B2R (of_Z s) + B2R (mul (of_Z (o - s)) zero)) < bpow 9)%R
    as H2.
  { rewrite Em, Hvs, (bpow_nat 9 512) by (simpl; lia). apply Rabs_lt. lra. }
  destruct (add_spec _ _ 9 Hfs Hfm Hws Hwm H2 ltac:(lia)) as (Hfa & _).
  pose proof (mono_eq _ _ _
                (add_mono _ _ (of_Z s) 9 Hfs Hfm H2 ltac:(lia) Hfs
                   (of_Z_valid s))) as E.
  rewrite Em, Hvs in E. specialize (E ltac:(lra)).
  apply to_int_value; [assumption|]. rewrite E. lra.
Qed.

Lemma lerp_chan_one (s o : Z) :
  chan8 s -> chan8 o -> lerp_chan s o one = Ok o.
Proof.
  unfold chan8. intros Hs Ho. unfold lerp_chan.
  assert (Z.abs (o - s) < 2 ^ 53) as Hd
      by (change (2 ^ 53) with 9007199254740992; lia).
  assert (Z.abs s < 2 ^ 53) as Hs'
      by (change (2 ^ 53) with 9007199254740992; lia).
  assert (Z.abs o < 2 ^ 53) as Ho'
      by (change (2 ^ 53) with 9007199254740992; lia).
  destruct (of_int_exact _ Hd) as (-> & Hfd & Hwd & Hvd).
  destruct (of_int_exact _ Hs') as (-> & Hfs & Hws & Hvs).
  destruct (of_Z_exact _ Ho') as (Hfo & _ & Hvo).
  cbn [bind].
  pose proof (IZR_range _ _ _ Hs) as HS.
  pose proof (IZR_range _ _ _ Ho) as HO.
  pose proof (IZR_range (-255) (o - s) 255 ltac:(lia)) as HD.
  assert (Rabs (B2R (of_Z (o - s)) * B2R one) < bpow 9)%R as H1.
  { rewrite B2R_one, Hvd, (bpow_nat 9 512) by (simpl; lia).
    apply Rabs_lt. lra. }
  destruct (mul_spec _ one 9 Hfd eq_refl H1 ltac:(lia)) as (Hfm & Hwm & _).
  pose proof (mono_eq _ _ _
                (mul_mono _ one (of_Z (o - s)) 9 Hfd eq_refl H1 ltac:(lia)
                   Hfd (of_Z_valid _))) as Em.
  rewrite B2R_one, Hvd in Em. specialize (Em ltac:(lra)).
  assert (Rabs (B2R (of_Z s) + B2R (mul (of_Z (o - s)) one)) < bpow 9)%R
    as H2.
  { rewrite Em, Hvs, (bpow_nat 9 512), minus_IZR by (simpl; lia).
    apply Rabs_lt. lra. }
  destruct (add_spec _ _ 9 Hfs Hfm Hws Hwm H2 ltac:(lia)) as (Hfa & _).
  pose proof (mono_eq _ _ _
                (add_mono _ _ (of_Z o) 9 Hfs Hfm H2 ltac:(lia) Hfo
                   (of_Z_valid o))) as E.
  rewrite Em, Hvs, Hvo, minus_IZR in E. specialize (E ltac:(lra)).
  apply to_int_value; [assumption|]. rewrite E. lra.
Qed.

Lemma lerp_ends (c1 c2 : Color) :
  color8 c1 -> color8 c2 ->
  lerp c1 c2 zero = Ok c1 /\ lerp c1 c2 one = Ok c2.
Proof.
  intros (R1 & G1 & B1) (R2 & G2 & B2). unfold lerp.
  change (py_max zero (py_min one zero)) with zero.
  change (py_max zero (py_min one one)) with one. cbv zeta.
  rewrite !lerp_chan_zero, !lerp_chan_one by assumption.
  cbn [bind]. destruct c1, c2. split; reflexivity.
Qed.

(** ** Clamping *)

Lemma py_min_value (a b : float) :
  is_finite a = true -> is_finite b = true -> valid a -> valid b ->
  is_finite (py_min a b) = true /\ valid (py_min a b) /\
  B2R (py_min a b) = Rmin (B2R a) (B2R b).
Proof.
  intros Hfa Hfb Hva Hvb. unfold py_min.
  pose proof (ltb_spec b a Hfb Hfa Hvb Hva) as H.
  destruct (ltb b a); (split; [assumption|]); (split; [assumption|]);
    unfold Rmin; destruct (Rle_dec (B2R a) (B2R b)); lra.
Qed.

Lemma py_max_value (a b : float) :
  is_finite a = true -> is_finite b = true -> valid a -> valid b ->
  is_finite (py_max a b) = true /\ valid (py_max a b) /\
  B2R (py_max a b) = Rmax (B2R a) (B2R b).
Proof.
  intros Hfa Hfb Hva Hvb. unfold py_max.
  pose proof (ltb_spec a b Hfa Hfb Hva Hvb) as H.
  destruct (ltb a b); (split; [assumption|]); (split; [assumption|]);
    unfold Rmax; destruct (Rle_dec (B2R a) (B2R b)); lra.
Qed.

(** [clamp] is the clamp of the reals. *)
Lemma clamp_value (v lo hi : float) :
  is_finite v = true -> is_finite lo = true -> is_finite hi = true ->
  valid v -> valid lo -> valid hi ->
  is_finite (Circular.clamp v lo hi) = true /\
  valid (Circular.clamp v lo hi) /\
  B2R (Circular.clamp v lo hi) = Rmax (B2R lo) (Rmin (B2R hi) (B2R v)).
Proof.
  intros Hfv Hfl Hfh Hvv Hvl Hvh. unfold Circular.clamp.
  destruct (py_min_value hi v Hfh Hfv Hvh Hvv) as (F1 & V1 & E1).
  destruct (py_max_value lo _ Hfl F1 Hvl V1) as (F2 & V2 & E2).
  rewrite E2, E1. auto.
Qed.

(** Not-a-number is clamped to the upper bound when the bounds are ordered. *)
Lemma clamp_nan (lo hi : float) :
  Circular.clamp S754_nan lo hi = py_max lo hi.
Proof.
  unfold Circular.clamp, py_min.
  replace (ltb S754_nan hi) with false; [reflexivity|].
  destruct hi as [?|[|]| |? ? ?]; reflexivity.
Qed.

End Platform.

(** * The reduction of angles: value and periodicity *)

(** Two finite canonical floats with the same non-zero value are the same
    float. *)
Lemma valid_B2R_inj (x y : float) :
  is_finite x = true -> is_finite y = true -> valid x -> valid y ->
  B2R x = B2R y -> B2R x <> 0%R -> x = y.
Proof.
  intros Hfx Hfy Hvx Hvy E Hnz.
  destruct x as [sx|sx| |sx mx ex]; try discriminate;
    [exfalso; apply Hnz; reflexivity|].
  destruct y as [sy|sy| |sy my ey]; try discriminate;
    [exfalso; apply Hnz; rewrite E; reflexivity|].
  rewrite !B2R_finite in E.
  pose proof (F2R_pos mx ex) as Px. pose proof (F2R_pos my ey) as Py.
  assert (sx = sy /\ F2R (Zpos mx) ex = F2R (Zpos my) ey) as [-> E'].
  { destruct sx, sy; simpl cond_Zopp in E; rewrite ?F2R_neg in E;
      split; try reflexivity; lra. }
  pose proof (compare_pos sy sy mx my ex ey Hvx Hvy) as H.
  destruct (Z.compare_spec ex ey) as [->|Hlt|Hgt]; try lra.
  change (Pos.compare_cont Eq mx my) with (Pos.compare mx my) in H.
  destruct (Pos.compare_spec mx my) as [->|Hm|Hm]; try lra.
  reflexivity.
Qed.

Lemma finite_zero (x : float) :
  is_finite x = true -> B2R x = 0%R -> is_zero x = true.
Proof.
  destruct x as [s|s| |s m e]; try discriminate; [reflexivity|].
  intros _ H. rewrite B2R_finite in H. pose proof (F2R_pos m e).
  destruct s; simpl cond_Zopp in H; rewrite ?F2R_neg in H; lra.
Qed.

Lemma not_zero_B2R (x : float) :
  is_finite x = true -> is_zero x = false -> B2R x <> 0%R.
Proof.
  intros Hf Hz E. rewrite (finite_zero x Hf E) in Hz. discriminate.
Qed.












(** ** The wifi arcs away from straight up *)









(** * The edge of a disc *)

(** The value the code gives a point at the distance [d] from the centre
    of a disc of radius [r]. *)
Definition disc_value (r d : float) : float :=
  if leb d (sub r Circular.half) then one
  else if ltb d (add r Circular.half) then
    Circular.clamp01 (sub (add r Circular.half) d)
  else zero.

(** A radius or a distance of an icon: a finite canonical float between 0
    and 2^20. *)
Definition length_ok (v : float) : Prop :=
  is_finite v = true /\ valid v /\ (0 <= B2R v <= 1048576)%R.

(** The edge of a disc is a linear ramp one pixel wide centred on the
    radius: [u] is exactly 1 up to [r - 0.5], exactly 0 from [r + 0.5],
    and [clamp(r + 0.5 - d)] up to rounding in between. *)
Definition ramp_edge (r d u : float) : Prop :=
  is_finite u = true /\ (0 <= B2R u <= 1)%R /\
  ((B2R d <= B2R r - / 2)%R -> u = one) /\
  ((B2R r + / 2 <= B2R d)%R -> u = zero) /\
  (Rabs (B2R u - clampR (B2R r + / 2 - B2R d)) <= 3 * edge_eps)%R.

Lemma leb_negb_ltb (a b : float) :
  is_finite a = true -> is_finite b = true -> valid a -> valid b ->
  leb a b = negb (ltb b a).
Proof.
  intros Hfa Hfb Hva Hvb.
  pose proof (leb_spec a b Hfa Hfb Hva Hvb) as H1.
  pose proof (ltb_spec b a Hfb Hfa Hvb Hva) as H2.
  destruct (leb a b), (ltb b a); try reflexivity; lra.
Qed.

(** The two thresholds [r - 0.5] and [r + 0.5] as the code computes them. *)
Lemma thresholds (r : float) :
  length_ok r ->
  let lo := sub r Circular.half in
  let hi := add r Circular.half in
  is_finite lo = true /\ valid lo /\ is_finite hi = true /\ valid hi /\
  (Rabs (B2R lo - (B2R r - / 2)) <= edge_eps)%R /\
  (Rabs (B2R hi - (B2R r + / 2)) <= edge_eps)%R /\
  (forall k, is_finite k = true -> valid k ->
     mono (B2R r - / 2) lo k /\ mono (B2R r + / 2) hi k).
Proof.
  intros (Hfr & Hvr & Hr). cbv zeta.
  pose proof (valid_wf r Hvr) as Hwr.
  pose proof (valid_wf _ valid_half) as Hwh.
  assert (Rabs (B2R r - B2R Circular.half) < bpow 21)%R as HKlo.
  { rewrite B2R_half, (bpow_nat 21 2097152) by (simpl; lia).
    apply Rabs_lt. lra. }
  destruct (sub_spec r Circular.half 21 Hfr eq_refl Hwr Hwh HKlo
              ltac:(lia)) as (Hflo & _ & Helo & _).
  assert (Rabs (B2R r + B2R Circular.half) < bpow 21)%R as HKhi.
  { rewrite B2R_half, (bpow_nat 21 2097152) by (simpl; lia).
    apply Rabs_lt. lra. }
  destruct (add_spec r Circular.half 21 Hfr eq_refl Hwr Hwh HKhi
              ltac:(lia)) as (Hfhi & _ & Hehi & _).
  rewrite ulp_21, B2R_half in Helo, Hehi.
  split; [assumption|].
  split; [apply sub_valid; [assumption|apply valid_half]|].
  split; [assumption|].
  split; [apply add_valid; [assumption|apply valid_half]|].
  split; [assumption|]. split; [assumption|].
  intros k Hfk Hvk. rewrite <- B2R_half. split.
  - apply (sub_mono r Circular.half k 21); auto. lia.
  - apply (add_mono r Circular.half k 21); auto. lia.
Qed.

Lemma edge_eps_small : (0 < edge_eps <= / 1024)%R.
Proof.
  split; [apply bpow_pos|].
  pose proof (ulp_small 21 ltac:(lia)) as H. rewrite ulp_21 in H. exact H.
Qed.

(** The rule of the disc has the edge of the amended claim. *)
Lemma disc_value_edge (r d : float) :
  length_ok r -> length_ok d -> ramp_edge r d (disc_value r d).
Proof.
  intros Hr (Hfd & Hvd & Hd).
  destruct (thresholds r Hr) as (Hflo & Hvlo & Hfhi & Hvhi & Helo & Hehi & Hm).
  cbv zeta in *. destruct Hr as (Hfr & Hvr & Hr).
  destruct (Hm d Hfd Hvd) as [[Hlo1 Hlo2] [Hhi1 Hhi2]].
  destruct edge_eps_small as [Heps Heps1].
  apply Rabs_le_inv in Helo, Hehi.
  unfold disc_value, ramp_edge.
  set (lo := sub r Circular.half) in *.
  set (hi := add r Circular.half) in *.
  pose proof (leb_spec d lo Hfd Hflo Hvd Hvlo) as Hc1.
  pose proof (ltb_spec d hi Hfd Hfhi Hvd Hvhi) as Hc2.
  pose proof (valid_wf _ Hvhi) as Hwhi. pose proof (valid_wf _ Hvd) as Hwd.
  destruct (clampR_cases (B2R r + / 2 - B2R d))
    as [[Ht Hcl]|[[Ht Hcl]|[Ht Hcl]]].
  all: destruct (leb d lo).
  all: try (rewrite B2R_one; split; [reflexivity|];
            split; [lra|]; split; [reflexivity|];
            split; [intros; exfalso; lra|]; rewrite Hcl; apply Rabs_le; lra).
  all: destruct (ltb d hi).
  all: try (simpl (B2R zero); split; [reflexivity|];
            split; [lra|]; split; [intros; exfalso; lra|];
            split; [reflexivity|]; rewrite Hcl; apply Rabs_le; lra).
  all: assert (Rabs (B2R hi - B2R d) < bpow 22)%R as HKv
      by (rewrite (bpow_nat 22 4194304) by (simpl; lia); apply Rabs_lt; lra).
  all: destruct (sub_spec hi d 22 Hfhi Hfd Hwhi Hwd HKv ltac:(lia))
      as (Hfv & Hwv & Hev & _).
  all: rewrite ulp_22 in Hev; apply Rabs_le_inv in Hev.
  all: destruct (clamp01_value (sub hi d) Hfv (sub_valid _ _ Hvhi Hvd))
      as (Hfu & Hvu & Hu).
  all: split; [assumption|]; rewrite Hu.
  all: destruct (clampR_cases (B2R (sub hi d)))
      as [[Hs Hcs]|[[Hs Hcs]|[Hs Hcs]]]; rewrite Hcs, Hcl.
  all: split; [lra|]; split; [intros; exfalso; lra|];
    split; [intros; exfalso; lra|].
  all: apply Rabs_le; lra.
Qed.

(** [r - 0.5] lies below [r + 0.5], so the order of the two tests of the
    code does not matter. *)
Lemma disc_value_alt (r d : float) :
  length_ok r -> length_ok d ->
  (if ltb d (add r Circular.half) then
     if leb d (sub r Circular.half) then one
     else Circular.clamp01 (sub (add r Circular.half) d)
   else zero) = disc_value r d.
Proof.
  intros Hr (Hfd & Hvd & Hd).
  destruct (thresholds r Hr) as (Hflo & Hvlo & Hfhi & Hvhi & Helo & Hehi & _).
  cbv zeta in *. unfold disc_value.
  pose proof (leb_spec d _ Hfd Hflo Hvd Hvlo) as Hc1.
  pose proof (ltb_spec d _ Hfd Hfhi Hvd Hvhi) as Hc2.
  destruct edge_eps_small. apply Rabs_le_inv in Helo, Hehi.
  destruct (leb d _), (ltb d _); try reflexivity. exfalso; lra.
Qed.

Lemma py_max_zero_clamp01 (v : float) :
  py_max zero (Circular.clamp01 v) = Circular.clamp01 v.
Proof.
  unfold Circular.clamp01, Circular.clamp.
  set (w := py_min one v). unfold py_max.
  destruct (ltb zero w) eqn:E; [rewrite E; reflexivity|reflexivity].
Qed.

Lemma py_max_zero_disc (r d : float) :
  py_max zero (disc_value r d) = disc_value r d.
Proof.
  unfold disc_value. destruct (leb d _); [reflexivity|].
  destruct (ltb d _); [apply py_max_zero_clamp01|reflexivity].
Qed.

(** A feature drawn with the rule of the disc on top of nothing. *)
Lemma disc_over_zero (r d : float) :
  length_ok r -> length_ok d ->
  (if ltb d (add r Circular.half) then
     if leb d (sub r Circular.half) then Ok (py_max zero one)
     else Ok (py_max zero
                (Circular.clamp01 (sub (add r Circular.half) d)))
   else Ok zero) = Ok (disc_value r d).
Proof.
  intros Hr Hd. rewrite <- (disc_value_alt r d Hr Hd).
  destruct (ltb d _); [|reflexivity].
  destruct (leb d _); [reflexivity|].
  rewrite py_max_zero_clamp01. reflexivity.
Qed.

(** The background disc. *)
Lemma circle_coverage_value (pow_up : float -> bool) (cx cy r x y d : float) :
  length_ok r -> length_ok d ->
  Circular.distance pow_up x y cx cy = Ok d ->
  Circular.circle_coverage pow_up cx cy r x y = Ok (disc_value r d).
Proof.
  intros Hr Hd Ed. unfold Circular.circle_coverage. rewrite Ed. cbn [bind].
  destruct (thresholds r Hr) as (_ & _ & Hfhi & Hvhi & _).
  cbv zeta in *. destruct Hd as (Hfd & Hvd & Hd).
  unfold disc_value. destruct (leb d _); [reflexivity|].
  rewrite (leb_negb_ltb _ d Hfhi Hfd Hvhi Hvd).
  destruct (ltb d _); reflexivity.
Qed.

(** A dot of the more symbol that does not reach the sample: its centre is
    at least [r + 0.5] away. *)
Definition out_of_reach (pow_up : float -> bool) (x y r : float)
  (p : float * float) : Prop :=
  exists d', Circular.distance pow_up x y (fst p) (snd p) = Ok d' /\
             length_ok d' /\ (B2R r + / 2 <= B2R d')%R.

(** One turn of the loop of [more_coverage]. *)
Definition more_step (pow_up : float -> bool) (r x y : float)
  (coverage : float) (p : float * float) : result float :=
  let '(dx, dy) := p in
  dist <- Circular.distance pow_up x y dx dy ;;
  if ltb dist (add r Circular.half) then
    if leb dist (sub r Circular.half) then Ok (py_max coverage one)
    else Ok (py_max coverage
               (Circular.clamp01 (sub (add r Circular.half) dist)))
  else Ok coverage.

Lemma more_coverage_fold (pow_up : float -> bool)
  (dots : list (float * float)) (r x y : float) :
  Circular.more_coverage pow_up dots r x y
  = foldM (more_step pow_up r x y) dots zero.
Proof. reflexivity. Qed.

Lemma more_skip (pow_up : float -> bool) (r x y : float)
  (dots : list (float * float)) (acc : float) :
  length_ok r -> Forall (out_of_reach pow_up x y r) dots ->
  foldM (more_step pow_up r x y) dots acc = Ok acc.
Proof.
  intros Hr H. induction H as [|[dx dy] dots (d' & Ed & Hd & Hfar) _ IH];
    [reflexivity|].
  simpl foldM. unfold more_step at 1. simpl in Ed. rewrite Ed. cbn [bind].
  destruct (thresholds r Hr) as (_ & _ & Hfhi & Hvhi & _ & _ & Hm).
  cbv zeta in *. destruct Hd as (Hfd & Hvd & Hd).
  destruct (Hm d' Hfd Hvd) as [_ [Hhi _]].
  pose proof (ltb_spec d' _ Hfd Hfhi Hvd Hvhi) as Hc.
  destruct (ltb d' _); [exfalso; specialize (Hhi Hfar); lra|].
  cbn [bind]. exact IH.
Qed.

(** A dot of the more symbol, where the other dots do not reach. *)
Lemma more_coverage_value (pow_up : float -> bool)
  (before after : list (float * float)) (cx cy r x y d : float) :
  length_ok r -> length_ok d ->
  Circular.distance pow_up x y cx cy = Ok d ->
  Forall (out_of_reach pow_up x y r) (before ++ after) ->
  Circular.more_coverage pow_up (before ++ (cx, cy) :: after) r x y
  = Ok (disc_value r d).
Proof.
  intros Hr Hd Ed Hfar. apply Forall_app in Hfar. destruct Hfar as [Hb Ha].
  rewrite more_coverage_fold, foldM_app, (more_skip _ _ _ _ _ _ Hr Hb).
  cbn [bind]. simpl foldM. unfold more_step at 1. rewrite Ed. cbn [bind].
  rewrite (disc_over_zero r d Hr Hd). cbn [bind].
  apply more_skip; assumption.
Qed.

(** The disc of the sun, outside the band of the rays. *)
Lemma sun_disc_value (pow_up : float -> bool)
  (atan2 : float -> float -> float) (sin : float -> float)
  (cx cy r ray_inner ray_outer : float) (n : Z)
  (ray_width ray_thickness x y d : float) :
  length_ok r -> length_ok d ->
  Circular.distance pow_up x y cx cy = Ok d ->
  leb (sub ray_inner Circular.half) d
    && leb d (add ray_outer Circular.half) = false ->
  Circular.brightness_coverage pow_up atan2 sin cx cy r ray_inner ray_outer n
    ray_width ray_thickness x y = Ok (disc_value r d).
Proof.
  intros Hr Hd Ed Hband. unfold Circular.brightness_coverage.
  rewrite Ed. cbn [bind]. unfold Circular.brightness_polar. cbv zeta.
  rewrite Hband, (disc_value_alt r d Hr Hd). reflexivity.
Qed.

(** The dot of the wifi symbol, where the arcs leave nothing. *)
Lemma wifi_dot_value (pow_up : float -> bool)
  (atan2 : float -> float -> float)
  (cx cy : float) (radii : list float) (arc_width r arc_angle : float)
  (x y d0 d : float) :
  length_ok r -> length_ok d ->
  Circular.distance pow_up x y cx cy = Ok d0 ->
  Circular.wifi_arcs radii arc_width arc_angle d0
    (atan2 (sub y cy) (sub x cx)) = Ok zero ->
  Circular.distance pow_up x y cx (add cy (of_Z 1)) = Ok d ->
  Circular.wifi_coverage pow_up atan2 cx cy radii arc_width r arc_angle x y
  = Ok (disc_value r d).
Proof.
  intros Hr Hd E0 Harcs Ed. unfold Circular.wifi_coverage.
  rewrite E0. cbn [bind]. rewrite Harcs. cbn [bind]. rewrite Ed. cbn [bind].
  apply disc_over_zero; assumption.
Qed.

(** The hole of the gear: the ramp of the disc, mirrored. *)
Lemma gear_hole (pow_up : float -> bool) (atan2 : float -> float -> float)
  (cx cy outer_r inner_r r : float) (n : Z)
  (tooth_width tooth_height x y d : float) :
  length_ok r -> length_ok d ->
  Circular.distance pow_up x y cx cy = Ok d ->
  ltb d (add r Circular.half) = true ->
  exists u,
    Circular.gear_coverage pow_up atan2 cx cy outer_r inner_r r n tooth_width
      tooth_height x y = Ok u /\
    is_finite u = true /\ (0 <= B2R u <= 1)%R /\
    ((B2R d <= B2R r - / 2)%R -> u = zero) /\
    (Rabs (B2R u - clampR (B2R d - B2R r + / 2)) <= 3 * edge_eps)%R.
Proof.
  intros Hr Hd Ed Hin. unfold Circular.gear_coverage. rewrite Ed.
  cbn [bind]. unfold Circular.gear_polar. rewrite Hin.
  destruct (thresholds r Hr) as (Hflo & Hvlo & Hfhi & Hvhi & Helo & Hehi & Hm).
  cbv zeta in *. destruct Hr as (Hfr & Hvr & Hr).
  destruct Hd as (Hfd & Hvd & Hd).
  destruct (Hm d Hfd Hvd) as [[Hlo1 Hlo2] _].
  destruct edge_eps_small as [Heps Heps1].
  apply Rabs_le_inv in Helo.
  pose proof (leb_spec d _ Hfd Hflo Hvd Hvlo) as Hc1.
  pose proof (valid_wf _ Hvr) as Hwr. pose proof (valid_wf _ Hvd) as Hwd.
  pose proof (valid_wf _ valid_half) as Hwh.
  destruct (leb d (sub r Circular.half)).
  - exists zero. split; [reflexivity|]. split; [reflexivity|].
    simpl (B2R zero). split; [lra|]. split; [reflexivity|].
    destruct (clampR_cases (B2R d - B2R r + / 2))
      as [[Ht Hcl]|[[Ht Hcl]|[Ht Hcl]]]; rewrite Hcl; apply Rabs_le; lra.
  - assert (Rabs (B2R d - B2R r) < bpow 21)%R as HK1
        by (rewrite (bpow_nat 21 2097152) by (simpl; lia);
            apply Rabs_lt; lra).
    destruct (sub_spec d r 21 Hfd Hfr Hwd Hwr HK1 ltac:(lia))
      as (Hf1 & Hw1 & He1 & _).
    rewrite ulp_21 in He1. apply Rabs_le_inv in He1.
    assert (Rabs (B2R (sub d r) + B2R Circular.half) < bpow 21)%R as HK2
        by (rewrite B2R_half, (bpow_nat 21 2097152) by (simpl; lia);
            apply Rabs_lt; lra).
    destruct (add_spec (sub d r) Circular.half 21 Hf1 eq_refl Hw1 Hwh HK2
                ltac:(lia)) as (Hf2 & _ & He2 & _).
    rewrite ulp_21, B2R_half in He2. apply Rabs_le_inv in He2.
    destruct (clamp01_value (add (sub d r) Circular.half) Hf2
                (add_valid _ _ (sub_valid _ _ Hvd Hvr) valid_half))
      as (Hfu & Hvu & Hu).
    eexists. split; [reflexivity|]. split; [assumption|]. rewrite Hu.
    split; [|split; [intros; exfalso; lra|]].
    + destruct (clampR_cases (B2R (add (sub d r) Circular.half)))
        as [[Hs Hcs]|[[Hs Hcs]|[Hs Hcs]]]; rewrite Hcs; lra.
    + destruct (clampR_cases (B2R (add (sub d r) Circular.half)))
        as [[Hs Hcs]|[[Hs Hcs]|[Hs Hcs]]];
      destruct (clampR_cases (B2R d - B2R r + / 2))
        as [[Ht Hcl]|[[Ht Hcl]|[Ht Hcl]]]; rewrite Hcs, Hcl;
      apply Rabs_le; lra.
Qed.

(** ** The rim of the gear *)

(** Multiplying by 1.0 is exact. *)
Lemma mul_one_l (u : float) : coverage u -> mul one u = u.
Proof.
  intros (Hf & Hv & Hu).
  destruct u as [s|s| |s m e]; try discriminate.
  - destruct s; reflexivity.
  - set (u := S754_finite s m e) in *.
    assert (Rabs (B2R one * B2R u) < bpow 1)%R as HK.
    { rewrite B2R_one, Rmult_1_l, (bpow_nat 1 2) by (simpl; lia).
      apply Rabs_lt; lra. }
    destruct (mul_spec one u 1 eq_refl Hf HK ltac:(lia)) as (Hfm & _).
    pose proof (mul_mono one u u 1 eq_refl Hf HK ltac:(lia) Hf Hv)
      as [M1 M2].
    rewrite B2R_one, Rmult_1_l in M1, M2.
    assert (B2R (mul one u) = B2R u) as E
        by (apply Rle_antisym; [apply M1|apply M2]; lra).
    apply valid_B2R_inj; auto.
    + apply mul_valid; [apply valid_one|assumption].
    + rewrite E. apply not_zero_B2R; [assumption|reflexivity].
Qed.

Lemma mul_one_r (u : float) : coverage u -> mul u one = u.
Proof.
  intros (Hf & Hv & Hu).
  destruct u as [s|s| |s m e]; try discriminate.
  - destruct s; reflexivity.
  - set (u := S754_finite s m e) in *.
    assert (Rabs (B2R u * B2R one) < bpow 1)%R as HK.
    { rewrite B2R_one, Rmult_1_r, (bpow_nat 1 2) by (simpl; lia).
      apply Rabs_lt; lra. }
    destruct (mul_spec u one 1 Hf eq_refl HK ltac:(lia)) as (Hfm & _).
    pose proof (mul_mono u one u 1 Hf eq_refl HK ltac:(lia) Hf Hv)
      as [M1 M2].
    rewrite B2R_one, Rmult_1_r in M1, M2.
    assert (B2R (mul u one) = B2R u) as E
        by (apply Rle_antisym; [apply M1|apply M2]; lra).
    apply valid_B2R_inj; auto.
    + apply mul_valid; [assumption|apply valid_one].
    + rewrite E. apply not_zero_B2R; [assumption|reflexivity].
Qed.

(** A clamped value is never the negative zero. *)
Lemma mul_zero_clamp01 (w : float) : mul zero (Circular.clamp01 w) = zero.
Proof.
  unfold Circular.clamp01, Circular.clamp, py_max, py_min.
  destruct (ltb w one) eqn:E1.
  - destruct (ltb zero w) eqn:E2; [|reflexivity].
    destruct w as [[|]|[|]| |[|] m e]; try discriminate; reflexivity.
  - reflexivity.
Qed.

Lemma clamp01_eq_zero (v : float) :
  is_finite v = true -> valid v -> (B2R v <= 0)%R ->
  Circular.clamp01 v = zero.
Proof.
  intros Hf Hv H. unfold Circular.clamp01, Circular.clamp, py_max, py_min.
  pose proof (ltb_spec v one Hf eq_refl Hv valid_one) as H1.
  rewrite B2R_one in H1.
  destruct (ltb v one); [|exfalso; lra].
  pose proof (ltb_spec zero v eq_refl Hf eq_refl Hv) as H2.
  simpl (B2R zero) in H2.
  destruct (ltb zero v); [exfalso; lra|reflexivity].
Qed.

(** The outer factor of the rim is the rule of the disc at the effective
    outer radius. *)
Lemma rim_outer (eo d tef : float) :
  length_ok eo -> length_ok d -> mul zero tef = zero ->
  (if leb d (add eo Circular.half) then
     Ok (mul (mul one
                (if ltb (sub eo Circular.half) d then
                   Circular.clamp01 (sub (add eo Circular.half) d)
                 else one)) tef)
   else Ok zero) = Ok (mul (disc_value eo d) tef).
Proof.
  intros Hr (Hfd & Hvd & Hd) Ht.
  destruct (thresholds eo Hr) as (Hflo & Hvlo & Hfhi & Hvhi & Helo & Hehi & _).
  cbv zeta in *. unfold disc_value.
  set (lo := sub eo Circular.half) in *.
  set (hi := add eo Circular.half) in *.
  pose proof (leb_spec d lo Hfd Hflo Hvd Hvlo) as Hc1.
  pose proof (ltb_spec d hi Hfd Hfhi Hvd Hvhi) as Hc2.
  pose proof (leb_spec d hi Hfd Hfhi Hvd Hvhi) as Hc3.
  pose proof (ltb_spec lo d Hflo Hfd Hvlo Hvd) as Hc4.
  destruct edge_eps_small. apply Rabs_le_inv in Helo, Hehi.
  destruct (leb d lo), (ltb d hi), (leb d hi), (ltb lo d);
    try (exfalso; lra).
  - reflexivity.
  - rewrite mul_one_l; [reflexivity|].
    apply clamp01_coverage, sub_valid; assumption.
  - (* d = hi *)
    rewrite (clamp01_eq_zero (sub hi d)).
    + reflexivity.
    + assert (Rabs (B2R hi - B2R d) < bpow 0)%R as HK
          by (rewrite bpow_0; apply Rabs_lt; lra).
      apply (sub_spec hi d 0 Hfhi Hfd (valid_wf _ Hvhi) (valid_wf _ Hvd) HK).
      lia.
    + apply sub_valid; assumption.
    + assert (Rabs (B2R hi - B2R d) < bpow 0)%R as HK
          by (rewrite bpow_0; apply Rabs_lt; lra).
      pose proof (sub_mono hi d zero 0 Hfhi Hfd HK ltac:(lia) eq_refl
                    eq_refl) as [M1 _].
      simpl (B2R zero) in M1. apply M1. lra.
  - rewrite Ht. reflexivity.
Qed.

(** The test of the code for a sample on a tooth, from the reduced angle. *)
Definition on_tooth (tooth_width period normalized_angle : float) : bool :=
  ltb (fabs (sub normalized_angle (SFdiv prec emax period Circular.two)))
      (SFdiv prec emax (mul tooth_width period) Circular.two).

(** The rim of the gear beyond its inner edge: the outer edge is the edge of
    a disc of the effective outer radius, [outer_r] off the teeth and
    [outer_r + tooth_height] on a tooth, where the flank factor of the tooth
    scales it. *)
Lemma gear_rim (outer_r inner_r hole_r : float) (n : Z)
  (tooth_width tooth_height d angle period : float) :
  Circular.period_of n = Ok period -> is_zero period = false ->
  length_ok outer_r -> length_ok (add outer_r tooth_height) ->
  length_ok inner_r -> length_ok hole_r -> length_ok d -> valid angle ->
  (B2R hole_r + / 2 <= B2R d)%R -> (B2R inner_r + / 2 <= B2R d)%R ->
  exists na tef u,
    Circular.normalize_angle angle period = Ok na /\ coverage tef /\
    if on_tooth tooth_width period na then
      ramp_edge (add outer_r tooth_height) d u /\
      Circular.gear_polar outer_r inner_r hole_r n tooth_width tooth_height
        d angle = Ok (mul u tef)
    else
      ramp_edge outer_r d u /\
      Circular.gear_polar outer_r inner_r hole_r n tooth_width tooth_height
        d angle = Ok u.
Proof.
  intros Ep Hz Ho Hot Hi Hh Hd Ha Hhole Hinner.
  unfold Circular.gear_polar.
  destruct edge_eps_small as [Heps Heps1].
  (* beyond the hole *)
  destruct (thresholds hole_r Hh)
    as (Hflo & Hvlo & Hfhi & Hvhi & Helo & Hehi & Hm). cbv zeta in *.
  pose proof Hd as (Hfd & Hvd & Hdb).
  destruct (Hm d Hfd Hvd) as [_ [Hh1 _]].
  pose proof (leb_spec d _ Hfd Hflo Hvd Hvlo) as Hc1.
  pose proof (ltb_spec d _ Hfd Hfhi Hvd Hvhi) as Hc2.
  apply Rabs_le_inv in Helo, Hehi. specialize (Hh1 Hhole).
  destruct (leb d (sub hole_r Circular.half)); [exfalso; lra|].
  destruct (ltb d (add hole_r Circular.half)); [exfalso; lra|].
  clear Hflo Hvlo Hfhi Hvhi Helo Hehi Hm Hh1 Hc1 Hc2.
  rewrite Ep. cbn [bind].
  assert (valid period) as Hp.
  { unfold Circular.period_of in Ep.
    destruct (of_int n); [|discriminate]. cbn [bind] in Ep.
    apply (truediv_valid _ _ _ Ep). }
  destruct (normalize_angle_ok angle period Hz Ha Hp) as (na & Ena & Hna).
  rewrite Ena. cbn [bind]. rewrite !truediv_two. cbn [bind].
  (* beyond the inner edge *)
  destruct (thresholds inner_r Hi)
    as (Hflo & Hvlo & Hfhi & Hvhi & Helo & Hehi & Hm). cbv zeta in *.
  destruct (Hm d Hfd Hvd) as [[Hi0 _] [Hi1 _]].
  pose proof (leb_spec _ d Hflo Hfd Hvlo Hvd) as Hc1.
  pose proof (ltb_spec d _ Hfd Hfhi Hvd Hvhi) as Hc2.
  apply Rabs_le_inv in Helo, Hehi.
  specialize (Hi1 Hinner).
  assert (B2R inner_r - / 2 <= B2R d)%R as Hlow by lra.
  specialize (Hi0 Hlow).
  destruct (leb (sub inner_r Circular.half) d); [|exfalso; lra].
  destruct (ltb d (add inner_r Circular.half)); [exfalso; lra|].
  clear Hflo Hvlo Hfhi Hvhi Helo Hehi Hm Hi0 Hi1 Hc1 Hc2 Hlow.
  cbn [andb].
  fold (on_tooth tooth_width period na).
  destruct (on_tooth tooth_width period na) eqn:Et.
  - match goal with
    | |- context [mul (mul one _) ?t] => set (tef := t)
    end.
    exists na, tef, (disc_value (add outer_r tooth_height) d).
    split; [reflexivity|]. split.
    + apply clamp01_coverage, mul_valid; [|apply of_Z_valid].
      apply sub_valid; [apply div_valid|].
      apply fabs_valid, sub_valid; [assumption|apply div_valid].
    + rewrite Et. split; [apply disc_value_edge; assumption|].
      apply rim_outer; [assumption|assumption|apply mul_zero_clamp01].
  - exists na, one, (disc_value outer_r d).
    split; [reflexivity|].
    split; [split; [reflexivity|]; split; [apply valid_one|];
            rewrite B2R_one; lra|].
    rewrite Et. split; [apply disc_value_edge; assumption|].
    rewrite (rim_outer outer_r d one Ho Hd eq_refl). f_equal.
    apply mul_one_r.
    destruct (disc_value_edge outer_r d Ho Hd) as (Hfu & Hu & _).
    split; [assumption|]. split; [|assumption].
    unfold disc_value. destruct (leb d _); [apply valid_one|].
    destruct (ltb d _); [|reflexivity].
    apply clamp01_coverage, sub_valid; [|assumption].
    apply add_valid; [apply Ho|apply valid_half].
Qed.

(** ** Values of literals *)

Lemma bpow_20 : bpow 20 = 1048576%R.
Proof. apply bpow_nat; [lia|reflexivity]. Qed.

(** The value of a float as a ratio of integers. *)
Lemma B2R_ratio (x : float) (s : bool) (m : positive) (e : Z) :
  x = S754_finite s m e -> e <= 0 ->
  B2R x = (IZR (cond_Zopp s (Zpos m)) / IZR (2 ^ (- e)))%R.
Proof.
  intros -> He. rewrite B2R_finite. unfold F2R.
  rewrite IZR_pow2 by lia.
  pose proof (bpow_pos (- e)) as P.
  assert (bpow e * bpow (- e) = 1)%R as E
      by (rewrite <- bpow_add, Z.add_opp_diag_r; apply bpow_0).
  field_simplify_eq; [|lra]. rewrite Rmult_assoc, E. lra.
Qed.

Ltac as_ratio x :=
  let c := eval vm_compute in x in
  match c with
  | S754_finite ?s ?m ?e =>
      rewrite (B2R_ratio x s m e eq_refl ltac:(vm_compute; discriminate));
      let n := eval vm_compute in (2 ^ (- e)) in
      change (2 ^ (- e)) with n;
      let k := eval vm_compute in (cond_Zopp s (Zpos m)) in
      change (cond_Zopp s (Zpos m)) with k
  end.

Ltac small_length :=
  split; [reflexivity|]; split; [reflexivity|];
  rewrite <- bpow_20; apply B2R_bounds_pos; vm_compute; discriminate.

(** * Properties of the colour model *)

Lemma clamp_chan8 (v : Z) : chan8 (Z.max 0 (Z.min 255 v)).
Proof. unfold chan8. lia. Qed.

Lemma clamp_color8 (c : Color) : color8 (clamp c).
Proof. repeat split; apply clamp_chan8. Qed.

Lemma clamp_id (c : Color) : color8 c -> clamp c = c.
Proof.
  destruct c as [cr cg cb]. unfold color8, chan8, clamp. simpl.
  intros (Hr & Hg & Hb). f_equal; lia.
Qed.

Definition fields_bounded (r5 g6 b5 : Z) : Prop :=
  0 <= r5 < 32 /\ 0 <= g6 < 64 /\ 0 <= b5 < 32.

Definition unpack_ok (r5 g6 b5 : Z) : bool :=
  let p := pack_fields r5 g6 b5 in
  (field_r p =? r5) && (field_g p =? g6) && (field_b p =? b5).

Lemma unpack_ok_all :
  forallb (fun r5 => forallb (fun g6 => forallb (unpack_ok r5 g6) (Zrange 32))
                             (Zrange 64)) (Zrange 32) = true.
Proof. vm_compute. reflexivity. Qed.

Lemma fields_of_pack (r5 g6 b5 : Z) :
  fields_bounded r5 g6 b5 ->
  field_r (pack_fields r5 g6 b5) = r5 /\
  field_g (pack_fields r5 g6 b5) = g6 /\
  field_b (pack_fields r5 g6 b5) = b5.
Proof.
  intros (Hr & Hg & Hb).
  pose proof (Zrange_forallb _ _ unpack_ok_all r5 Hr) as H1.
  pose proof (Zrange_forallb _ _ H1 g6 Hg) as H2.
  pose proof (Zrange_forallb _ _ H2 b5 Hb) as H3.
  unfold unpack_ok in H3.
  apply andb_prop in H3 as [H3 H3b]. apply andb_prop in H3 as [H3r H3g].
  repeat split; now apply Z.eqb_eq.
Qed.

Lemma to_rgb565_fields_bounded (c : Color) :
  let c' := clamp c in
  fields_bounded ((r c' * 31 + 127) / 255) ((g c' * 63 + 127) / 255)
                 ((b c' * 31 + 127) / 255).
Proof.
  pose proof (clamp_color8 c) as (Hr & Hg & Hb). unfold chan8 in *.
  cbv zeta. unfold fields_bounded.
  repeat split;
    first [ apply Z.div_pos; lia | apply Z.div_lt_upper_bound; lia ].
Qed.

Lemma to_rgb565_fields (c : Color) :
  let c' := clamp c in
  field_r (to_rgb565 c) = (r c' * 31 + 127) / 255 /\
  field_g (to_rgb565 c) = (g c' * 63 + 127) / 255 /\
  field_b (to_rgb565 c) = (b c' * 31 + 127) / 255.
Proof.
  cbv zeta. apply (fields_of_pack _ _ _ (to_rgb565_fields_bounded c)).
Qed.

Lemma fromPacked_fields (p : Z) :
  fromPacked p =
  mkColor (Z.shiftl (field_r p) 3) (Z.shiftl (field_g p) 2)
          (Z.shiftl (field_b p) 3).
Proof. reflexivity. Qed.

(** Per-channel checks over the 256 intensities. *)
Definition expand5_err_ok (v : Z) : bool :=
  Z.abs (Z.shiftl ((v * 31 + 127) / 255) 3 - v) <=? 10.

Definition expand6_err_ok (v : Z) : bool :=
  Z.abs (Z.shiftl ((v * 63 + 127) / 255) 2 - v) <=? 4.

Lemma expand5_err (v : Z) :
  chan8 v -> Z.abs (Z.shiftl ((v * 31 + 127) / 255) 3 - v) <= 10.
Proof.
  intros Hv. apply Z.leb_le.
  apply (Zrange_forallb expand5_err_ok 256);
    [vm_compute; reflexivity | unfold chan8 in Hv; lia].
Qed.

Lemma expand6_err (v : Z) :
  chan8 v -> Z.abs (Z.shiftl ((v * 63 + 127) / 255) 2 - v) <= 4.
Proof.
  intros Hv. apply Z.leb_le.
  apply (Zrange_forallb expand6_err_ok 256);
    [vm_compute; reflexivity | unfold chan8 in Hv; lia].
Qed.

(** C1 (as stated, refuted): full white packs to 0xFFFF and expands to
    (248, 252, 248); red and blue are 7 levels away from 255, more than the
    4 levels of the claim. *)
Lemma C1_roundtrip_bound4_fails :
  ~ roundtrip_within 4 4 4 (mkColor 255 255 255).
Proof.
  unfold roundtrip_within. vm_compute. intros (H & _). apply H. reflexivity.
Qed.

(** C1 (amended): for every colour, packing with [to_rgb565] and expanding
    with [rgb565_to_rgb] stays within 10 levels of the clamped colour in red
    and blue and within 4 levels in green. *)
Theorem C1_roundtrip_bound (c : Color) : roundtrip_within 10 4 10 c.
Proof.
  unfold roundtrip_within. cbv zeta. rewrite fromPacked_fields. cbn [r g b].
  destruct (to_rgb565_fields c) as (Hr & Hg & Hb). cbv zeta in Hr, Hg, Hb.
  rewrite Hr, Hg, Hb.
  pose proof (clamp_color8 c) as (Cr & Cg & Cb).
  repeat split; [apply expand5_err | apply expand6_err | apply expand5_err];
    assumption.
Qed.

(** Rounding of [v * m / 255] agrees with the integer formula of the code. *)
Definition round_ok (m v : Z) : bool :=
  (spec_field v m =? (v * m + 127) / 255) &&
  (2 * Z.abs (255 * ((v * m + 127) / 255) - v * m) <? 255).

Lemma round_field (m v : Z) :
  m = 31 \/ m = 63 -> chan8 v ->
  (v * m + 127) / 255 = spec_field v m /\
  2 * Z.abs (255 * ((v * m + 127) / 255) - v * m) < 255.
Proof.
  intros Hm Hv.
  assert (round_ok m v = true) as H.
  { destruct Hm; subst m;
      (apply (Zrange_forallb _ 256);
       [vm_compute; reflexivity | unfold chan8 in Hv; lia]). }
  unfold round_ok in H. apply andb_prop in H as [H1 H2].
  apply Z.eqb_eq in H1. apply Z.ltb_lt in H2. split; [symmetry|]; assumption.
Qed.

(** What [rgb_to_565] does to one 8-bit channel: the masks and shifts drop
    the low-order bits. *)
Definition trunc_ok (v : Z) : bool :=
  (Z.shiftl (Z.land v 248) 8 =? Z.shiftl (v / 8) 11) &&
  (Z.shiftl (Z.land v 252) 3 =? Z.shiftl (v / 4) 5) &&
  (Z.shiftr v 3 =? v / 8).

Lemma trunc_ok_all : forallb trunc_ok (Zrange 256) = true.
Proof. vm_compute. reflexivity. Qed.

Lemma rgb_to_565_fields (r0 g0 b0 : Z) :
  chan8 r0 -> chan8 g0 -> chan8 b0 ->
  field_r (Circular.rgb_to_565 r0 g0 b0) = r0 / 8 /\
  field_g (Circular.rgb_to_565 r0 g0 b0) = g0 / 4 /\
  field_b (Circular.rgb_to_565 r0 g0 b0) = b0 / 8.
Proof.
  unfold chan8. intros Hr Hg Hb.
  pose proof (Zrange_forallb trunc_ok 256 trunc_ok_all) as H.
  pose proof (H r0 ltac:(lia)) as H1. pose proof (H g0 ltac:(lia)) as H2.
  pose proof (H b0 ltac:(lia)) as H3.
  unfold trunc_ok in H1, H2, H3.
  apply andb_prop in H1 as [H1 _]. apply andb_prop in H1 as [H1 _].
  apply andb_prop in H2 as [H2 _]. apply andb_prop in H2 as [_ H2].
  apply andb_prop in H3 as [_ H3].
  apply Z.eqb_eq in H1, H2, H3.
  unfold Circular.rgb_to_565. rewrite H1, H2, H3.
  apply (fields_of_pack (r0 / 8) (g0 / 4) (b0 / 8)).
  unfold fields_bounded.
  repeat split;
    first [ apply Z.div_pos; lia | apply Z.div_lt_upper_bound; lia ].
Qed.

(** C2 (as stated, refuted): [rgb_to_565], which packs every pixel of the
    circular icons, does not round.  For the channels (7, 7, 7) its fields
    are (0, 1, 0), the channels with their low-order bits dropped, while
    [round(channel * max / 255)] is (1, 2, 1). *)
Lemma C2_rgb_to_565_truncates :
  (field_r (Circular.rgb_to_565 7 7 7), field_g (Circular.rgb_to_565 7 7 7),
   field_b (Circular.rgb_to_565 7 7 7)) = (0, 1, 0) /\
  (spec_field 7 31, spec_field 7 63, spec_field 7 31) = (1, 2, 1).
Proof. split; vm_compute; reflexivity. Qed.

(** C2 (amended): of the two packers, [Color.to_rgb565] rounds and
    [rgb_to_565] truncates.  For every colour, each field of [to_rgb565] is
    the clamped channel scaled by 31 (63 for green) over 255 and rounded to
    the nearest integer, which is unique (no tie occurs); each field of
    [rgb_to_565] on the same clamped channels is the channel with its low
    three (two for green) bits dropped, [channel // 8] ([channel // 4]),
    never more than the channel scaled by 32 (64) over 256. *)
Theorem C2_rounding_and_truncation (c : Color) :
  let c' := clamp c in
  let p := to_rgb565 c in
  let t := Circular.rgb_to_565 (r c') (g c') (b c') in
  ((field_r p = spec_field (r c') 31 /\
    field_g p = spec_field (g c') 63 /\
    field_b p = spec_field (b c') 31) /\
   (2 * Z.abs (255 * field_r p - r c' * 31) < 255 /\
    2 * Z.abs (255 * field_g p - g c' * 63) < 255 /\
    2 * Z.abs (255 * field_b p - b c' * 31) < 255)) /\
  ((field_r t = r c' / 8 /\ field_g t = g c' / 4 /\ field_b t = b c' / 8) /\
   (0 <= 256 * field_r t <= r c' * 32 /\
    0 <= 256 * field_g t <= g c' * 64 /\
    0 <= 256 * field_b t <= b c' * 32)).
Proof.
  cbv zeta.
  destruct (to_rgb565_fields c) as (Hr & Hg & Hb). cbv zeta in Hr, Hg, Hb.
  pose proof (clamp_color8 c) as (Cr & Cg & Cb).
  destruct (round_field 31 _ (or_introl eq_refl) Cr) as [Rr Nr].
  destruct (round_field 63 _ (or_intror eq_refl) Cg) as [Rg Ng].
  destruct (round_field 31 _ (or_introl eq_refl) Cb) as [Rb Nb].
  destruct (rgb_to_565_fields _ _ _ Cr Cg Cb) as (Tr & Tg & Tb).
  rewrite Hr, Hg, Hb, Tr, Tg, Tb. unfold chan8 in *.
  split; [repeat split; assumption|].
  split; [repeat split|].
  pose proof (Z.mul_div_le (r (clamp c)) 8 ltac:(lia)).
  pose proof (Z.mul_div_le (g (clamp c)) 4 ltac:(lia)).
  pose proof (Z.mul_div_le (b (clamp c)) 8 ltac:(lia)).
  assert (0 <= r (clamp c) / 8) by (apply Z.div_pos; lia).
  assert (0 <= g (clamp c) / 4) by (apply Z.div_pos; lia).
  assert (0 <= b (clamp c) / 8) by (apply Z.div_pos; lia).
  lia.
Qed.

(** * Properties of the canvas *)

(** C3: at a coordinate with x or y outside the grid, [set] and [seta]
    return the canvas unchanged, [get] returns the background colour, and
    none of the three raises. *)
Theorem C3_out_of_bounds (cv : Canvas) (x y : Z) (c : Color) (a : float) :
  outside cv x y ->
  set cv x y c = Ok cv /\ seta cv x y c a = Ok cv /\ get cv x y = Ok (bg cv).
Proof. apply out_of_bounds_noop. Qed.

Lemma C3_out_of_bounds_witness :
  let cv := mkCanvas 2 2 (mkColor 0 0 0) (repeat (mkColor 9 9 9) 4) in
  outside cv 2 (-1) /\
  (set cv 2 (-1) (mkColor 1 2 3) = Ok cv /\
   seta cv 2 (-1) (mkColor 1 2 3) (lit 1 2) = Ok cv /\
   get cv 2 (-1) = Ok (bg cv)).
Proof.
  split.
  - unfold outside. simpl. lia.
  - apply (C3_out_of_bounds
             (mkCanvas 2 2 (mkColor 0 0 0) (repeat (mkColor 9 9 9) 4))).
    unfold outside. simpl. lia.
Defined.

(** ** Blending at the two ends of the alpha range *)

(** What one 8-bit channel does under the float operations of a blend at
    alpha 0.0 or 1.0: the conversion is exact, and multiplying by 1.0,
    adding 0.0 or truncating back changes nothing. *)
Definition chan_exact (v : Z) : bool :=
  match of_int v with
  | Ok f =>
      same_float (mul f one) f && same_float (mul f zero) zero &&
      same_float (add f zero) f && same_float (add zero f) f &&
      match to_int f with
      | Ok z => z =? v
      | Raise _ => false
      end
  | Raise _ => false
  end.

Lemma chan_exact_all : forallb chan_exact (Zrange 256) = true.
Proof. vm_compute. reflexivity. Qed.

Lemma chan_exact_spec (v : Z) :
  chan8 v ->
  exists f, of_int v = Ok f /\ mul f one = f /\ mul f zero = zero /\
            add f zero = f /\ add zero f = f /\ to_int f = Ok v.
Proof.
  unfold chan8. intros Hv.
  assert (chan_exact v = true) as H
      by (apply (Zrange_forallb _ 256 chan_exact_all); lia).
  unfold chan_exact in H. destruct (of_int v) as [f|]; [|discriminate].
  exists f. repeat (apply andb_prop in H as [H ?]).
  destruct (to_int f) as [z|]; [|discriminate].
  repeat split; try (apply same_float_eq; assumption).
  f_equal. now apply Z.eqb_eq.
Qed.

Lemma blend_chan_alpha0 (d s : Z) :
  chan8 d -> chan8 s -> blend_chan d s one zero = Ok d.
Proof.
  intros Hd Hs.
  destruct (chan_exact_spec d Hd) as (fd & Hfd & Hd1 & _ & Hd0 & _ & Hdi).
  destruct (chan_exact_spec s Hs) as (fs & Hfs & _ & Hs0 & _).
  unfold blend_chan. rewrite Hfd, Hfs. cbn [bind].
  rewrite Hd1, Hs0, Hd0. exact Hdi.
Qed.

Lemma blend_chan_alpha1 (d s : Z) :
  chan8 d -> chan8 s -> blend_chan d s zero one = Ok s.
Proof.
  intros Hd Hs.
  destruct (chan_exact_spec d Hd) as (fd & Hfd & _ & Hd0 & _).
  destruct (chan_exact_spec s Hs) as (fs & Hfs & Hs1 & _ & _ & Hs0 & Hsi).
  unfold blend_chan. rewrite Hfd, Hfs. cbn [bind].
  rewrite Hd0, Hs1, Hs0. exact Hsi.
Qed.

Lemma blend_over_alpha0 (dst src : Color) :
  color8 dst -> color8 src -> blend_over dst src zero = Ok dst.
Proof.
  intros (Dr & Dg & Db) (Sr & Sg & Sb). unfold blend_over.
  change (py_max zero (py_min one zero)) with zero.
  change (sub one zero) with one.
  rewrite !blend_chan_alpha0 by assumption. simpl. now destruct dst.
Qed.

Lemma blend_over_alpha1 (dst src : Color) :
  color8 dst -> color8 src -> blend_over dst src one = Ok src.
Proof.
  intros (Dr & Dg & Db) (Sr & Sg & Sb). unfold blend_over.
  change (py_max zero (py_min one one)) with one.
  change (sub one one) with zero.
  rewrite !blend_chan_alpha1 by assumption. simpl. now destruct src.
Qed.

(** C4: on a canvas whose grid has one cell per coordinate, at an in-bounds
    coordinate holding an 8-bit colour [p], and for an 8-bit colour [c]:
    [seta] with alpha 0.0 returns the canvas unchanged, and [seta] with
    alpha 1.0 does what [set] does, after which the pixel reads back as
    exactly [c]. *)
Theorem C4_seta_alpha_0_and_1 (cv : Canvas) (x y : Z) (c p : Color) :
  canvas_wf cv -> in_bounds cv x y = true -> get cv x y = Ok p ->
  color8 p -> color8 c ->
  seta cv x y c zero = Ok cv /\
  exists cv', seta cv x y c one = Ok cv' /\
              set cv x y c = Ok cv' /\
              get cv' x y = Ok c.
Proof.
  intros Hwf Hb Hget Hp Hc.
  pose proof (idx_in_range cv x y Hwf Hb) as Hi.
  unfold get in Hget. rewrite Hb in Hget.
  destruct (list_get_nonneg (px cv) _ Hi) as (p' & Hnth & Hg).
  rewrite Hg in Hget. injection Hget as ->.
  unfold seta, set. rewrite Hb, Hg. cbn [bind]. split.
  - rewrite blend_over_alpha0 by assumption. cbn [bind].
    rewrite list_set_nonneg by assumption. cbn [bind].
    rewrite (update_same _ _ _ Hnth). now rewrite with_px_same.
  - rewrite blend_over_alpha1 by assumption. cbn [bind].
    rewrite list_set_nonneg by assumption. cbn [bind].
    eexists. split; [reflexivity|]. split; [reflexivity|].
    unfold get. change (in_bounds (with_px cv ?l) x y) with (in_bounds cv x y).
    rewrite Hb. unfold list_get.
    change (_idx (with_px cv ?l) x y) with (_idx cv x y). cbn [px with_px].
    rewrite norm_index_nonneg by (rewrite update_length; assumption).
    cbn [bind]. rewrite nth_error_update_eq by lia. reflexivity.
Qed.

Lemma C4_seta_alpha_0_and_1_witness :
  let cv := mkCanvas 2 2 (mkColor 0 0 0) (repeat (mkColor 10 200 255) 4) in
  seta cv 1 1 (mkColor 77 0 255) zero = Ok cv /\
  exists cv', seta cv 1 1 (mkColor 77 0 255) one = Ok cv' /\
              set cv 1 1 (mkColor 77 0 255) = Ok cv' /\
              get cv' 1 1 = Ok (mkColor 77 0 255).
Proof.
  apply (C4_seta_alpha_0_and_1
           (mkCanvas 2 2 (mkColor 0 0 0) (repeat (mkColor 10 200 255) 4))
           1 1 (mkColor 77 0 255) (mkColor 10 200 255)).
  - reflexivity.
  - reflexivity.
  - reflexivity.
  - unfold color8, chan8. simpl. lia.
  - unfold color8, chan8. simpl. lia.
Defined.

(** ** Construction with a degenerate size *)

Definition construction_fails (w0 h0 : Z) (c : Color) : Prop :=
  exists e, Canvas_init w0 h0 c = Raise e.

(** C7 (as stated, refuted): a 0 x 0 canvas is built without an error and
    has an empty grid; a canvas of width -1 and height -1 is built with a
    one-cell grid. *)
Lemma C7_degenerate_size_accepted :
  ~ construction_fails 0 0 (mkColor 0 0 0) /\
  Canvas_init 0 0 (mkColor 0 0 0) = Ok (mkCanvas 0 0 (mkColor 0 0 0) []) /\
  Canvas_init (-1) (-1) (mkColor 0 0 0)
  = Ok (mkCanvas (-1) (-1) (mkColor 0 0 0) [mkColor 0 0 0]).
Proof.
  repeat split. intros [e H]. discriminate H.
Qed.

(** C7 (amended): constructing a canvas with a zero or negative width or
    height never fails; the canvas it returns has no addressable coordinate,
    so every [set] leaves it unchanged and every [get] returns the
    background colour, and its grid holds as many cells as the product of
    the two sizes when that is positive and none otherwise. *)
Theorem C7_degenerate_canvas (w0 h0 : Z) (c : Color) :
  w0 <= 0 \/ h0 <= 0 ->
  exists cv,
    Canvas_init w0 h0 c = Ok cv /\
    length (px cv) = Z.to_nat (w0 * h0) /\
    forall x y c', outside cv x y /\ set cv x y c' = Ok cv /\
                   get cv x y = Ok c.
Proof.
  intros Hdeg. eexists. split; [reflexivity|]. split.
  - simpl. apply repeat_length.
  - intros x y c'.
    assert (outside (mkCanvas w0 h0 c (repeat c (Z.to_nat (w0 * h0)))) x y)
      as Hout by (unfold outside; simpl; lia).
    split; [assumption|].
    destruct (out_of_bounds_noop _ x y c' zero Hout) as (Hs & _ & Hg).
    split; assumption.
Qed.

Lemma C7_degenerate_canvas_witness :
  exists cv,
    Canvas_init 0 7 (mkColor 1 2 3) = Ok cv /\
    length (px cv) = Z.to_nat (0 * 7) /\
    forall x y c', outside cv x y /\ set cv x y c' = Ok cv /\
                   get cv x y = Ok (mkColor 1 2 3).
Proof.
  apply (C7_degenerate_canvas 0 7 (mkColor 1 2 3)). left. lia.
Defined.

(** ** The channel range is kept *)

(** C10: starting from a canvas built with an 8-bit background colour,
    every sequence of [set] and [seta] calls whose colours are 8-bit and
    whose alphas are doubles (infinities and NaN included) runs without an
    exception and leaves every stored pixel with channels in [0, 255]. *)
Theorem C10_channel_range (w0 h0 : Z) (c : Color) (ops : list op) :
  color8 c -> Forall op_ok ops ->
  exists cv0 cv,
    Canvas_init w0 h0 c = Ok cv0 /\ run ops cv0 = Ok cv /\
    Forall color8 (px cv).
Proof.
  intros Hc Hops.
  destruct (Canvas_init_inv w0 h0 c Hc) as (cv0 & H0 & Hinv0).
  destruct (run_inv ops cv0 Hinv0 Hops) as (cv & Hrun & (_ & _ & Hpx)).
  exists cv0, cv. auto.
Qed.

Lemma C10_channel_range_witness :
  exists cv0 cv,
    Canvas_init 2 2 (mkColor 0 0 0) = Ok cv0 /\
    run [OpSet 0 0 (mkColor 255 128 0);
         OpSeta 0 0 (mkColor 10 20 30) (lit 1 3);
         OpSeta 1 1 (mkColor 255 255 255) (S754_infinity false);
         OpSeta 5 5 (mkColor 1 1 1) S754_nan] cv0 = Ok cv /\
    Forall color8 (px cv).
Proof.
  apply (C10_channel_range 2 2 (mkColor 0 0 0)).
  - unfold color8, chan8. simpl. lia.
  - repeat constructor; unfold chan8; simpl; lia.
Defined.

(** * Properties of the circular icons *)

(** ** The sampler on constant coverage functions *)

(** C9: at every pixel coordinate that converts to a float, the sampler
    returns exactly 1.0 for the coverage function that is 1.0 everywhere
    and exactly 0.0 for the one that is 0.0 everywhere. *)
Theorem C9_sampler_constant (x y size : Z) :
  is_ok (of_int x) -> is_ok (of_int y) ->
  Circular.sample_pixel_aa x y size (fun _ _ => Ok one) = Ok one /\
  Circular.sample_pixel_aa x y size (fun _ _ => Ok zero) = Ok zero.
Proof.
  intros [fx Hx] [fy Hy]. unfold Circular.sample_pixel_aa.
  change (of_int Circular.AA_SAMPLES) with (Ok (of_Z 4)).
  change (of_int (Circular.AA_SAMPLES * Circular.AA_SAMPLES))
    with (Ok (of_Z 16)).
  change (range Circular.AA_SAMPLES) with [0; 1; 2; 3].
  unfold Circular.sample_at. cbn [bind foldM]. rewrite Hx, Hy.
  split; vm_compute; reflexivity.
Qed.

Lemma C9_sampler_constant_witness :
  Circular.sample_pixel_aa 20 41 42 (fun _ _ => Ok one) = Ok one /\
  Circular.sample_pixel_aa 20 41 42 (fun _ _ => Ok zero) = Ok zero.
Proof.
  apply (C9_sampler_constant 20 41 42).
  - eexists. vm_compute. reflexivity.
  - eexists. vm_compute. reflexivity.
Defined.


(** ** The more icon, end to end *)

(** The white of the symbols. *)
Definition symbol_color : Z := 65535.

(** The more symbol calls neither [math.atan2] nor [math.sin], and at the
    pixels looked at here every square it takes is exact; any stand-in will
    do where a closed term is wanted. *)
Definition no_atan2 : float -> float -> float := fun _ _ => S754_nan.
Definition no_sin : float -> float := fun _ => S754_nan.
Definition pow_down : float -> bool := fun _ => false.

Lemma white_over_gray :
  Circular.blend_565 symbol_color Circular.ICON_COLORS_gray
                     (mul one (lit 93 100)) = Ok 61374.
Proof. vm_compute. reflexivity. Qed.

(** What the two passes compute at the corners and around the centre. *)
Lemma more_icon_corner (pow_up : float -> bool)
  (atan2 : float -> float -> float) (sin : float -> float) (x y : Z) :
  (x = 0 \/ x = 41) -> (y = 0 \/ y = 41) ->
  pixel_at (Circular.generate_icon pow_up atan2 sin Circular.icon_more 0) x y
  = Ok 0.
Proof.
  intros Hx Hy.
  refine (more_icon_value pow_up atan2 sin "more" Circular.ICON_COLORS_gray
            0 x y 0 0 _ _ _ _).
  - lia.
  - lia.
  - destruct Hx as [-> | ->], Hy as [-> | ->]; vm_compute; reflexivity.
  - destruct Hx as [-> | ->], Hy as [-> | ->]; vm_compute; reflexivity.
Qed.

Lemma more_icon_centre (pow_up : float -> bool)
  (atan2 : float -> float -> float) (sin : float -> float) (x y : Z) :
  (x = 20 \/ x = 21) -> (y = 20 \/ y = 21) ->
  pixel_at (Circular.generate_circle_background pow_up 42
              Circular.ICON_COLORS_gray 0) x y
  = Ok Circular.ICON_COLORS_gray /\
  pixel_at (Circular.generate_icon pow_up atan2 sin Circular.icon_more 0) x y
  = Ok 61374.
Proof.
  intros Hx Hy. split.
  - refine (background_pixel_value pow_up Circular.ICON_COLORS_gray 0 x y
              Circular.ICON_COLORS_gray _ _ _).
    + lia.
    + lia.
    + destruct Hx as [-> | ->], Hy as [-> | ->]; vm_compute; reflexivity.
  - refine (more_icon_value pow_up atan2 sin "more"
              Circular.ICON_COLORS_gray 0 x y
              Circular.ICON_COLORS_gray 61374 _ _ _ _).
    + lia.
    + lia.
    + destruct Hx as [-> | ->], Hy as [-> | ->]; vm_compute; reflexivity.
    + destruct Hx as [-> | ->], Hy as [-> | ->]; vm_compute; reflexivity.
Qed.

(** C5 (as stated, refuted): the centre pixel of the more icon is 0xEFBE,
    not the foreground colour 0xFFFF. *)
Lemma C5_centre_is_not_foreground :
  pixel_at (Circular.generate_icon pow_down no_atan2 no_sin
              Circular.icon_more 0) 21 21
  <> Ok symbol_color.
Proof.
  destruct (more_icon_centre pow_down no_atan2 no_sin 21 21
              (or_intror eq_refl)
              (or_intror eq_refl)) as [_ H].
  rewrite H. unfold symbol_color. intros E. inversion E.
Qed.

(** C5 (amended): in the 42x42 more icon of [main] (gray badge 0x5D7B on the
    transparent colour 0x0000, three white discs of radius 3.2 spaced 10
    apart on the middle row) the four corner pixels are exactly the
    transparent colour, and each of the four pixels around the centre is
    0xEFBE: white laid at opacity 0.93 over the gray the background pass had
    put there, not full white. *)
Theorem C5_more_icon (pow_up : float -> bool)
  (atan2 : float -> float -> float) (sin : float -> float) :
  let icon := Circular.generate_icon pow_up atan2 sin Circular.icon_more 0 in
  let background :=
    Circular.generate_circle_background pow_up 42 Circular.ICON_COLORS_gray 0
  in
  (pixel_at icon 0 0 = Ok 0 /\ pixel_at icon 41 0 = Ok 0 /\
   pixel_at icon 0 41 = Ok 0 /\ pixel_at icon 41 41 = Ok 0) /\
  (forall x y, (x = 20 \/ x = 21) -> (y = 20 \/ y = 21) ->
     pixel_at background x y = Ok Circular.ICON_COLORS_gray /\
     pixel_at icon x y
     = Circular.blend_565 symbol_color Circular.ICON_COLORS_gray
                          (mul one (lit 93 100)) /\
     pixel_at icon x y = Ok 61374).
Proof.
  cbv zeta. split.
  - split; [|split; [|split]]; apply more_icon_corner; auto.
  - intros x y Hx Hy. rewrite white_over_gray.
    destruct (more_icon_centre pow_up atan2 sin x y Hx Hy) as [Hb Hi].
    split; [exact Hb|]. split; exact Hi.
Qed.


(** ** The reduction of angles *)

(** [2 * math.pi], a full turn. *)
Definition two_pi : float := mul Circular.two Circular.pi.










(** ** The falloff at the edge of a feature *)

(** The target of a 42x42 icon at the point (x, y). *)
Definition target42_at (pow_up : float -> bool) (x y : float)
  : result float :=
  f <- Circular.target_shape pow_up 42 ;; f x y.

(** A coverage strictly between 0 and 1. *)
Definition partly (c : result float) : bool :=
  match c with
  | Ok v => ltb zero v && ltb v one
  | Raise _ => false
  end.

(** A coverage above [t]. *)
Definition above (t : float) (c : result float) : bool :=
  match c with
  | Ok v => ltb t v
  | Raise _ => false
  end.

(** The falloffs of the target, whatever the rounding of the library's
    [pow]: the squares taken at these points are exact. *)
Lemma target_falloffs (pow_up : float -> bool) :
  partly (target42_at pow_up (lit 83 4) (lit 23 2)) = true /\
  partly (target42_at pow_up (of_Z 22) (lit 23 2)) = true /\
  sub (of_Z 22) (lit 83 4) = lit 5 4 /\
  above (lit 3 10) (target42_at pow_up (lit 2943 128) (lit 41 2)) = true /\
  sub (of_Z 23) (lit 2943 128) = lit 1 128 /\
  target42_at pow_up (of_Z 23) (lit 41 2) = Ok zero.
Proof. repeat split; vm_compute; reflexivity. Qed.

(** C6 (as stated, refuted): across the vertical hair of the target, the
    points x = 20.75 and x = 22.0 of the row y = 11.5 lie 1.25 apart and are
    both partly covered, a ramp softer than half a pixel; and along the row
    of the centre the dot of the target still covers more than 0.3 at
    x = 22.9921875 and nothing at x = 23.0, 1/128 further, an edge sharper
    than any ramp. *)
Lemma C6_other_falloffs :
  partly (target42_at pow_down (lit 83 4) (lit 23 2)) = true /\
  partly (target42_at pow_down (of_Z 22) (lit 23 2)) = true /\
  sub (of_Z 22) (lit 83 4) = lit 5 4 /\
  above (lit 3 10) (target42_at pow_down (lit 2943 128) (lit 41 2)) = true /\
  sub (of_Z 23) (lit 2943 128) = lit 1 128 /\
  target42_at pow_down (of_Z 23) (lit 41 2) = Ok zero.
Proof. exact (target_falloffs pow_down). Qed.

(** C6 (amended): the features with the edge of a disc have a linear ramp
    one pixel wide centred on the radius.  With [d] the distance the code
    computed from the sample to the centre of the feature, and [r] its
    radius (both up to 2^20), the coverage [u] is exactly 1 for
    [d <= r - 0.5], exactly 0 for [d >= r + 0.5], and within 3 * 2^-32 of
    [clamp(r + 0.5 - d)] everywhere ([ramp_edge r d u]).  This holds of the
    background disc, of a dot of the more symbol where the other dots do
    not reach, of the disc of the sun outside the band of the rays, and of
    the dot of the wifi symbol where the arcs leave nothing.  The gear
    follows the same rule: its hole has the mirrored ramp (exactly 0 for
    [d <= hole_r - 0.5], within 3 * 2^-32 of [clamp(d - hole_r + 0.5)]
    while the test [d < hole_r + 0.5] of the code holds), and beyond the
    hole and the inner edge its rim ends on the ramp of a disc of radius
    [outer_r] off the teeth, and of radius [outer_r + tooth_height] on a
    tooth, where the flank factor of the tooth multiplies it.  Nothing is
    claimed for the other features, which use falloffs of their own. *)
Theorem C6_disc_edges
  (pow_up : float -> bool) (atan2 : float -> float -> float)
  (sin : float -> float) (cx cy r x y d : float) :
  valid cx -> valid cy -> valid x -> valid y ->
  is_finite r = true -> valid r -> (0 <= B2R r <= 1048576)%R ->
  Circular.distance pow_up x y cx cy = Ok d ->
  is_finite d = true -> (0 <= B2R d <= 1048576)%R ->
  (* the background disc *)
  (exists u,
     Circular.circle_coverage pow_up cx cy r x y = Ok u /\ ramp_edge r d u) /\
  (* a dot of the more symbol *)
  (forall before after : list (float * float),
     Forall (out_of_reach pow_up x y r) (before ++ after) ->
     exists u,
       Circular.more_coverage pow_up (before ++ (cx, cy) :: after) r x y
       = Ok u /\ ramp_edge r d u) /\
  (* the disc of the sun *)
  (forall (ray_inner ray_outer : float) (num_rays : Z)
          (ray_width ray_thickness : float),
     leb (sub ray_inner Circular.half) d
       && leb d (add ray_outer Circular.half) = false ->
     exists u,
       Circular.brightness_coverage pow_up atan2 sin cx cy r ray_inner
         ray_outer num_rays ray_width ray_thickness x y = Ok u /\
       ramp_edge r d u) /\
  (* the dot of the wifi symbol, one unit below the centre of the arcs *)
  (forall (arcs_cy : float) (radii : list float)
          (arc_width arc_angle d0 : float),
     add arcs_cy (of_Z 1) = cy ->
     Circular.distance pow_up x y cx arcs_cy = Ok d0 ->
     Circular.wifi_arcs radii arc_width arc_angle d0
       (atan2 (sub y arcs_cy) (sub x cx)) = Ok zero ->
     exists u,
       Circular.wifi_coverage pow_up atan2 cx arcs_cy radii arc_width r
         arc_angle x y = Ok u /\ ramp_edge r d u) /\
  (* the hole of the gear, of radius r *)
  (forall (outer_r inner_r : float) (num_teeth : Z)
          (tooth_width tooth_height : float),
     ltb d (add r Circular.half) = true ->
     exists u,
       Circular.gear_coverage pow_up atan2 cx cy outer_r inner_r r num_teeth
         tooth_width tooth_height x y = Ok u /\
       is_finite u = true /\ (0 <= B2R u <= 1)%R /\
       ((B2R d <= B2R r - / 2)%R -> u = zero) /\
       (Rabs (B2R u - clampR (B2R d - B2R r + / 2)) <= 3 * edge_eps)%R) /\
  (* the rim of the gear, of outer radius r *)
  (forall (inner_r hole_r : float) (num_teeth : Z)
          (tooth_width tooth_height period : float),
     Circular.period_of num_teeth = Ok period -> is_zero period = false ->
     length_ok (add r tooth_height) -> length_ok inner_r ->
     length_ok hole_r -> valid (atan2 (sub y cy) (sub x cx)) ->
     (B2R hole_r + / 2 <= B2R d)%R -> (B2R inner_r + / 2 <= B2R d)%R ->
     exists na tef u,
       Circular.normalize_angle (atan2 (sub y cy) (sub x cx)) period
       = Ok na /\ coverage tef /\
       if on_tooth tooth_width period na then
         ramp_edge (add r tooth_height) d u /\
         Circular.gear_coverage pow_up atan2 cx cy r inner_r hole_r num_teeth
           tooth_width tooth_height x y = Ok (mul u tef)
       else
         ramp_edge r d u /\
         Circular.gear_coverage pow_up atan2 cx cy r inner_r hole_r num_teeth
           tooth_width tooth_height x y = Ok u).
Proof.
  intros Hcx Hcy Hx Hy Hfr Hvr Hrb Ed Hfd Hdb.
  pose proof (distance_valid pow_up x y cx cy d Hx Hy Hcx Hcy Ed) as Hvd.
  assert (length_ok r) as Hr by (split; [|split]; assumption).
  assert (length_ok d) as Hd by (split; [|split]; assumption).
  pose proof (disc_value_edge r d Hr Hd) as Hedge.
  split; [|split; [|split; [|split; [|split]]]].
  - exists (disc_value r d). split; [|exact Hedge].
    apply circle_coverage_value; assumption.
  - intros before after Hfar. exists (disc_value r d).
    split; [|exact Hedge]. apply more_coverage_value; assumption.
  - intros ray_inner ray_outer num_rays ray_width ray_thickness Hband.
    exists (disc_value r d). split; [|exact Hedge].
    apply sun_disc_value; assumption.
  - intros arcs_cy radii arc_width arc_angle d0 Ecy E0 Harcs.
    exists (disc_value r d). split; [|exact Hedge].
    apply (wifi_dot_value pow_up atan2 cx arcs_cy radii arc_width r arc_angle
             x y d0 d); try assumption.
    rewrite Ecy. exact Ed.
  - intros outer_r inner_r num_teeth tooth_width tooth_height Hin.
    apply gear_hole; assumption.
  - intros inner_r hole_r num_teeth tooth_width tooth_height period Ep Hz
      Hot Hi Hh Ha Hhole Hinner.
    unfold Circular.gear_coverage. rewrite Ed. cbn [bind].
    apply gear_rim; assumption.
Qed.

(** A stand-in for [math.atan2] that answers 0.0, the angle of a point due
    east of the centre. *)
Definition zero_atan2 : float -> float -> float := fun _ _ => zero.

Lemma C6_disc_edges_witness :
  (exists u,
     Circular.circle_coverage pow_down centre42 centre42 (lit 32 10)
       (lit 47 2) centre42 = Ok u /\
     ramp_edge (lit 32 10) (of_Z 3) u) /\
  (exists u,
     Circular.more_coverage pow_down
       ([(sub centre42 (of_Z 10), centre42)]
        ++ (centre42, centre42) :: [(add centre42 (of_Z 10), centre42)])
       (lit 32 10) (lit 47 2) centre42 = Ok u /\
     ramp_edge (lit 32 10) (of_Z 3) u) /\
  (exists u,
     Circular.brightness_coverage pow_down zero_atan2 no_sin centre42
       centre42 (lit 32 10) (of_Z 8) (of_Z 13) 8 (lit 28 100) (of_Z 2)
       (lit 47 2) centre42 = Ok u /\
     ramp_edge (lit 32 10) (of_Z 3) u) /\
  (exists u,
     Circular.wifi_coverage pow_down zero_atan2 centre42 (lit 39 2)
       Circular.wifi_radii Circular.wifi_arc_width (lit 32 10)
       Circular.wifi_arc_angle (lit 47 2) centre42 = Ok u /\
     ramp_edge (lit 32 10) (of_Z 3) u) /\
  (exists u,
     Circular.gear_coverage pow_down zero_atan2 centre42 centre42
       (lit 135 10) (lit 81 10) (lit 32 10) 8 (lit 35 100) (lit 35 10)
       (lit 47 2) centre42 = Ok u /\
     is_finite u = true /\ (0 <= B2R u <= 1)%R /\
     ((B2R (of_Z 3) <= B2R (lit 32 10) - / 2)%R -> u = zero) /\
     (Rabs (B2R u - clampR (B2R (of_Z 3) - B2R (lit 32 10) + / 2))
      <= 3 * edge_eps)%R) /\
  (exists na tef u,
     Circular.normalize_angle
       (zero_atan2 (sub centre42 centre42) (sub (lit 47 2) centre42)) period8
     = Ok na /\
     coverage tef /\
     if on_tooth (lit 35 100) period8 na then
       ramp_edge (add (lit 32 10) (lit 35 10)) (of_Z 3) u /\
       Circular.gear_coverage pow_down zero_atan2 centre42 centre42
         (lit 32 10) (of_Z 2) (of_Z 1) 8 (lit 35 100) (lit 35 10) (lit 47 2)
         centre42 = Ok (mul u tef)
     else
       ramp_edge (lit 32 10) (of_Z 3) u /\
       Circular.gear_coverage pow_down zero_atan2 centre42 centre42
         (lit 32 10) (of_Z 2) (of_Z 1) 8 (lit 35 100) (lit 35 10) (lit 47 2)
         centre42 = Ok u).
Proof.
  assert (valid centre42) as Hc by reflexivity.
  assert (valid (lit 47 2)) as Hx by reflexivity.
  assert (is_finite (lit 32 10) = true) as Hfr by reflexivity.
  assert (valid (lit 32 10)) as Hvr by reflexivity.
  assert (0 <= B2R (lit 32 10) <= 1048576)%R as Hrb
      by (rewrite <- bpow_20; apply B2R_bounds_pos; vm_compute; discriminate).
  assert (Circular.distance pow_down (lit 47 2) centre42 centre42 centre42
          = Ok (of_Z 3)) as Ed by (vm_compute; reflexivity).
  assert (is_finite (of_Z 3) = true) as Hfd by reflexivity.
  assert (0 <= B2R (of_Z 3) <= 1048576)%R as Hdb
      by (rewrite <- bpow_20; apply B2R_bounds_pos; vm_compute; discriminate).
  destruct (C6_disc_edges pow_down zero_atan2 no_sin centre42 centre42
              (lit 32 10) (lit 47 2) centre42 (of_Z 3) Hc Hc Hx Hc Hfr Hvr
              Hrb Ed Hfd Hdb) as (H1 & H2 & H3 & H4 & H5 & H6).
  split; [exact H1|]. split; [|split; [|split; [|split]]].
  - apply H2. repeat constructor.
    + exists (of_Z 13). split; [vm_compute; reflexivity|].
      split; [small_length|].
      as_ratio (lit 32 10). as_ratio (of_Z 13). lra.
    + exists (of_Z 7). split; [vm_compute; reflexivity|].
      split; [small_length|].
      as_ratio (lit 32 10). as_ratio (of_Z 7). lra.
  - apply H3. vm_compute. reflexivity.
  - apply (H4 (lit 39 2) Circular.wifi_radii Circular.wifi_arc_width
             Circular.wifi_arc_angle (SFsqrt prec emax (of_Z 10))).
    + vm_compute. reflexivity.
    + vm_compute. reflexivity.
    + vm_compute. reflexivity.
  - apply H5. vm_compute. reflexivity.
  - apply H6.
    + exact period_of_8.
    + reflexivity.
    + small_length.
    + small_length.
    + small_length.
    + reflexivity.
    + as_ratio (of_Z 1). as_ratio (of_Z 3). lra.
    + as_ratio (of_Z 2). as_ratio (of_Z 3). lra.
Defined.

(** * Packed colours, continued *)

Lemma to_rgb565_below (c : Color) : u16 (to_rgb565 c).
Proof.
  pose proof (to_rgb565_fields_bounded c) as H. cbv zeta in H.
  unfold to_rgb565. destruct H as (Hr & Hg & Hb).
  set (r5 := (r (clamp c) * 31 + 127) / 255) in *.
  set (g6 := (g (clamp c) * 63 + 127) / 255) in *.
  set (b5 := (b (clamp c) * 31 + 127) / 255) in *.
  unfold u16. change 65536 with (2 ^ 16).
  rewrite !Z.shiftl_mul_pow2 by lia.
  change (2 ^ 11) with 2048. change (2 ^ 5) with 32.
  apply lor_below; [lia| |change (2 ^ 16) with 65536; lia].
  apply lor_below; change (2 ^ 16) with 65536; lia.
Qed.

(** ** The ends of a blend *)

Lemma blend_rgb_chan_one (f b : Z) :
  chan8 f -> chan8 b -> Circular.blend_rgb_chan f b one = Ok f.
Proof.
  intros Hf Hb. unfold Circular.blend_rgb_chan.
  destruct (chan_exact_spec f Hf) as (ff & -> & M1 & _ & A0 & _ & T).
  destruct (chan_exact_spec b Hb) as (fb & -> & _ & M0 & _).
  cbn [bind]. change (sub one one) with zero.
  rewrite M1, M0, A0. exact T.
Qed.

Lemma blend_rgb_chan_zero (f b : Z) :
  chan8 f -> chan8 b -> Circular.blend_rgb_chan f b zero = Ok b.
Proof.
  intros Hf Hb. unfold Circular.blend_rgb_chan.
  destruct (chan_exact_spec f Hf) as (ff & -> & _ & M0 & _).
  destruct (chan_exact_spec b Hb) as (fb & -> & M1 & _ & _ & A0 & T).
  cbn [bind]. change (sub one zero) with one.
  rewrite M1, M0, A0. exact T.
Qed.

Lemma unpacked_chan8 (p : Z) :
  let '(r, g, b) := Circular.rgb565_to_rgb p in chan8 r /\ chan8 g /\ chan8 b.
Proof.
  pose proof (rgb565_to_rgb_range p) as H.
  destruct (Circular.rgb565_to_rgb p) as [[r0 g0] b0]. unfold chan8. lia.
Qed.

(** Full coverage gives the foreground, none gives the background. *)
Lemma blend_565_ends (fg bg : Z) :
  u16 fg -> u16 bg ->
  Circular.blend_565 fg bg one = Ok fg /\
  Circular.blend_565 fg bg zero = Ok bg.
Proof.
  intros Hfg Hbg. unfold Circular.blend_565.
  pose proof (unpacked_chan8 fg) as Hf. pose proof (unpacked_chan8 bg) as Hb.
  pose proof (rgb_to_565_of_fields fg) as Pf.
  pose proof (rgb_to_565_of_fields bg) as Pb.
  rewrite (repack fg Hfg) in Pf. rewrite (repack bg Hbg) in Pb.
  destruct (Circular.rgb565_to_rgb fg) as [[fr fg_] fb].
  destruct (Circular.rgb565_to_rgb bg) as [[br bg_] bb].
  destruct Hf as (F1 & F2 & F3). destruct Hb as (B1 & B2 & B3).
  unfold Circular.blend_rgb.
  rewrite !blend_rgb_chan_one, !blend_rgb_chan_zero by assumption.
  cbn [bind]. rewrite Pf, Pb. split; reflexivity.
Qed.


(** * Further properties of the menu icon painter *)

(** X1 ([Color.clamp]): clamping gives 8-bit channels; the colours it leaves
    unchanged are exactly the 8-bit ones, so clamping twice is clamping
    once. *)
Theorem X1_clamp_fixes_8bit (c : Color) :
  color8 (clamp c) /\ (clamp c = c <-> color8 c) /\
  clamp (clamp c) = clamp c.
Proof.
  split; [apply clamp_color8|]. split.
  - split; [intros <-; apply clamp_color8 | apply clamp_id].
  - apply clamp_id, clamp_color8.
Qed.

(** X2 ([Color.to_rgb565]): whatever the channels of the colour, also
    negative or above 255, the packed value is a 16-bit number, and it is the
    packed value of the clamped colour. *)
Theorem X2_to_rgb565_16_bit (c : Color) :
  u16 (to_rgb565 c) /\ to_rgb565 (clamp c) = to_rgb565 c.
Proof.
  split; [apply to_rgb565_below|].
  unfold to_rgb565. rewrite (clamp_id (clamp c) (clamp_color8 c)).
  reflexivity.
Qed.

(** X3 ([Color.lerp]): between two 8-bit colours the interpolation never
    raises, whatever double is given as the parameter (infinities and
    not-a-number included), and its channels are 8-bit; at 0.0 it is the
    first colour and at 1.0 the second. *)
Theorem X3_lerp_total (c1 c2 : Color) (t : float) :
  color8 c1 -> color8 c2 -> wf t ->
  (exists q, lerp c1 c2 t = Ok q /\ color8 q) /\
  lerp c1 c2 zero = Ok c1 /\ lerp c1 c2 one = Ok c2.
Proof.
  intros H1 H2 Ht. split; [apply lerp_color8; assumption|].
  apply lerp_ends; assumption.
Qed.

Lemma X3_lerp_total_witness :
  (exists q, lerp (mkColor 0 64 255) (mkColor 255 128 0) S754_nan = Ok q /\
             color8 q) /\
  lerp (mkColor 0 64 255) (mkColor 255 128 0) zero = Ok (mkColor 0 64 255) /\
  lerp (mkColor 0 64 255) (mkColor 255 128 0) one = Ok (mkColor 255 128 0).
Proof.
  apply (X3_lerp_total (mkColor 0 64 255) (mkColor 255 128 0) S754_nan).
  - unfold color8, chan8. simpl. lia.
  - unfold color8, chan8. simpl. lia.
  - exact I.
Defined.

(** X4 ([Canvas.set], [Canvas.get], [Canvas._idx]): on a canvas whose grid
    has one cell per coordinate, writing an in-bounds cell never raises, the
    cell then reads back the colour written, and every other coordinate reads
    what it read before. *)
Theorem X4_set_then_get (cv : Canvas) (x y : Z) (c : Color) :
  canvas_wf cv -> in_bounds cv x y = true ->
  exists cv',
    set cv x y c = Ok cv' /\ canvas_wf cv' /\ get cv' x y = Ok c /\
    forall x' y', (x', y') <> (x, y) -> get cv' x' y' = get cv x' y'.
Proof.
  intros Hwf Hb.
  destruct (set_frame cv x y x y c Hwf Hb) as (cv' & E & Hwf' & Hg & _).
  exists cv'. split; [exact E|]. split; [exact Hwf'|]. split; [exact Hg|].
  intros x' y' Hne.
  destruct (set_frame cv x y x' y' c Hwf Hb) as (cv'' & E' & _ & _ & Hf).
  rewrite E in E'. injection E' as <-. apply Hf, Hne.
Qed.

Lemma X4_set_then_get_witness :
  exists cv',
    set (mkCanvas 2 2 (mkColor 0 0 0) (repeat (mkColor 0 0 0) 4)) 1 0
      (mkColor 9 8 7) = Ok cv' /\
    canvas_wf cv' /\ get cv' 1 0 = Ok (mkColor 9 8 7) /\
    forall x' y', (x', y') <> (1, 0) ->
      get cv' x' y'
      = get (mkCanvas 2 2 (mkColor 0 0 0) (repeat (mkColor 0 0 0) 4)) x' y'.
Proof.
  apply (X4_set_then_get
           (mkCanvas 2 2 (mkColor 0 0 0) (repeat (mkColor 0 0 0) 4)) 1 0
           (mkColor 9 8 7)).
  - reflexivity.
  - reflexivity.
Defined.

(** X5 ([Canvas.__init__], [Canvas.get]): a canvas of non-negative width and
    height has one cell per coordinate and reads the background colour at
    every coordinate, inside or outside the grid. *)
Theorem X5_fresh_canvas (w0 h0 : Z) (c : Color) :
  0 <= w0 -> 0 <= h0 ->
  exists cv,
    Canvas_init w0 h0 c = Ok cv /\ canvas_wf cv /\
    forall x y, get cv x y = Ok c.
Proof.
  intros Hw Hh.
  destruct (Canvas_init_get w0 h0 c 0 0) as (cv & E & _).
  exists cv. split; [exact E|].
  split; [apply (Canvas_init_wf w0 h0 c cv E)|].
  intros x y. destruct (Canvas_init_get w0 h0 c x y) as (cv' & E' & Hg).
  rewrite E in E'. injection E' as <-. apply Hg; assumption.
Qed.

Lemma X5_fresh_canvas_witness :
  exists cv,
    Canvas_init 48 48 (mkColor 0 0 0) = Ok cv /\ canvas_wf cv /\
    forall x y, get cv x y = Ok (mkColor 0 0 0).
Proof.
  apply (X5_fresh_canvas 48 48 (mkColor 0 0 0)).
  - lia.
  - lia.
Defined.

(** X6 ([Canvas.line]): on a well-formed canvas the loop of the integer line
    ends, for any two end points, after at most [|x1 - x0| + |y1 - y0| + 1]
    rounds; it never raises, changes cells only to the line colour, keeps
    the size of the canvas, and paints both end points when they are in
    bounds. *)
Theorem X6_line_terminates (fuel : nat) (cv : Canvas) (x0 y0 x1 y1 : Z)
  (c : Color) :
  canvas_wf cv ->
  Z.abs (x1 - x0) + Z.abs (y1 - y0) < Z.of_nat fuel ->
  exists cv',
    line fuel cv x0 y0 x1 y1 c = Some (Ok cv') /\
    painted c cv cv' /\
    (in_bounds cv x0 y0 = true -> get cv' x0 y0 = Ok c) /\
    (in_bounds cv x1 y1 = true -> get cv' x1 y1 = Ok c).
Proof. apply line_terminates. Qed.

Lemma X6_line_terminates_witness :
  exists cv',
    line 9 (mkCanvas 4 4 (mkColor 0 0 0) (repeat (mkColor 0 0 0) 16))
      0 3 5 1 (mkColor 255 255 255) = Some (Ok cv') /\
    painted (mkColor 255 255 255)
      (mkCanvas 4 4 (mkColor 0 0 0) (repeat (mkColor 0 0 0) 16)) cv' /\
    (in_bounds (mkCanvas 4 4 (mkColor 0 0 0) (repeat (mkColor 0 0 0) 16))
       0 3 = true -> get cv' 0 3 = Ok (mkColor 255 255 255)) /\
    (in_bounds (mkCanvas 4 4 (mkColor 0 0 0) (repeat (mkColor 0 0 0) 16))
       5 1 = true -> get cv' 5 1 = Ok (mkColor 255 255 255)).
Proof.
  apply (X6_line_terminates 9
           (mkCanvas 4 4 (mkColor 0 0 0) (repeat (mkColor 0 0 0) 16))
           0 3 5 1 (mkColor 255 255 255)).
  - reflexivity.
  - simpl. lia.
Defined.

(** X7 ([Canvas.circle]): on a well-formed canvas the loop of the midpoint
    circle ends after at most [r + 1] rounds; it never raises and changes
    cells only to the circle colour; a negative radius paints nothing, and
    otherwise the four axis points of the circle are painted when they are
    in bounds. *)
Theorem X7_circle_terminates (fuel : nat) (cv : Canvas) (cx cy r : Z)
  (c : Color) :
  canvas_wf cv -> Z.max 0 (r + 1) < Z.of_nat fuel ->
  exists cv',
    circle fuel cv cx cy r c = Some (Ok cv') /\
    painted c cv cv' /\
    (r < 0 -> cv' = cv) /\
    (0 <= r -> forall px py,
       In (px, py) [(cx + r, cy); (cx - r, cy); (cx, cy + r); (cx, cy - r)] ->
       in_bounds cv px py = true -> get cv' px py = Ok c).
Proof. apply circle_terminates. Qed.

Lemma X7_circle_terminates_witness :
  exists cv',
    circle 5 (mkCanvas 8 8 (mkColor 0 0 0) (repeat (mkColor 0 0 0) 64))
      4 4 3 (mkColor 1 2 3) = Some (Ok cv') /\
    painted (mkColor 1 2 3)
      (mkCanvas 8 8 (mkColor 0 0 0) (repeat (mkColor 0 0 0) 64)) cv' /\
    (3 < 0 ->
     cv' = mkCanvas 8 8 (mkColor 0 0 0) (repeat (mkColor 0 0 0) 64)) /\
    (0 <= 3 -> forall px py,
       In (px, py) [(4 + 3, 4); (4 - 3, 4); (4, 4 + 3); (4, 4 - 3)] ->
       in_bounds (mkCanvas 8 8 (mkColor 0 0 0) (repeat (mkColor 0 0 0) 64))
         px py = true ->
       get cv' px py = Ok (mkColor 1 2 3)).
Proof.
  apply (X7_circle_terminates 5
           (mkCanvas 8 8 (mkColor 0 0 0) (repeat (mkColor 0 0 0) 64))
           4 4 3 (mkColor 1 2 3)).
  - reflexivity.
  - simpl. lia.
Defined.

(** X8 ([Canvas.fill_circle]): on a well-formed canvas, for a radius whose
    square is below 2^53, the filled circle never raises (the square root is
    never taken of a negative number) and changes cells only to the fill
    colour; a negative radius paints nothing, and the whole vertical diameter
    is painted where it is in bounds. *)
Theorem X8_fill_circle (cv : Canvas) (cx cy r : Z) (c : Color) :
  canvas_wf cv -> r * r < 2 ^ 53 ->
  exists cv',
    fill_circle cv cx cy r c = Ok cv' /\ painted c cv cv' /\
    (r < 0 -> cv' = cv) /\
    forall y, cy - r <= y <= cy + r -> in_bounds cv cx y = true ->
              get cv' cx y = Ok c.
Proof. apply fill_circle_painted. Qed.

Lemma X8_fill_circle_witness :
  exists cv',
    fill_circle (mkCanvas 8 8 (mkColor 0 0 0) (repeat (mkColor 0 0 0) 64))
      4 4 3 (mkColor 1 2 3) = Ok cv' /\
    painted (mkColor 1 2 3)
      (mkCanvas 8 8 (mkColor 0 0 0) (repeat (mkColor 0 0 0) 64)) cv' /\
    (3 < 0 ->
     cv' = mkCanvas 8 8 (mkColor 0 0 0) (repeat (mkColor 0 0 0) 64)) /\
    forall y, 4 - 3 <= y <= 4 + 3 ->
      in_bounds (mkCanvas 8 8 (mkColor 0 0 0) (repeat (mkColor 0 0 0) 64))
        4 y = true ->
      get cv' 4 y = Ok (mkColor 1 2 3).
Proof.
  apply (X8_fill_circle
           (mkCanvas 8 8 (mkColor 0 0 0) (repeat (mkColor 0 0 0) 64))
           4 4 3 (mkColor 1 2 3)).
  - reflexivity.
  - reflexivity.
Defined.

(** X9 ([Canvas.ring]): the ring is a full disc of the outer radius: the
    inner radius has no effect on the result, and the centre cell is painted
    with the ring colour whenever it is in bounds. *)
Theorem X9_ring_is_a_disc (cv : Canvas) (cx cy r0 r1 : Z) (c : Color) :
  canvas_wf cv -> 0 <= r1 -> r1 * r1 < 2 ^ 53 ->
  in_bounds cv cx cy = true ->
  exists cv',
    ring cv cx cy r0 r1 c = Ok cv' /\
    (forall r0', ring cv cx cy r0' r1 c = Ok cv') /\
    painted c cv cv' /\ get cv' cx cy = Ok c.
Proof.
  intros Hwf Hr Hrr Hb. unfold ring.
  destruct (fill_circle_painted cv cx cy r1 c Hwf Hrr)
    as (cv' & E & Hp & _ & Hd).
  exists cv'. split; [exact E|]. split; [intros _; exact E|].
  split; [exact Hp|]. apply Hd; [lia|exact Hb].
Qed.

Lemma X9_ring_is_a_disc_witness :
  exists cv',
    ring (mkCanvas 8 8 (mkColor 0 0 0) (repeat (mkColor 0 0 0) 64))
      4 4 2 3 (mkColor 1 2 3) = Ok cv' /\
    (forall r0',
       ring (mkCanvas 8 8 (mkColor 0 0 0) (repeat (mkColor 0 0 0) 64))
         4 4 r0' 3 (mkColor 1 2 3) = Ok cv') /\
    painted (mkColor 1 2 3)
      (mkCanvas 8 8 (mkColor 0 0 0) (repeat (mkColor 0 0 0) 64)) cv' /\
    get cv' 4 4 = Ok (mkColor 1 2 3).
Proof.
  apply (X9_ring_is_a_disc
           (mkCanvas 8 8 (mkColor 0 0 0) (repeat (mkColor 0 0 0) 64))
           4 4 2 3 (mkColor 1 2 3)).
  - reflexivity.
  - lia.
  - reflexivity.
  - reflexivity.
Defined.

(** * Further properties of the circular icon generator *)

(** X10 ([rgb565_to_rgb], [rgb_to_565]): a 16-bit value unpacks to 8-bit
    channels that are multiples of 8, 4 and 8 (the low bits are not
    replicated), and packing them again gives the value back. *)
Theorem X10_unpack_then_pack (p : Z) :
  u16 p ->
  let '(r, g, b) := Circular.rgb565_to_rgb p in
  (chan8 r /\ chan8 g /\ chan8 b) /\
  (r mod 8 = 0 /\ g mod 4 = 0 /\ b mod 8 = 0) /\
  Circular.rgb_to_565 r g b = p.
Proof.
  intros Hp.
  pose proof (unpacked_chan8 p) as H1.
  pose proof (rgb565_to_rgb_multiples p) as H2.
  pose proof (rgb_to_565_of_fields p) as H3.
  rewrite (repack p Hp) in H3.
  destruct (Circular.rgb565_to_rgb p) as [[r0 g0] b0].
  split; [exact H1|]. split; [exact H2|exact H3].
Qed.

Lemma X10_unpack_then_pack_witness :
  let '(r, g, b) := Circular.rgb565_to_rgb 23931 in
  (chan8 r /\ chan8 g /\ chan8 b) /\
  (r mod 8 = 0 /\ g mod 4 = 0 /\ b mod 8 = 0) /\
  Circular.rgb_to_565 r g b = 23931.
Proof.
  apply (X10_unpack_then_pack 23931). unfold u16. lia.
Defined.

(** X11 ([blend_565], [blend_rgb]): between two 16-bit colours, full
    coverage gives the foreground and no coverage gives the background,
    exactly and without an exception. *)
Theorem X11_blend_565_ends (fg bg : Z) :
  u16 fg -> u16 bg ->
  Circular.blend_565 fg bg one = Ok fg /\
  Circular.blend_565 fg bg zero = Ok bg.
Proof. apply blend_565_ends. Qed.

Lemma X11_blend_565_ends_witness :
  Circular.blend_565 65535 23931 one = Ok 65535 /\
  Circular.blend_565 65535 23931 zero = Ok 23931.
Proof.
  apply (X11_blend_565_ends 65535 23931).
  - unfold u16. lia.
  - unfold u16. lia.
Defined.

(** X12 ([sample_pixel_aa]): the step between the samples of a pixel is
    0.25 and their offset 0.125, and the sample points are computed without
    rounding: the sample [s] of the pixel coordinate [i] lies at
    [i + 1/8 + s/4] exactly, for coordinates up to 2^20. *)
Theorem X12_sample_points_exact (i s : Z) :
  0 <= i <= 1048576 -> 0 <= s < 4 ->
  (n <- of_int Circular.AA_SAMPLES ;; truediv one n) = Ok sample_step /\
  truediv sample_step Circular.two = Ok sample_offset /\
  exists v, Circular.sample_at i sample_offset sample_step s = Ok v /\
            B2R v = (IZR i + / 8 + IZR s / 4)%R.
Proof.
  intros Hi Hs. split; [vm_compute; reflexivity|].
  split; [vm_compute; reflexivity|]. apply sample_at_exact; assumption.
Qed.

Lemma X12_sample_points_exact_witness :
  (n <- of_int Circular.AA_SAMPLES ;; truediv one n) = Ok sample_step /\
  truediv sample_step Circular.two = Ok sample_offset /\
  exists v, Circular.sample_at 41 sample_offset sample_step 3 = Ok v /\
            B2R v = (IZR 41 + / 8 + IZR 3 / 4)%R.
Proof.
  apply (X12_sample_points_exact 41 3).
  - lia.
  - lia.
Defined.

(** X13 ([gear_coverage]): the example of the specification.  The sum
    [2 * pi - 0.001] is rounded, so the reductions of [-0.001] and of
    [2 * pi - 0.001] differ in the last bits (by 2^-51); both lie between
    two teeth all the same, where the coverage does not depend on the angle,
    and the gear coverage of the code's gear (8 teeth of relative width
    0.35) is the same for the two angles at every distance, whatever the
    radii. *)
Theorem X13_gear_example
  (outer_r inner_r hole_r tooth_height dist : float) :
  Circular.normalize_angle (lit (-1) 1000) period8
  = Ok (S754_finite false 7065230552773700 (-53)) /\
  Circular.normalize_angle (sub two_pi (lit 1 1000)) period8
  = Ok (S754_finite false 7065230552773696 (-53)) /\
  Circular.gear_polar outer_r inner_r hole_r 8 (lit 35 100) tooth_height
    dist (sub two_pi (lit 1 1000))
  = Circular.gear_polar outer_r inner_r hole_r 8 (lit 35 100) tooth_height
      dist (lit (-1) 1000).
Proof.
  assert (Circular.normalize_angle (lit (-1) 1000) period8
          = Ok (S754_finite false 7065230552773700 (-53))) as E1
      by (vm_compute; reflexivity).
  assert (Circular.normalize_angle (sub two_pi (lit 1 1000)) period8
          = Ok (S754_finite false 7065230552773696 (-53))) as E2
      by (vm_compute; reflexivity).
  split; [exact E1|]. split; [exact E2|].
  unfold Circular.gear_polar.
  destruct (leb dist _); [reflexivity|].
  destruct (ltb dist _); [reflexivity|].
  rewrite period_of_8. cbn [bind]. rewrite E1, E2. cbn [bind].
  rewrite !truediv_two. cbn [bind].
  fold (on_tooth (lit 35 100) period8
          (S754_finite false 7065230552773700 (-53))).
  fold (on_tooth (lit 35 100) period8
          (S754_finite false 7065230552773696 (-53))).
  replace (on_tooth (lit 35 100) period8
             (S754_finite false 7065230552773700 (-53))) with false
    by (vm_compute; reflexivity).
  replace (on_tooth (lit 35 100) period8
             (S754_finite false 7065230552773696 (-53))) with false
    by (vm_compute; reflexivity).
  reflexivity.
Qed.
